(** * seisplotjs: segments, seismograms, display data, FFT and DataLink

    A shallow embedding of [SeismogramSegment], [Seismogram] and
    [SeismogramDisplayData] of [src/seismogram.js], of [src/fft.ts] and
    of the DataLink connection, and the properties of cut, trim, merge,
    append, contiguity, min/max, mean, clones, transform sizes and
    packets.

    Conventions of the embedding.
    - A JavaScript number is the rational that the double stands for
      ([Q]).  Every division, product and sum of the source is rounded to
      the nearest double, ties to even ([fl64]); a store into a
      [Float32Array] rounds to the nearest single ([fround]).  NaN, the
      infinities and the sign of zero are not represented: a statement
      that depends on them carries the hypothesis that excludes them (a
      sample rate that is not zero and equal to itself, a segment that is
      not empty, values inside the range of the format).
    - A [moment] is the value of the JavaScript [Date] it wraps: a whole
      number of milliseconds since the epoch ([Z]).  [moment#add] sets the
      Date to the double sum [valueOf() + ms]; [Date.prototype.setTime]
      clips that to an integer by truncation toward zero.  An invalid
      date, which is what a time beyond 8.64e15 ms on either side of the
      epoch becomes, is not represented: a statement that gives the value
      of a time carries the hypothesis that it is a date.
    - Objects are records; a method that mutates [this] is a function in a
      state-and-exception monad over the record.  An exception leaves the
      mutations made before it in place, as in JavaScript.
    - The segments of a [Seismogram] are distinct objects (the array holds
      no segment twice).  The constructor, [trim] and [append] put the
      segment objects they are given into the seismogram they build or
      extend, so that in the source these are shared with the caller and
      with the seismogram they come from; a record holds the state that a
      segment has at that time, and no statement follows a change made
      later through one holder to what the other reads.
    - An allocation does not fail: the length of an array is bounded by
      the hypotheses of a statement only where the arithmetic needs it. *)

From Stdlib Require Import ZArith QArith Qround Qabs Qpower Qreduction.
From Stdlib Require Import List String Bool Lia Lqa.
From Stdlib Require Import Ascii DecimalString.
Import ListNotations.

Local Open Scope Z_scope.

(** ** Results and the state-and-exception monad *)

Inductive Res (A : Type) : Type :=
| Ok (a : A)
| Throw (msg : string).
Arguments Ok {A} a.
Arguments Throw {A} msg.

Definition M (St A : Type) : Type := St -> Res A * St.

Definition ret {St A} (a : A) : M St A := fun s => (Ok a, s).

Definition bind {St A B} (m : M St A) (k : A -> M St B) : M St B :=
  fun s => match m s with
           | (Ok a, s') => k a s'
           | (Throw e, s') => (Throw e, s')
           end.

Definition throw {St A} (msg : string) : M St A := fun s => (Throw msg, s).
Definition gets {St A} (f : St -> A) : M St A := fun s => (Ok (f s), s).
Definition modify {St} (f : St -> St) : M St unit := fun s => (Ok tt, f s).

Declare Scope js_scope.
Delimit Scope js_scope with js.
Notation "x <- m ;; k" := (bind m (fun x => k))
  (at level 100, m at next level, right associativity) : js_scope.
Notation "m ;;; k" := (bind m (fun _ => k))
  (at level 100, right associativity) : js_scope.

(** Runs [f] on every element of an array in order ([forEach], [map],
    [for ... of]); an exception stops the loop and leaves the elements
    not yet visited as they were. *)
Fixpoint traverse {St A} (f : M St A) (l : list St) : Res (list A) * list St :=
  match l with
  | [] => (Ok [], [])
  | s :: r =>
      match f s with
      | (Ok a, s') =>
          match traverse f r with
          | (Ok out, r') => (Ok (a :: out), s' :: r')
          | (Throw e, r') => (Throw e, s' :: r')
          end
      | (Throw e, s') => (Throw e, s' :: r)
      end
  end.

(** ** Rational helpers *)

Definition Qlt_bool (x y : Q) : bool := negb (Qle_bool y x).

(** [ToIntegerOrInfinity]: truncation toward zero. *)
Definition Qtrunc (x : Q) : Z :=
  if Qle_bool 0 x then Qfloor x else Qceiling x.

Definition Qsum (l : list Q) : Q := fold_right Qplus 0%Q l.

(** ** Doubles and singles

    The arithmetic of JavaScript numbers: the exact result of an
    operation is rounded to the nearest number of the binary format, and
    of two equally near to the one whose last bit is zero.  Numbers
    below the least exponent of the format lose bits (subnormals);
    overflow to an infinity is not represented. *)

Definition pow2 (e : Z) : Q := (2 ^ e)%Q.

(** The integer nearest to [x]; of two equally near, the even one. *)
Definition round_half_even (x : Q) : Z :=
  let f := Qfloor x in
  match (x - inject_Z f ?= 1 # 2)%Q with
  | Lt => f
  | Gt => f + 1
  | Eq => if Z.even f then f else f + 1
  end.

(** For [0 < x]: the exponent [e] with [2^e <= x < 2^(e+1)]. *)
Definition ilog2 (x : Q) : Z :=
  let k := Z.log2 (Qnum x) - Z.log2 (Zpos (Qden x)) in
  if Qle_bool (pow2 k) x then k else k - 1.

(** Rounding of [0 < x] to [prec] significant bits, with no exponent
    below [emin]. *)
Definition round_pos (prec emin : Z) (x : Q) : Q :=
  let q := Z.max (ilog2 x - (prec - 1)) emin in
  (inject_Z (round_half_even (x / pow2 q)) * pow2 q)%Q.

Definition round_binary (prec emin : Z) (x : Q) : Q :=
  let x := Qred x in
  Qred (match (x ?= 0)%Q with
        | Eq => 0
        | Gt => round_pos prec emin x
        | Lt => - round_pos prec emin (- x)
        end).

(** Rounding to a double (binary64), and to a single (binary32, the
    conversion of [Math.fround] and of a store into a [Float32Array]). *)
Definition fl64 : Q -> Q := round_binary 53 (-1074).
Definition fround : Q -> Q := round_binary 24 (-149).

(** The numbers that a store into a Float32Array keeps finite: those
    below the midpoint between the largest single and 2^128. *)
Definition single_range (x : Q) : Prop :=
  (Qabs x < inject_Z (2 ^ 128 - 2 ^ 103))%Q.

(** The numbers of the format. *)
Definition representable (prec emin : Z) (x : Q) : Prop :=
  exists m e, Z.abs m < 2 ^ prec /\ emin <= e /\ (x == inject_Z m * pow2 e)%Q.

(** ** moment *)

Module Moment.

Definition moment := Z.

Inductive unit_of_time := ms | seconds.

(** The [_milliseconds] of the duration [createDuration(x, unit)]:
    [+milliseconds + seconds * 1e3 + ...].  [x] is the exact value of the
    expression that the caller writes (a quotient such as
    [i/this.sampleRate]); the number handed over is its rounding. *)
Definition milliseconds_of (x : Q) (u : unit_of_time) : Q :=
  match u with
  | ms => fl64 x
  | seconds => fl64 (fl64 x * 1000)
  end.

(** [m.add(x, unit)]: the Date is set to the double sum
    [valueOf() + ms], clipped to a whole number of milliseconds.  [add]
    changes [m] itself; the caller stores the result where [m] is held.
    A quotient by zero, which the source hands over as an infinity or as
    NaN, and a sum outside the range of Date are not represented. *)
Definition add (m : moment) (x : Q) (u : unit_of_time) : moment :=
  Qtrunc (fl64 (inject_Z m + milliseconds_of x u)).

Definition isBefore (a b : moment) : bool := a <? b.
Definition isAfter (a b : moment) : bool := b <? a.
(** [a.diff(b)], in milliseconds. *)
Definition diff (a b : moment) : Z := a - b.
Definition min (a b : moment) : moment := Z.min a b.
Definition max (a b : moment) : moment := Z.max a b.

End Moment.
Export Moment(moment).

(** [StartEndDuration] of util.js: only its two instants are read here. *)
Record StartEndDuration := mkWindow {
  w_startTime : moment;
  w_endTime : moment
}.

(** ** Typed arrays *)

Inductive ArrayKind := Int32Array | Float32Array | Float64Array.

Record TypedArray := mkTA {
  ta_kind : ArrayKind;
  ta_data : list Q
}.

(** [ToInt32]: truncate, then wrap into the signed 32-bit range. *)
Definition toInt32 (x : Q) : Q :=
  inject_Z ((Qtrunc x + 2 ^ 31) mod 2 ^ 32 - 2 ^ 31).

(** The conversion applied by a store [a[i] = v] of a number [v] into an
    array of kind [k]: [ToInt32], rounding to a single, or nothing. *)
Definition coerce (k : ArrayKind) (v : Q) : Q :=
  match k with
  | Int32Array => toInt32 v
  | Float32Array => fround v
  | Float64Array => v
  end.

Definition ta_length (a : TypedArray) : Z := Z.of_nat (List.length (ta_data a)).

(** [new Kind(n)]: [n] zeros. *)
Definition ta_new (k : ArrayKind) (n : Z) : TypedArray :=
  mkTA k (repeat 0%Q (Z.to_nat n)).

Fixpoint list_set {A} (l : list A) (i : nat) (v : A) : list A :=
  match l, i with
  | [], _ => []
  | _ :: r, O => v :: r
  | x :: r, S j => x :: list_set r j v
  end.

(** [a[i] = v]: converts [v]; a store outside the array does nothing. *)
Definition ta_store (a : TypedArray) (i : Z) (v : Q) : TypedArray :=
  if (0 <=? i) && (i <? ta_length a)
  then mkTA (ta_kind a) (list_set (ta_data a) (Z.to_nat i) (coerce (ta_kind a) v))
  else a.

(** The index normalisation of [slice]: a negative index counts from the
    end, and the result is clamped to [0, len]. *)
Definition slice_index (len i : Z) : Z :=
  if i <? 0 then Z.max (len + i) 0 else Z.min i len.

(** [a.slice(b, e)]. *)
Definition ta_slice (a : TypedArray) (b e : Z) : TypedArray :=
  let len := ta_length a in
  let k := slice_index len b in
  let final := slice_index len e in
  mkTA (ta_kind a)
       (firstn (Z.to_nat (final - k)) (skipn (Z.to_nat k) (ta_data a))).

(** [for (v of src) { out[i] = v; i++; }], returning [out] and [i]. *)
Fixpoint ta_copy_from (out : TypedArray) (i : Z) (src : list Q) : TypedArray * Z :=
  match src with
  | [] => (out, i)
  | v :: r => ta_copy_from (ta_store out i v) (i + 1) r
  end.

(** ** seedcodec: encoded payloads *)

(** Modelled from the spec: the encoding codes of seedcodec.js, which is
    not among the sources.  The spec lists ASCII, 16-bit and 32-bit
    integers, 32-bit and 64-bit floats, STEIM1, STEIM2 and others. *)
Inductive CompressionType :=
| ASCII | SHORT | INTEGER | FLOAT | DOUBLE | STEIM1 | STEIM2
| OTHER (code : Z).

Record EncodedDataSegment := mkEncoded {
  compressionType : CompressionType;
  numSamples : nat;
  (** the sample values that the payload bytes hold *)
  enc_payload : list Q
}.

Definition kind_of_compression (c : CompressionType) : ArrayKind :=
  match c with
  | DOUBLE => Float64Array
  | FLOAT => Float32Array
  | _ => Int32Array
  end.

(** Modelled from the spec: [EncodedDataSegment.decode] of seedcodec.js,
    which is not among the sources.  It yields a typed sample sequence of
    exactly [numSamples] values (trailing payload is padding), fails when
    the payload is too short for the declared count, and fails on an
    encoding that has no decoder. *)
Definition decode (c : EncodedDataSegment) : Res TypedArray :=
  match compressionType c with
  | ASCII | OTHER _ => Throw "UnsupportedEncodingError"
  | ct =>
      if (List.length (enc_payload c) <? numSamples c)%nat
      then Throw "DecodingError"
      else Ok (mkTA (kind_of_compression ct)
                    (map (coerce (kind_of_compression ct))
                         (firstn (numSamples c) (enc_payload c))))
  end.

(** ** SeismogramSegment *)

Module SeismogramSegment.

Record t := mkSegment {
  _y : option TypedArray;
  _compressed : option (list EncodedDataSegment);
  _sampleRate : Q;
  _startTime : moment;
  _endTime_cache : option moment;
  _endTime_cache_numPoints : Z;
  (** the four codes are [undefined] until they are assigned *)
  networkCode : option string;
  stationCode : option string;
  locationCode : option string;
  channelCode : option string;
  yUnit : string
}.

Definition with_y (v : option TypedArray) (s : t) : t :=
  mkSegment v (_compressed s) (_sampleRate s) (_startTime s)
    (_endTime_cache s) (_endTime_cache_numPoints s)
    (networkCode s) (stationCode s) (locationCode s) (channelCode s) (yUnit s).

Definition with_compressed (v : option (list EncodedDataSegment)) (s : t) : t :=
  mkSegment (_y s) v (_sampleRate s) (_startTime s)
    (_endTime_cache s) (_endTime_cache_numPoints s)
    (networkCode s) (stationCode s) (locationCode s) (channelCode s) (yUnit s).

Definition with_sampleRate (v : Q) (s : t) : t :=
  mkSegment (_y s) (_compressed s) v (_startTime s)
    (_endTime_cache s) (_endTime_cache_numPoints s)
    (networkCode s) (stationCode s) (locationCode s) (channelCode s) (yUnit s).

Definition with_startTime (v : moment) (s : t) : t :=
  mkSegment (_y s) (_compressed s) (_sampleRate s) v
    (_endTime_cache s) (_endTime_cache_numPoints s)
    (networkCode s) (stationCode s) (locationCode s) (channelCode s) (yUnit s).

Definition with_endTime_cache (v : option moment) (s : t) : t :=
  mkSegment (_y s) (_compressed s) (_sampleRate s) (_startTime s)
    v (_endTime_cache_numPoints s)
    (networkCode s) (stationCode s) (locationCode s) (channelCode s) (yUnit s).

Definition with_endTime_cache_numPoints (v : Z) (s : t) : t :=
  mkSegment (_y s) (_compressed s) (_sampleRate s) (_startTime s)
    (_endTime_cache s) v
    (networkCode s) (stationCode s) (locationCode s) (channelCode s) (yUnit s).

Definition with_codes (n st l c : option string) (u : string) (s : t) : t :=
  mkSegment (_y s) (_compressed s) (_sampleRate s) (_startTime s)
    (_endTime_cache s) (_endTime_cache_numPoints s) n st l c u.

(** The first argument of the constructor: a typed array, an array of
    encoded payloads, or an array of plain numbers. *)
Inductive YInput :=
| YTyped (a : TypedArray)
| YEncoded (cs : list EncodedDataSegment)
| YNumbers (xs : list Q).

(** [new SeismogramSegment(yArray, sampleRate, startTime)].  An empty
    array passes the [every] test of the encoded branch, whatever it was
    meant to hold.  [checkStringOrDate] (util.js) hands a moment back. *)
Definition new (yArray : YInput) (sampleRate : Q) (startTime : moment) : t :=
  let '(yv, cv) :=
    match yArray with
    | YTyped a => (Some a, None)
    | YEncoded cs => (None, Some cs)
    | YNumbers [] => (None, Some [])
    | YNumbers xs => (Some (mkTA Float64Array xs), None)
    end in
  mkSegment yv cv sampleRate startTime None 0 None None None None "count".

Definition _invalidate_endTime_cache : M t unit :=
  modify (fun s => with_endTime_cache_numPoints 0 (with_endTime_cache None s)).

(** [get numPoints] *)
Definition numPoints (s : t) : Z :=
  match _y s with
  | Some a => ta_length a
  | None =>
      match _compressed s with
      | Some cs => fold_left (fun out c => out + Z.of_nat (numSamples c)) cs 0
      | None => 0
      end
  end.

Definition isEncoded (s : t) : bool :=
  match _y s with
  | Some a =>
      if 0 <? ta_length a then false
      else match _compressed s with
           | Some cs => (0 <? List.length cs)%nat
           | None => false
           end
  | None =>
      match _compressed s with
      | Some cs => (0 <? List.length cs)%nat
      | None => false
      end
  end.

(** [for (i = 0; i < c.numSamples; i++) out[currIdx+i] = cData[i]].
    Reading [cData] past its end gives [undefined], which an Int32Array
    stores as 0; [decode] never returns an array that short. *)
Definition copy_chunk (out : TypedArray) (currIdx : Z) (cData : TypedArray)
           (n : nat) : TypedArray :=
  fold_left (fun o i => ta_store o (currIdx + Z.of_nat i) (nth i (ta_data cData) 0%Q))
            (seq 0 n) out.

(** The loop over the encoded chunks in [get y]. *)
Fixpoint decode_chunks (out : TypedArray) (currIdx : Z)
         (cs : list EncodedDataSegment) : Res TypedArray :=
  match cs with
  | [] => Ok out
  | c :: r =>
      match decode c with
      | Throw e => Throw e
      | Ok cData =>
          decode_chunks (copy_chunk out currIdx cData (numSamples c))
                        (currIdx + Z.of_nat (numSamples c)) r
      end
  end.

(** [get y]: decompresses on the first read. *)
Definition y : M t TypedArray := fun s =>
  match _y s with
  | Some out => (Ok out, s)
  | None =>
      if negb (isEncoded s)
      then (Throw "Seismogram not y as TypedArray or encoded.", s)
      else
        let outLen := numPoints s in
        match _compressed s with
        | None => (Throw "Seismogram not y as TypedArray or encoded.", s)
        | Some [] => (Throw "TypeError", s)
        | Some ((c0 :: _) as cs) =>
            let out := ta_new (kind_of_compression (compressionType c0)) outLen in
            match decode_chunks out 0 cs with
            | Throw e => (Throw e, s)
            | Ok out' => (Ok out', with_compressed None (with_y (Some out') s))
            end
        end
  end.

(** [set y] *)
Definition set_y (value : TypedArray) : M t unit :=
  (modify (with_y (Some value)) ;;; _invalidate_endTime_cache)%js.

(** [set startTime] *)
Definition set_startTime (value : moment) : M t unit :=
  (modify (with_startTime value) ;;; _invalidate_endTime_cache)%js.

(** [set sampleRate] *)
Definition set_sampleRate (value : Q) : M t unit :=
  (modify (with_sampleRate value) ;;; _invalidate_endTime_cache)%js.

Definition timeOfSample (s : t) (i : Z) : moment :=
  Moment.add (_startTime s) (inject_Z i / _sampleRate s)%Q Moment.seconds.

(** [get endTime]: the moment object held in the cache is what is
    returned. *)
Definition endTime : M t moment := fun s =>
  let stale :=
    match _endTime_cache s with
    | None => true
    | Some _ => negb (_endTime_cache_numPoints s =? numPoints s)
    end in
  if stale then
    let s1 := with_endTime_cache_numPoints (numPoints s) s in
    let e := timeOfSample s1 (_endTime_cache_numPoints s1 - 1) in
    (Ok e, with_endTime_cache (Some e) s1)
  else
    match _endTime_cache s with
    | Some e => (Ok e, s)
    | None => (Throw "unreachable", s)
    end.

(** [this.endTime.add(x, unit)]: [add] changes its receiver in place,
    and the receiver is the object that the cache holds. *)
Definition endTime_add (x : Q) (u : Moment.unit_of_time) : M t moment :=
  (e <- endTime ;;
   let e' := Moment.add e x u in
   modify (with_endTime_cache (Some e')) ;;;
   ret e')%js.

Definition MAX_SAFE_INTEGER : Q := inject_Z (2 ^ 53 - 1).

(** One turn of the scan in [findMinMax]. *)
Definition minmax_step (acc : Q * Q) (v : Q) : Q * Q :=
  let '(minAmp, maxAmp) := acc in
  (if Qlt_bool v minAmp then v else minAmp,
   if Qlt_bool maxAmp v then v else maxAmp).

Definition findMinMax (minMaxAccumulator : option (Q * Q)) : M t (Q * Q) :=
  let init :=
    match minMaxAccumulator with
    | Some acc => acc
    | None => (MAX_SAFE_INTEGER, (-1 * MAX_SAFE_INTEGER)%Q)
    end in
  (yData <- y ;;
   ret (fold_left minmax_step (ta_data yData) init))%js.

Definition cloneWithNewData (s : t) (clonedData : YInput)
           (clonedStartTime : moment) : t :=
  with_codes (networkCode s) (stationCode s) (locationCode s)
             (channelCode s) (yUnit s)
             (new clonedData (_sampleRate s) clonedStartTime).

Definition clone (s : t) : Res t :=
  match _y s with
  | Some a => Ok (cloneWithNewData s (YTyped (ta_slice a 0 (ta_length a))) (_startTime s))
  | None =>
      if isEncoded s
      then match _compressed s with
           | Some cs => Ok (cloneWithNewData s (YEncoded cs) (_startTime s))
           | None => Throw "Data is not encoded."
           end
      else Throw "no _y and no _compressed"
  end.

Definition cut (timeWindow : StartEndDuration) : M t (option t) :=
  (st <- gets _startTime ;;
   outside <- (if Moment.isBefore (w_endTime timeWindow) st then ret true
               else (e <- endTime ;; ret (Moment.isAfter (w_startTime timeWindow) e))) ;;
   if (outside : bool) then ret None
   else
     rate <- gets _sampleRate ;;
     let sIndex :=
       if Moment.isAfter (w_startTime timeWindow) st
       then Qfloor (fl64 (fl64 (inject_Z (Moment.diff (w_startTime timeWindow) st) * rate) / 1000))
       else 0 in
     y0 <- y ;;
     e <- endTime ;;
     let eIndex :=
       if Moment.isBefore (w_endTime timeWindow) e
       then ta_length y0
            - Qfloor (fl64 (fl64 (inject_Z (Moment.diff e (w_endTime timeWindow)) * rate) / 1000))
       else ta_length y0 in
     let cutY := ta_slice y0 sIndex eIndex in
     s <- gets (fun s => s) ;;
     ret (Some (cloneWithNewData s (YTyped cutY)
                  (Moment.add st (inject_Z sIndex / rate)%Q Moment.seconds))))%js.

End SeismogramSegment.

(** ** Seismogram *)

Definition lift {St A} (r : Res A) : M St A := fun s => (r, s).

(** [array.filter(p)] for a predicate that may change the element it
    inspects: the elements kept, and the array afterwards. *)
Fixpoint filterM {St} (p : M St bool) (l : list St) : Res (list St) * list St :=
  match l with
  | [] => (Ok [], [])
  | s :: r =>
      match p s with
      | (Ok b, s') =>
          match filterM p r with
          | (Ok kept, r') => (Ok (if b then s' :: kept else kept), s' :: r')
          | (Throw e, r') => (Throw e, s' :: r')
          end
      | (Throw e, s') => (Throw e, s' :: r)
      end
  end.

(** [!==] on a code that may be [undefined]. *)
Definition code_neq (a b : option string) : bool :=
  match a, b with
  | Some x, Some y => negb (String.eqb x y)
  | None, None => false
  | _, _ => true
  end.

(** [array.map(f)] for a function that may throw: the first exception
    ends the loop. *)
Fixpoint map_res {A B} (f : A -> Res B) (l : list A) : Res (list B) :=
  match l with
  | [] => Ok []
  | a :: r =>
      match f a with
      | Ok b =>
          match map_res f r with
          | Ok out => Ok (b :: out)
          | Throw e => Throw e
          end
      | Throw e => Throw e
      end
  end.

(** [array.filter(Boolean)] on an array of segments and nulls. *)
Fixpoint filter_Boolean {A} (l : list (option A)) : list A :=
  match l with
  | [] => []
  | Some a :: r => a :: filter_Boolean r
  | None :: r => filter_Boolean r
  end.

Module Seismogram.

Module Seg := SeismogramSegment.

Record t := mkSeismogram {
  _segmentArray : list Seg.t;
  _startTime : moment;
  _endTime : moment;
  _y : option TypedArray
}.

Definition with_segmentArray (v : list Seg.t) (sm : t) : t :=
  mkSeismogram v (_startTime sm) (_endTime sm) (_y sm).
Definition with_startTime (v : moment) (sm : t) : t :=
  mkSeismogram (_segmentArray sm) v (_endTime sm) (_y sm).
Definition with_endTime (v : moment) (sm : t) : t :=
  mkSeismogram (_segmentArray sm) (_startTime sm) v (_y sm).
Definition with_y (v : option TypedArray) (sm : t) : t :=
  mkSeismogram (_segmentArray sm) (_startTime sm) (_endTime sm) v.

(** A loop over [this._segmentArray] whose body is a segment method. *)
Definition for_segments {A} (f : M Seg.t A) : M t (list A) := fun sm =>
  let '(r, segs) := traverse f (_segmentArray sm) in
  (r, with_segmentArray segs sm).

Definition checkSimilar (f s : Seg.t) : Res unit :=
  if code_neq (Seg.networkCode s) (Seg.networkCode f) then Throw "NetworkCode not same"
  else if code_neq (Seg.stationCode s) (Seg.stationCode f) then Throw "StationCode not same"
  else if code_neq (Seg.locationCode s) (Seg.locationCode f) then Throw "LocationCode not same"
  else if code_neq (Seg.channelCode s) (Seg.channelCode f) then Throw "ChannelCode not same"
  else if negb (String.eqb (Seg.yUnit s) (Seg.yUnit f)) then Throw "yUnit not same"
  else if negb (Qeq_bool (Seg._sampleRate s) (Seg._sampleRate f)) then Throw "SampleRate not same"
  else Ok tt.

Fixpoint checkSimilar_each (f : Seg.t) (l : list Seg.t) : Res unit :=
  match l with
  | [] => Ok tt
  | s :: r =>
      match checkSimilar f s with
      | Ok _ => checkSimilar_each f r
      | Throw e => Throw e
      end
  end.

Definition checkAllSimilar : M t unit := fun sm =>
  match _segmentArray sm with
  | [] => (Throw "Seismogram is empty", sm)
  | f :: _ => (checkSimilar_each f (_segmentArray sm), sm)
  end.

(** [moment.min] and [moment.max] of a non-empty array. *)
Definition min_of (first : moment) (rest : list moment) : moment :=
  fold_left Moment.min rest first.
Definition max_of (first : moment) (rest : list moment) : moment :=
  fold_left Moment.max rest first.

(** [findStartEnd]: runs after [checkAllSimilar], hence on a non-empty
    array. *)
Definition findStartEnd : M t unit :=
  (allStart <- gets (fun sm => map Seg._startTime (_segmentArray sm)) ;;
   match allStart with
   | [] => ret tt
   | s0 :: srest =>
       modify (with_startTime (min_of s0 srest)) ;;;
       allEnd <- for_segments Seg.endTime ;;
       match allEnd with
       | [] => ret tt
       | e0 :: erest => modify (with_endTime (max_of e0 erest))
       end
   end)%js.

(** [new Seismogram(segmentArray)], for an array of segments; a single
    segment is wrapped into a one-element array first. *)
Definition new (segmentArray : list Seg.t) : Res t :=
  match segmentArray with
  | [] => Throw "segmentArray is not Array<SeismogramSegment> or SeismogramSegment"
  | _ :: _ =>
      match (checkAllSimilar ;;; findStartEnd)%js (mkSeismogram segmentArray 0 0 None) with
      | (Ok _, sm) => Ok sm
      | (Throw e, _) => Throw e
      end
  end.

(** [get numPoints] *)
Definition numPoints (sm : t) : Z :=
  fold_left (fun accumulator seis => accumulator + Seg.numPoints seis)
            (_segmentArray sm) 0.

Fixpoint findMinMax_loop (acc : option (Q * Q)) (l : list Seg.t)
  : Res (option (Q * Q)) * list Seg.t :=
  match l with
  | [] => (Ok acc, [])
  | s :: r =>
      match Seg.findMinMax acc s with
      | (Ok mm, s') =>
          let '(res, r') := findMinMax_loop (Some mm) r in (res, s' :: r')
      | (Throw e, s') => (Throw e, s' :: r)
      end
  end.

Definition findMinMax (minMaxAccumulator : option (Q * Q)) : M t (Q * Q) := fun sm =>
  match _segmentArray sm with
  | [] => (Throw "No data", sm)
  | _ :: _ =>
      match findMinMax_loop minMaxAccumulator (_segmentArray sm) with
      | (Ok (Some mm), segs) => (Ok mm, with_segmentArray segs sm)
      | (Ok None, segs) => (Throw "No data to calc minmax", with_segmentArray segs sm)
      | (Throw e, segs) => (Throw e, with_segmentArray segs sm)
      end
  end.

Section Mean.

(** [meanOfSlice(dataSlice, totalPts)] of util.js, which is not among
    the sources, is a parameter of [mean]. *)
Variable meanOfSlice : TypedArray -> Z -> Q.

(** The body of the loop: [meanOfSlice(s.y, s.y.length) * s.numPoints]. *)
Definition mean_term : M Seg.t Q :=
  (y1 <- Seg.y ;;
   y2 <- Seg.y ;;
   n <- gets Seg.numPoints ;;
   ret (fl64 (meanOfSlice y1 (ta_length y2) * inject_Z n)))%js.

(** [meanVal += term] for every segment, then [meanVal / npts].  For a
    seismogram without samples the quotient is 0/0, NaN in the source,
    which is not represented. *)
Definition mean : M t Q :=
  (npts <- gets numPoints ;;
   terms <- for_segments mean_term ;;
   let meanVal := fold_left (fun acc term => fl64 (acc + term)) terms 0%Q in
   ret (fl64 (meanVal / inject_Z npts)))%js.

End Mean.

Definition append_segment (seismogram : Seg.t) : M t unit := fun sm =>
  match _segmentArray sm with
  | [] => (Throw "TypeError", sm)
  | f :: _ =>
      match checkSimilar f seismogram with
      | Throw e => (Throw e, sm)
      | Ok _ =>
          let sm1 := with_startTime
                      (Moment.min (_startTime sm) (Seg._startTime seismogram)) sm in
          match Seg.endTime seismogram with
          | (Ok e, seismogram') =>
              let sm2 := with_endTime (Moment.max (_endTime sm1) e) sm1 in
              (Ok tt, with_segmentArray (_segmentArray sm2 ++ [seismogram']) sm2)
          | (Throw msg, _) => (Throw msg, sm1)
          end
      end
  end.

Fixpoint append_each (l : list Seg.t) : M t unit :=
  match l with
  | [] => ret tt
  | s :: r => (append_segment s ;;; append_each r)%js
  end.

Inductive Appendable :=
| ASegment (s : Seg.t)
| ASeismogram (other : t).

Definition append (seismogram : Appendable) : M t unit :=
  match seismogram with
  | ASeismogram other => append_each (_segmentArray other)
  | ASegment s => append_segment s
  end.

(** [trim(timeWindow)].  The seismogram returned holds the segment
    objects of the receiver that pass the two filters, here with the
    state they have after the read of [endTime]. *)
Definition trim (timeWindow : StartEndDuration) : M t (option t) := fun sm =>
  match filterM (e <- Seg.endTime ;;
                 ret (Moment.isAfter e (w_startTime timeWindow)))%js
                (_segmentArray sm) with
  | (Throw e, segs) => (Throw e, with_segmentArray segs sm)
  | (Ok kept, segs) =>
      let sm' := with_segmentArray segs sm in
      let trimSeisArray :=
        filter (fun d => Moment.isBefore (Seg._startTime d) (w_endTime timeWindow))
               kept in
      match trimSeisArray with
      | [] => (Ok None, sm')
      | _ :: _ =>
          match new trimSeisArray with
          | Ok out => (Ok (Some out), sm')
          | Throw e => (Throw e, sm')
          end
      end
  end.

Definition cut (timeWindow : StartEndDuration) : M t (option t) :=
  (out <- trim timeWindow ;;
   match out with
   | None => ret None
   | Some o =>
       cuts <- for_segments (Seg.cut timeWindow) ;;
       match filter_Boolean cuts with
       | [] => ret (Some o)
       | cutSeisArray => o' <- lift (new cutSeisArray) ;; ret (Some o')
       end
   end)%js.

(** The loop of [isContiguous]; [prev] is the segment visited last.
    Returns the answer, [prev] and the remaining segments as the loop
    leaves them. *)
Fixpoint isContiguous_loop (prev : Seg.t) (rest : list Seg.t)
  : bool * (Seg.t * list Seg.t) :=
  match rest with
  | [] => (true, (prev, []))
  | s :: r =>
      match Seg.endTime prev with
      | (Ok e1, prev1) =>
          if Moment.isBefore e1 (Seg._startTime s) then
            match Seg.endTime_add (1000 * 1.5 / Seg._sampleRate prev1)%Q
                                  Moment.ms prev1 with
            | (Ok e2, prev2) =>
                if Moment.isAfter e2 (Seg._startTime s) then
                  let '(b, (s', r')) := isContiguous_loop s r in
                  (b, (prev2, s' :: r'))
                else (false, (prev2, s :: r))
            | (Throw _, prev2) => (false, (prev2, s :: r))
            end
          else (false, (prev1, s :: r))
      | (Throw _, prev1) => (false, (prev1, s :: r))
      end
  end.

Definition isContiguous : M t bool := fun sm =>
  match _segmentArray sm with
  | [_] => (Ok true, sm)
  | [] => (Ok true, sm)
  | s0 :: rest =>
      let '(b, (s0', rest')) := isContiguous_loop s0 rest in
      (Ok b, with_segmentArray (s0' :: rest') sm)
  end.

(** The [forEach] of [merge]: copies every sample of every segment. *)
Fixpoint merge_loop (outArray : TypedArray) (i : Z) (l : list Seg.t)
  : Res TypedArray * list Seg.t :=
  match l with
  | [] => (Ok outArray, [])
  | seg :: r =>
      match Seg.y seg with
      | (Ok ys, seg') =>
          let '(out', i') := ta_copy_from outArray i (ta_data ys) in
          let '(res, r') := merge_loop out' i' r in
          (res, seg' :: r')
      | (Throw e, seg') => (Throw e, seg' :: r)
      end
  end.

Definition merge : M t TypedArray := fun sm =>
  match _segmentArray sm with
  | [] => (Throw "TypeError", sm)
  | f :: r =>
      match Seg.y f with
      | (Throw e, f') => (Throw e, with_segmentArray (f' :: r) sm)
      | (Ok y0, f') =>
          let sm1 := with_segmentArray (f' :: r) sm in
          let outArray := ta_new (ta_kind y0) (numPoints sm1) in
          let '(res, segs) := merge_loop outArray 0 (_segmentArray sm1) in
          (res, with_segmentArray segs sm1)
      end
  end.

(** [get y] *)
Definition y : M t TypedArray :=
  (cached <- gets _y ;;
   match cached with
   | Some a => ret a
   | None =>
       contiguous <- isContiguous ;;
       if (contiguous : bool) then
         merged <- merge ;;
         modify (with_y (Some merged)) ;;;
         ret merged
       else
         throw "Seismogram is not contiguous, acces each SeismogramSegment idividually."
   end)%js.

(** [get sampleRate]: the rate of the first segment. *)
Definition sampleRate (sm : t) : Res Q :=
  match _segmentArray sm with
  | [] => Throw "TypeError"
  | f :: _ => Ok (Seg._sampleRate f)
  end.

Definition clone (sm : t) : Res t :=
  match map_res Seg.clone (_segmentArray sm) with
  | Ok cloned => new cloned
  | Throw e => Throw e
  end.

Definition cloneWithNewData (sm : t) (newY : TypedArray) : Res t :=
  if 0 <? ta_length newY then
    match _segmentArray sm with
    | [] => Throw "TypeError"
    | f :: _ => new [Seg.cloneWithNewData f (Seg.YTyped newY) (Seg._startTime f)]
    end
  else Throw "Y value is empty".

Definition createFromContiguousData (yArray : Seg.YInput) (sampleRate : Q)
           (startTime : moment) : Res t :=
  new [Seg.new yArray sampleRate startTime].

End Seismogram.

(** [findMinMaxOfSeismograms(data, minMaxAccumulator)]: the loop over the
    seismograms. *)
Fixpoint findMinMaxOfSeismograms_loop (acc : option (Q * Q))
         (data : list Seismogram.t) : Res (option (Q * Q)) * list Seismogram.t :=
  match data with
  | [] => (Ok acc, [])
  | s :: r =>
      match Seismogram.findMinMax acc s with
      | (Ok mm, s') =>
          let '(res, r') := findMinMaxOfSeismograms_loop (Some mm) r in (res, s' :: r')
      | (Throw e, s') => (Throw e, s' :: r)
      end
  end.

Definition findMinMaxOfSeismograms (data : list Seismogram.t)
           (minMaxAccumulator : option (Q * Q)) : Res (Q * Q) * list Seismogram.t :=
  match findMinMaxOfSeismograms_loop minMaxAccumulator data with
  | (Ok (Some mm), d) => (Ok mm, d)
  | (Ok None, d) => (Ok (-1, 1)%Q, d)
  | (Throw e, d) => (Throw e, d)
  end.

(** [findStartEndOfSeismograms(data, accumulator)].  [data] is absent or
    an array; without an accumulator the scan starts from the window
    [moment.utc('2500-01-01')] to [moment.utc('1001-01-01')].  The
    constructor [StartEndDuration(start, end)] of util.js keeps the two
    instants it is given. *)
Definition findStartEndOfSeismograms_step (out : StartEndDuration)
           (s : Seismogram.t) : StartEndDuration :=
  let out1 :=
    if Seismogram._startTime s <? w_startTime out
    then mkWindow (Seismogram._startTime s) (w_endTime out)
    else out in
  if w_endTime out1 <? Seismogram._endTime s
  then mkWindow (w_startTime out1) (Seismogram._endTime s)
  else out1.

Definition findStartEndOfSeismograms (data : option (list Seismogram.t))
           (accumulator : option StartEndDuration) : Res StartEndDuration :=
  match accumulator, data with
  | None, None => Throw "data and accumulator are not defined"
  | _, None => Throw "Expected Array as first arg but was: undefined"
  | _, Some d =>
      let out :=
        match accumulator with
        | Some a => a
        | None => mkWindow 16725225600000 (-30578688000000)
        end in
      Ok (fold_left findStartEndOfSeismograms_step d out)
  end.

(** ** SeismogramDisplayData *)

Module SeismogramDisplayStats.

Record t := mkStats {
  min : Q;
  max : Q;
  mean : Q;
  trendSlope : Q
}.

Definition new : t := mkStats 0 0 0 0.

End SeismogramDisplayStats.

(** [array.reduce(f)] without an initial value. *)
Definition reduce {A} (f : A -> A -> A) (l : list A) : Res A :=
  match l with
  | [] => Throw "TypeError: Reduce of empty array with no initial value"
  | x :: r => Ok (fold_left f r x)
  end.

Module SeismogramDisplayData.

Section Fields.

(** The marker, channel, sensitivity and quake classes belong to other
    modules; a display data object only stores them. *)
Variables MarkerType Channel InstrumentSensitivity Quake : Type.

(** [meanOfSlice] of util.js, as for [Seismogram.mean]. *)
Variable meanOfSlice : TypedArray -> Z -> Q.

Record t := mkDisplayData {
  _seismogram : option Seismogram.t;
  label : option string;
  markerList : list MarkerType;
  channel : option Channel;
  _instrumentSensitivity : option InstrumentSensitivity;
  quakeList : list Quake;
  timeWindow : StartEndDuration;
  alignmentTime : option moment;
  doShow : bool;
  _statsCache : option SeismogramDisplayStats.t
}.

Definition with_seismogram (v : option Seismogram.t) (d : t) : t :=
  mkDisplayData v (label d) (markerList d) (channel d) (_instrumentSensitivity d)
    (quakeList d) (timeWindow d) (alignmentTime d) (doShow d) (_statsCache d).
Definition with_label (v : option string) (d : t) : t :=
  mkDisplayData (_seismogram d) v (markerList d) (channel d) (_instrumentSensitivity d)
    (quakeList d) (timeWindow d) (alignmentTime d) (doShow d) (_statsCache d).
Definition with_markerList (v : list MarkerType) (d : t) : t :=
  mkDisplayData (_seismogram d) (label d) v (channel d) (_instrumentSensitivity d)
    (quakeList d) (timeWindow d) (alignmentTime d) (doShow d) (_statsCache d).
Definition with_channel (v : option Channel) (d : t) : t :=
  mkDisplayData (_seismogram d) (label d) (markerList d) v (_instrumentSensitivity d)
    (quakeList d) (timeWindow d) (alignmentTime d) (doShow d) (_statsCache d).
Definition with_instrumentSensitivity (v : option InstrumentSensitivity) (d : t) : t :=
  mkDisplayData (_seismogram d) (label d) (markerList d) (channel d) v
    (quakeList d) (timeWindow d) (alignmentTime d) (doShow d) (_statsCache d).
Definition with_quakeList (v : list Quake) (d : t) : t :=
  mkDisplayData (_seismogram d) (label d) (markerList d) (channel d)
    (_instrumentSensitivity d) v (timeWindow d) (alignmentTime d) (doShow d)
    (_statsCache d).
Definition with_timeWindow (v : StartEndDuration) (d : t) : t :=
  mkDisplayData (_seismogram d) (label d) (markerList d) (channel d)
    (_instrumentSensitivity d) (quakeList d) v (alignmentTime d) (doShow d)
    (_statsCache d).
Definition with_alignmentTime (v : option moment) (d : t) : t :=
  mkDisplayData (_seismogram d) (label d) (markerList d) (channel d)
    (_instrumentSensitivity d) (quakeList d) (timeWindow d) v (doShow d)
    (_statsCache d).
Definition with_doShow (v : bool) (d : t) : t :=
  mkDisplayData (_seismogram d) (label d) (markerList d) (channel d)
    (_instrumentSensitivity d) (quakeList d) (timeWindow d) (alignmentTime d) v
    (_statsCache d).
Definition with_statsCache (v : option SeismogramDisplayStats.t) (d : t) : t :=
  mkDisplayData (_seismogram d) (label d) (markerList d) (channel d)
    (_instrumentSensitivity d) (quakeList d) (timeWindow d) (alignmentTime d)
    (doShow d) v.

(** [new SeismogramDisplayData(timeWindow)] *)
Definition new (timeWindow : StartEndDuration) : t :=
  mkDisplayData None None [] None None [] timeWindow None true None.

(** [set seismogram] *)
Definition set_seismogram (value : option Seismogram.t) : M t unit :=
  modify (fun d => with_statsCache None (with_seismogram value d)).

Definition fromSeismogram (seismogram : Seismogram.t) : t :=
  snd (set_seismogram (Some seismogram)
         (new (mkWindow (Seismogram._startTime seismogram)
                        (Seismogram._endTime seismogram)))).

(** A method call on the seismogram that the object holds; the
    seismogram is changed in place. *)
Definition on_seismogram {A} (m : M Seismogram.t A) (sm : Seismogram.t) : M t A :=
  fun d => let '(r, sm') := m sm in (r, with_seismogram (Some sm') d).

(** [this.seismogram.m(...)] *)
Definition held_op {A} (m : M Seismogram.t A) : M t A := fun d =>
  match _seismogram d with
  | Some sm => on_seismogram m sm d
  | None => (Throw "TypeError", d)
  end.

Definition calcStats : M t SeismogramDisplayStats.t :=
  (held <- gets _seismogram ;;
   stats <- match held with
            | Some sm =>
                minMax <- on_seismogram (Seismogram.findMinMax None) sm ;;
                held' <- gets _seismogram ;;
                match held' with
                | Some sm' =>
                    m <- on_seismogram (Seismogram.mean meanOfSlice) sm' ;;
                    ret (SeismogramDisplayStats.mkStats (fst minMax) (snd minMax) m 0)
                | None => throw "TypeError"
                end
            | None => ret SeismogramDisplayStats.new
            end ;;
   modify (with_statsCache (Some stats)) ;;;
   ret stats)%js.

(** The body shared by [get min], [get max] and [get mean]. *)
Definition cached_stats : M t SeismogramDisplayStats.t :=
  (cache <- gets _statsCache ;;
   match cache with
   | Some stats => ret stats
   | None =>
       stats <- calcStats ;;
       modify (with_statsCache (Some stats)) ;;;
       ret stats
   end)%js.

Definition min : M t Q := (stats <- cached_stats ;; ret (SeismogramDisplayStats.min stats))%js.
Definition max : M t Q := (stats <- cached_stats ;; ret (SeismogramDisplayStats.max stats))%js.
Definition mean : M t Q := (stats <- cached_stats ;; ret (SeismogramDisplayStats.mean stats))%js.

(** [Object.getOwnPropertyNames(this)]: the fields that the constructor
    assigns, in that order.  The accessors [seismogram], [min], [max],
    [mean] and [sensitivity] live on the prototype and are not among
    them. *)
Definition own_property_names : list string :=
  ["_seismogram"; "label"; "markerList"; "channel"; "_instrumentSensitivity";
   "quakeList"; "timeWindow"; "alignmentTime"; "doShow"; "_statsCache"]%string.

(** One turn of the loop of [cloneWithNewSeismogram].  Which branch copies
    a field follows from what the field holds: [alignmentTime] is a moment
    or null, [markerList] and [quakeList] are arrays, and the copy of a
    moment or of an array has the contents of the original. *)
Definition copy_property (this : t) (seis : option Seismogram.t) (out : t)
           (name : string) : t :=
  if String.eqb name "seismogram" then snd (set_seismogram seis out)
  else if String.eqb name "_seismogram" then with_seismogram (_seismogram this) out
  else if String.eqb name "label" then with_label (label this) out
  else if String.eqb name "markerList" then with_markerList (markerList this) out
  else if String.eqb name "channel" then with_channel (channel this) out
  else if String.eqb name "_instrumentSensitivity"
       then with_instrumentSensitivity (_instrumentSensitivity this) out
  else if String.eqb name "quakeList" then with_quakeList (quakeList this) out
  else if String.eqb name "timeWindow" then with_timeWindow (timeWindow this) out
  else if String.eqb name "alignmentTime" then with_alignmentTime (alignmentTime this) out
  else if String.eqb name "doShow" then with_doShow (doShow this) out
  else if String.eqb name "_statsCache" then with_statsCache (_statsCache this) out
  else out.

Definition cloneWithNewSeismogram (this : t) (seis : option Seismogram.t) : t :=
  fold_left (copy_property this seis) own_property_names (new (timeWindow this)).

Definition clone (this : t) : Res t :=
  match _seismogram this with
  | Some sm =>
      match Seismogram.clone sm with
      | Ok c => Ok (cloneWithNewSeismogram this (Some c))
      | Throw e => Throw e
      end
  | None => Ok (cloneWithNewSeismogram this None)
  end.

(** The callback of the [map] in [findMinMaxOverTimeRange]. *)
Definition minMax_in (timeWindow : StartEndDuration) : M t (Q * Q) :=
  (held <- gets _seismogram ;;
   match held with
   | Some sm =>
       cutSeis <- on_seismogram (Seismogram.cut timeWindow) sm ;;
       match cutSeis with
       | Some c => lift (fst (Seismogram.findMinMax None c))
       | None => ret (SeismogramSegment.MAX_SAFE_INTEGER, (-1 * SeismogramSegment.MAX_SAFE_INTEGER)%Q)
       end
   | None => ret (SeismogramSegment.MAX_SAFE_INTEGER, (-1 * SeismogramSegment.MAX_SAFE_INTEGER)%Q)
   end)%js.

Definition findMinMaxOverTimeRange (sddList : list t)
           (timeWindow : StartEndDuration) : Res (Q * Q) * list t :=
  match traverse (minMax_in timeWindow) sddList with
  | (Throw e, l) => (Throw e, l)
  | (Ok minMaxArr, l) =>
      match reduce (fun p v => if Qlt_bool p v then p else v) (map fst minMaxArr) with
      | Throw e => (Throw e, l)
      | Ok min =>
          match reduce (fun p v => if Qlt_bool v p then p else v) (map snd minMaxArr) with
          | Throw e => (Throw e, l)
          | Ok max => (Ok (min, max), l)
          end
      end
  end.

(** [findMinMax(sddList)] *)
Definition findMinMax (sddList : list t) : Res (Q * Q) * list t :=
  match traverse min sddList with
  | (Throw e, l) => (Throw e, l)
  | (Ok mins, l) =>
      match reduce (fun p v => if Qlt_bool p v then p else v) mins with
      | Throw e => (Throw e, l)
      | Ok mn =>
          match traverse max l with
          | (Throw e, l') => (Throw e, l')
          | (Ok maxs, l') =>
              match reduce (fun p v => if Qlt_bool v p then p else v) maxs with
              | Throw e => (Throw e, l')
              | Ok mx => (Ok (mn, mx), l')
              end
          end
      end
  end.

End Fields.

Arguments mkDisplayData {MarkerType Channel InstrumentSensitivity Quake}.
Arguments _seismogram {MarkerType Channel InstrumentSensitivity Quake}.
Arguments label {MarkerType Channel InstrumentSensitivity Quake}.
Arguments markerList {MarkerType Channel InstrumentSensitivity Quake}.
Arguments channel {MarkerType Channel InstrumentSensitivity Quake}.
Arguments _instrumentSensitivity {MarkerType Channel InstrumentSensitivity Quake}.
Arguments quakeList {MarkerType Channel InstrumentSensitivity Quake}.
Arguments timeWindow {MarkerType Channel InstrumentSensitivity Quake}.
Arguments alignmentTime {MarkerType Channel InstrumentSensitivity Quake}.
Arguments doShow {MarkerType Channel InstrumentSensitivity Quake}.
Arguments _statsCache {MarkerType Channel InstrumentSensitivity Quake}.
Arguments with_seismogram {MarkerType Channel InstrumentSensitivity Quake}.
Arguments with_statsCache {MarkerType Channel InstrumentSensitivity Quake}.
Arguments new {MarkerType Channel InstrumentSensitivity Quake}.
Arguments set_seismogram {MarkerType Channel InstrumentSensitivity Quake}.
Arguments fromSeismogram {MarkerType Channel InstrumentSensitivity Quake}.
Arguments on_seismogram {MarkerType Channel InstrumentSensitivity Quake A}.
Arguments held_op {MarkerType Channel InstrumentSensitivity Quake A}.
Arguments calcStats {MarkerType Channel InstrumentSensitivity Quake}.
Arguments cached_stats {MarkerType Channel InstrumentSensitivity Quake}.
Arguments min {MarkerType Channel InstrumentSensitivity Quake}.
Arguments max {MarkerType Channel InstrumentSensitivity Quake}.
Arguments mean {MarkerType Channel InstrumentSensitivity Quake}.
Arguments copy_property {MarkerType Channel InstrumentSensitivity Quake}.
Arguments cloneWithNewSeismogram {MarkerType Channel InstrumentSensitivity Quake}.
Arguments clone {MarkerType Channel InstrumentSensitivity Quake}.
Arguments minMax_in {MarkerType Channel InstrumentSensitivity Quake}.
Arguments findMinMaxOverTimeRange {MarkerType Channel InstrumentSensitivity Quake}.
Arguments findMinMax {MarkerType Channel InstrumentSensitivity Quake}.

End SeismogramDisplayData.

(** ** fft.ts *)

Module Fft.

(** The loop [while (N < npts) { log2N += 1; N = 2 * N; }].  The model
    bounds the number of turns by [fuel]; [None] is an exhausted bound. *)
Fixpoint pad_loop (fuel : nat) (log2N N npts : Z) : option (Z * Z) :=
  match fuel with
  | O => None
  | S f =>
      if N <? npts then pad_loop f (log2N + 1) (2 * N) npts
      else Some (log2N, N)
  end.

(** [log2N] and [N] after the loop, from [log2N = 4] and [N = 16]. *)
Definition fft_size (npts : Z) : option (Z * Z) :=
  pad_loop (S (Z.to_nat npts)) 4 16 npts.

(** [a[i]] for an index that need not be a whole number: [undefined]
    off the array. *)
Definition ta_get (a : TypedArray) (i : Q) : option Q :=
  if Qeq_bool i (inject_Z (Qfloor i)) && (0 <=? Qfloor i)
  then nth_error (ta_data a) (Z.to_nat (Qfloor i))
  else None.

(** [a[i] = v] for an index that need not be a whole number: a store at
    an index that is not one does not change the array. *)
Definition ta_set (a : TypedArray) (i : Q) (v : Q) : TypedArray :=
  if Qeq_bool i (inject_Z (Qfloor i)) then ta_store a (Qfloor i) v else a.

(** [new Float32Array(n)] for a length that need not be whole: [ToIndex]
    drops the fraction. *)
Definition new_Float32Array (n : Q) : TypedArray := ta_new Float32Array (Qtrunc n).

Section Transform.

(** [new OregonDSP.fft.RDFT(log2N)] with its methods [evaluate(in, out)]
    and [evaluateInverse(in, out)] is an external library: the functions
    give the contents of [out] after the call. *)
Variables evaluate evaluateInverse : Z -> list Q -> list Q -> list Q.

(** The class [Complex] of oregondsputil: built by [createComplex], read
    by [real], [imag], [abs] and [angle].  An argument read off the end
    of an array is [undefined]. *)
Variable Complex : Type.
Variable createComplex : option Q -> option Q -> Complex.
Variables real imag abs angle : Complex -> Q.

Definition calcDFT (timeseries : TypedArray) : Res TypedArray :=
  match fft_size (ta_length timeseries) with
  | None => Throw "loop bound"
  | Some (log2N, N) =>
      let inArray := fst (ta_copy_from (ta_new Float32Array N) 0 (ta_data timeseries)) in
      let out := ta_new Float32Array N in
      Ok (mkTA Float32Array (evaluate log2N (ta_data inArray) (ta_data out)))
  end.

Definition inverseDFT (packedFreq : TypedArray) (numPoints : Z) : Res TypedArray :=
  if ta_length packedFreq <? numPoints
  then Throw "Not enough points in packed freq array"
  else
    match fft_size (ta_length packedFreq) with
    | None => Throw "loop bound"
    | Some (log2N, N) =>
        if negb (N =? ta_length packedFreq)
        then Throw "power of two check fails"
        else
          let out := ta_new Float32Array N in
          let out' := mkTA Float32Array
                           (evaluateInverse log2N (ta_data packedFreq) (ta_data out)) in
          Ok (ta_slice out' 0 numPoints)
    end.

(** [FFTResult].  The fields [inputUnits] and [seismogramDisplayData] are
    labels that no method reads. *)
Record FFTResult := mkFFTResult {
  origLength : Z;
  sampleRate : Q;
  packedFreq : TypedArray;
  complex : list Complex;
  amp : TypedArray;
  phase : TypedArray;
  numPoints : Z
}.

(** [new FFTResult(origLength, sampleRate)] with [packedFreq] assigned:
    the other fields, not yet assigned, are shown empty. *)
Definition with_packedFreq (origLength : Z) (sampleRate : Q)
           (packedFreq : TypedArray) : FFTResult :=
  mkFFTResult origLength sampleRate packedFreq []
              (ta_new Float32Array 0) (ta_new Float32Array 0) 0.

(** [new FFTResult(origLength, sampleRate)] with [complex] assigned. *)
Definition with_complex (origLength : Z) (sampleRate : Q)
           (complex : list Complex) : FFTResult :=
  mkFFTResult origLength sampleRate (ta_new Float32Array 0) complex
              (ta_new Float32Array 0) (ta_new Float32Array 0) 0.

(** The integers [i] with [1 <= i < bound]. *)
Definition indices_below (bound : Q) : list Z :=
  map (fun k => Z.of_nat k) (seq 1 (Z.to_nat (Qceiling bound) - 1)).

Definition recalcFromPackedFreq (r : FFTResult) : FFTResult :=
  let p := packedFreq r in
  let L := ta_length p in
  let half := (inject_Z L / 2)%Q in
  let amp0 := new_Float32Array (half + 1) in
  let phase0 := new_Float32Array (half + 1) in
  let c0 := createComplex (ta_get p 0) (Some 0%Q) in
  let '(cs, amp1, phase1) :=
    fold_left
      (fun '(cs, am, ph) i =>
         let c := createComplex (ta_get p (inject_Z i)) (ta_get p (inject_Z (L - i))) in
         (cs ++ [c], ta_store am i (abs c), ta_store ph i (angle c)))
      (indices_below half)
      ([c0], ta_store amp0 0 (abs c0), ta_store phase0 0 (angle c0)) in
  let cl := createComplex (ta_get p half) (Some 0%Q) in
  mkFFTResult (origLength r) (sampleRate r) p
              (cs ++ [cl])
              (ta_set amp1 half (abs cl))
              (ta_set phase1 half (angle cl))
              L.

Definition recalcFromComplex (r : FFTResult) : Res FFTResult :=
  let N := Z.of_nat (List.length (complex r)) in
  let modFreq := ta_new Float32Array N in
  match complex r with
  | [] => Throw "TypeError"
  | c0 :: _ =>
      let modFreq0 := ta_store modFreq 0 (real c0) in
      let modFreq1 :=
        fold_left
          (fun m i =>
             match nth_error (complex r) (Z.to_nat i) with
             | Some c => ta_store (ta_store m i (real c)) (N - i) (imag c)
             | None => m
             end)
          (indices_below (inject_Z (N - 1)))
          modFreq0 in
      match nth_error (complex r) (Z.to_nat (N - 1)) with
      | None => Throw "TypeError"
      | Some cl =>
          let modFreq2 := ta_set modFreq1 (inject_Z N / 2)%Q (real cl) in
          Ok (mkFFTResult (origLength r) (sampleRate r) modFreq2 (complex r)
                          (amp r) (phase r) (ta_length modFreq2))
      end
  end.

Definition createFromPackedFreq (packedFreq : TypedArray) (origLength : Z)
           (sampleRate : Q) : FFTResult :=
  recalcFromPackedFreq (with_packedFreq origLength sampleRate packedFreq).

Definition createFromComplex (complexArray : list Complex) (origLength : Z)
           (sampleRate : Q) : Res FFTResult :=
  match recalcFromComplex (with_complex origLength sampleRate complexArray) with
  | Ok r => Ok (recalcFromPackedFreq r)
  | Throw e => Throw e
  end.

(** [get fundamentalFrequency] *)
Definition fundamentalFrequency (r : FFTResult) : Res Q :=
  if negb (Qeq_bool (sampleRate r) 0)
  then Ok (fl64 (sampleRate r / inject_Z (numPoints r)))
  else Throw "sample rate not set on FFTResult, needed to calc min frequency".

Definition fftInverse (r : FFTResult) : Res TypedArray :=
  inverseDFT (packedFreq r) (origLength r).

(** The loop of [frequencies]: [out[i] = i * this.fundamentalFrequency]. *)
Fixpoint frequencies_loop (r : FFTResult) (out : TypedArray) (idx : list Z)
  : Res TypedArray :=
  match idx with
  | [] => Ok out
  | i :: rest =>
      match fundamentalFrequency r with
      | Ok f => frequencies_loop r (ta_store out i (fl64 (inject_Z i * f))) rest
      | Throw e => Throw e
      end
  end.

Definition frequencies (r : FFTResult) : Res TypedArray :=
  let out := new_Float32Array (inject_Z (numPoints r) / 2 + 1)%Q in
  frequencies_loop r out (map (fun k => Z.of_nat k) (seq 0 (Z.to_nat (ta_length out)))).

(** [get maxFrequency] *)
Definition maxFrequency (r : FFTResult) : Q := fl64 (sampleRate r / 2).

Section Forward.

Context {MarkerType Channel InstrumentSensitivity Quake : Type}.

(** The body of [fftForward] once [sdd] is at hand. *)
Definition fftForward_sdd
  : M (SeismogramDisplayData.t MarkerType Channel InstrumentSensitivity Quake) FFTResult :=
  (held <- gets SeismogramDisplayData._seismogram ;;
   match held with
   | Some _ =>
       contiguous <- SeismogramDisplayData.held_op Seismogram.isContiguous ;;
       if (contiguous : bool) then
         y <- SeismogramDisplayData.held_op Seismogram.y ;;
         packed <- lift (calcDFT y) ;;
         n <- SeismogramDisplayData.held_op (gets Seismogram.numPoints) ;;
         rate <- SeismogramDisplayData.held_op (fun sm => (Seismogram.sampleRate sm, sm)) ;;
         ret (createFromPackedFreq packed n rate)
       else throw "Can only take FFT is seismogram is contiguous."
   | None => throw "Can not take FFT is seismogram is null."
   end)%js.

(** [fftForward(seis)]: a seismogram is wrapped into a display data
    object first; the seismogram itself is what the calls change. *)
Definition fftForward
  : M (Seismogram.t
       + SeismogramDisplayData.t MarkerType Channel InstrumentSensitivity Quake)
      FFTResult :=
  fun seis =>
    match seis with
    | inl sm =>
        let '(r, sdd) := fftForward_sdd (SeismogramDisplayData.fromSeismogram sm) in
        (r, inl match SeismogramDisplayData._seismogram sdd with
                | Some sm' => sm'
                | None => sm
                end)
    | inr sdd => let '(r, sdd') := fftForward_sdd sdd in (r, inr sdd')
    end.

End Forward.

End Transform.

Arguments mkFFTResult {Complex}.
Arguments origLength {Complex}.
Arguments sampleRate {Complex}.
Arguments packedFreq {Complex}.
Arguments complex {Complex}.
Arguments amp {Complex}.
Arguments phase {Complex}.
Arguments numPoints {Complex}.
Arguments with_packedFreq {Complex}.
Arguments with_complex {Complex}.
Arguments recalcFromPackedFreq {Complex}.
Arguments recalcFromComplex {Complex}.
Arguments createFromPackedFreq {Complex}.
Arguments createFromComplex {Complex}.
Arguments fundamentalFrequency {Complex}.
Arguments fftInverse evaluateInverse {Complex}.
Arguments frequencies_loop {Complex}.
Arguments frequencies {Complex}.
Arguments maxFrequency {Complex}.
Arguments fftForward_sdd evaluate {Complex} createComplex abs angle
  {MarkerType Channel InstrumentSensitivity Quake}.
Arguments fftForward evaluate {Complex} createComplex abs angle
  {MarkerType Channel InstrumentSensitivity Quake}.

End Fft.

(** ** datalink.js *)

Module DataLink.

Definition QUERY_MODE : string := "QUERY".
Definition STREAM_MODE : string := "STREAM".
Definition ERROR : string := "ERROR".
Definition PACKET : string := "PACKET".
Definition STREAM : string := "STREAM".
Definition ENDSTREAM : string := "ENDSTREAM".

(** A string of the model is a sequence of characters with codes below
    256; for such a string [s.length], the code points that [for ... of]
    visits and the values of [charCodeAt] are those of its characters.
    An [ArrayBuffer] is the list of its bytes. *)
Definition char_codes (s : string) : list Z :=
  map (fun c => Z.of_nat (nat_of_ascii c)) (list_ascii_of_string s).

(** [String(n)] for a length. *)
Definition String_of (n : nat) : string := NilZero.string_of_uint (Nat.to_uint n).

(** [packet.setUint8(i, v)] *)
Definition setUint8 (i : Z) (v : Z) : M (list Z) unit := fun b =>
  if (0 <=? i) && (i <? Z.of_nat (List.length b))
  then (Ok tt, list_set b (Z.to_nat i) (v mod 256))
  else (Throw "RangeError", b).

(** [for (const c of s) { packet.setUint8(i, c.charCodeAt(0)); i++; }],
    returning [i]. *)
Fixpoint write_codes (i : Z) (codes : list Z) : M (list Z) Z :=
  match codes with
  | [] => ret i
  | c :: r => (setUint8 i c ;;; write_codes (i + 1) r)%js
  end.

(** [binaryPacket.set(data, i)] *)
Definition set_at (data : list Z) (i : Z) : M (list Z) unit := fun b =>
  if (0 <=? i) && (i + Z.of_nat (List.length data) <=? Z.of_nat (List.length b))
  then (Ok tt, firstn (Z.to_nat i) b ++ data
               ++ skipn (Z.to_nat i + List.length data) b)
  else (Throw "RangeError", b).

(** [stringToUint8Array(dataString)]: [undefined] for an absent or empty
    string. *)
Definition stringToUint8Array (dataString : option string) : option (list Z) :=
  match dataString with
  | None | Some EmptyString => None
  | Some s => Some (map (fun c => c mod 256) (char_codes s))
  end.

Definition encodeDL (command : string) (data : option (list Z)) : Res (list Z) :=
  let present :=
    match data with
    | Some d => (0 <? List.length d)%nat
    | None => false
    end in
  let d := match data with Some d => d | None => [] end in
  let lenStr := if present then String_of (List.length d) else EmptyString in
  let cmdLen :=
    if present
    then Z.of_nat (String.length command) + (Z.of_nat (String.length lenStr) + 1)
    else Z.of_nat (String.length command) in
  let len :=
    if present
    then 3 + Z.of_nat (String.length command) + (Z.of_nat (String.length lenStr) + 1)
         + Z.of_nat (List.length d)
    else 3 + Z.of_nat (String.length command) in
  let fill : M (list Z) unit :=
    (setUint8 0 68 ;;;
     setUint8 1 76 ;;;
     setUint8 2 cmdLen ;;;
     i <- write_codes 3 (char_codes command) ;;
     if present then
       setUint8 i 32 ;;;
       j <- write_codes (i + 1) (char_codes lenStr) ;;
       set_at d j
     else ret tt)%js in
  match fill (repeat 0 (Z.to_nat len)) with
  | (Ok _, rawPacket) => Ok rawPacket
  | (Throw e, _) => Throw e
  end.

(** The field [webSocket]: the constructor does not assign it, [connect]
    stores the socket, [close] and the close event store [null]. *)
Inductive Slot := Unassigned | Null | Socket.

(** The [readyState] of a WebSocket, an object of the platform: [send]
    throws an InvalidStateError while the socket is connecting, takes the
    data while it is open, and drops the data once it is closing or
    closed. *)
Inductive ReadyState := CONNECTING | OPEN | CLOSING | CLOSED.

(** [DataLinkConnection].  A handler is shown by whether it is set.  The
    fields [url], [closeHandler], [serverId], [clientIdNum] and [username]
    belong to [connect] and [sendId].  [sent] lists the packets that
    [WebSocket.send] took, oldest first, [closes] counts the calls of
    [WebSocket.close], and [readyState] is the state of the socket that
    [connect] created ([connect] stores it while it is still connecting). *)
Record DataLinkConnection := mkConnection {
  mode : option string;
  packetHandler : bool;
  errorHandler : bool;
  responseResolve : bool;
  responseReject : bool;
  webSocket : Slot;
  sent : list (list Z);
  closes : nat;
  readyState : ReadyState
}.

Definition with_mode (v : option string) (c : DataLinkConnection) : DataLinkConnection :=
  mkConnection v (packetHandler c) (errorHandler c) (responseResolve c)
    (responseReject c) (webSocket c) (sent c) (closes c) (readyState c).
Definition with_webSocket (v : Slot) (c : DataLinkConnection) : DataLinkConnection :=
  mkConnection (mode c) (packetHandler c) (errorHandler c) (responseResolve c)
    (responseReject c) v (sent c) (closes c) (readyState c).
Definition with_sent (v : list (list Z)) (c : DataLinkConnection) : DataLinkConnection :=
  mkConnection (mode c) (packetHandler c) (errorHandler c) (responseResolve c)
    (responseReject c) (webSocket c) v (closes c) (readyState c).
Definition with_closes (v : nat) (c : DataLinkConnection) : DataLinkConnection :=
  mkConnection (mode c) (packetHandler c) (errorHandler c) (responseResolve c)
    (responseReject c) (webSocket c) (sent c) v (readyState c).
Definition with_readyState (v : ReadyState) (c : DataLinkConnection) : DataLinkConnection :=
  mkConnection (mode c) (packetHandler c) (errorHandler c) (responseResolve c)
    (responseReject c) (webSocket c) (sent c) (closes c) v.

(** [new DataLinkConnection(url, packetHandler, errorHandler)] *)
Definition new (packetHandler errorHandler : bool) : DataLinkConnection :=
  mkConnection (Some QUERY_MODE) packetHandler errorHandler false false Unassigned [] 0
               CONNECTING.

Definition isConnected (c : DataLinkConnection) : bool :=
  match webSocket c with
  | Null => false
  | _ => true
  end.

(** [this.mode === m] *)
Definition mode_is (m : string) (c : DataLinkConnection) : bool :=
  match mode c with
  | Some x => String.eqb x m
  | None => false
  end.

(** [WebSocket.close()]: the socket starts closing, unless it is closed. *)
Definition close_socket (c : DataLinkConnection) : DataLinkConnection :=
  with_readyState (match readyState c with CLOSED => CLOSED | _ => CLOSING end)
                  (with_closes (S (closes c)) c).

(** [sendDLBinary(header, data)]: the packet goes to [WebSocket.send]. *)
Definition sendDLBinary (header : string) (data : option (list Z))
  : M DataLinkConnection unit :=
  (rawPacket <- lift (encodeDL header data) ;;
   slot <- gets webSocket ;;
   match slot with
   | Socket =>
       state <- gets readyState ;;
       match state with
       | CONNECTING => throw "InvalidStateError"
       | OPEN => modify (fun c => with_sent (sent c ++ [rawPacket]) c)
       | CLOSING | CLOSED => ret tt
       end
   | _ => throw "WebSocket has been closed."
   end)%js.

Definition sendDLCommand (command : string) (dataString : option string)
  : M DataLinkConnection unit :=
  sendDLBinary command (stringToUint8Array dataString).

Definition stream : M DataLinkConnection unit :=
  (streaming <- gets (mode_is STREAM_MODE) ;;
   if (streaming : bool) then ret tt
   else
     modify (with_mode (Some STREAM_MODE)) ;;;
     sendDLCommand STREAM (Some EmptyString))%js.

Definition endStream : M DataLinkConnection unit :=
  (c <- gets (fun c => c) ;;
   match webSocket c, mode c with
   | Null, _ => ret tt
   | _, None => ret tt
   | _, Some m =>
       if String.eqb m QUERY_MODE then ret tt
       else
         modify (with_mode (Some QUERY_MODE)) ;;;
         sendDLCommand ENDSTREAM (Some EmptyString)
   end)%js.

Definition close : M DataLinkConnection unit :=
  (slot <- gets webSocket ;;
   match slot with
   | Socket =>
       endStream ;;;
       slot' <- gets webSocket ;;
       match slot' with
       | Socket => modify close_socket
       | _ => ret tt
       end ;;;
       modify (with_webSocket Null) ;;;
       modify (with_mode None)
   | _ => ret tt
   end)%js.

(** [header.split(' ')] *)
Fixpoint split_spaces (s : string) : list string :=
  match s with
  | EmptyString => [EmptyString]
  | String c r =>
      if Ascii.eqb c " "
      then EmptyString :: split_spaces r
      else match split_spaces r with
           | [] => [String c EmptyString]
           | w :: ws => String c w :: ws
           end
  end.

(** What [handle] passes on.  [ToPacketHandler] stands for the [try]
    block: a [DataLinkPacket] is built from the header and the rest of
    the message and given to [packetHandler], or the error of building
    it is given to [errorHandler].  An [Error] is shown by the value and
    the message it is composed of. *)
Inductive Event :=
| ToPacketHandler (header : string) (data : list Z)
| ToErrorHandler (text : string)
| ErrorToReject (value : option string) (message : string)
| ErrorToHandler (value : option string) (message : string)
| Resolve (response : string)
| Unhandled (message : string).

Section Handle.

(** [dataViewToString] of util.js. *)
Variable dataViewToString : list Z -> string.

(** [handleError(error)] *)
Definition handleError (value : option string) (message : string)
           (c : DataLinkConnection) : list Event :=
  (if responseReject c then [ErrorToReject value message] else [])
  ++ (if errorHandler c then [ErrorToHandler value message] else []).

(** [handle(wsEvent)] for the message [rawData]. *)
Definition handle (rawData : list Z) (c : DataLinkConnection) : Res (list Event) :=
  if (List.length rawData <? 3)%nat then Throw "RangeError"
  else if (nth 0 rawData 0 =? 68) && (nth 1 rawData 0 =? 76) then
    let headerLen := Z.to_nat (nth 2 rawData 0) in
    if (List.length rawData <? 3 + headerLen)%nat then Throw "RangeError"
    else
      let header := dataViewToString (firstn headerLen (skipn 3 rawData)) in
      let rest := skipn (3 + headerLen) rawData in
      if String.prefix PACKET header then
        if packetHandler c then Ok [ToPacketHandler header rest]
        else if errorHandler c then Ok [ToErrorHandler "packetHandler not defined"]
        else Throw "TypeError"
      else if String.prefix ERROR header || String.prefix "OK" header then
        let value := nth_error (split_spaces header) 1 in
        let message := dataViewToString rest in
        if String.prefix ERROR header then Ok (handleError value message c)
        else if responseResolve c then Ok [Resolve (header ++ " | " ++ message)]
        else Ok []
      else if responseResolve c then Ok [Resolve header]
      else Ok [Unhandled header]
  else Throw "DataLink Packet did not start with DL".

End Handle.

(** [momentToHPTime(m)] *)
Definition momentToHPTime (m : moment) : Q := fl64 (inject_Z m * 1000).

(** [hpTimeToMoment(hptime)]: [moment.utc] of a number clips it to a
    whole number of milliseconds. *)
Definition hpTimeToMoment (hptime : Q) : moment := Qtrunc (fl64 (hptime / 1000)).

End DataLink.

(** * Vocabulary of the statements *)

Module Seg := SeismogramSegment.

Definition total_samples (cs : list EncodedDataSegment) : nat :=
  fold_right (fun c n => (numSamples c + n)%nat) O cs.

(** Two segment states that differ at most in where the samples are
    held. *)
Definition same_header (s s' : Seg.t) : Prop :=
  Seg._sampleRate s' = Seg._sampleRate s
  /\ Seg._startTime s' = Seg._startTime s
  /\ Seg._endTime_cache s' = Seg._endTime_cache s
  /\ Seg._endTime_cache_numPoints s' = Seg._endTime_cache_numPoints s
  /\ Seg.networkCode s' = Seg.networkCode s
  /\ Seg.stationCode s' = Seg.stationCode s
  /\ Seg.locationCode s' = Seg.locationCode s
  /\ Seg.channelCode s' = Seg.channelCode s
  /\ Seg.yUnit s' = Seg.yUnit s.

(** The operations of [SeismogramSegment] that change the object: the
    three setters, the two caching getters, the methods built on them, and
    plain assignment to the public code and unit fields. *)
Inductive SegOp :=
| SetY (value : TypedArray)
| SetStartTime (value : moment)
| SetSampleRate (value : Q)
| GetY
| GetEndTime
| FindMinMax (minMaxAccumulator : option (Q * Q))
| Cut (timeWindow : StartEndDuration)
| AssignCodes (net sta loc chan : option string) (unit : string).

Definition run_op (op : SegOp) (s : Seg.t) : Seg.t :=
  match op with
  | SetY v => snd (Seg.set_y v s)
  | SetStartTime v => snd (Seg.set_startTime v s)
  | SetSampleRate v => snd (Seg.set_sampleRate v s)
  | GetY => snd (Seg.y s)
  | GetEndTime => snd (Seg.endTime s)
  | FindMinMax acc => snd (Seg.findMinMax acc s)
  | Cut w => snd (Seg.cut w s)
  | AssignCodes n st l c u => Seg.with_codes n st l c u s
  end.

Definition run_ops (ops : list SegOp) (s : Seg.t) : Seg.t :=
  fold_left (fun s op => run_op op s) ops s.

(** [m] keeps the property [I] of the state, whether it returns or throws. *)
Definition preserves {St A} (I : St -> Prop) (m : M St A) : Prop :=
  forall s, I s -> I (snd (m s)).

(** The cache is either empty, or recorded for another sample count, or
    it holds the time of the last sample. *)
Definition cache_ok (s : Seg.t) : Prop :=
  match Seg._endTime_cache s with
  | None => True
  | Some e =>
      Seg._endTime_cache_numPoints s = Seg.numPoints s ->
      e = Seg.timeOfSample s (Seg.numPoints s - 1)
  end.

(** Folding [findMinMax] over separate chunks: the pair returned for one
    chunk is the accumulator handed to the next. *)
Fixpoint findMinMax_chunked (acc : option (Q * Q)) (chunks : list Seg.t)
  : Res (option (Q * Q)) :=
  match chunks with
  | [] => Ok acc
  | c :: r =>
      match fst (Seg.findMinMax acc c) with
      | Ok mm => findMinMax_chunked (Some mm) r
      | Throw e => Throw e
      end
  end.

(** The starting pair of a scan. *)
Definition minmax_init (acc : option (Q * Q)) : Q * Q :=
  match acc with
  | Some a => a
  | None => (Seg.MAX_SAFE_INTEGER, (-1 * Seg.MAX_SAFE_INTEGER)%Q)
  end.

(** The product that the loop of [mean] adds for a segment whose samples
    are [a], and the running sum of the loop. *)
Definition mean_addend (meanOfSlice : TypedArray -> Z -> Q) (a : TypedArray) : Q :=
  fl64 (meanOfSlice a (ta_length a) * inject_Z (ta_length a)).


(** The states in which the time of the last sample is a date: the
    sample rate is not zero, and the start time and the time of the last
    sample are within the range of Date, 8.64e15 ms on either side of
    1970. *)
Definition dated (s : Seg.t) : Prop :=
  ~ (Seg._sampleRate s == 0)%Q
  /\ Z.abs (Seg._startTime s) <= 8640000000000000
  /\ Z.abs (Seg.timeOfSample s (Seg.numPoints s - 1)) <= 8640000000000000.

(** The instant that reading [endTime] returns in the state [s]. *)
Definition end_value (s : Seg.t) : moment :=
  match fst (Seg.endTime s) with
  | Ok e => e
  | Throw _ => 0
  end.

(** The test that [isContiguous] makes on two neighbours: the earlier one
    ends before the later one starts, and its end advanced by one and a
    half sample periods is after that start. *)
Definition gap_ok (prev next : Seg.t) : Prop :=
  end_value prev < Seg._startTime next
  /\ Seg._startTime next
     < Moment.add (end_value prev) (1000 * 1.5 / Seg._sampleRate prev)%Q Moment.ms.

Fixpoint adjacent_pairs {A} (l : list A) : list (A * A) :=
  match l with
  | a :: (b :: _) as r => (a, b) :: adjacent_pairs r
  | _ => []
  end.

(** The numbers that a store into an array of kind [k] keeps finite. *)
Definition storable (k : ArrayKind) (v : Q) : Prop :=
  match k with
  | Float32Array => single_range v
  | _ => True
  end.

(** The elements of a typed array are values of its own kind. *)
Definition ta_wf (a : TypedArray) : Prop :=
  Forall (fun v => coerce (ta_kind a) v = v) (ta_data a).

(** Sample data at 20 Hz: three samples from 1000 ms to 1100 ms, and two
    segments that start one and two sample periods after them. *)
Definition example_first : Seg.t :=
  Seg.new (Seg.YTyped (mkTA Int32Array [1; 2; 3]%Q)) 20 1000.
Definition example_one_period_later : Seg.t :=
  Seg.new (Seg.YTyped (mkTA Int32Array [4; 5]%Q)) 20 1150.
Definition example_two_periods_later : Seg.t :=
  Seg.new (Seg.YTyped (mkTA Int32Array [4; 5]%Q)) 20 1200.

(** Sample data at 20 Hz: five samples from 2020-09-13T12:26:40Z. *)
Definition example_recent : Seg.t :=
  Seg.new (Seg.YTyped (mkTA Int32Array [1; 2; 3; 4; 5]%Q)) 20 1600000000000.

(** What [cut] returns for a segment whose samples are [y0], from the
    start time, the sample rate and the end time as the getter gives it. *)
Definition cut_result (w : StartEndDuration) (s : Seg.t) (y0 : TypedArray)
  : option Seg.t :=
  let st := Seg._startTime s in
  let e := end_value s in
  if Moment.isBefore (w_endTime w) st || Moment.isAfter (w_startTime w) e then None
  else
    let rate := Seg._sampleRate s in
    let sIndex :=
      if Moment.isAfter (w_startTime w) st
      then Qfloor (fl64 (fl64 (inject_Z (Moment.diff (w_startTime w) st) * rate) / 1000))
      else 0 in
    let eIndex :=
      if Moment.isBefore (w_endTime w) e
      then ta_length y0
           - Qfloor (fl64 (fl64 (inject_Z (Moment.diff e (w_endTime w)) * rate) / 1000))
      else ta_length y0 in
    Some (Seg.cloneWithNewData s (Seg.YTyped (ta_slice y0 sIndex eIndex))
            (Moment.add st (inject_Z sIndex / rate)%Q Moment.seconds)).

(** The sample period of [s] is the whole number [p] of milliseconds. *)
Definition whole_ms_period (s : Seg.t) (p : Z) : Prop :=
  1 <= p /\ (Seg._sampleRate s == 1000 / inject_Z p)%Q.

(** The sample rate of [s] is a whole number of hertz. *)
Definition whole_hertz (s : Seg.t) : Prop :=
  exists r : Z, (Seg._sampleRate s == inject_Z r)%Q.

(** [s] starts at least ten times its own length after 1970-01-01, ends
    inside the range of a Date, and holds at most 2^40 samples.  Within
    such a segment the rounding errors of [i/sampleRate*1000] are lost
    when the start time is added, and the time of every sample is a whole
    number of periods after the start. *)
Definition steady (s : Seg.t) (p : Z) : Prop :=
  10 * (Seg.numPoints s + 1) * p <= Seg._startTime s
  /\ Seg._startTime s + Seg.numPoints s * p <= 8640000000000000
  /\ Seg.numPoints s <= 2 ^ 40.



(** The segment after its end time has been read. *)
Definition settle (s : Seg.t) : Seg.t := snd (Seg.endTime s).



(** The first test of [cut]: the window misses the segment. *)
Definition outside (w : StartEndDuration) (s : Seg.t) : bool :=
  Moment.isBefore (w_endTime w) (Seg._startTime s)
  || Moment.isAfter (w_startTime w) (end_value s).

(** The segments that [trim] keeps. *)
Definition trim_kept (w : StartEndDuration) (segs : list Seg.t) : list Seg.t :=
  filter (fun d => Moment.isBefore (Seg._startTime d) (w_endTime w))
         (map settle
              (filter (fun d => Moment.isAfter (end_value d) (w_startTime w)) segs)).

(** The seismogram that the constructor builds from similar segments. *)
Definition new_value (x0 : Seg.t) (rest : list Seg.t) : Seismogram.t :=
  Seismogram.mkSeismogram
    (map settle (x0 :: rest))
    (Seismogram.min_of (Seg._startTime x0) (map Seg._startTime rest))
    (Seismogram.max_of (end_value x0) (map end_value rest))
    None.

(** [s'] is [s] with other contents in the end-time cache. *)
Definition cache_only (s s' : Seg.t) : Prop :=
  exists c n, s' = Seg.with_endTime_cache c (Seg.with_endTime_cache_numPoints n s).

Module SDD := SeismogramDisplayData.

(** The segment is strictly inside the reach of the window: it ends after
    the window starts and starts before the window ends. *)
Definition overlaps (w : StartEndDuration) (d : Seg.t) : bool :=
  Moment.isAfter (end_value d) (w_startTime w)
  && Moment.isBefore (Seg._startTime d) (w_endTime w).

(** A stand-in for the external transform in the examples: it copies the
    input into the output array. *)
Definition copy_transform (log2N : Z) (input out : list Q) : list Q :=
  firstn (List.length out) (input ++ out).

(** The seismogram that the argument of [fftForward] is or holds. *)
Definition fft_input_holds {MarkerType Channel InstrumentSensitivity Quake : Type}
           (seis : Seismogram.t + SDD.t MarkerType Channel InstrumentSensitivity Quake)
           (sm : Seismogram.t) : Prop :=
  match seis with
  | inl s => s = sm
  | inr d => SDD._seismogram d = Some sm
  end.

(** The data section of a DataLink packet: the data handed to
    [encodeDL], when there is some. *)
Definition payload (data : option (list Z)) : list Z :=
  match data with
  | Some (b :: r) => b :: r
  | _ => []
  end.

(** The header of a DataLink packet: the command, followed by a space
    and the decimal length of the data when there is data. *)
Definition header_text (command : string) (data : option (list Z)) : string :=
  match payload data with
  | [] => command
  | d => (command ++ " " ++ DataLink.String_of (List.length d))%string
  end.

(** The commands that a connection sends to switch modes. *)
Inductive StreamOp := DoStream | DoEndStream.

Definition run_stream_op (op : StreamOp) : M DataLink.DataLinkConnection unit :=
  match op with
  | DoStream => DataLink.stream
  | DoEndStream => DataLink.endStream
  end.

Fixpoint run_stream_ops (ops : list StreamOp) : M DataLink.DataLinkConnection unit :=
  match ops with
  | [] => ret tt
  | op :: r => (run_stream_op op ;;; run_stream_ops r)%js
  end.

(** The packets of the commands STREAM and ENDSTREAM. *)
Definition stream_packet : list Z := [68; 76; 6] ++ DataLink.char_codes DataLink.STREAM.
Definition endstream_packet : list Z :=
  [68; 76; 9] ++ DataLink.char_codes DataLink.ENDSTREAM.

(** [n] packets that switch the mode back and forth, from streaming or
    from querying. *)
Fixpoint alternating (streaming : bool) (n : nat) : list (list Z) :=
  match n with
  | O => []
  | S k =>
      (if streaming then endstream_packet else stream_packet)
      :: alternating (negb streaming) k
  end.

(** A [dataViewToString] for the examples: one character per byte. *)
Definition bytes_to_string (bytes : list Z) : string :=
  string_of_list_ascii (map (fun b => ascii_of_nat (Z.to_nat b)) bytes).

(** * Facts *)

Ltac destruct_match :=
  match goal with
  | |- context [match ?x with _ => _ end] => destruct x eqn:?
  | H : context [match ?x with _ => _ end] |- _ => destruct x eqn:?
  end.

Ltac inv H := inversion H; subst; clear H.

(** ** Rounding: nearest, exact on the format, monotone *)
Lemma pow2_pos e : (0 < pow2 e)%Q.
Proof. apply Qpower_0_lt. reflexivity. Qed.

Lemma pow2_add a b : (pow2 (a + b) == pow2 a * pow2 b)%Q.
Proof. apply Qpower_plus. discriminate. Qed.

Lemma pow2_Z e : 0 <= e -> (pow2 e == inject_Z (2 ^ e))%Q.
Proof. intros H. unfold pow2. rewrite Zpower_Qpower by exact H. reflexivity. Qed.

Lemma pow2_le a b : a <= b -> (pow2 a <= pow2 b)%Q.
Proof. intros H. apply Qpower_le_compat_l. exact H. discriminate. Qed.

Lemma pow2_lt a b : a < b -> (pow2 a < pow2 b)%Q.
Proof. intros H. apply Qpower_lt_compat_l. exact H. reflexivity. Qed.

Lemma pow2_succ a : (pow2 (a + 1) == 2 * pow2 a)%Q.
Proof. rewrite pow2_add. change (pow2 1) with 2%Q. ring. Qed.

Lemma pow2_sub a b : (pow2 (a - b) == pow2 a / pow2 b)%Q.
Proof.
  assert (H : (pow2 a == pow2 (a - b) * pow2 b)%Q).
  { rewrite <- pow2_add. replace (a - b + b) with a by lia. reflexivity. }
  pose proof (pow2_pos b). rewrite H. field. lra.
Qed.

Ltac qabs :=
  repeat match goal with
         | |- context [Qabs ?t] => apply (Qabs_case t); intros
         | H : context [Qabs ?t] |- _ => revert H; apply (Qabs_case t); intros
         end.

Lemma round_half_even_nearest x k :
  (Qabs (inject_Z (round_half_even x) - x) <= Qabs (inject_Z k - x))%Q.
Proof.
  pose proof (Qfloor_le x) as Hl. pose proof (Qlt_floor x) as Hu.
  rewrite inject_Z_plus in Hu. change (inject_Z 1) with 1%Q in Hu.
  assert (Hk : (inject_Z k <= inject_Z (Qfloor x)
                \/ inject_Z (Qfloor x) + 1 <= inject_Z k)%Q).
  { destruct (Z_le_gt_dec k (Qfloor x)) as [H|H].
    - left. rewrite <- Zle_Qle. exact H.
    - right. rewrite <- (inject_Z_plus _ 1), <- Zle_Qle. lia. }
  unfold round_half_even.
  destruct (x - inject_Z (Qfloor x) ?= 1 # 2)%Q eqn:E.
  - apply Qeq_alt in E. destruct (Z.even (Qfloor x));
      [|rewrite inject_Z_plus; change (inject_Z 1) with 1%Q];
      qabs; destruct Hk; lra.
  - apply Qlt_alt in E. qabs; destruct Hk; lra.
  - apply Qgt_alt in E. rewrite inject_Z_plus; change (inject_Z 1) with 1%Q.
    qabs; destruct Hk; lra.
Qed.

Lemma round_half_even_Z k : round_half_even (inject_Z k) = k.
Proof.
  pose proof (round_half_even_nearest (inject_Z k) k) as H.
  assert (E : (inject_Z (round_half_even (inject_Z k)) == inject_Z k)%Q).
  { revert H. qabs; lra. }
  unfold Qeq in E. cbn in E. lia.
Qed.

Lemma round_half_even_half x :
  (Qabs (inject_Z (round_half_even x) - x) <= 1 # 2)%Q.
Proof.
  pose proof (round_half_even_nearest x (Qfloor x)) as H1.
  pose proof (round_half_even_nearest x (Qfloor x + 1)) as H2.
  pose proof (Qfloor_le x) as Hl. pose proof (Qlt_floor x) as Hu.
  rewrite inject_Z_plus in *. change (inject_Z 1) with 1%Q in *.
  revert H1 H2. qabs; lra.
Qed.

Lemma round_half_even_le x k : (x <= inject_Z k)%Q -> round_half_even x <= k.
Proof.
  intros H. pose proof (round_half_even_nearest x k) as Hn.
  destruct (Z_le_gt_dec (round_half_even x) k) as [|G]; [assumption|exfalso].
  assert (G' : (inject_Z k + 1 <= inject_Z (round_half_even x))%Q).
  { rewrite <- (inject_Z_plus _ 1), <- Zle_Qle. lia. }
  revert Hn. qabs; lra.
Qed.

Lemma round_half_even_ge x k : (inject_Z k <= x)%Q -> k <= round_half_even x.
Proof.
  intros H. pose proof (round_half_even_nearest x k) as Hn.
  destruct (Z_le_gt_dec k (round_half_even x)) as [|G]; [assumption|exfalso].
  assert (G' : (inject_Z (round_half_even x) + 1 <= inject_Z k)%Q).
  { rewrite <- (inject_Z_plus _ 1), <- Zle_Qle. lia. }
  revert Hn. qabs; lra.
Qed.

Lemma Qdiv_le_cross a b c d :
  (0 < b -> 0 < d -> a * d <= c * b -> a / b <= c / d)%Q.
Proof.
  intros Hb Hd H. apply Qle_shift_div_l; [exact Hd|].
  assert (E : (a / b * d == (a * d) / b)%Q) by (field; lra).
  rewrite E. apply Qle_shift_div_r; [exact Hb|exact H].
Qed.

Lemma Qdiv_lt_cross a b c d :
  (0 < b -> 0 < d -> a * d < c * b -> a / b < c / d)%Q.
Proof.
  intros Hb Hd H. apply Qlt_shift_div_l; [exact Hd|].
  assert (E : (a / b * d == (a * d) / b)%Q) by (field; lra).
  rewrite E. apply Qlt_shift_div_r; [exact Hb|exact H].
Qed.

Lemma ilog2_spec x :
  (0 < x)%Q -> (pow2 (ilog2 x) <= x)%Q /\ (x < pow2 (ilog2 x + 1))%Q.
Proof.
  intros Hx. destruct x as [n d].
  assert (Hn : 0 < n) by (unfold Qlt in Hx; cbn in Hx; lia).
  pose proof (Z.log2_spec n Hn) as [Hn1 Hn2].
  pose proof (Z.log2_spec (Zpos d) (Pos2Z.is_pos d)) as [Hd1 Hd2].
  pose proof (Z.log2_nonneg n) as Hln. pose proof (Z.log2_nonneg (Zpos d)) as Hld.
  rewrite Z.pow_succ_r in Hn2, Hd2 by assumption.
  unfold ilog2. cbn [Qnum Qden].
  set (ln := Z.log2 n) in *. set (ld := Z.log2 (Zpos d)) in *.
  assert (HA : (0 < inject_Z (2 ^ ln))%Q).
  { rewrite <- pow2_Z by assumption. apply pow2_pos. }
  assert (HB : (0 < inject_Z (2 ^ ld))%Q).
  { rewrite <- pow2_Z by assumption. apply pow2_pos. }
  assert (HD : (0 < inject_Z (Zpos d))%Q) by reflexivity.
  rewrite Zle_Qle in Hn1, Hd1. rewrite Zlt_Qlt in Hn2, Hd2.
  rewrite inject_Z_mult in Hn2, Hd2. change (inject_Z 2) with 2%Q in Hn2, Hd2.
  assert (Ex : (n # d == inject_Z n / inject_Z (Zpos d))%Q) by apply Qmake_Qdiv.
  assert (Ek : (pow2 (ln - ld) == inject_Z (2 ^ ln) / inject_Z (2 ^ ld))%Q).
  { rewrite pow2_sub, !pow2_Z by assumption. reflexivity. }
  destruct (Qle_bool (pow2 (ln - ld)) (n # d)) eqn:T.
  - apply Qle_bool_iff in T. split; [exact T|].
    rewrite pow2_succ, Ek, Ex.
    assert (E2 : (2 * (inject_Z (2 ^ ln) / inject_Z (2 ^ ld))
                  == (2 * inject_Z (2 ^ ln)) / inject_Z (2 ^ ld))%Q) by (field; lra).
    rewrite E2. apply Qdiv_lt_cross; try assumption. nra.
  - assert (T' : (n # d < pow2 (ln - ld))%Q).
    { apply Qnot_le_lt. intros C. apply Qle_bool_iff in C. congruence. }
    split.
    + replace (ln - ld - 1) with (ln - (ld + 1)) by lia.
      rewrite pow2_sub, pow2_succ, !pow2_Z, Ex by assumption.
      apply Qdiv_le_cross; try assumption; nra.
    + replace (ln - ld - 1 + 1) with (ln - ld) by lia. exact T'.
Qed.

Section Rounding.

Variables prec emin : Z.
Hypothesis Hprec : 1 <= prec.

Lemma representable_opp f :
  representable prec emin f -> representable prec emin (- f).
Proof.
  intros [m [e [Hm [He E]]]]. exists (- m), e. split; [lia|split; [exact He|]].
  rewrite E, inject_Z_opp. ring.
Qed.

Lemma representable_0 : representable prec emin 0.
Proof.
  exists 0, emin. split; [|split; [lia|ring]].
  pose proof (Z.pow_pos_nonneg 2 prec). cbn. lia.
Qed.

Lemma representable_comp f g :
  (f == g)%Q -> representable prec emin f -> representable prec emin g.
Proof. intros E [m [e [Hm [He Ef]]]]. exists m, e. rewrite <- E. auto. Qed.

(** [round_pos] picks a multiple of the unit in the last place that is
    nearest to [x]. *)
Lemma round_pos_multiple x K :
  (0 < x)%Q ->
  let q := Z.max (ilog2 x - (prec - 1)) emin in
  (Qabs (round_pos prec emin x - x) <= Qabs (inject_Z K * pow2 q - x))%Q.
Proof.
  intros Hx q. unfold round_pos. fold q.
  pose proof (pow2_pos q) as Hq.
  pose proof (round_half_even_nearest (x / pow2 q) K) as H.
  set (n := inject_Z (round_half_even (x / pow2 q))) in *.
  assert (E : (x == x / pow2 q * pow2 q)%Q) by (field; lra).
  set (t := (x / pow2 q)%Q) in *.
  set (s := pow2 q) in *. revert H. qabs; nra.
Qed.

Lemma round_pos_nearest x f :
  (0 < x)%Q -> representable prec emin f ->
  (Qabs (round_pos prec emin x - x) <= Qabs (f - x))%Q.
Proof.
  intros Hx [m [e' [Hm [He E]]]].
  pose proof (ilog2_spec x Hx) as [Hlo Hhi].
  set (q := Z.max (ilog2 x - (prec - 1)) emin).
  destruct (Z_le_gt_dec q e') as [Hqe|Hqe].
  - pose proof (round_pos_multiple x (m * 2 ^ (e' - q)) Hx) as H. cbv zeta in H. fold q in H.
    assert (Ef : (inject_Z (m * 2 ^ (e' - q)) * pow2 q == f)%Q).
    { rewrite E, inject_Z_mult, <- pow2_Z by lia.
      rewrite <- Qmult_assoc, <- pow2_add. replace (e' - q + q) with e' by lia.
      reflexivity. }
    rewrite Ef in H. exact H.
  - assert (Hq : q = ilog2 x - (prec - 1)) by (unfold q in *; lia).
    pose proof (round_pos_multiple x (2 ^ (prec - 1)) Hx) as H. cbv zeta in H. fold q in H.
    assert (Ee : (inject_Z (2 ^ (prec - 1)) * pow2 q == pow2 (ilog2 x))%Q).
    { rewrite <- pow2_Z, <- pow2_add by lia. rewrite Hq.
      replace (prec - 1 + (ilog2 x - (prec - 1))) with (ilog2 x) by lia. reflexivity. }
    rewrite Ee in H.
    assert (Hf : (f < pow2 (ilog2 x))%Q).
    { rewrite E.
      assert (Hm' : (inject_Z m < pow2 prec)%Q).
      { rewrite pow2_Z by lia. rewrite <- Zlt_Qlt. lia. }
      assert (He' : (pow2 e' <= pow2 (q - 1))%Q) by (apply pow2_le; lia).
      assert (Hs : (pow2 (ilog2 x) == pow2 prec * pow2 (q - 1))%Q).
      { rewrite <- pow2_add. rewrite Hq.
        replace (prec + (ilog2 x - (prec - 1) - 1)) with (ilog2 x) by lia. reflexivity. }
      rewrite Hs. pose proof (pow2_pos e'). pose proof (pow2_pos (q - 1)).
      pose proof (pow2_pos prec).
      destruct (Qlt_le_dec (inject_Z m) 0); nra. }
    revert H. qabs; lra.
Qed.

Lemma round_pos_bounds x :
  (0 < x)%Q ->
  let q := Z.max (ilog2 x - (prec - 1)) emin in
  0 <= round_half_even (x / pow2 q) <= 2 ^ prec.
Proof.
  intros Hx q. pose proof (ilog2_spec x Hx) as [Hlo Hhi].
  pose proof (pow2_pos q) as Hq. split.
  - apply round_half_even_ge. change (inject_Z 0) with 0%Q.
    apply Qle_shift_div_l; [exact Hq|lra].
  - apply round_half_even_le. apply Qle_shift_div_r; [exact Hq|].
    rewrite <- pow2_Z, <- pow2_add by lia.
    apply Qlt_le_weak. eapply Qlt_le_trans; [exact Hhi|].
    apply pow2_le. unfold q. lia.
Qed.

Lemma round_pos_representable x :
  (0 < x)%Q -> representable prec emin (round_pos prec emin x).
Proof.
  intros Hx. pose proof (round_pos_bounds x Hx) as Hb. cbv zeta in Hb.
  unfold round_pos. set (q := Z.max (ilog2 x - (prec - 1)) emin) in *.
  set (n := round_half_even (x / pow2 q)) in *.
  destruct (Z_lt_le_dec n (2 ^ prec)) as [Hn|Hn].
  - exists n, q. split; [lia|split; [unfold q; lia|reflexivity]].
  - exists (2 ^ (prec - 1)), (q + 1). split; [|split].
    + rewrite Z.abs_eq by (apply Z.pow_nonneg; lia).
      apply Z.pow_lt_mono_r; lia.
    + unfold q; lia.
    + replace n with (2 ^ prec) by lia.
      rewrite <- !pow2_Z, <- !pow2_add by lia.
      replace (prec - 1 + (q + 1)) with (prec + q) by lia. reflexivity.
Qed.

Lemma round_pos_nonneg x : (0 < x)%Q -> (0 <= round_pos prec emin x)%Q.
Proof.
  intros Hx. pose proof (round_pos_bounds x Hx) as [Hb _]. cbv zeta in Hb.
  unfold round_pos. pose proof (pow2_pos (Z.max (ilog2 x - (prec - 1)) emin)).
  rewrite Zle_Qle in Hb. change (inject_Z 0) with 0%Q in Hb. nra.
Qed.

(** The three cases of [round_binary]. *)
Lemma round_binary_cases x :
  ((x == 0)%Q /\ (round_binary prec emin x == 0)%Q)
  \/ ((0 < x)%Q /\ (round_binary prec emin x == round_pos prec emin (Qred x))%Q)
  \/ ((x < 0)%Q /\ (round_binary prec emin x == - round_pos prec emin (- Qred x))%Q).
Proof.
  unfold round_binary. pose proof (Qred_correct x) as Ex.
  destruct (Qred x ?= 0)%Q eqn:C.
  - left. apply Qeq_alt in C. split; [lra|]. rewrite Qred_correct. reflexivity.
  - right. right. apply Qlt_alt in C. split; [lra|]. rewrite Qred_correct. reflexivity.
  - right. left. apply Qgt_alt in C. split; [lra|]. rewrite Qred_correct. reflexivity.
Qed.

(** The result is a number of the format ... *)
Theorem round_binary_representable x :
  representable prec emin (round_binary prec emin x).
Proof.
  pose proof (Qred_correct x) as Ex.
  destruct (round_binary_cases x) as [[H E]|[[H E]|[H E]]];
    apply (representable_comp _ _ (Qeq_sym _ _ E)).
  - apply representable_0.
  - apply round_pos_representable. lra.
  - apply representable_opp, round_pos_representable. lra.
Qed.

(** ... and no number of the format is nearer to [x]. *)
Theorem round_binary_nearest x f :
  representable prec emin f ->
  (Qabs (round_binary prec emin x - x) <= Qabs (f - x))%Q.
Proof.
  intros Hf. pose proof (Qred_correct x) as Ex.
  destruct (round_binary_cases x) as [[H E]|[[H E]|[H E]]]; rewrite E.
  - qabs; lra.
  - assert (Hx : (0 < Qred x)%Q) by lra.
    pose proof (round_pos_nearest (Qred x) f Hx Hf) as N.
    rewrite Ex in N at 2 3. exact N.
  - assert (Hx : (0 < - Qred x)%Q) by lra.
    pose proof (round_pos_nearest (- Qred x) (- f) Hx (representable_opp f Hf)) as N.
    revert N. set (r := round_pos prec emin (- Qred x)). qabs; lra.
Qed.

Lemma round_binary_comp x y :
  (x == y)%Q -> round_binary prec emin x = round_binary prec emin y.
Proof. intros E. unfold round_binary. rewrite (Qred_complete x y E). reflexivity. Qed.

(** A number of the format is not changed. *)
Theorem round_binary_exact x :
  representable prec emin x -> (round_binary prec emin x == x)%Q.
Proof.
  intros Hx. pose proof (round_binary_nearest x x Hx) as H.
  revert H. qabs; lra.
Qed.

Theorem round_binary_monotone x y :
  (x <= y)%Q -> (round_binary prec emin x <= round_binary prec emin y)%Q.
Proof.
  intros Hxy. apply Qnot_lt_le. intros C.
  pose proof (round_binary_nearest x _ (round_binary_representable y)) as H1.
  pose proof (round_binary_nearest y _ (round_binary_representable x)) as H2.
  assert (E : (x == y)%Q) by (revert H1 H2; qabs; lra).
  rewrite (round_binary_comp x y E) in C. lra.
Qed.

Lemma round_binary_sign x :
  ((0 <= x)%Q -> (0 <= round_binary prec emin x)%Q)
  /\ ((x <= 0)%Q -> (round_binary prec emin x <= 0)%Q).
Proof.
  pose proof (round_binary_exact 0 representable_0) as E0.
  split; intros H.
  - rewrite <- E0. apply round_binary_monotone. exact H.
  - rewrite <- E0. apply round_binary_monotone. exact H.
Qed.

End Rounding.

Lemma Qred_inject_Z z : Qred (inject_Z z) = inject_Z z.
Proof.
  unfold Qred, inject_Z.
  pose proof (Z.ggcd_gcd z 1) as Hg.
  pose proof (Z.ggcd_correct_divisors z 1) as Hd.
  destruct (Z.ggcd z 1) as [g [a b]]. cbn [fst snd] in *.
  rewrite Z.gcd_1_r in Hg. subst g. destruct Hd as [Ha Hb].
  replace a with z by lia. replace b with 1 by lia. reflexivity.
Qed.

Lemma pow2_lt_inv a b : (pow2 a < pow2 b)%Q -> a < b.
Proof.
  intros H. destruct (Z_lt_le_dec a b) as [|C]; [assumption|].
  pose proof (pow2_le b a C). lra.
Qed.

Lemma pow2_le_inv a b : (pow2 a <= pow2 b)%Q -> a <= b.
Proof.
  intros H. destruct (Z_le_gt_dec a b) as [|C]; [assumption|].
  assert (C' : b < a) by lia. pose proof (pow2_lt b a C'). lra.
Qed.

Section RoundingBounds.

Variables prec emin : Z.
Hypothesis Hprec : 1 <= prec.

Lemma round_binary_canonical x :
  Qred (round_binary prec emin x) = round_binary prec emin x.
Proof.
  unfold round_binary. apply Qred_complete, Qred_correct.
Qed.

Lemma round_binary_eq x y :
  (round_binary prec emin x == y)%Q -> round_binary prec emin x = Qred y.
Proof.
  intros E. rewrite <- round_binary_canonical. apply Qred_complete. exact E.
Qed.

Lemma round_binary_idem x :
  round_binary prec emin (round_binary prec emin x) = round_binary prec emin x.
Proof.
  rewrite (round_binary_eq (round_binary prec emin x) (round_binary prec emin x)).
  - apply round_binary_canonical.
  - apply round_binary_exact; [exact Hprec|].
    apply round_binary_representable. exact Hprec.
Qed.

(** Whole numbers of at most [prec] bits, and their binary fractions. *)
Lemma representable_dyadic m k :
  Z.abs m <= 2 ^ prec -> emin <= k ->
  representable prec emin (inject_Z m * pow2 k).
Proof.
  intros Hm Hk. destruct (Z.eq_dec (Z.abs m) (2 ^ prec)) as [E|N].
  - exists (m / 2), (k + 1). split; [|split; [lia|]].
    + assert (H2 : 2 ^ prec = 2 * 2 ^ (prec - 1)).
      { rewrite <- Z.pow_succ_r by lia. f_equal. lia. }
      assert (0 < 2 ^ (prec - 1)) by (apply Z.pow_pos_nonneg; lia).
      destruct (Z.abs_spec m) as [[_ A]|[_ A]]; rewrite A in E.
      * rewrite E, H2, Z.mul_comm, Z.div_mul by lia. rewrite Z.abs_eq by lia. lia.
      * replace m with (- 2 ^ (prec - 1) * 2) by lia.
        rewrite Z.div_mul by lia. rewrite Z.abs_neq by lia. lia.
    + assert (Em : m = 2 * (m / 2)).
      { assert (H2 : 2 ^ prec = 2 * 2 ^ (prec - 1)).
        { rewrite <- Z.pow_succ_r by lia. f_equal. lia. }
        destruct (Z.abs_spec m) as [[_ A]|[_ A]]; rewrite A in E.
        - rewrite E, H2, Z.mul_comm, Z.div_mul by lia. lia.
        - replace m with (- 2 ^ (prec - 1) * 2) at 2 by lia.
          rewrite Z.div_mul by lia. lia. }
      rewrite pow2_succ. rewrite Em at 1. rewrite inject_Z_mult.
      change (inject_Z 2) with 2%Q. ring.
  - exists m, k. split; [lia|split; [exact Hk|reflexivity]].
Qed.

Lemma representable_Z z :
  emin <= 0 -> Z.abs z <= 2 ^ prec -> representable prec emin (inject_Z z).
Proof.
  intros He Hz. apply (representable_comp prec emin (inject_Z z * pow2 0)).
  - change (pow2 0) with 1%Q. ring.
  - apply representable_dyadic; assumption.
Qed.

Lemma round_binary_Z z :
  emin <= 0 -> Z.abs z <= 2 ^ prec ->
  round_binary prec emin (inject_Z z) = inject_Z z.
Proof.
  intros He Hz. rewrite <- (Qred_inject_Z z) at 2. apply round_binary_eq.
  apply round_binary_exact; [exact Hprec|]. apply representable_Z; assumption.
Qed.

(** Half a unit in the last place bounds the error. *)
Lemma round_pos_error x :
  (0 < x)%Q -> (pow2 (emin + prec - 1) <= x)%Q ->
  (Qabs (round_pos prec emin x - x) <= x * pow2 (- prec))%Q.
Proof.
  intros Hx Hn. pose proof (ilog2_spec x Hx) as [Hlo Hhi].
  assert (He : emin + prec - 1 <= ilog2 x).
  { assert (L : (pow2 (emin + prec - 1) < pow2 (ilog2 x + 1))%Q) by lra.
    apply pow2_lt_inv in L. lia. }
  unfold round_pos. set (q := Z.max (ilog2 x - (prec - 1)) emin).
  assert (Hq : q = ilog2 x - (prec - 1)) by (unfold q; lia).
  pose proof (round_half_even_half (x / pow2 q)) as H.
  pose proof (pow2_pos q) as Hq0.
  assert (E : (x == x / pow2 q * pow2 q)%Q) by (field; lra).
  assert (Es : (pow2 (ilog2 x) * pow2 (- prec) == (1 # 2) * pow2 q)%Q).
  { rewrite <- pow2_add. replace (ilog2 x + - prec) with (q - 1) by lia.
    rewrite pow2_sub. change (pow2 1) with 2%Q. field. }
  pose proof (pow2_pos (- prec)) as Hp.
  assert (B : ((1 # 2) * pow2 q <= x * pow2 (- prec))%Q) by (rewrite <- Es; nra).
  set (n := inject_Z (round_half_even (x / pow2 q))) in *.
  set (t := (x / pow2 q)%Q) in *. set (s := pow2 q) in *.
  clearbody n t s.
  assert (B2 : (Qabs (n * s - x) <= (1 # 2) * s)%Q).
  { apply Qabs_Qle_condition. apply Qabs_Qle_condition in H. destruct H as [H1 H2].
    split; nra. }
  lra.
Qed.

Theorem round_binary_error x :
  (pow2 (emin + prec - 1) <= Qabs x)%Q ->
  (Qabs (round_binary prec emin x - x) <= Qabs x * pow2 (- prec))%Q.
Proof.
  intros Hn. pose proof (Qred_correct x) as Ex.
  pose proof (pow2_pos (emin + prec - 1)) as Hp.
  destruct (round_binary_cases prec emin x) as [[H E]|[[H E]|[H E]]]; rewrite E.
  - exfalso. revert Hn. qabs; lra.
  - assert (Hx : (0 < Qred x)%Q) by lra.
    assert (Hn' : (pow2 (emin + prec - 1) <= Qred x)%Q) by (revert Hn; qabs; lra).
    pose proof (round_pos_error (Qred x) Hx Hn') as N.
    set (r := round_pos prec emin (Qred x)) in *. pose proof (pow2_pos (- prec)).
    revert N. qabs; nra.
  - assert (Hx : (0 < - Qred x)%Q) by lra.
    assert (Hn' : (pow2 (emin + prec - 1) <= - Qred x)%Q) by (revert Hn; qabs; lra).
    pose proof (round_pos_error (- Qred x) Hx Hn') as N.
    set (r := round_pos prec emin (- Qred x)) in *. pose proof (pow2_pos (- prec)).
    revert N. qabs; nra.
Qed.

End RoundingBounds.

Section Snap.

Variables prec emin : Z.
Hypothesis Hprec : 1 <= prec.
Hypothesis Hemin : emin <= 0.

(** Near a whole number of fewer than [prec] bits no other number of the
    format is as near: what lies within a quarter of its last bit (taken
    relatively) is rounded to it. *)
Theorem round_binary_snap (N : Z) (w : Q) :
  N <> 0 -> Z.abs N < 2 ^ prec ->
  (Qabs (w - inject_Z N) <= Qabs (inject_Z N) * pow2 (- prec - 2))%Q ->
  (round_binary prec emin w == inject_Z N)%Q.
Proof.
  intros HN0 HNp Hw.
  pose proof (round_binary_representable prec emin Hprec w) as [m [e' [Hm [He' Ez]]]].
  assert (HNr : representable prec emin (inject_Z N))
    by (apply representable_Z; [exact Hprec|exact Hemin|lia]).
  pose proof (round_binary_nearest prec emin Hprec w _ HNr) as Hnear.
  set (z := round_binary prec emin w) in *.
  set (a := Qabs (inject_Z N)) in *.
  assert (Ha1 : (1 <= a)%Q).
  { unfold a. assert (H1 : (inject_Z 1 <= inject_Z (Z.abs N))%Q) by (rewrite <- Zle_Qle; lia).
    change (inject_Z 1) with 1%Q in H1.
    destruct (Z.abs_spec N) as [[Hs A]|[Hs A]]; rewrite A in H1.
    - rewrite Qabs_pos; [exact H1|]. change 0%Q with (inject_Z 0). rewrite <- Zle_Qle. lia.
    - rewrite inject_Z_opp in H1. rewrite Qabs_neg; [exact H1|].
      change 0%Q with (inject_Z 0). rewrite <- Zle_Qle. lia. }
  assert (Hap : (a < pow2 prec)%Q).
  { unfold a. rewrite pow2_Z by lia.
    assert (H1 : (inject_Z (Z.abs N) < inject_Z (2 ^ prec))%Q) by (rewrite <- Zlt_Qlt; lia).
    destruct (Z.abs_spec N) as [[Hs A]|[Hs A]]; rewrite A in H1.
    - rewrite Qabs_pos; [exact H1|]. change 0%Q with (inject_Z 0). rewrite <- Zle_Qle. lia.
    - rewrite inject_Z_opp in H1. rewrite Qabs_neg; [exact H1|].
      change 0%Q with (inject_Z 0). rewrite <- Zle_Qle. lia. }
  assert (Ha0 : (0 < a)%Q) by lra.
  pose proof (ilog2_spec a Ha0) as [Hlo Hhi]. set (E := ilog2 a) in *.
  assert (HE0 : 0 <= E).
  { assert (L : (pow2 0 < pow2 (E + 1))%Q) by (change (pow2 0) with 1%Q; lra).
    apply pow2_lt_inv in L. lia. }
  assert (HEp : E < prec).
  { apply pow2_lt_inv. lra. }
  (* the distance from z to N *)
  assert (Hs1 : (pow2 (- prec - 2) * 4 == pow2 (- prec))%Q).
  { replace (- prec) with (- prec - 2 + 2) at 2 by lia. rewrite pow2_add.
    change (pow2 2) with 4%Q. reflexivity. }
  assert (Hs2 : (pow2 (E + 1) * pow2 (- prec) == 2 * pow2 (E - prec))%Q).
  { rewrite <- pow2_add. replace (E + 1 + - prec) with (E - prec + 1) by lia.
    apply pow2_succ. }
  assert (Hs3 : (pow2 (E - prec) * 2 <= pow2 E)%Q).
  { rewrite Qmult_comm, <- pow2_succ. apply pow2_le. lia. }
  pose proof (pow2_pos (- prec - 2)) as Hp2. pose proof (pow2_pos (- prec)) as Hp3.
  pose proof (pow2_pos (E - prec)) as Hp4.
  assert (Hd : (Qabs (z - inject_Z N) < pow2 (E - prec))%Q).
  { assert (D : (Qabs (z - inject_Z N) <= 2 * (a * pow2 (- prec - 2)))%Q).
    { revert Hnear Hw. generalize (a * pow2 (- prec - 2))%Q. intros b. qabs; lra. }
    assert (D2 : (2 * (a * pow2 (- prec - 2)) < pow2 (E - prec))%Q) by nra.
    lra. }
  (* z is large enough to be a multiple of 2^(E - prec) *)
  assert (Hz : (pow2 (E - 1) < Qabs z)%Q).
  { assert (Hh : (pow2 E == 2 * pow2 (E - 1))%Q).
    { replace E with (E - 1 + 1) at 1 by lia. apply pow2_succ. }
    pose proof (pow2_pos (E - 1)).
    revert Hd. unfold a in *. qabs; lra. }
  assert (He : E - prec <= e').
  { assert (Hzm : (Qabs z < pow2 (prec + e'))%Q).
    { rewrite Ez, Qabs_Qmult, pow2_add.
      rewrite (Qabs_pos (pow2 e')) by (apply Qlt_le_weak, pow2_pos).
      assert (Hm' : (Qabs (inject_Z m) < pow2 prec)%Q).
      { rewrite pow2_Z by lia.
        assert (H1 : (inject_Z (Z.abs m) < inject_Z (2 ^ prec))%Q) by (rewrite <- Zlt_Qlt; lia).
        destruct (Z.abs_spec m) as [[Hs A]|[Hs A]]; rewrite A in H1.
        - rewrite Qabs_pos; [exact H1|]. change 0%Q with (inject_Z 0). rewrite <- Zle_Qle. lia.
        - rewrite inject_Z_opp in H1. rewrite Qabs_neg; [exact H1|].
          change 0%Q with (inject_Z 0). rewrite <- Zle_Qle. lia. }
      pose proof (pow2_pos e'). nra. }
    assert (L : (pow2 (E - 1) < pow2 (prec + e'))%Q) by lra.
    apply pow2_lt_inv in L. lia. }
  (* both are multiples of 2^(E - prec) *)
  set (K := m * 2 ^ (e' - (E - prec)) - N * 2 ^ (prec - E)).
  assert (EK : (z - inject_Z N == inject_Z K * pow2 (E - prec))%Q).
  { unfold K. rewrite Ez. unfold Zminus at 1.
    rewrite inject_Z_plus, inject_Z_opp, !inject_Z_mult, <- !pow2_Z by lia.
    assert (P1 : (pow2 (e' - (E - prec)) * pow2 (E - prec) == pow2 e')%Q).
    { rewrite <- pow2_add. replace (e' - (E - prec) + (E - prec)) with e' by lia.
      reflexivity. }
    assert (P2 : (pow2 (prec - E) * pow2 (E - prec) == 1)%Q).
    { rewrite <- pow2_add. replace (prec - E + (E - prec)) with 0 by lia. reflexivity. }
    set (u := pow2 (e' - (E - prec))) in *. set (v := pow2 (prec - E)) in *.
    set (s := pow2 (E - prec)) in *. set (t := pow2 e') in *.
    transitivity (inject_Z m * (u * s) - inject_Z N * (v * s))%Q; [|ring].
    rewrite P1, P2. ring. }
  assert (HK : K = 0).
  { assert (B : (Qabs (inject_Z K) < 1)%Q).
    { assert (B' : (Qabs (inject_Z K) * pow2 (E - prec) < 1 * pow2 (E - prec))%Q).
      { rewrite <- (Qabs_pos (pow2 (E - prec))) at 1 by lra.
        rewrite <- Qabs_Qmult, <- EK. lra. }
      apply Qmult_lt_r in B'; assumption. }
    apply Qabs_Qlt_condition in B. destruct B as [B1 B2].
    change (- (1))%Q with (inject_Z (-1)) in B1. change 1%Q with (inject_Z 1) in B2.
    rewrite <- Zlt_Qlt in B1, B2. lia. }
  rewrite HK in EK. change (inject_Z 0) with 0%Q in EK. lra.
Qed.

End Snap.

Lemma Qfloor_unique (y : Q) (m : Z) :
  (inject_Z m <= y)%Q -> (y < inject_Z (m + 1))%Q -> Qfloor y = m.
Proof.
  intros Hl Hu. pose proof (Qfloor_le y) as H1. pose proof (Qlt_floor y) as H2.
  assert (A : (inject_Z (Qfloor y) < inject_Z (m + 1))%Q) by lra.
  assert (B : (inject_Z m < inject_Z (Qfloor y + 1))%Q) by lra.
  rewrite <- Zlt_Qlt in A, B. lia.
Qed.

Lemma fl64_monotone x y : (x <= y)%Q -> (fl64 x <= fl64 y)%Q.
Proof. apply round_binary_monotone. lia. Qed.

Lemma fl64_exact x : representable 53 (-1074) x -> (fl64 x == x)%Q.
Proof. apply round_binary_exact. lia. Qed.

Lemma fl64_Z z : Z.abs z <= 2 ^ 53 -> fl64 (inject_Z z) = inject_Z z.
Proof. apply round_binary_Z; lia. Qed.

Lemma fl64_comp x y : (x == y)%Q -> fl64 x = fl64 y.
Proof. apply round_binary_comp. Qed.

Lemma Qopp_opp_eq (x : Q) : (- - x)%Q = x.
Proof. destruct x as [a b]. unfold Qopp. cbn. now rewrite Z.opp_involutive. Qed.

(** Rounding is odd. *)
Lemma round_binary_opp prec emin x :
  round_binary prec emin (- x) = (- round_binary prec emin x)%Q.
Proof.
  unfold round_binary. rewrite Qred_opp. set (rx := Qred x).
  destruct (Qcompare_spec rx 0) as [C|C|C];
    destruct (Qcompare_spec (- rx) 0) as [C'|C'|C']; try (exfalso; lra).
  - reflexivity.
  - rewrite Qred_opp, Qopp_opp_eq. reflexivity.
  - rewrite Qopp_opp_eq, Qred_opp. reflexivity.
Qed.

Lemma fl64_opp x : fl64 (- x) = (- fl64 x)%Q.
Proof. apply round_binary_opp. Qed.

(** The floor of a rounded quotient of whole numbers is the quotient of
    the whole numbers. *)
Lemma Qfloor_fl64_div (a b : Z) :
  0 < b -> 2 * Z.abs a + 4 * b <= 2 ^ 53 ->
  Qfloor (fl64 (inject_Z a / inject_Z b)) = a / b.
Proof.
  intros Hb Hbound.
  assert (Hb' : (0 < inject_Z b)%Q) by (change 0%Q with (inject_Z 0); rewrite <- Zlt_Qlt; lia).
  pose proof (Z.div_mod a b ltac:(lia)) as Hdm.
  pose proof (Z.mod_pos_bound a b Hb) as Hmod.
  set (m := a / b) in *. set (r := a mod b) in *.
  set (t := Z.log2_up b).
  pose proof (Z.log2_up_nonneg b) as Ht0. fold t in Ht0.
  assert (Ht : b <= 2 ^ t < 2 * b).
  { destruct (Z.eq_dec b 1) as [->|Hb1]; [cbn; lia|].
    pose proof (Z.log2_up_spec b ltac:(lia)) as [L1 L2]. fold t in L1, L2.
    split; [exact L2|].
    replace t with (Z.succ (Z.pred t)) by lia. rewrite Z.pow_succ_r; [lia|].
    destruct (Z.eq_dec t 0) as [E0|]; [|lia]. rewrite E0 in L2. cbn in L2. lia. }
  assert (Ht53 : t < 53).
  { apply (Z.pow_lt_mono_r_iff 2); lia. }
  assert (Hmb : Z.abs m * b <= Z.abs a + b).
  { destruct (Z.abs_spec a) as [[Ha A]|[Ha A]]; destruct (Z.abs_spec m) as [[Hm' B]|[Hm' B]];
      rewrite A, B; nia. }
  (* the exact quotient lies between m and m + 1 - 2^-t *)
  assert (Hlo : (inject_Z m <= inject_Z a / inject_Z b)%Q).
  { apply Qle_shift_div_l; [exact Hb'|]. rewrite <- inject_Z_mult, <- Zle_Qle. nia. }
  set (M := (m + 1) * 2 ^ t - 1).
  assert (HM : Z.abs M <= 2 ^ 53).
  { assert (0 < 2 ^ t) by (apply Z.pow_pos_nonneg; lia).
    unfold M. destruct (Z.abs_spec m) as [[Hm' B]|[Hm' B]];
      destruct (Z.abs_spec ((m + 1) * 2 ^ t - 1)) as [[Hs C]|[Hs C]]; rewrite C; nia. }
  assert (Hpt : (pow2 (- t) * inject_Z (2 ^ t) == 1)%Q).
  { rewrite <- pow2_Z, <- pow2_add by lia. replace (- t + t) with 0 by lia. reflexivity. }
  assert (Hhi : (inject_Z a / inject_Z b <= inject_Z M * pow2 (- t))%Q).
  { apply Qle_shift_div_r; [exact Hb'|].
    unfold M. unfold Zminus. rewrite inject_Z_plus, inject_Z_mult, inject_Z_plus.
    change (inject_Z (- (1))) with (- (1))%Q. change (inject_Z 1) with 1%Q.
    pose proof (pow2_pos (- t)) as Hp.
    assert (Ea : (inject_Z a == inject_Z b * inject_Z m + inject_Z r)%Q).
    { rewrite <- inject_Z_mult, <- inject_Z_plus. rewrite <- Hdm. reflexivity. }
    assert (Hr : (inject_Z r + 1 <= inject_Z b)%Q).
    { change 1%Q with (inject_Z 1). rewrite <- (inject_Z_plus r 1), <- Zle_Qle. lia. }
    assert (Hbt : (inject_Z b <= inject_Z (2 ^ t))%Q) by (rewrite <- Zle_Qle; lia).
    set (P := pow2 (- t)) in *. set (T := inject_Z (2 ^ t)) in *.
    set (B := inject_Z b) in *. set (R := inject_Z r) in *. set (Mm := inject_Z m) in *.
    clearbody P T B R Mm.
    (* (Mm + 1) T P - P = Mm + 1 - P, and B P <= 1 *)
    assert (K1 : (((Mm + 1) * T + - (1)) * P * B == (Mm + 1) * B * (P * T) - P * B)%Q) by ring.
    rewrite K1, Hpt, Ea. nra. }
  assert (Hup : (inject_Z M * pow2 (- t) < inject_Z (m + 1))%Q).
  { unfold M. unfold Zminus. rewrite inject_Z_plus, inject_Z_mult.
    change (inject_Z (- (1))) with (- (1))%Q.
    pose proof (pow2_pos (- t)) as Hp.
    set (P := pow2 (- t)) in *. set (T := inject_Z (2 ^ t)) in *.
    set (Mm := inject_Z (m + 1)) in *. clearbody P T Mm.
    assert (K1 : ((Mm * T + - (1)) * P == Mm * (P * T) - P)%Q) by ring.
    rewrite K1, Hpt. lra. }
  apply Qfloor_unique.
  - rewrite <- (fl64_Z m) by lia. apply fl64_monotone. exact Hlo.
  - eapply Qle_lt_trans; [|exact Hup].
    rewrite <- (fl64_exact (inject_Z M * pow2 (- t))).
    + apply fl64_monotone. exact Hhi.
    + apply representable_dyadic; lia.
Qed.

(** ** Typed arrays: stores and copies *)

Section TypedArrayFacts.

Lemma list_set_length {A} (l : list A) i v :
  List.length (list_set l i v) = List.length l.
Proof.
  revert i; induction l as [|x r IH]; intros [|j]; simpl; auto.
Qed.

Lemma list_set_app {A} (pre : list A) x r v :
  list_set (pre ++ x :: r) (List.length pre) v = pre ++ v :: r.
Proof.
  induction pre as [|p pre IH]; simpl; [reflexivity | now rewrite IH].
Qed.

Lemma ta_store_kind a i v : ta_kind (ta_store a i v) = ta_kind a.
Proof. unfold ta_store; destruct_match; reflexivity. Qed.

Lemma ta_store_length a i v : ta_length (ta_store a i v) = ta_length a.
Proof.
  unfold ta_store; destruct_match; [|reflexivity].
  unfold ta_length; simpl; now rewrite list_set_length.
Qed.

Lemma ta_length_nonneg a : 0 <= ta_length a.
Proof. unfold ta_length; lia. Qed.

Lemma ta_new_length k n : 0 <= n -> ta_length (ta_new k n) = n.
Proof.
  intros Hn; unfold ta_length, ta_new; simpl; rewrite repeat_length; lia.
Qed.

(** A store at the position just after [pre] replaces that element by
    the converted value. *)
Lemma ta_store_app k pre x r v :
  ta_store (mkTA k (pre ++ x :: r)) (Z.of_nat (List.length pre)) v
  = mkTA k (pre ++ coerce k v :: r).
Proof.
  unfold ta_store, ta_length; simpl.
  rewrite length_app; simpl.
  replace (0 <=? Z.of_nat (List.length pre)) with true
    by (symmetry; apply Z.leb_le; lia).
  replace (Z.of_nat (List.length pre) <? Z.of_nat (List.length pre + S (List.length r)))
    with true by (symmetry; apply Z.ltb_lt; lia).
  simpl; rewrite Nat2Z.id, list_set_app; reflexivity.
Qed.

(** Copying [src] into a window of the same length overwrites exactly
    that window, with each value converted to the kind of the array. *)
Lemma ta_copy_from_fill k src : forall pre zs post,
  List.length zs = List.length src ->
  ta_copy_from (mkTA k (pre ++ zs ++ post)) (Z.of_nat (List.length pre)) src
  = (mkTA k (pre ++ map (coerce k) src ++ post),
     Z.of_nat (List.length pre + List.length src)).
Proof.
  induction src as [|v src IH]; intros pre zs post Hlen.
  - destruct zs; [|discriminate]; simpl; now rewrite Nat.add_0_r.
  - destruct zs as [|z zs]; [discriminate|]; simpl in Hlen.
    cbn [ta_copy_from]; cbn [app].
    rewrite ta_store_app.
    replace (pre ++ coerce k v :: zs ++ post)
      with ((pre ++ [coerce k v]) ++ zs ++ post)
      by (now rewrite <- app_assoc).
    replace (Z.of_nat (List.length pre) + 1)
      with (Z.of_nat (List.length (pre ++ [coerce k v])))
      by (rewrite length_app; simpl; lia).
    rewrite IH by lia.
    rewrite length_app, <- app_assoc; simpl.
    f_equal; f_equal; lia.
Qed.

(** The chunk loop of the getter is a copy of the first [n] values. *)
Lemma copy_chunk_copy_from n : forall out idx cData,
  (n <= List.length (ta_data cData))%nat ->
  Seg.copy_chunk out idx cData n
  = fst (ta_copy_from out idx (firstn n (ta_data cData))).
Proof.
  unfold Seg.copy_chunk.
  intros out idx cData; destruct cData as [ck cd]; simpl.
  assert (G : forall m out idx cd, (m <= List.length cd)%nat ->
    forall base,
    fold_left (fun o i => ta_store o (idx + Z.of_nat i) (nth i (base ++ cd) 0%Q))
              (seq (List.length base) m) out
    = fst (ta_copy_from out (idx + Z.of_nat (List.length base)) (firstn m cd))).
  { clear; induction m as [|m IH]; intros out idx cd Hm base; [reflexivity|].
    destruct cd as [|c cd]; [simpl in Hm; lia|].
    cbn [seq fold_left firstn ta_copy_from].
    rewrite app_nth2 by lia. rewrite Nat.sub_diag; cbn [nth].
    specialize (IH (ta_store out (idx + Z.of_nat (List.length base)) c) idx cd
                   ltac:(simpl in Hm; lia) (base ++ [c])).
    rewrite length_app in IH; simpl in IH.
    rewrite <- app_assoc in IH; simpl in IH.
    replace (List.length base + 1)%nat with (S (List.length base)) in IH by lia.
    rewrite IH. f_equal. f_equal. lia. }
  intros Hn. specialize (G n out idx cd Hn []); simpl in G.
  rewrite Z.add_0_r in G. exact G.
Qed.

End TypedArrayFacts.

(** ** Decoding *)

Section DecodeFacts.

(** What [decode] returns has the declared number of samples. *)
Lemma decode_Ok c d :
  decode c = Ok d ->
  List.length (ta_data d) = numSamples c
  /\ ta_kind d = kind_of_compression (compressionType c).
Proof.
  unfold decode; intros H.
  destruct (compressionType c); try discriminate;
    destruct (Nat.ltb_spec (List.length (enc_payload c)) (numSamples c));
    try discriminate; inv H; simpl;
    (split; [rewrite length_map, length_firstn; lia | reflexivity]).
Qed.

Lemma numSamples_fold cs : forall acc,
  fold_left (fun out c => out + Z.of_nat (numSamples c)) cs acc
  = acc + Z.of_nat (total_samples cs).
Proof.
  induction cs as [|c cs IH]; intros acc; simpl; [lia|].
  rewrite IH; lia.
Qed.

(** The loop over the chunks writes the decoded chunks one after the
    other, converted to the kind of the output array. *)
Lemma decode_chunks_fill k cs : forall ds pre zs post,
  Forall2 (fun c d => decode c = Ok d) cs ds ->
  List.length zs = total_samples cs ->
  Seg.decode_chunks (mkTA k (pre ++ zs ++ post)) (Z.of_nat (List.length pre)) cs
  = Ok (mkTA k (pre ++ map (coerce k) (List.concat (map ta_data ds)) ++ post)).
Proof.
  induction cs as [|c cs IH]; intros ds pre zs post HF Hlen.
  - inv HF. destruct zs; [|discriminate]. reflexivity.
  - inversion HF as [|c' d cs' ds' Hd HF']; subst; clear HF. simpl in Hlen.
    cbn [Seg.decode_chunks]. rewrite Hd.
    destruct (decode_Ok _ _ Hd) as [Hdl _].
    rewrite copy_chunk_copy_from by lia.
    rewrite <- Hdl, firstn_all.
    rewrite <- (firstn_skipn (List.length (ta_data d)) zs).
    rewrite <- (app_assoc (firstn _ zs)).
    rewrite ta_copy_from_fill by (rewrite length_firstn; lia).
    cbn [fst].
    replace (pre ++ map (coerce k) (ta_data d) ++ skipn (List.length (ta_data d)) zs ++ post)
      with ((pre ++ map (coerce k) (ta_data d)) ++ skipn (List.length (ta_data d)) zs ++ post)
      by (now rewrite <- app_assoc).
    replace (Z.of_nat (List.length pre) + Z.of_nat (List.length (ta_data d)))
      with (Z.of_nat (List.length (pre ++ map (coerce k) (ta_data d))))
      by (rewrite length_app, length_map; lia).
    rewrite (IH ds' _ _ post HF') by (rewrite length_skipn; lia).
    cbn [map List.concat]. rewrite map_app, <- !app_assoc. reflexivity.
Qed.

(** The loop keeps the kind and the length of the output array. *)
Lemma decode_chunks_preserves cs : forall out idx out',
  Seg.decode_chunks out idx cs = Ok out' ->
  ta_kind out' = ta_kind out /\ ta_length out' = ta_length out.
Proof.
  induction cs as [|c cs IH]; intros out idx out' H; simpl in H.
  - inv H; auto.
  - destruct (decode c) as [d|] eqn:Hd; [|discriminate].
    apply IH in H. destruct H as [Hk Hl].
    assert (G : forall l o, ta_kind (fold_left (fun o i => ta_store o (idx + Z.of_nat i) (nth i (ta_data d) 0%Q)) l o) = ta_kind o
                         /\ ta_length (fold_left (fun o i => ta_store o (idx + Z.of_nat i) (nth i (ta_data d) 0%Q)) l o) = ta_length o).
    { induction l as [|i l IHl]; intros o; simpl; [auto|].
      destruct (IHl (ta_store o (idx + Z.of_nat i) (nth i (ta_data d) 0%Q))) as [A B].
      rewrite A, B, ta_store_kind, ta_store_length; auto. }
    unfold Seg.copy_chunk in Hk, Hl.
    destruct (G (seq 0 (numSamples c)) out) as [A B].
    rewrite Hk, Hl, A, B; auto.
Qed.

End DecodeFacts.

(** ** The sample getter of a segment *)

Section SegmentY.

Lemma numPoints_nonneg s : 0 <= Seg.numPoints s.
Proof.
  unfold Seg.numPoints. destruct (Seg._y s); [apply ta_length_nonneg|].
  destruct (Seg._compressed s); [|lia]. rewrite numSamples_fold. lia.
Qed.

Lemma y_decoded s a : Seg._y s = Some a -> Seg.y s = (Ok a, s).
Proof. unfold Seg.y; now intros ->. Qed.

(** A successful read leaves the segment holding the array it returned,
    with as many samples as [numPoints] announced, and nothing else
    changed. *)
Lemma y_Ok s a s' :
  Seg.y s = (Ok a, s') ->
  Seg._y s' = Some a
  /\ ta_length a = Seg.numPoints s
  /\ Seg.numPoints s' = Seg.numPoints s
  /\ same_header s s'
  /\ (Seg._y s = None -> Seg._compressed s' = None)
  /\ (Seg._y s = Some a -> s' = s).
Proof.
  unfold Seg.y. destruct (Seg._y s) as [a0|] eqn:Hy.
  - intros H; inv H. unfold Seg.numPoints; rewrite Hy.
    repeat split; auto. discriminate.
  - destruct (Seg.isEncoded s); simpl; [|discriminate].
    destruct (Seg._compressed s) as [[|c0 cs]|] eqn:Hc; try discriminate.
    destruct (Seg.decode_chunks _ 0 (c0 :: cs)) as [out|] eqn:Hd; [|discriminate].
    intros H; inv H.
    apply decode_chunks_preserves in Hd. destruct Hd as [_ Hl].
    rewrite ta_new_length in Hl by apply numPoints_nonneg.
    unfold Seg.numPoints at 2; simpl.
    repeat split; auto. discriminate.
Qed.

(** A failed read changes nothing. *)
Lemma y_Throw s e s' : Seg.y s = (Throw e, s') -> s' = s.
Proof.
  unfold Seg.y; intros H.
  repeat (destruct_match; try discriminate); now inv H.
Qed.

(** The second read returns the same array and changes nothing. *)
Lemma y_again s a s' : Seg.y s = (Ok a, s') -> Seg.y s' = (Ok a, s').
Proof. intros H; apply y_Ok in H; apply y_decoded; tauto. Qed.

(** Reading an encoded segment whose chunks all decode. *)
Lemma y_encoded s c0 cs ds :
  Seg._y s = None ->
  Seg._compressed s = Some (c0 :: cs) ->
  Forall2 (fun c d => decode c = Ok d) (c0 :: cs) ds ->
  let out := mkTA (kind_of_compression (compressionType c0))
                  (map (coerce (kind_of_compression (compressionType c0)))
                       (List.concat (map ta_data ds))) in
  Seg.y s = (Ok out, Seg.with_compressed None (Seg.with_y (Some out) s)).
Proof.
  intros Hy Hc HF out. unfold Seg.y. rewrite Hy.
  unfold Seg.isEncoded. rewrite Hy, Hc. cbn [List.length Nat.ltb Nat.leb negb].
  unfold Seg.numPoints; rewrite Hy, Hc, numSamples_fold.
  unfold ta_new. rewrite Z.add_0_l, Nat2Z.id.
  pose proof (decode_chunks_fill (kind_of_compression (compressionType c0))
                (c0 :: cs) ds [] (repeat 0%Q (total_samples (c0 :: cs))) [] HF
                (repeat_length _ _)) as G.
  cbn [app List.length Z.of_nat] in G. rewrite !app_nil_r in G.
  rewrite G. reflexivity.
Qed.

End SegmentY.

Section Preservation.

Context {St : Type} (I : St -> Prop).

Lemma preserves_ret {A} (a : A) : preserves I (ret a).
Proof. intros s H; exact H. Qed.

Lemma preserves_gets {A} (f : St -> A) : preserves I (gets f).
Proof. intros s H; exact H. Qed.

Lemma preserves_bind {A B} (m : M St A) (k : A -> M St B) :
  preserves I m -> (forall a, preserves I (k a)) -> preserves I (bind m k).
Proof.
  intros Hm Hk s Hs. unfold bind.
  specialize (Hm s Hs). destruct (m s) as [[a|e] s1]; simpl in *; auto.
  apply Hk; exact Hm.
Qed.

Lemma preserves_if {A} (b : bool) (m1 m2 : M St A) :
  preserves I m1 -> preserves I m2 -> preserves I (if b then m1 else m2).
Proof. destruct b; auto. Qed.

End Preservation.

(** ** The end-time cache of a segment *)

Section EndTimeCache.

Lemma cache_ok_same s s' :
  same_header s s' -> Seg.numPoints s' = Seg.numPoints s ->
  cache_ok s -> cache_ok s'.
Proof.
  intros (Hr & Hs & Hc & Hn & _) Hnp. unfold cache_ok, Seg.timeOfSample.
  now rewrite Hr, Hs, Hc, Hn, Hnp.
Qed.

Lemma cache_ok_new yArray rate start : cache_ok (Seg.new yArray rate start).
Proof. unfold cache_ok, Seg.new. destruct yArray as [a|cs|[|x xs]]; exact I. Qed.

Lemma y_preserves_cache_ok : preserves cache_ok Seg.y.
Proof.
  intros s H. destruct (Seg.y s) as [[a|e] s'] eqn:Hy; simpl.
  - apply y_Ok in Hy. eapply cache_ok_same; [| |exact H]; tauto.
  - apply y_Throw in Hy. now subst.
Qed.

(** The getter returns the time of the last sample whenever the cache
    is in order, and leaves it in order. *)
Lemma endTime_value s :
  cache_ok s ->
  fst (Seg.endTime s) = Ok (Seg.timeOfSample s (Seg.numPoints s - 1)).
Proof.
  unfold cache_ok, Seg.endTime. intros H.
  destruct (Seg._endTime_cache s) as [e|] eqn:Hc; [|reflexivity].
  destruct (Z.eqb_spec (Seg._endTime_cache_numPoints s) (Seg.numPoints s)) as [E|E];
    simpl; [|reflexivity].
  now rewrite (H E).
Qed.

Lemma endTime_preserves_cache_ok : preserves cache_ok Seg.endTime.
Proof.
  intros s H. unfold Seg.endTime.
  destruct (Seg._endTime_cache s) as [e|] eqn:Hc.
  - destruct (Z.eqb_spec (Seg._endTime_cache_numPoints s) (Seg.numPoints s)) as [E|E];
      simpl.
    + exact H.
    + unfold cache_ok; simpl. intros _; reflexivity.
  - unfold cache_ok; simpl. intros _; reflexivity.
Qed.

(** After a read the cache holds what was returned, and the next read
    returns it again without touching the segment. *)
Lemma endTime_cached s e s1 :
  Seg.endTime s = (Ok e, s1) ->
  Seg._endTime_cache s1 = Some e /\ Seg.endTime s1 = (Ok e, s1).
Proof.
  unfold Seg.endTime at 1.
  destruct (Seg._endTime_cache s) as [e0|] eqn:Hc.
  - destruct (Z.eqb_spec (Seg._endTime_cache_numPoints s) (Seg.numPoints s)) as [E|E];
      simpl.
    + intros H; inv H. split; [exact Hc|].
      unfold Seg.endTime. rewrite Hc.
      rewrite (proj2 (Z.eqb_eq _ _) E). reflexivity.
    + intros H; inv H. split; [reflexivity|].
      unfold Seg.endTime; simpl.
      unfold Seg.numPoints at 1; simpl. fold (Seg.numPoints s).
      now rewrite Z.eqb_refl.
  - simpl. intros H; inv H. split; [reflexivity|].
    unfold Seg.endTime; simpl.
    unfold Seg.numPoints at 1; simpl. fold (Seg.numPoints s).
    now rewrite Z.eqb_refl.
Qed.

Lemma endTime_never_throws s : exists e, fst (Seg.endTime s) = Ok e.
Proof.
  unfold Seg.endTime. destruct (Seg._endTime_cache s) as [e0|] eqn:Hc.
  - destruct (negb _); simpl; eauto.
  - simpl; eauto.
Qed.

Lemma cut_preserves_cache_ok w : preserves cache_ok (Seg.cut w).
Proof.
  unfold Seg.cut.
  apply preserves_bind; [apply preserves_gets|intros st].
  apply preserves_bind.
  { apply preserves_if; [apply preserves_ret|].
    apply preserves_bind; [apply endTime_preserves_cache_ok|].
    intros; apply preserves_ret. }
  intros outside. apply preserves_if; [apply preserves_ret|].
  apply preserves_bind; [apply preserves_gets|intros rate].
  apply preserves_bind; [apply y_preserves_cache_ok|intros y0].
  apply preserves_bind; [apply endTime_preserves_cache_ok|intros e].
  apply preserves_bind; [apply preserves_gets|intros s].
  apply preserves_ret.
Qed.

Lemma run_op_cache_ok op s : cache_ok s -> cache_ok (run_op op s).
Proof.
  destruct op; simpl; intros H; try exact I.
  - now apply y_preserves_cache_ok.
  - now apply endTime_preserves_cache_ok.
  - revert s H. change (preserves cache_ok (Seg.findMinMax minMaxAccumulator)).
    apply preserves_bind; [apply y_preserves_cache_ok|intros; apply preserves_ret].
  - now apply cut_preserves_cache_ok.
  - exact H.
Qed.

Lemma run_ops_cache_ok ops : forall s, cache_ok s -> cache_ok (run_ops ops s).
Proof.
  induction ops as [|op ops IH]; intros s H; simpl; [exact H|].
  apply IH, run_op_cache_ok, H.
Qed.

End EndTimeCache.

(** ** End time of a segment *)

Section EndTime.

Lemma setter_then_endTime (s1 : Seg.t) :
  Seg._endTime_cache s1 = None ->
  fst (Seg.endTime s1) = Ok (Seg.timeOfSample s1 (Seg.numPoints s1 - 1)).
Proof. intros H; apply endTime_value; unfold cache_ok; now rewrite H. Qed.

End EndTime.

(** ** Lazy decoding of a segment *)

Section LazyDecoding.

Lemma run_op_compressed op s :
  Seg._compressed s = None -> Seg._compressed (run_op op s) = None.
Proof.
  assert (Hy : preserves (fun s => Seg._compressed s = None) Seg.y).
  { intros s0 H0. destruct (Seg.y s0) as [[a|e] s'] eqn:E; simpl.
    - destruct (Seg._y s0) as [a0|] eqn:Hy0.
      + rewrite (y_decoded _ _ Hy0) in E. now inv E.
      + apply y_Ok in E. now apply E.
    - apply y_Throw in E. now subst. }
  assert (He : preserves (fun s => Seg._compressed s = None) Seg.endTime).
  { intros s0 H0. unfold Seg.endTime. repeat destruct_match; simpl; auto. }
  destruct op; intros H; try (simpl; exact H).
  - now apply Hy.
  - now apply He.
  - revert s H.
    change (preserves (fun s => Seg._compressed s = None)
                      (Seg.findMinMax minMaxAccumulator)).
    apply preserves_bind; [exact Hy|intros; apply preserves_ret].
  - revert s H.
    change (preserves (fun s => Seg._compressed s = None) (Seg.cut timeWindow)).
    unfold Seg.cut.
    apply preserves_bind; [apply preserves_gets|intros st].
    apply preserves_bind.
    { apply preserves_if; [apply preserves_ret|].
      apply preserves_bind; [exact He|intros; apply preserves_ret]. }
    intros outside. apply preserves_if; [apply preserves_ret|].
    apply preserves_bind; [apply preserves_gets|intros rate].
    apply preserves_bind; [exact Hy|intros y0].
    apply preserves_bind; [exact He|intros e].
    apply preserves_bind; [apply preserves_gets|intros s1].
    apply preserves_ret.
Qed.

Lemma run_ops_compressed ops : forall s,
  Seg._compressed s = None -> Seg._compressed (run_ops ops s) = None.
Proof.
  induction ops as [|op ops IH]; intros s H; simpl; [exact H|].
  apply IH, run_op_compressed, H.
Qed.

Lemma not_encoded_without_handles s :
  Seg._compressed s = None -> Seg.isEncoded s = false.
Proof.
  unfold Seg.isEncoded; intros ->. destruct (Seg._y s); [|reflexivity].
  destruct (0 <? ta_length t); reflexivity.
Qed.

(** C4.  A segment constructed from a non-empty array of encoded
    payloads is encoded.  When its chunks decode, the first read of y
    returns one typed array that holds the decoded chunks in order
    (converted to the array type chosen from the first chunk), of
    numPoints samples; the segment then holds that array and no encoded
    handles, isEncoded() is false, and numPoints is what it was.  A
    later read returns the same array and changes nothing, and no
    operation of the segment brings the handles back. *)
Theorem y_decodes_once c0 cs ds rate start :
  Forall2 (fun c d => decode c = Ok d) (c0 :: cs) ds ->
  let s := Seg.new (Seg.YEncoded (c0 :: cs)) rate start in
  let k := kind_of_compression (compressionType c0) in
  let out := mkTA k (map (coerce k) (List.concat (map ta_data ds))) in
  Seg.isEncoded s = true
  /\ exists s',
      Seg.y s = (Ok out, s')
      /\ ta_length out = Seg.numPoints s
      /\ Seg.numPoints s' = Seg.numPoints s
      /\ Seg._y s' = Some out
      /\ Seg._compressed s' = None
      /\ Seg.isEncoded s' = false
      /\ Seg.y s' = (Ok out, s')
      /\ forall ops,
          Seg._compressed (run_ops ops s') = None
          /\ Seg.isEncoded (run_ops ops s') = false.
Proof.
  intros HF s k out.
  split; [reflexivity|].
  pose proof (y_encoded s c0 cs ds eq_refl eq_refl HF) as Hy.
  cbv zeta in Hy. fold k in Hy. fold out in Hy.
  eexists; split; [exact Hy|].
  pose proof (y_Ok _ _ _ Hy) as (H1 & H2 & H3 & _ & H5 & _).
  specialize (H5 eq_refl).
  split; [exact H2|]. split; [exact H3|]. split; [exact H1|].
  split; [exact H5|].
  split; [now apply not_encoded_without_handles|].
  split; [now apply y_decoded|].
  intros ops. split.
  - now apply run_ops_compressed.
  - now apply not_encoded_without_handles, run_ops_compressed.
Qed.

Lemma y_decodes_once_witness :
  exists s',
    Seg.y (Seg.new (Seg.YEncoded [mkEncoded INTEGER 2 [1; 2]; mkEncoded STEIM2 1 [3; 9]]%Q) 20 0)
    = (Ok (mkTA Int32Array [1; 2; 3]%Q), s')
    /\ Seg.isEncoded s' = false.
Proof.
  destruct (y_decodes_once (mkEncoded INTEGER 2 [1; 2]%Q) [mkEncoded STEIM2 1 [3; 9]%Q]
              [mkTA Int32Array [1; 2]%Q; mkTA Int32Array [3]%Q] 20%Q 0)
    as [_ [s' (Hy & _ & _ & _ & _ & He & _)]].
  - repeat constructor.
  - exists s'. split; [exact Hy | exact He].
Defined.

End LazyDecoding.

(** ** Minimum and maximum *)

Section MinMax.

Lemma findMinMax_of_y acc s a s' :
  Seg.y s = (Ok a, s') ->
  Seg.findMinMax acc s
  = (Ok (fold_left Seg.minmax_step (ta_data a) (minmax_init acc)), s').
Proof.
  intros Hy. unfold Seg.findMinMax, bind. rewrite Hy.
  destruct acc; reflexivity.
Qed.

Lemma findMinMax_fst acc s a :
  fst (Seg.y s) = Ok a ->
  fst (Seg.findMinMax acc s)
  = Ok (fold_left Seg.minmax_step (ta_data a) (minmax_init acc)).
Proof.
  intros Hy. destruct (Seg.y s) as [r s'] eqn:E. simpl in Hy; subst r.
  now rewrite (findMinMax_of_y acc _ _ _ E).
Qed.

(** The loop of [Seismogram.findMinMax] is the chunked fold. *)
Lemma findMinMax_loop_chunked segs : forall acc,
  fst (Seismogram.findMinMax_loop acc segs) = findMinMax_chunked acc segs.
Proof.
  induction segs as [|s segs IH]; intros acc; simpl; [reflexivity|].
  destruct (Seg.findMinMax acc s) as [[mm|e] s'] eqn:E; simpl; [|reflexivity].
  rewrite <- IH. destruct (Seismogram.findMinMax_loop (Some mm) segs); reflexivity.
Qed.

(** Chunk after chunk, the fold scans the concatenation. *)
Lemma findMinMax_chunked_concat segs arrays :
  Forall2 (fun s a => fst (Seg.y s) = Ok a) segs arrays ->
  forall acc,
    findMinMax_chunked (Some acc) segs
    = Ok (Some (fold_left Seg.minmax_step (List.concat (map ta_data arrays)) acc)).
Proof.
  induction 1 as [|s a segs arrays Hy _ IH]; intros acc; simpl; [reflexivity|].
  rewrite (findMinMax_fst (Some acc) s a Hy). simpl.
  rewrite IH, fold_left_app. reflexivity.
Qed.

(** What [Seismogram.findMinMax] returns. *)
Lemma seismogram_findMinMax_value sm arrays acc :
  Seismogram._segmentArray sm <> [] ->
  Forall2 (fun s a => fst (Seg.y s) = Ok a) (Seismogram._segmentArray sm) arrays ->
  fst (Seismogram.findMinMax acc sm)
  = Ok (fold_left Seg.minmax_step (List.concat (map ta_data arrays)) (minmax_init acc)).
Proof.
  intros Hne HF.
  assert (Hch : findMinMax_chunked acc (Seismogram._segmentArray sm)
                = Ok (Some (fold_left Seg.minmax_step (List.concat (map ta_data arrays))
                              (minmax_init acc)))).
  { destruct HF as [|s a segs arrays Hy HF]; [congruence|].
    cbn [findMinMax_chunked]. rewrite (findMinMax_fst acc s a Hy).
    rewrite (findMinMax_chunked_concat _ _ HF). cbn [map List.concat].
    now rewrite fold_left_app. }
  unfold Seismogram.findMinMax.
  destruct (Seismogram._segmentArray sm) as [|s0 segs] eqn:Hs; [congruence|].
  pose proof (findMinMax_loop_chunked (s0 :: segs) acc) as Hl.
  rewrite Hch in Hl.
  destruct (Seismogram.findMinMax_loop acc (s0 :: segs)) as [r l].
  simpl in Hl; subst r. reflexivity.
Qed.

(** Seismogram after seismogram, the fold scans all samples. *)
Lemma findMinMaxOfSeismograms_loop_concat sms arrayss :
  Forall2 (fun sm arrays =>
             Seismogram._segmentArray sm <> []
             /\ Forall2 (fun s a => fst (Seg.y s) = Ok a)
                        (Seismogram._segmentArray sm) arrays) sms arrayss ->
  forall acc,
    sms <> [] ->
    fst (findMinMaxOfSeismograms_loop acc sms)
    = Ok (Some (fold_left Seg.minmax_step
                  (List.concat (map ta_data (List.concat arrayss))) (minmax_init acc))).
Proof.
  induction 1 as [|sm arrays sms arrayss [Hne HF] Hrest IH]; intros acc Hnil;
    [congruence|].
  cbn [findMinMaxOfSeismograms_loop].
  pose proof (seismogram_findMinMax_value sm arrays acc Hne HF) as Hv.
  destruct (Seismogram.findMinMax acc sm) as [r sm'] eqn:E. simpl in Hv; subst r.
  cbn [List.concat]. rewrite map_app, concat_app, fold_left_app.
  destruct sms as [|sm2 sms].
  - inversion Hrest; subst. simpl. reflexivity.
  - specialize (IH (Some (fold_left Seg.minmax_step (List.concat (map ta_data arrays))
                            (minmax_init acc))) ltac:(discriminate)).
    destruct (findMinMaxOfSeismograms_loop _ (sm2 :: sms)) as [r l].
    simpl in IH. subst r. reflexivity.
Qed.

(** C6.  For chunks whose samples can be read, folding findMinMax over
    the chunks, each call receiving the pair returned by the previous
    one, gives the pair that one findMinMax call gives on a segment
    holding the concatenation of the samples of all chunks; this is also
    what Seismogram.findMinMax returns for a seismogram made of the
    chunks.  The same holds when the chunks are seismograms and the fold
    is findMinMaxOfSeismograms. *)
Theorem findMinMax_chunks_concat :
  (forall segs arrays whole wa acc sm,
      segs <> [] ->
      Forall2 (fun s a => fst (Seg.y s) = Ok a) segs arrays ->
      fst (Seg.y whole) = Ok wa ->
      ta_data wa = List.concat (map ta_data arrays) ->
      Seismogram._segmentArray sm = segs ->
      exists mm,
        fst (Seg.findMinMax acc whole) = Ok mm
        /\ findMinMax_chunked acc segs = Ok (Some mm)
        /\ fst (Seismogram.findMinMax acc sm) = Ok mm)
  /\ (forall sms arrayss whole wa acc,
         sms <> [] ->
         Forall2 (fun sm arrays =>
                    Seismogram._segmentArray sm <> []
                    /\ Forall2 (fun s a => fst (Seg.y s) = Ok a)
                               (Seismogram._segmentArray sm) arrays) sms arrayss ->
         fst (Seg.y whole) = Ok wa ->
         ta_data wa = List.concat (map ta_data (List.concat arrayss)) ->
         fst (findMinMaxOfSeismograms sms acc) = fst (Seg.findMinMax acc whole)).
Proof.
  split.
  - intros segs arrays whole wa acc sm Hne HF Hw Hcat Hsm.
    exists (fold_left Seg.minmax_step (ta_data wa) (minmax_init acc)).
    split; [now apply findMinMax_fst|].
    subst segs. pose proof (seismogram_findMinMax_value sm arrays acc Hne HF) as Hv.
    rewrite <- Hcat in Hv. split; [|exact Hv].
    destruct HF as [|s a segs arrays Hy HF]; [congruence|].
    cbn [findMinMax_chunked]. rewrite (findMinMax_fst acc s a Hy).
    rewrite (findMinMax_chunked_concat _ _ HF), Hcat. cbn [map List.concat].
    now rewrite fold_left_app.
  - intros sms arrayss whole wa acc Hne HF Hw Hcat.
    rewrite (findMinMax_fst acc whole wa Hw), Hcat.
    unfold findMinMaxOfSeismograms.
    pose proof (findMinMaxOfSeismograms_loop_concat sms arrayss HF acc Hne) as Hl.
    destruct (findMinMaxOfSeismograms_loop acc sms) as [r l].
    simpl in Hl; subst r. reflexivity.
Qed.

Lemma findMinMax_chunks_concat_witness :
  findMinMax_chunked None
    [Seg.new (Seg.YTyped (mkTA Int32Array [3; -1]%Q)) 20 0;
     Seg.new (Seg.YTyped (mkTA Int32Array [7; 2]%Q)) 20 100]
  = Ok (Some (-1, 7)%Q)
  /\ fst (Seg.findMinMax None (Seg.new (Seg.YTyped (mkTA Int32Array [3; -1; 7; 2]%Q)) 20 0))
     = Ok (-1, 7)%Q
  /\ fst (findMinMaxOfSeismograms
            [Seismogram.mkSeismogram
               [Seg.new (Seg.YTyped (mkTA Int32Array [3; -1]%Q)) 20 0] 0 50 None;
             Seismogram.mkSeismogram
               [Seg.new (Seg.YTyped (mkTA Int32Array [7; 2]%Q)) 20 100] 100 150 None]
            None)
     = Ok (-1, 7)%Q.
Proof.
  destruct (proj1 findMinMax_chunks_concat
              [Seg.new (Seg.YTyped (mkTA Int32Array [3; -1]%Q)) 20 0;
               Seg.new (Seg.YTyped (mkTA Int32Array [7; 2]%Q)) 20 100]
              [mkTA Int32Array [3; -1]%Q; mkTA Int32Array [7; 2]%Q]
              (Seg.new (Seg.YTyped (mkTA Int32Array [3; -1; 7; 2]%Q)) 20 0)
              (mkTA Int32Array [3; -1; 7; 2]%Q)
              None
              (Seismogram.mkSeismogram
                 [Seg.new (Seg.YTyped (mkTA Int32Array [3; -1]%Q)) 20 0;
                  Seg.new (Seg.YTyped (mkTA Int32Array [7; 2]%Q)) 20 100] 0 150 None))
    as [mm (H1 & H2 & _)].
  - discriminate.
  - repeat constructor.
  - reflexivity.
  - reflexivity.
  - reflexivity.
  - split; [|split].
    + rewrite H2. vm_compute in H1. inversion H1. reflexivity.
    + vm_compute. reflexivity.
    + rewrite (proj2 findMinMax_chunks_concat
                 [Seismogram.mkSeismogram
                    [Seg.new (Seg.YTyped (mkTA Int32Array [3; -1]%Q)) 20 0] 0 50 None;
                  Seismogram.mkSeismogram
                    [Seg.new (Seg.YTyped (mkTA Int32Array [7; 2]%Q)) 20 100] 100 150 None]
                 [[mkTA Int32Array [3; -1]%Q]; [mkTA Int32Array [7; 2]%Q]]
                 (Seg.new (Seg.YTyped (mkTA Int32Array [3; -1; 7; 2]%Q)) 20 0)
                 (mkTA Int32Array [3; -1; 7; 2]%Q) None).
      * vm_compute. reflexivity.
      * discriminate.
      * repeat constructor; discriminate.
      * reflexivity.
      * reflexivity.
Defined.

End MinMax.

(** ** append *)

Section Append.

Lemma code_neq_false a b : code_neq a b = false <-> a = b.
Proof.
  destruct a as [x|], b as [y|]; simpl; split; intros H;
    try discriminate; try reflexivity.
  - apply negb_false_iff, String.eqb_eq in H. now subst.
  - inv H. now rewrite String.eqb_refl.
Qed.

(** The fields compared by [checkSimilar] all agree. *)
Lemma checkSimilar_Ok f s :
  Seismogram.checkSimilar f s = Ok tt <->
  Seg.networkCode s = Seg.networkCode f
  /\ Seg.stationCode s = Seg.stationCode f
  /\ Seg.locationCode s = Seg.locationCode f
  /\ Seg.channelCode s = Seg.channelCode f
  /\ Seg.yUnit s = Seg.yUnit f
  /\ (Seg._sampleRate s == Seg._sampleRate f)%Q.
Proof.
  unfold Seismogram.checkSimilar.
  destruct (code_neq (Seg.networkCode s) (Seg.networkCode f)) eqn:E1;
    [split; [discriminate|intros (H & _); apply code_neq_false in H; congruence]|].
  destruct (code_neq (Seg.stationCode s) (Seg.stationCode f)) eqn:E2;
    [split; [discriminate|intros (_ & H & _); apply code_neq_false in H; congruence]|].
  destruct (code_neq (Seg.locationCode s) (Seg.locationCode f)) eqn:E3;
    [split; [discriminate|intros (_ & _ & H & _); apply code_neq_false in H; congruence]|].
  destruct (code_neq (Seg.channelCode s) (Seg.channelCode f)) eqn:E4;
    [split; [discriminate|intros (_ & _ & _ & H & _); apply code_neq_false in H; congruence]|].
  destruct (String.eqb (Seg.yUnit s) (Seg.yUnit f)) eqn:E5; simpl;
    [|split; [discriminate|intros (_ & _ & _ & _ & H & _);
                           apply String.eqb_eq in H; congruence]].
  destruct (Qeq_bool (Seg._sampleRate s) (Seg._sampleRate f)) eqn:E6; simpl;
    [|split; [discriminate|intros (_ & _ & _ & _ & _ & H);
                           apply Qeq_bool_iff in H; congruence]].
  apply code_neq_false in E1, E2, E3, E4. apply String.eqb_eq in E5.
  apply Qeq_bool_iff in E6. tauto.
Qed.

Lemma checkSimilar_cases f s :
  Seismogram.checkSimilar f s = Ok tt \/ exists e, Seismogram.checkSimilar f s = Throw e.
Proof.
  destruct (Seismogram.checkSimilar f s) as [[]|e]; eauto.
Qed.

(** Reading the end time changes nothing but the cache. *)
Lemma endTime_same_samples s e s1 :
  Seg.endTime s = (Ok e, s1) ->
  Seg._y s1 = Seg._y s /\ Seg._compressed s1 = Seg._compressed s
  /\ Seg.numPoints s1 = Seg.numPoints s
  /\ Seg._startTime s1 = Seg._startTime s
  /\ Seg._sampleRate s1 = Seg._sampleRate s.
Proof.
  unfold Seg.endTime. repeat destruct_match; intros H; inv H; repeat split.
Qed.

Lemma numPoints_snoc segs s : forall acc,
  fold_left (fun accumulator seis => accumulator + Seg.numPoints seis) (segs ++ [s]) acc
  = fold_left (fun accumulator seis => accumulator + Seg.numPoints seis) segs acc
    + Seg.numPoints s.
Proof. intros acc. now rewrite fold_left_app. Qed.

(** C5.  Appending a segment to a seismogram: when one of networkCode,
    stationCode, locationCode, channelCode, yUnit or sampleRate differs
    from that of the first segment, append throws and the seismogram is
    unchanged; when all of them agree, append succeeds, the segment is
    added at the end, numPoints grows by the sample count of the segment,
    and the start and end times become the earlier of the old start and
    the start of the segment, and the later of the old end and the end
    of the segment. *)
Theorem append_checks_then_extends sm f rest seg :
  Seismogram._segmentArray sm = f :: rest ->
  ((Seg.networkCode seg <> Seg.networkCode f
    \/ Seg.stationCode seg <> Seg.stationCode f
    \/ Seg.locationCode seg <> Seg.locationCode f
    \/ Seg.channelCode seg <> Seg.channelCode f
    \/ Seg.yUnit seg <> Seg.yUnit f
    \/ ~ (Seg._sampleRate seg == Seg._sampleRate f)%Q) ->
   exists e, Seismogram.append (Seismogram.ASegment seg) sm = (Throw e, sm))
  /\ (Seg.networkCode seg = Seg.networkCode f ->
      Seg.stationCode seg = Seg.stationCode f ->
      Seg.locationCode seg = Seg.locationCode f ->
      Seg.channelCode seg = Seg.channelCode f ->
      Seg.yUnit seg = Seg.yUnit f ->
      (Seg._sampleRate seg == Seg._sampleRate f)%Q ->
      exists sm',
        Seismogram.append (Seismogram.ASegment seg) sm = (Ok tt, sm')
        /\ Seismogram.numPoints sm' = Seismogram.numPoints sm + Seg.numPoints seg
        /\ Seismogram._startTime sm'
           = Z.min (Seismogram._startTime sm) (Seg._startTime seg)
        /\ Seismogram._endTime sm'
           = Z.max (Seismogram._endTime sm) (end_value seg)
        /\ Seismogram._segmentArray sm'
           = Seismogram._segmentArray sm ++ [snd (Seg.endTime seg)]).
Proof.
  intros Hsegs. split.
  - intros Hdiff. simpl. unfold Seismogram.append_segment. rewrite Hsegs.
    destruct (checkSimilar_cases f seg) as [Hok|[e He]].
    + apply checkSimilar_Ok in Hok. tauto.
    + rewrite He. eauto.
  - intros H1 H2 H3 H4 H5 H6.
    assert (Hok : Seismogram.checkSimilar f seg = Ok tt)
      by (apply checkSimilar_Ok; tauto).
    simpl. unfold Seismogram.append_segment. rewrite Hsegs, Hok.
    destruct (endTime_never_throws seg) as [e He].
    unfold end_value. rewrite He.
    destruct (Seg.endTime seg) as [r seg'] eqn:E. simpl in He; subst r.
    eexists; split; [reflexivity|].
    destruct (endTime_same_samples _ _ _ E) as (_ & _ & Hn & _).
    cbn [snd]. unfold Seismogram.numPoints; simpl.
    rewrite Hsegs, numPoints_snoc, Hn. repeat split.
Qed.

Lemma append_checks_then_extends_witness :
  let f := Seg.with_codes (Some "CO"%string) (Some "JSC"%string) (Some "00"%string) (Some "HHZ"%string) "count"
             (Seg.new (Seg.YTyped (mkTA Int32Array [1; 2; 3]%Q)) 20 1000) in
  let seg := Seg.with_codes (Some "CO"%string) (Some "JSC"%string) (Some "00"%string) (Some "HHZ"%string) "count"
               (Seg.new (Seg.YTyped (mkTA Int32Array [4; 5]%Q)) 20 1150) in
  let bad := Seg.with_codes (Some "CO"%string) (Some "JSC"%string) (Some "00"%string) (Some "HHN"%string) "count"
               (Seg.new (Seg.YTyped (mkTA Int32Array [4; 5]%Q)) 20 1150) in
  let sm := Seismogram.mkSeismogram [f] 1000 1100 None in
  (exists e, Seismogram.append (Seismogram.ASegment bad) sm = (Throw e, sm))
  /\ exists sm', Seismogram.append (Seismogram.ASegment seg) sm = (Ok tt, sm')
                 /\ Seismogram.numPoints sm' = 5
                 /\ Seismogram._endTime sm' = 1200.
Proof.
  intros f seg bad sm.
  split.
  - apply (proj1 (append_checks_then_extends sm f [] bad eq_refl)).
    right; right; right; left. discriminate.
  - destruct (proj2 (append_checks_then_extends sm f [] seg eq_refl))
      as [sm' (Ha & Hn & _ & He & _)]; try reflexivity.
    exists sm'. split; [exact Ha|]. split; [rewrite Hn|rewrite He]; reflexivity.
Defined.

End Append.

(** ** Windows that miss the data *)

Section NoOverlap.

Lemma filterM_endTime_fst w segs :
  fst (filterM (bind Seg.endTime
                  (fun e => ret (Moment.isAfter e (w_startTime w)))) segs)
  = Ok (map (fun d => snd (Seg.endTime d))
            (filter (fun d => Moment.isAfter (end_value d) (w_startTime w)) segs)).
Proof.
  induction segs as [|d segs IH]; simpl; [reflexivity|].
  unfold bind at 1. unfold end_value.
  destruct (endTime_never_throws d) as [e He].
  destruct (Seg.endTime d) as [r d'] eqn:E. simpl in He; subst r. simpl.
  destruct (filterM _ segs) as [r l]. simpl in IH; subst r.
  destruct (Moment.isAfter e (w_startTime w)); simpl; rewrite ?E; reflexivity.
Qed.

Lemma cut_outside_null s w :
  w_endTime w < Seg._startTime s \/ end_value s < w_startTime w ->
  fst (Seg.cut w s) = Ok None.
Proof.
  intros H. unfold Seg.cut, bind, gets. cbn [fst snd].
  destruct (Moment.isBefore (w_endTime w) (Seg._startTime s)) eqn:Eb.
  - reflexivity.
  - unfold ret at 1.
    assert (Hlt : end_value s < w_startTime w).
    { destruct H as [H|H]; [|exact H].
      apply Z.ltb_ge in Eb. unfold Moment.isBefore in *. lia. }
    unfold end_value in Hlt. destruct (endTime_never_throws s) as [e He].
    destruct (Seg.endTime s) as [r s1]. simpl in He; subst r. simpl in Hlt.
    unfold Moment.isAfter. rewrite (proj2 (Z.ltb_lt _ _) Hlt). reflexivity.
Qed.

(** C8.  A window that ends before the segment starts, or starts after
    the segment ends, makes the cut of the segment return null; it does
    not throw.  A window that no segment of a seismogram overlaps makes
    trim return null; it does not throw. *)
Theorem no_overlap_returns_null :
  (forall s w,
      w_endTime w < Seg._startTime s \/ end_value s < w_startTime w ->
      fst (Seg.cut w s) = Ok None)
  /\ (forall sm w,
         Forall (fun d => ~ (w_startTime w < end_value d
                             /\ Seg._startTime d < w_endTime w))
                (Seismogram._segmentArray sm) ->
         fst (Seismogram.trim w sm) = Ok None).
Proof.
  split.
  - intros s w H. now apply cut_outside_null.
  - intros sm w H. unfold Seismogram.trim.
    pose proof (filterM_endTime_fst w (Seismogram._segmentArray sm)) as Hf.
    destruct (filterM _ (Seismogram._segmentArray sm)) as [r segs'].
    simpl in Hf; subst r.
    assert (Hnil : filter (fun d => Moment.isBefore (Seg._startTime d) (w_endTime w))
                     (map (fun d => snd (Seg.endTime d))
                        (filter (fun d => Moment.isAfter (end_value d) (w_startTime w))
                                (Seismogram._segmentArray sm))) = []).
    { induction H as [|d l Hd _ IH]; simpl; [reflexivity|].
      destruct (Moment.isAfter (end_value d) (w_startTime w)) eqn:Ea; [|exact IH].
      simpl. destruct (endTime_never_throws d) as [e He].
      destruct (Seg.endTime d) as [r d'] eqn:E. simpl in He; subst r.
      destruct (endTime_same_samples _ _ _ E) as (_ & _ & _ & Hs & _).
      cbn [snd]. rewrite Hs.
      destruct (Moment.isBefore (Seg._startTime d) (w_endTime w)) eqn:Eb; [|exact IH].
      exfalso; apply Hd. unfold Moment.isAfter, Moment.isBefore in *.
      apply Z.ltb_lt in Ea, Eb. lia. }
    rewrite Hnil. reflexivity.
Qed.

Lemma no_overlap_returns_null_witness :
  let s := Seg.new (Seg.YTyped (mkTA Int32Array [1; 2; 3]%Q)) 20 1000 in
  fst (Seg.cut (mkWindow 0 999) s) = Ok None
  /\ fst (Seg.cut (mkWindow 1101 2000) s) = Ok None
  /\ fst (Seismogram.trim (mkWindow 1101 2000)
            (Seismogram.mkSeismogram [s] 1000 1100 None)) = Ok None.
Proof.
  intros s. split; [|split].
  - apply (proj1 no_overlap_returns_null). left. reflexivity.
  - apply (proj1 no_overlap_returns_null). right. reflexivity.
  - apply (proj2 no_overlap_returns_null). repeat constructor.
    vm_compute. intros [H _]. discriminate H.
Defined.

End NoOverlap.

(** ** Truncation *)

Section Truncation.

Lemma Qtrunc_ge (n : Z) (x : Q) : (inject_Z n <= x)%Q -> n <= Qtrunc x.
Proof.
  intros H. unfold Qtrunc. destruct (Qle_bool 0 x).
  - rewrite <- (Qfloor_Z n). now apply Qfloor_resp_le.
  - rewrite <- (Qceiling_Z n). now apply Qceiling_resp_le.
Qed.

Lemma Qtrunc_le (n : Z) (x : Q) : (x <= inject_Z n)%Q -> Qtrunc x <= n.
Proof.
  intros H. unfold Qtrunc. destruct (Qle_bool 0 x).
  - rewrite <- (Qfloor_Z n). now apply Qfloor_resp_le.
  - rewrite <- (Qceiling_Z n). now apply Qceiling_resp_le.
Qed.

Lemma Qtrunc_Z (n : Z) : Qtrunc (inject_Z n) = n.
Proof. unfold Qtrunc. destruct (Qle_bool 0 (inject_Z n)); [apply Qfloor_Z|apply Qceiling_Z]. Qed.

Lemma Qtrunc_comp x y : (x == y)%Q -> Qtrunc x = Qtrunc y.
Proof.
  intros H. unfold Qtrunc.
  rewrite (Qleb_comp 0%Q 0%Q (Qeq_refl 0%Q) x y H).
  now rewrite (Qfloor_comp x y H), (Qceiling_comp x y H).
Qed.

Lemma Qtrunc_quot a b : 0 < b -> Qtrunc (inject_Z a / inject_Z b) = Z.quot a b.
Proof.
  intros Hb. unfold Qtrunc.
  assert (Hb' : (0 < inject_Z b)%Q)
    by (change 0%Q with (inject_Z 0); rewrite <- Zlt_Qlt; exact Hb).
  destruct (Z.le_gt_cases 0 a) as [Hpos|Hneg].
  - replace (Qle_bool 0 (inject_Z a / inject_Z b)) with true.
    + rewrite <- Zdiv_Qdiv. symmetry. apply Z.quot_div_nonneg; lia.
    + symmetry. apply Qle_bool_iff. apply Qle_shift_div_l; [exact Hb'|].
      rewrite Qmult_0_l. change 0%Q with (inject_Z 0). rewrite <- Zle_Qle. exact Hpos.
  - replace (Qle_bool 0 (inject_Z a / inject_Z b)) with false.
    + unfold Qceiling.
      assert (E : (- (inject_Z a / inject_Z b) == inject_Z (- a) / inject_Z b)%Q).
      { rewrite inject_Z_opp. field. lra. }
      rewrite (Qfloor_comp _ _ E), <- Zdiv_Qdiv.
      rewrite <- (Z.quot_div_nonneg (- a) b) by lia.
      rewrite Z.quot_opp_l by lia. lia.
    + symmetry. apply not_true_is_false. intros H. apply Qle_bool_iff in H.
      apply (Qmult_le_compat_r _ _ (inject_Z b)) in H; [|lra].
      rewrite Qmult_0_l in H.
      assert (E : (inject_Z a / inject_Z b * inject_Z b == inject_Z a)%Q) by (field; lra).
      rewrite E in H. change 0%Q with (inject_Z 0) in H. rewrite <- Zle_Qle in H. lia.
Qed.

Lemma Qtrunc_fl64_Z z : Z.abs z <= 2 ^ 53 -> Qtrunc (fl64 (inject_Z z)) = z.
Proof. intros H. rewrite fl64_Z by exact H. apply Qtrunc_Z. Qed.

(** A sum or quotient whose exact value is the half of a whole number is
    not rounded. *)
Lemma fl64_half (a : Z) (x : Q) :
  Z.abs a <= 2 ^ 53 -> (x == inject_Z a / 2)%Q -> (fl64 x == inject_Z a / 2)%Q.
Proof.
  intros Ha E. rewrite (fl64_comp x (inject_Z a * pow2 (-1))).
  - rewrite fl64_exact; [reflexivity|]. apply representable_dyadic; lia.
  - rewrite E. reflexivity.
Qed.

(** [e.add(1000*1.5/rate, 'ms')] when one sample period is [p] ms: the
    sum [e + 1.5 p] is exact, and the Date keeps its whole milliseconds. *)
Lemma add_one_and_a_half_periods rate p e :
  1 <= p -> (rate == 1000 / inject_Z p)%Q ->
  2 * Z.abs e + 3 * p <= 2 ^ 53 ->
  Moment.add e (1000 * 1.5 / rate)%Q Moment.ms = Z.quot (2 * e + 3 * p) 2.
Proof.
  intros Hp Hrate Hb.
  assert (Hp' : (0 < inject_Z p)%Q)
    by (change 0%Q with (inject_Z 0); rewrite <- Zlt_Qlt; lia).
  assert (E1 : (1000 * 1.5 / rate == inject_Z (3 * p) / 2)%Q).
  { rewrite Hrate, inject_Z_mult. change (inject_Z 3) with 3%Q. field. lra. }
  unfold Moment.add, Moment.milliseconds_of.
  assert (E2 : (inject_Z e + fl64 (1000 * 1.5 / rate)
                == inject_Z (2 * e + 3 * p) / 2)%Q).
  { rewrite (fl64_half (3 * p)) by (exact E1 || lia).
    rewrite inject_Z_plus, !inject_Z_mult. change (inject_Z 2) with 2%Q.
    change (inject_Z 3) with 3%Q. field. }
  rewrite (Qtrunc_comp _ _ (fl64_half (2 * e + 3 * p) _ ltac:(lia) E2)).
  change 2%Q with (inject_Z 2). apply Qtrunc_quot. lia.
Qed.

End Truncation.

(** ** Contiguity *)

Section Contiguity.

Lemma end_value_endTime s : exists s1, Seg.endTime s = (Ok (end_value s), s1).
Proof.
  unfold end_value. destruct (endTime_never_throws s) as [e He].
  destruct (Seg.endTime s) as [r s1]. simpl in He; subst r. simpl. eauto.
Qed.

(** [prev.endTime.add(x, 'ms')] returns the shifted instant and leaves it
    in the cache of [prev]. *)
Lemma endTime_add_after_read s s1 x :
  Seg.endTime s = (Ok (end_value s), s1) ->
  Seg.endTime_add x Moment.ms s1
  = (Ok (Moment.add (end_value s) x Moment.ms),
     Seg.with_endTime_cache (Some (Moment.add (end_value s) x Moment.ms)) s1).
Proof.
  intros H. apply endTime_cached in H. destruct H as [_ H].
  unfold Seg.endTime_add, bind. rewrite H. reflexivity.
Qed.

Lemma isContiguous_loop_spec rest : forall prev,
  fst (Seismogram.isContiguous_loop prev rest) = true
  <-> Forall (fun pn => gap_ok (fst pn) (snd pn)) (adjacent_pairs (prev :: rest)).
Proof.
  induction rest as [|s r IH]; intros prev.
  - simpl. split; [constructor|reflexivity].
  - cbn [Seismogram.isContiguous_loop adjacent_pairs].
    destruct (end_value_endTime prev) as [prev1 E]. rewrite E.
    destruct (endTime_same_samples _ _ _ E) as (_ & _ & _ & _ & Hr).
    rewrite (endTime_add_after_read _ _ _ E), Hr.
    unfold Moment.isBefore, Moment.isAfter.
    destruct (Z.ltb_spec (end_value prev) (Seg._startTime s)) as [L1|L1].
    + destruct (Z.ltb_spec (Seg._startTime s)
                  (Moment.add (end_value prev)
                     (1000 * 1.5 / Seg._sampleRate prev)%Q Moment.ms)) as [L2|L2].
      * specialize (IH s).
        destruct (Seismogram.isContiguous_loop s r) as [b [s' r']].
        simpl in *. rewrite IH. split.
        -- intros H. constructor; [split; assumption|exact H].
        -- intros H. now inversion H.
      * simpl. split; [discriminate|].
        intros H. inversion H as [|? ? [_ G] _]. simpl in G. lia.
    + simpl. split; [discriminate|].
      intros H. inversion H as [|? ? [G _] _]. simpl in G. lia.
Qed.

Lemma isContiguous_two sm prev next :
  Seismogram._segmentArray sm = [prev; next] ->
  exists b, fst (Seismogram.isContiguous sm) = Ok b
            /\ (b = true <-> gap_ok prev next).
Proof.
  intros Hs. unfold Seismogram.isContiguous. rewrite Hs.
  pose proof (isContiguous_loop_spec [next] prev) as H.
  destruct (Seismogram.isContiguous_loop prev [next]) as [b [s' r']].
  exists b. split; [reflexivity|]. simpl in H. rewrite H. split.
  - intros G. now inversion G.
  - intros G. constructor; [exact G|constructor].
Qed.

(** X26.  A seismogram with exactly one segment is contiguous.  With two
    or more segments isContiguous() returns true exactly when every
    adjacent pair has prev.endTime before next.startTime and
    prev.endTime advanced by 1.5 sample periods (by moment's add, which
    keeps whole milliseconds and truncates toward zero) after
    next.startTime.  Hence for two segments whose sample period is a
    whole number p of milliseconds, with 2|prev.endTime| + 3p <= 2^53:
    a gap of exactly two sample periods is not contiguous, a gap of zero
    is not contiguous, a gap of exactly one sample period is contiguous
    when p is at least two, and is not contiguous when p is one and
    prev.endTime is not before 1970. *)
Theorem isContiguous_gap_test :
  (forall sm s, Seismogram._segmentArray sm = [s] ->
                Seismogram.isContiguous sm = (Ok true, sm))
  /\ (forall sm s0 s1 rest,
         Seismogram._segmentArray sm = s0 :: s1 :: rest ->
         exists b, fst (Seismogram.isContiguous sm) = Ok b
                   /\ (b = true <->
                       Forall (fun pn => gap_ok (fst pn) (snd pn))
                              (adjacent_pairs (s0 :: s1 :: rest))))
  /\ (forall sm prev next p,
         Seismogram._segmentArray sm = [prev; next] ->
         whole_ms_period prev p ->
         2 * Z.abs (end_value prev) + 3 * p <= 2 ^ 53 ->
         let gap := Seg._startTime next - end_value prev in
         (gap = 2 * p -> fst (Seismogram.isContiguous sm) = Ok false)
         /\ (gap = 0 -> fst (Seismogram.isContiguous sm) = Ok false)
         /\ (gap = p -> 2 <= p -> fst (Seismogram.isContiguous sm) = Ok true)
         /\ (gap = p -> p = 1 -> 0 <= end_value prev ->
             fst (Seismogram.isContiguous sm) = Ok false)).
Proof.
  split; [|split].
  - intros sm s Hs. unfold Seismogram.isContiguous. now rewrite Hs.
  - intros sm s0 s1 rest Hs. unfold Seismogram.isContiguous. rewrite Hs.
    pose proof (isContiguous_loop_spec (s1 :: rest) s0) as H.
    destruct (Seismogram.isContiguous_loop s0 (s1 :: rest)) as [b [s' r']].
    exists b. split; [reflexivity|exact H].
  - intros sm prev next p Hs [Hp Hrate] Hbound gap.
    destruct (isContiguous_two sm prev next Hs) as [b [Hb Hiff]].
    rewrite Hb. unfold gap_ok in Hiff.
    rewrite (add_one_and_a_half_periods _ p _ Hp Hrate Hbound) in Hiff.
    set (e := end_value prev) in *. set (n := Seg._startTime next) in *.
    assert (Hq : 2 * Z.quot (2 * e + 3 * p) 2 <= 2 * e + 3 * p + 1
                 /\ 2 * e + 3 * p - 1 <= 2 * Z.quot (2 * e + 3 * p) 2
                 /\ (0 <= 2 * e + 3 * p -> 2 * Z.quot (2 * e + 3 * p) 2 <= 2 * e + 3 * p)).
    { pose proof (Z.quot_rem' (2 * e + 3 * p) 2) as Hqr.
      pose proof (Z.rem_bound_abs (2 * e + 3 * p) 2 ltac:(lia)) as Hra.
      pose proof (Z.rem_nonneg (2 * e + 3 * p) 2 ltac:(lia)) as Hrn.
      repeat split; lia. }
    destruct Hq as [Hq1 [Hq2 Hq3]].
    repeat split.
    + intros Hgap. f_equal. destruct b; [|reflexivity]. exfalso.
      destruct (proj1 Hiff eq_refl) as [_ G]. unfold gap in Hgap. lia.
    + intros Hgap. f_equal. destruct b; [|reflexivity]. exfalso.
      destruct (proj1 Hiff eq_refl) as [G _]. unfold gap in Hgap. lia.
    + intros Hgap Hge. f_equal. apply Hiff. unfold gap in Hgap. split; lia.
    + intros Hgap H1 He. f_equal. destruct b; [|reflexivity]. exfalso.
      destruct (proj1 Hiff eq_refl) as [_ G]. unfold gap in Hgap.
      specialize (Hq3 ltac:(lia)). lia.
Qed.

End Contiguity.

Section ContiguityExamples.

Lemma isContiguous_gap_test_witness :
  fst (Seismogram.isContiguous
         (Seismogram.mkSeismogram [example_first; example_one_period_later] 1000 1200 None)) = Ok true
  /\ fst (Seismogram.isContiguous
            (Seismogram.mkSeismogram [example_first; example_two_periods_later] 1000 1250 None)) = Ok false.
Proof.
  assert (Hw : whole_ms_period example_first 50) by (split; [lia|vm_compute; reflexivity]).
  assert (Hb : 2 * Z.abs (end_value example_first) + 3 * 50 <= 2 ^ 53)
    by (vm_compute; discriminate).
  split.
  - refine (proj1 (proj2 (proj2 (proj2 (proj2 isContiguous_gap_test)
              (Seismogram.mkSeismogram [example_first; example_one_period_later] 1000 1200 None)
              example_first example_one_period_later 50 eq_refl Hw Hb))) _ _).
    + vm_compute. reflexivity.
    + lia.
  - refine (proj1 (proj2 (proj2 isContiguous_gap_test)
              (Seismogram.mkSeismogram [example_first; example_two_periods_later] 1000 1250 None)
              example_first example_two_periods_later 50 eq_refl Hw Hb) _).
    vm_compute. reflexivity.
Defined.

(** C2.  At 1000 Hz one sample period is 1 ms, and the one and a half
    periods that isContiguous() adds to the end time become 1 ms when
    moment's add cuts the sum to a whole millisecond.  Two segments of a
    seismogram that are exactly one sample period apart, the first with
    two samples from 1600000000000 ms and the second starting at
    1600000000002 ms, are reported as not contiguous. *)
Lemma isContiguous_one_period_gap_at_1000Hz :
  let a := Seg.new (Seg.YTyped (mkTA Int32Array [1; 2]%Q)) 1000 1600000000000 in
  let b := Seg.new (Seg.YTyped (mkTA Int32Array [3; 4]%Q)) 1000 1600000000002 in
  exists sm,
    Seismogram.new [a; b] = Ok sm
    /\ (inject_Z (Seg._startTime b - end_value a) == 1000 / Seg._sampleRate a)%Q
    /\ fst (Seismogram.isContiguous sm) = Ok false.
Proof.
  intros a b. eexists. split; [vm_compute; reflexivity|].
  split; vm_compute; reflexivity.
Qed.

(** C10.  isContiguous() is not a read-only query.  For two segments at
    20 Hz, the first ending at 1100 ms and the second starting one
    sample period later, the call answers true and leaves the cached end
    time of the first segment 75 ms later than before; the end time read
    afterwards is 1175 ms, a second call answers false, and reading y of
    the seismogram, which succeeds before the call, throws after it. *)
Theorem isContiguous_shifts_cached_endTime :
  exists sm sm',
    Seismogram.new [example_first; example_one_period_later] = Ok sm
    /\ map end_value (Seismogram._segmentArray sm) = [1100; 1200]
    /\ Seismogram.isContiguous sm = (Ok true, sm')
    /\ map end_value (Seismogram._segmentArray sm') = [1175; 1200]
    /\ fst (Seismogram.isContiguous sm') = Ok false
    /\ fst (Seismogram.y sm) = Ok (mkTA Int32Array [1; 2; 3; 4; 5]%Q)
    /\ fst (Seismogram.y sm')
       = Throw "Seismogram is not contiguous, acces each SeismogramSegment idividually.".
Proof.
  do 2 eexists. split; [vm_compute; reflexivity|].
  split; [vm_compute; reflexivity|].
  split; [vm_compute; reflexivity|].
  repeat split; vm_compute; reflexivity.
Qed.

End ContiguityExamples.

(** ** merge *)

Section Merge.

Lemma y_fst_numPoints s a : fst (Seg.y s) = Ok a -> ta_length a = Seg.numPoints s.
Proof.
  intros H. destruct (Seg.y s) as [r s'] eqn:E. simpl in H; subst r.
  now apply y_Ok in E.
Qed.

(** [numPoints] of a seismogram counts the samples of all segments. *)
Lemma numPoints_arrays segs arrays :
  Forall2 (fun s a => fst (Seg.y s) = Ok a) segs arrays ->
  forall acc,
    fold_left (fun accumulator seis => accumulator + Seg.numPoints seis) segs acc
    = acc + Z.of_nat (List.length (List.concat (map ta_data arrays))).
Proof.
  induction 1 as [|s a segs arrays Hy _ IH]; intros acc; simpl; [lia|].
  rewrite IH, length_app, <- (y_fst_numPoints s a Hy). unfold ta_length. lia.
Qed.

(** The copy loop writes the samples of the segments one after the
    other, each converted to the kind of the output array. *)
Lemma merge_loop_fill k segs arrays :
  Forall2 (fun s a => fst (Seg.y s) = Ok a) segs arrays ->
  forall pre zs post,
    List.length zs = List.length (List.concat (map ta_data arrays)) ->
    fst (Seismogram.merge_loop (mkTA k (pre ++ zs ++ post))
           (Z.of_nat (List.length pre)) segs)
    = Ok (mkTA k (pre ++ map (coerce k) (List.concat (map ta_data arrays)) ++ post)).
Proof.
  induction 1 as [|s a segs arrays Hy _ IH]; intros pre zs post Hlen.
  - destruct zs; [|discriminate]. reflexivity.
  - cbn [Seismogram.merge_loop].
    destruct (Seg.y s) as [r s'] eqn:E. simpl in Hy; subst r.
    cbn [map List.concat] in *. rewrite length_app in Hlen.
    rewrite <- (firstn_skipn (List.length (ta_data a)) zs).
    rewrite <- (app_assoc (firstn _ zs)).
    rewrite ta_copy_from_fill by (rewrite length_firstn; lia).
    replace (pre ++ map (coerce k) (ta_data a) ++ skipn (List.length (ta_data a)) zs ++ post)
      with ((pre ++ map (coerce k) (ta_data a)) ++ skipn (List.length (ta_data a)) zs ++ post)
      by (now rewrite <- app_assoc).
    replace (Z.of_nat (List.length pre + List.length (ta_data a)))
      with (Z.of_nat (List.length (pre ++ map (coerce k) (ta_data a))))
      by (rewrite length_app, length_map; lia).
    specialize (IH (pre ++ map (coerce k) (ta_data a))
                   (skipn (List.length (ta_data a)) zs) post
                   ltac:(rewrite length_skipn; lia)).
    destruct (Seismogram.merge_loop _ _ segs) as [res r'].
    simpl in IH; subst res. simpl.
    rewrite map_app, <- !app_assoc. reflexivity.
Qed.

Lemma map_coerce_wf k l : Forall (fun v => coerce k v = v) l -> map (coerce k) l = l.
Proof.
  induction 1 as [|v l Hv _ IH]; simpl; [reflexivity|]. now rewrite Hv, IH.
Qed.

Lemma concat_wf k arrays :
  Forall (fun a => ta_kind a = k /\ ta_wf a) arrays ->
  Forall (fun v => coerce k v = v) (List.concat (map ta_data arrays)).
Proof.
  induction 1 as [|a arrays [Hk Hw] _ IH]; simpl; [constructor|].
  apply Forall_app. split; [|exact IH]. unfold ta_wf in Hw. now rewrite Hk in Hw.
Qed.

(** What [merge] returns. *)
Lemma merge_value sm y0 others :
  Forall2 (fun s a => fst (Seg.y s) = Ok a) (Seismogram._segmentArray sm) (y0 :: others) ->
  let k := ta_kind y0 in
  let all := List.concat (map ta_data (y0 :: others)) in
  fst (Seismogram.merge sm) = Ok (mkTA k (map (coerce k) all))
  /\ ta_length (mkTA k (map (coerce k) all)) = Seismogram.numPoints sm
  /\ (Forall (fun a => ta_kind a = k /\ ta_wf a) (y0 :: others) ->
      fst (Seismogram.merge sm) = Ok (mkTA k all)).
Proof.
  intros HF k all.
  assert (Hn : Seismogram.numPoints sm = Z.of_nat (List.length all)).
  { unfold Seismogram.numPoints. now rewrite (numPoints_arrays _ _ HF). }
  assert (Hm : fst (Seismogram.merge sm) = Ok (mkTA k (map (coerce k) all))).
  { unfold Seismogram.merge.
    destruct (Seismogram._segmentArray sm) as [|f r] eqn:Hs; [inversion HF|].
    inversion HF as [|? ? ? ? Hy0 HFr]; subst.
    destruct (Seg.y f) as [res f'] eqn:E. simpl in Hy0; subst res.
    assert (HF' : Forall2 (fun s a => fst (Seg.y s) = Ok a) (f' :: r) (y0 :: others)).
    { constructor; [|exact HFr]. now rewrite (y_again _ _ _ E). }
    cbn [Seismogram._segmentArray Seismogram.with_segmentArray].
    assert (Hn' : Seismogram.numPoints (Seismogram.with_segmentArray (f' :: r) sm)
                  = Z.of_nat (List.length all)).
    { unfold Seismogram.numPoints; simpl Seismogram._segmentArray.
      now rewrite (numPoints_arrays _ _ HF'). }
    rewrite Hn'. unfold ta_new. rewrite Nat2Z.id.
    pose proof (merge_loop_fill k _ _ HF' [] (repeat 0%Q (List.length all)) []
                  (repeat_length _ _)) as G.
    cbn [app List.length Z.of_nat] in G. rewrite !app_nil_r in G.
    fold k. destruct (Seismogram.merge_loop _ 0 (f' :: r)) as [res segs].
    simpl in G; subst res. reflexivity. }
  split; [exact Hm|]. split.
  - rewrite Hn. unfold ta_length; simpl. now rewrite length_map.
  - intros Hwf. rewrite Hm. now rewrite (map_coerce_wf k all (concat_wf k _ Hwf)).
Qed.

End Merge.

(** ** mean *)

Section MeanFacts.

(** [meanOfSlice(dataSlice, totalPts)] of util.js, which is not among the
    sources. *)
Variable meanOfSlice : TypedArray -> Z -> Q.

Lemma fold_left_Qplus l : forall acc, (fold_left Qplus l acc == acc + Qsum l)%Q.
Proof.
  induction l as [|x l IH]; intros acc; simpl.
  - ring.
  - rewrite IH. ring.
Qed.

Lemma Qsum_app l1 l2 : (Qsum (l1 ++ l2) == Qsum l1 + Qsum l2)%Q.
Proof.
  induction l1 as [|x l1 IH]; simpl; [ring|]. rewrite IH. ring.
Qed.

Lemma mean_term_of_y s a :
  fst (Seg.y s) = Ok a ->
  fst (Seismogram.mean_term meanOfSlice s) = Ok (mean_addend meanOfSlice a).
Proof.
  intros H. destruct (Seg.y s) as [r s'] eqn:E. simpl in H; subst r.
  unfold Seismogram.mean_term, mean_addend, bind, gets, ret.
  rewrite E, (y_again _ _ _ E). cbn [fst].
  destruct (y_Ok _ _ _ E) as (_ & Hl & Hn & _). now rewrite Hn, <- Hl.
Qed.

Lemma traverse_mean_terms segs arrays :
  Forall2 (fun s a => fst (Seg.y s) = Ok a) segs arrays ->
  fst (traverse (Seismogram.mean_term meanOfSlice) segs)
  = Ok (map (mean_addend meanOfSlice) arrays).
Proof.
  induction 1 as [|s a segs arrays Hy _ IH]; simpl; [reflexivity|].
  pose proof (mean_term_of_y s a Hy) as Ht.
  destruct (Seismogram.mean_term meanOfSlice s) as [r s']. simpl in Ht; subst r.
  destruct (traverse _ segs) as [r l]. simpl in IH; subst r. reflexivity.
Qed.









End MeanFacts.


(** ** cut of a segment *)

Section SegmentCut.

Lemma endTime_hit s e :
  Seg._endTime_cache s = Some e ->
  Seg._endTime_cache_numPoints s = Seg.numPoints s ->
  Seg.endTime s = (Ok e, s).
Proof.
  intros Hc Hn. unfold Seg.endTime. rewrite Hc, Hn, Z.eqb_refl. reflexivity.
Qed.

(** A read of the end time leaves a cache that the next read will use. *)
Lemma endTime_fills s e s1 :
  Seg.endTime s = (Ok e, s1) ->
  Seg._endTime_cache s1 = Some e
  /\ Seg._endTime_cache_numPoints s1 = Seg.numPoints s1.
Proof.
  unfold Seg.endTime.
  destruct (Seg._endTime_cache s) as [e0|] eqn:Hc.
  - destruct (Z.eqb_spec (Seg._endTime_cache_numPoints s) (Seg.numPoints s)) as [E|E];
      simpl; intros H; inv H; auto.
  - simpl; intros H; inv H; auto.
Qed.

(** A read of the end time touches the two cache fields only. *)
Lemma endTime_frame s :
  exists c n, snd (Seg.endTime s)
              = Seg.with_endTime_cache c (Seg.with_endTime_cache_numPoints n s).
Proof.
  unfold Seg.endTime.
  destruct (Seg._endTime_cache s) as [e0|] eqn:Hc.
  - destruct (negb _); simpl.
    + eauto.
    + exists (Some e0), (Seg._endTime_cache_numPoints s).
      destruct s; simpl in *; now subst.
  - simpl. eauto.
Qed.

(** A successful read of the samples touches the two sample fields only. *)
Lemma y_frame s a s' :
  Seg.y s = (Ok a, s') ->
  s' = Seg.with_compressed (Seg._compressed s') (Seg.with_y (Some a) s).
Proof.
  unfold Seg.y. destruct (Seg._y s) as [a0|] eqn:Hy.
  - intros H; inv H. destruct s'; simpl in *; now subst.
  - repeat (destruct_match; try discriminate). intros H; inv H. reflexivity.
Qed.

(** What the sample getter returns depends on the sample fields only. *)
Lemma y_cache_irrelevant s c n :
  fst (Seg.y (Seg.with_endTime_cache c (Seg.with_endTime_cache_numPoints n s)))
  = fst (Seg.y s).
Proof.
  unfold Seg.y, Seg.isEncoded, Seg.numPoints; simpl.
  repeat (destruct_match; try reflexivity).
Qed.

Lemma cut_unfold w s y0 :
  fst (Seg.y s) = Ok y0 ->
  fst (Seg.cut w s) = Ok (cut_result w s y0).
Proof.
  intros Hy. unfold Seg.cut, cut_result, bind, gets, ret. cbn [fst snd].
  destruct (Moment.isBefore (w_endTime w) (Seg._startTime s)) eqn:Eb; [reflexivity|].
  cbn [orb].
  destruct (end_value_endTime s) as [sA EA]. rewrite EA.
  destruct (Moment.isAfter (w_startTime w) (end_value s)) eqn:Ea; [reflexivity|].
  destruct (endTime_frame s) as [c [n Hfr]]. rewrite EA in Hfr. simpl in Hfr. subst sA.
  destruct (endTime_fills _ _ _ EA) as [Hc Hn].
  pose proof (y_cache_irrelevant s c n) as Hy'. rewrite Hy in Hy'.
  destruct (Seg.y (Seg.with_endTime_cache c (Seg.with_endTime_cache_numPoints n s)))
    as [r sB] eqn:EB.
  simpl in Hy'; subst r.
  destruct (y_Ok _ _ _ EB) as (_ & _ & HnB & (_ & _ & HcB & HnpB & _) & _).
  rewrite (endTime_hit sB (end_value s)) by congruence.
  rewrite (y_frame _ _ _ EB). reflexivity.
Qed.


End SegmentCut.

(** ** cut at a whole number of milliseconds per sample *)



Section WholeMilliseconds.

Variables (p st n a b : Z).
Hypothesis Hp : 1 <= p.
Hypothesis Hn : 0 <= n.
Hypothesis Hab : a <= b.
Hypothesis Hb : ~ b < st.
Hypothesis Ha : ~ st + (n - 1) * p < a.






End WholeMilliseconds.

Section WholeMillisecondSegments.

Lemma rate_positive rate p :
  1 <= p -> (rate == 1000 / inject_Z p)%Q -> ~ (inject_Z p == 0)%Q.
Proof. intros Hp _ Hz. unfold Qeq in Hz. simpl in Hz. lia. Qed.

Lemma Qabs_inject_Z z : Qabs (inject_Z z) = inject_Z (Z.abs z).
Proof. reflexivity. Qed.

Lemma fl64_error x :
  (pow2 (-1022) <= Qabs x)%Q -> (Qabs (fl64 x - x) <= Qabs x * pow2 (-53))%Q.
Proof. intros H. apply (round_binary_error 53 (-1074)); solve [lia|exact H]. Qed.

Lemma fl64_snap (N : Z) (w : Q) :
  N <> 0 -> Z.abs N < 2 ^ 53 ->
  (Qabs (w - inject_Z N) <= Qabs (inject_Z N) * pow2 (-55))%Q ->
  (fl64 w == inject_Z N)%Q.
Proof. intros. apply (round_binary_snap 53 (-1074)); try lia; assumption. Qed.

(** Advancing by [j] samples advances by [j * p] milliseconds, when the
    instant reached is at least nine times as far from the epoch as from
    the instant left: the rounding errors of the quotient and of the
    product are lost in the rounding of the sum. *)
Lemma add_seconds_whole rate p st j :
  1 <= p -> (rate == 1000 / inject_Z p)%Q ->
  9 * Z.abs (j * p) <= Z.abs (st + j * p) ->
  Z.abs (st + j * p) < 2 ^ 53 ->
  Moment.add st (inject_Z j / rate)%Q Moment.seconds = st + j * p.
Proof.
  intros Hp Hr Hfar Hbig.
  assert (Hp0 : ~ (inject_Z p == 0)%Q) by (now apply (rate_positive rate p)).
  assert (Ex : (inject_Z j / rate == inject_Z (j * p) / 1000)%Q).
  { rewrite Hr, inject_Z_mult. field. exact Hp0. }
  unfold Moment.add, Moment.milliseconds_of.
  rewrite (fl64_comp _ _ Ex). clear Ex.
  set (T := j * p) in *.
  destruct (Z.eq_dec T 0) as [T0|T0].
  - rewrite T0 in *. replace (st + 0) with st in * by lia.
    rewrite (fl64_comp (inject_Z 0 / 1000) (inject_Z 0)) by reflexivity.
    rewrite fl64_Z by (cbn; lia).
    rewrite (fl64_comp (inject_Z 0 * 1000) (inject_Z 0)) by reflexivity.
    rewrite fl64_Z by (cbn; lia).
    rewrite (fl64_comp (inject_Z st + inject_Z 0) (inject_Z st)) by (simpl; ring).
    apply Qtrunc_fl64_Z. lia.
  - set (x := (inject_Z T / 1000)%Q).
    set (u := pow2 (-53)).
    assert (Hu0 : (0 < u)%Q) by apply pow2_pos.
    assert (Hu4 : (u <= 1 # 4)%Q).
    { change (1 # 4)%Q with (pow2 (-2)). apply pow2_le. lia. }
    assert (Hx : ((1 # 1000) <= Qabs x)%Q).
    { unfold x. unfold Qdiv. rewrite Qabs_Qmult, Qabs_inject_Z.
      assert (H1 : (inject_Z 1 <= inject_Z (Z.abs T))%Q) by (rewrite <- Zle_Qle; lia).
      change (inject_Z 1) with 1%Q in H1. change (Qabs (/ 1000)) with (1 # 1000)%Q.
      nra. }
    assert (Hmin : (pow2 (-1022) <= 1 # 2000)%Q).
    { apply Qle_trans with (pow2 (-11)); [apply pow2_le; lia|].
      apply Qle_bool_iff. vm_compute. reflexivity. }
    assert (E1 : (Qabs (fl64 x - x) <= Qabs x * u)%Q) by (apply fl64_error; lra).
    set (a := fl64 x) in *.
    assert (Ha : (Qabs x * (1 - u) <= Qabs a /\ Qabs a <= Qabs x * (1 + u))%Q).
    { assert (Hd : (Qabs x * (1 - u) == Qabs x - Qabs x * u)%Q) by ring.
      assert (Hd' : (Qabs x * (1 + u) == Qabs x + Qabs x * u)%Q) by ring.
      rewrite Hd, Hd'. clear Hd Hd' Hx. revert E1. generalize (Qabs x * u)%Q. intros d.
      qabs; lra. }
    destruct Ha as [Ha1 Ha2].
    assert (E2 : (Qabs (fl64 (a * 1000) - a * 1000) <= Qabs (a * 1000) * u)%Q).
    { apply fl64_error. rewrite Qabs_Qmult. change (Qabs 1000) with 1000%Q. nra. }
    set (y := fl64 (a * 1000)) in *.
    rewrite Qabs_Qmult in E2. change (Qabs 1000) with 1000%Q in E2.
    assert (ET : (inject_Z T == x * 1000)%Q) by (unfold x; field).
    assert (HN : (9 * (Qabs x * 1000) <= Qabs (inject_Z (st + T)))%Q).
    { rewrite Qabs_inject_Z.
      assert (H9 : (inject_Z (9 * Z.abs T) <= inject_Z (Z.abs (st + T)))%Q)
        by (rewrite <- Zle_Qle; exact Hfar).
      rewrite inject_Z_mult, <- Qabs_inject_Z, ET, Qabs_Qmult in H9.
      change (Qabs 1000) with 1000%Q in H9. change (inject_Z 9) with 9%Q in H9.
      exact H9. }
    assert (Hs : (fl64 (inject_Z st + y) == inject_Z (st + T))%Q).
    { apply fl64_snap; [lia|lia|].
      assert (Hd : (inject_Z st + y - inject_Z (st + T)
                    == (y - a * 1000) + 1000 * (a - x))%Q).
      { rewrite inject_Z_plus, ET. ring. }
      rewrite Hd.
      assert (Hp55 : (pow2 (-55) * 4 == u)%Q).
      { unfold u. replace (-53) with (-55 + 2) by lia. rewrite pow2_add.
        change (pow2 2) with 4%Q. reflexivity. }
      set (X := Qabs x) in *. set (A := Qabs a) in *.
      set (NN := Qabs (inject_Z (st + T))) in *. set (v := pow2 (-55)) in *.
      assert (HX0 : (0 <= X)%Q) by apply Qabs_nonneg.
      assert (HA0 : (0 <= A)%Q) by apply Qabs_nonneg.
      assert (B1 : (Qabs (y - a * 1000 + 1000 * (a - x)) <= A * 1000 * u + 1000 * (X * u))%Q).
      { eapply Qle_trans; [apply Qabs_triangle|].
        rewrite Qabs_Qmult. change (Qabs 1000) with 1000%Q.
        apply Qplus_le_compat; [exact E2|]. lra. }
      assert (B2 : (X * u * u <= X * u * (1 # 4))%Q) by nra.
      assert (B3 : (A * 1000 * u <= 1000 * (X * u) + 1000 * (X * u * u))%Q) by nra.
      assert (B4 : (9 * (X * 1000) * v <= NN * v)%Q).
      { apply Qmult_le_compat_r; [exact HN|]. apply Qlt_le_weak, pow2_pos. }
      assert (B5 : (X * u == 4 * (X * v))%Q) by (rewrite <- Hp55; ring).
      nra. }
    rewrite (Qtrunc_comp _ _ Hs). apply Qtrunc_Z.
Qed.


Lemma ta_slice_length a i j :
  0 <= i <= ta_length a -> 0 <= j <= ta_length a ->
  ta_length (ta_slice a i j) = Z.max 0 (j - i).
Proof.
  intros Hi Hj. unfold ta_slice, slice_index.
  destruct (Z.ltb_spec i 0); [lia|]. destruct (Z.ltb_spec j 0); [lia|].
  unfold ta_length in *; simpl.
  rewrite length_firstn, length_skipn. lia.
Qed.

Lemma ta_slice_full a : ta_slice a 0 (ta_length a) = a.
Proof.
  pose proof (ta_length_nonneg a) as Hn.
  unfold ta_slice, slice_index. change (0 <? 0) with false. cbv iota.
  destruct (Z.ltb_spec (ta_length a) 0); [lia|].
  rewrite (Z.min_l 0 (ta_length a)) by lia. rewrite Z.min_id, Z.sub_0_r.
  unfold ta_length. rewrite Nat2Z.id. simpl.
  rewrite firstn_all. now destruct a.
Qed.


Lemma end_value_whole s p :
  whole_ms_period s p -> steady s p -> cache_ok s ->
  end_value s = Seg._startTime s + (Seg.numPoints s - 1) * p.
Proof.
  intros [Hp Hr] (S1 & S2 & S3) Hc. unfold end_value. rewrite (endTime_value s Hc).
  pose proof (numPoints_nonneg s) as Hn.
  unfold Seg.timeOfSample. apply add_seconds_whole; try assumption.
  - destruct (Z.abs_spec ((Seg.numPoints s - 1) * p)) as [[_ A]|[_ A]];
      destruct (Z.abs_spec (Seg._startTime s + (Seg.numPoints s - 1) * p)) as [[_ B]|[_ B]];
      rewrite A, B; nia.
  - destruct (Z.abs_spec (Seg._startTime s + (Seg.numPoints s - 1) * p)) as [[_ B]|[_ B]];
      rewrite B; nia.
Qed.



(** The segment that [cut] builds is new: decoded samples, empty cache. *)
Lemma clone_fresh s arr t :
  let x := Seg.cloneWithNewData s (Seg.YTyped arr) t in
  fst (Seg.y x) = Ok arr /\ cache_ok x /\ Seg.numPoints x = ta_length arr
  /\ Seg._startTime x = t /\ Seg._sampleRate x = Seg._sampleRate s
  /\ Seg.cloneWithNewData x (Seg.YTyped arr) t = x.
Proof. repeat split. Qed.


End WholeMillisecondSegments.

(** ** The end time of a segment *)

(** C7.  In a state whose cache is empty, recorded for another sample
    count or holds the time of the last sample, and in which that time
    is a date, the end time read is moment's sum of the start time and
    (numPoints - 1) / sampleRate seconds, for the start time, sample
    rate and sample count of that state: the double
    (numPoints - 1) / sampleRate * 1000 is added to the start time and
    the sum is cut to a whole millisecond.  Every state reached from the
    constructor by the operations of the segment has such a cache.  When
    one sample period is a whole number p of milliseconds and the
    segment is steady for p, the end time is exactly
    startTime + (numPoints - 1) * p.  The value is cached: after a read
    the cache holds it and the next read returns it without changing the
    segment.  Assigning y, startTime or sampleRate to a segment in any
    state whatsoever empties the cache, so the read that follows is
    computed from the new values. *)
Theorem endTime_is_time_of_last_sample :
  (forall s,
      cache_ok s -> dated s ->
      fst (Seg.endTime s)
      = Ok (Moment.add (Seg._startTime s)
              (inject_Z (Seg.numPoints s - 1) / Seg._sampleRate s)%Q
              Moment.seconds))
  /\ (forall yArray rate start ops,
         cache_ok (run_ops ops (Seg.new yArray rate start)))
  /\ (forall s p,
         cache_ok s -> whole_ms_period s p -> steady s p ->
         fst (Seg.endTime s) = Ok (Seg._startTime s + (Seg.numPoints s - 1) * p))
  /\ (forall s e s1,
         Seg.endTime s = (Ok e, s1) ->
         Seg._endTime_cache s1 = Some e /\ Seg.endTime s1 = (Ok e, s1))
  /\ (forall s0 value,
         let s1 := snd (Seg.set_startTime value s0) in
         Seg._startTime s1 = value
         /\ Seg._endTime_cache s1 = None
         /\ fst (Seg.endTime s1) = Ok (Seg.timeOfSample s1 (Seg.numPoints s1 - 1)))
  /\ (forall s0 value,
         let s1 := snd (Seg.set_sampleRate value s0) in
         Seg._sampleRate s1 = value
         /\ Seg._endTime_cache s1 = None
         /\ fst (Seg.endTime s1) = Ok (Seg.timeOfSample s1 (Seg.numPoints s1 - 1)))
  /\ (forall s0 value,
         let s1 := snd (Seg.set_y value s0) in
         Seg.numPoints s1 = ta_length value
         /\ Seg._endTime_cache s1 = None
         /\ fst (Seg.endTime s1) = Ok (Seg.timeOfSample s1 (Seg.numPoints s1 - 1))).
Proof.
  split; [|split; [|split; [|split; [|split; [|split]]]]].
  - intros s Hc _.
    change (Moment.add _ _ _) with (Seg.timeOfSample s (Seg.numPoints s - 1)).
    now apply endTime_value.
  - intros yArray rate start ops. apply run_ops_cache_ok, cache_ok_new.
  - intros s p Hc Hw Hst. rewrite (endTime_value s Hc). f_equal.
    pose proof (end_value_whole s p Hw Hst Hc) as E.
    unfold end_value in E. rewrite (endTime_value s Hc) in E. exact E.
  - apply endTime_cached.
  - intros s0 value s1. split; [reflexivity|]. split; [reflexivity|].
    now apply setter_then_endTime.
  - intros s0 value s1. split; [reflexivity|]. split; [reflexivity|].
    now apply setter_then_endTime.
  - intros s0 value s1. split; [reflexivity|]. split; [reflexivity|].
    now apply setter_then_endTime.
Qed.

Lemma endTime_is_time_of_last_sample_witness :
  fst (Seg.endTime
         (run_ops [GetEndTime; SetSampleRate 40; GetY]
                  (Seg.new (Seg.YTyped (mkTA Int32Array [1; 2; 3]%Q)) 20 1000)))
  = Ok 1050
  /\ fst (Seg.endTime example_recent) = Ok 1600000000200.
Proof.
  split.
  - rewrite (proj1 endTime_is_time_of_last_sample).
    + vm_compute. reflexivity.
    + apply (proj1 (proj2 endTime_is_time_of_last_sample)).
    + split; [intros E; vm_compute in E; discriminate|].
      split; vm_compute; discriminate.
  - rewrite (proj1 (proj2 (proj2 endTime_is_time_of_last_sample)) example_recent 50).
    + reflexivity.
    + exact I.
    + split; [lia|vm_compute; reflexivity].
    + unfold steady. vm_compute. repeat split; discriminate.
Defined.

(** The end time is not always the exact sum, and it is not always that
    of the last sample.  For 202 samples at 50 Hz from time 0 the
    getter returns 4019 ms, one less than 0 + 201/50 s: the double
    201/50*1000 is just below 4020.  For the first of two segments at
    20 Hz, three samples from 1000 ms, the getter returns 1175 ms after
    isContiguous() was called on their seismogram, not 1100 ms. *)
Lemma endTime_differs_from_exact_sum :
  let s := Seg.new (Seg.YTyped (mkTA Int32Array (repeat 1%Q 202))) 50 0 in
  let sm := Seismogram.mkSeismogram [example_first; example_one_period_later]
                                    1000 1200 None in
  Seg.numPoints s = 202
  /\ fst (Seg.endTime s) = Ok 4019
  /\ (inject_Z (Seg._startTime s)
      + inject_Z (Seg.numPoints s - 1) / Seg._sampleRate s * 1000 == 4020)%Q
  /\ exists first,
      hd_error (Seismogram._segmentArray (snd (Seismogram.isContiguous sm))) = Some first
      /\ Seg._startTime first = 1000 /\ Seg.numPoints first = 3
      /\ (Seg._sampleRate first == 20)%Q
      /\ fst (Seg.endTime first) = Ok 1175.
Proof.
  intros s sm. split; [vm_compute; reflexivity|].
  split; [vm_compute; reflexivity|]. split; [vm_compute; reflexivity|].
  eexists. split; [vm_compute; reflexivity|].
  repeat split; vm_compute; reflexivity.
Qed.

(** ** Loops over the segments *)

Section Loops.

Context {St A : Type} (f : M St A).


Lemma traverse_all_Ok (g : St -> A) (h : St -> St) l :
  Forall (fun s => f s = (Ok (g s), h s)) l ->
  traverse f l = (Ok (map g l), map h l).
Proof.
  induction 1 as [|s r Hs _ IH]; simpl; [reflexivity|]. now rewrite Hs, IH.
Qed.

End Loops.

Section Settling.

Lemma settle_endTime s : Seg.endTime s = (Ok (end_value s), settle s).
Proof.
  destruct (end_value_endTime s) as [s1 E]. unfold settle. now rewrite E.
Qed.

Lemma settle_fields s :
  Seg._y (settle s) = Seg._y s
  /\ Seg._compressed (settle s) = Seg._compressed s
  /\ Seg.numPoints (settle s) = Seg.numPoints s
  /\ Seg._startTime (settle s) = Seg._startTime s
  /\ Seg._sampleRate (settle s) = Seg._sampleRate s.
Proof. exact (endTime_same_samples _ _ _ (settle_endTime s)). Qed.

Lemma settle_cache s :
  Seg._endTime_cache (settle s) = Some (end_value s)
  /\ Seg._endTime_cache_numPoints (settle s) = Seg.numPoints (settle s).
Proof. exact (endTime_fills _ _ _ (settle_endTime s)). Qed.

Lemma settle_hit s : Seg.endTime (settle s) = (Ok (end_value s), settle s).
Proof. destruct (settle_cache s) as [H1 H2]. now apply endTime_hit. Qed.

Lemma settle_idem s : settle (settle s) = settle s.
Proof. unfold settle at 1. now rewrite settle_hit. Qed.

Lemma end_value_settle s : end_value (settle s) = end_value s.
Proof. unfold end_value at 1. now rewrite settle_hit. Qed.


Lemma settle_y s : fst (Seg.y (settle s)) = fst (Seg.y s).
Proof.
  destruct (endTime_frame s) as [c [n H]]. unfold settle. rewrite H.
  apply y_cache_irrelevant.
Qed.




(** Loops that only read end times leave every segment settled. *)
Lemma traverse_endTime l :
  traverse Seg.endTime l = (Ok (map end_value l), map settle l).
Proof. apply traverse_all_Ok. apply Forall_forall. intros s _. apply settle_endTime. Qed.

Lemma filterM_endTime_snd w segs :
  snd (filterM (bind Seg.endTime
                  (fun e => ret (Moment.isAfter e (w_startTime w)))) segs)
  = map settle segs.
Proof.
  induction segs as [|d segs IH]; simpl; [reflexivity|].
  unfold bind at 1. rewrite settle_endTime. unfold ret at 1.
  destruct (filterM _ segs) as [[kept|e] l]; simpl in *; now rewrite IH.
Qed.

End Settling.

(** ** merge and the sample getter of a seismogram *)

Section MergeAndY.

(** The loop of [isContiguous] touches end-time caches only. *)
Lemma cache_only_refl s : cache_only s s.
Proof.
  exists (Seg._endTime_cache s), (Seg._endTime_cache_numPoints s). now destruct s.
Qed.

Lemma cache_only_trans s1 s2 s3 :
  cache_only s1 s2 -> cache_only s2 s3 -> cache_only s1 s3.
Proof. intros [c1 [n1 ->]] [c2 [n2 ->]]. now exists c2, n2. Qed.

Lemma cache_only_y s s' : cache_only s s' -> fst (Seg.y s') = fst (Seg.y s).
Proof. intros [c [n ->]]. apply y_cache_irrelevant. Qed.

Lemma isContiguous_loop_frame rest : forall prev,
  cache_only prev (fst (snd (Seismogram.isContiguous_loop prev rest)))
  /\ Forall2 cache_only rest (snd (snd (Seismogram.isContiguous_loop prev rest))).
Proof.
  assert (Hrefl : forall l, Forall2 cache_only l l).
  { induction l; constructor; [apply cache_only_refl|assumption]. }
  induction rest as [|s r IH]; intros prev.
  - simpl. split; [apply cache_only_refl|constructor].
  - cbn [Seismogram.isContiguous_loop].
    rewrite settle_endTime.
    assert (H1 : cache_only prev (settle prev)) by (apply endTime_frame).
    destruct (Moment.isBefore (end_value prev) (Seg._startTime s)).
    + rewrite (endTime_add_after_read prev (settle prev) _ (settle_endTime prev)).
      set (prev2 := Seg.with_endTime_cache _ (settle prev)).
      assert (H2 : cache_only prev prev2).
      { apply (cache_only_trans _ (settle prev)); [exact H1|].
        now exists (Seg._endTime_cache prev2), (Seg._endTime_cache_numPoints (settle prev)). }
      destruct (Moment.isAfter _ (Seg._startTime s)).
      * specialize (IH s).
        destruct (Seismogram.isContiguous_loop s r) as [b [s' r']].
        simpl in *. split; [exact H2|]. constructor; tauto.
      * simpl. split; [exact H2|apply Hrefl].
    + simpl. split; [exact H1|apply Hrefl].
Qed.

Lemma isContiguous_frame sm :
  Forall2 cache_only (Seismogram._segmentArray sm)
          (Seismogram._segmentArray (snd (Seismogram.isContiguous sm)))
  /\ Seismogram._y (snd (Seismogram.isContiguous sm)) = Seismogram._y sm.
Proof.
  assert (Hrefl : forall l, Forall2 cache_only l l).
  { induction l; constructor; [apply cache_only_refl|assumption]. }
  unfold Seismogram.isContiguous.
  destruct (Seismogram._segmentArray sm) as [|s0 [|s1 rest]] eqn:Hs.
  - cbn [snd]. rewrite Hs. split; [apply Hrefl|reflexivity].
  - cbn [snd]. rewrite Hs. split; [apply Hrefl|reflexivity].
  - pose proof (isContiguous_loop_frame (s1 :: rest) s0) as [H1 H2].
    destruct (Seismogram.isContiguous_loop s0 (s1 :: rest)) as [b [s0' rest']].
    cbn [fst snd Seismogram._segmentArray Seismogram.with_segmentArray Seismogram._y] in *.
    split; [constructor; assumption|reflexivity].
Qed.

Lemma isContiguous_never_throws sm : exists b, fst (Seismogram.isContiguous sm) = Ok b.
Proof.
  unfold Seismogram.isContiguous.
  destruct (Seismogram._segmentArray sm) as [|s0 [|s1 rest]];
    [cbn [fst]; eauto|cbn [fst]; eauto|].
  destruct (Seismogram.isContiguous_loop s0 (s1 :: rest)) as [b [s0' rest']].
  cbn [fst]. eauto.
Qed.

(** C1.  When the samples of every segment can be read and are within
    the range of the kind of the first segment's array, merge() returns
    one typed array of that kind and of numPoints elements, holding the
    samples of all segments in segment order, each converted by the
    store into that kind: ToInt32 for an Int32Array, rounding to a
    single for a Float32Array, nothing for a Float64Array.  When every
    segment's array has the kind of the first and holds values of that
    kind, the conversion changes nothing and the result is the plain
    concatenation.  merge() does not compare the kinds of the arrays and
    does not fail when they differ.  Contiguity is the business of the y
    getter: on a seismogram that has no merged array yet it returns what
    merge() returns when isContiguous() is true, and throws when it is
    false. *)
Theorem merge_concatenates_converted sm y0 others :
  Forall2 (fun s a => fst (Seg.y s) = Ok a) (Seismogram._segmentArray sm) (y0 :: others) ->
  let k := ta_kind y0 in
  let all := List.concat (map ta_data (y0 :: others)) in
  Forall (storable k) all ->
  fst (Seismogram.merge sm) = Ok (mkTA k (map (coerce k) all))
  /\ ta_length (mkTA k (map (coerce k) all)) = Seismogram.numPoints sm
  /\ (Forall (fun a => ta_kind a = k /\ ta_wf a) (y0 :: others) ->
      fst (Seismogram.merge sm) = Ok (mkTA k all))
  /\ (Seismogram._y sm = None ->
      (fst (Seismogram.isContiguous sm) = Ok true ->
       fst (Seismogram.y sm) = Ok (mkTA k (map (coerce k) all)))
      /\ (fst (Seismogram.isContiguous sm) = Ok false ->
          exists e, fst (Seismogram.y sm) = Throw e)).
Proof.
  intros HF k all _.
  destruct (merge_value sm y0 others HF) as (H1 & H2 & H3).
  split; [exact H1|]. split; [exact H2|]. split; [exact H3|].
  intros Hy. unfold Seismogram.y, bind, gets. cbn [fst snd]. rewrite Hy.
  destruct (isContiguous_frame sm) as [Hfr _].
  destruct (Seismogram.isContiguous sm) as [r sm1] eqn:Ec. cbn [fst snd] in *.
  split; intros Hc; subst r.
  - assert (HF1 : Forall2 (fun s a => fst (Seg.y s) = Ok a)
                          (Seismogram._segmentArray sm1) (y0 :: others)).
    { clear - HF Hfr. revert HF. generalize (y0 :: others).
      induction Hfr as [|s s' l l' Hss _ IH]; intros arrays HF; inversion HF; subst;
        constructor; [|now apply IH].
      now rewrite (cache_only_y s s' Hss). }
    destruct (merge_value sm1 y0 others HF1) as (G & _).
    fold k in G. fold all in G.
    destruct (Seismogram.merge sm1) as [res sm2]. simpl in G; subst res. reflexivity.
  - eexists. reflexivity.
Qed.

Lemma merge_concatenates_converted_witness :
  let sm := Seismogram.mkSeismogram [example_first; example_one_period_later]
                                    1000 1200 None in
  let singles := Seg.new (Seg.YTyped (mkTA Float32Array [1]%Q)) 1 0 in
  let doubles := Seg.new (Seg.YTyped (mkTA Float64Array [16777217]%Q)) 1 1000 in
  fst (Seismogram.merge sm) = Ok (mkTA Int32Array [1; 2; 3; 4; 5]%Q)
  /\ fst (Seismogram.y sm) = Ok (mkTA Int32Array [1; 2; 3; 4; 5]%Q)
  /\ fst (Seismogram.merge (Seismogram.mkSeismogram [singles; doubles] 0 1000 None))
     = Ok (mkTA Float32Array [1; 16777216]%Q).
Proof.
  intros sm singles doubles.
  pose proof (merge_concatenates_converted sm
                (mkTA Int32Array [1; 2; 3]%Q) [mkTA Int32Array [4; 5]%Q]
                ltac:(repeat constructor) ltac:(repeat constructor))
    as (_ & _ & Hsame & Hy).
  pose proof (merge_concatenates_converted
                (Seismogram.mkSeismogram [singles; doubles] 0 1000 None)
                (mkTA Float32Array [1]%Q) [mkTA Float64Array [16777217]%Q]
                ltac:(repeat constructor) ltac:(repeat constructor))
    as (Hmixed & _).
  split; [|split].
  - apply Hsame. repeat constructor.
  - apply (proj1 (Hy eq_refl)). vm_compute. reflexivity.
  - rewrite Hmixed. vm_compute. reflexivity.
Defined.

(** A seismogram whose second segment holds 64-bit floats while the
    first holds 32-bit integers: merge() returns, with 2.5 stored as 2. *)
Lemma merge_mixed_widths_does_not_fail :
  let a := Seg.new (Seg.YTyped (mkTA Int32Array [1]%Q)) 1 0 in
  let b := Seg.new (Seg.YTyped (mkTA Float64Array [5 # 2]%Q)) 1 1000 in
  exists sm,
    Seismogram.new [a; b] = Ok sm
    /\ fst (Seismogram.isContiguous sm) = Ok true
    /\ fst (Seg.y a) = Ok (mkTA Int32Array [1]%Q)
    /\ fst (Seg.y b) = Ok (mkTA Float64Array [5 # 2]%Q)
    /\ fst (Seismogram.merge sm) = Ok (mkTA Int32Array [1; 2]%Q).
Proof.
  intros a b. eexists. split; [vm_compute; reflexivity|].
  repeat split; vm_compute; reflexivity.
Qed.

End MergeAndY.

(** ** The constructor and trim of a seismogram *)

Section ConstructorAndTrim.

Lemma new_spec x0 rest :
  Seismogram.new (x0 :: rest)
  = match Seismogram.checkSimilar_each x0 (x0 :: rest) with
    | Ok _ => Ok (new_value x0 rest)
    | Throw e => Throw e
    end.
Proof.
  unfold Seismogram.new, bind, Seismogram.checkAllSimilar.
  cbn [Seismogram._segmentArray].
  destruct (Seismogram.checkSimilar_each x0 (x0 :: rest)) as [[]|e]; [|reflexivity].
  unfold Seismogram.findStartEnd, bind, gets, modify, Seismogram.for_segments.
  cbn [Seismogram._segmentArray map Seismogram.with_startTime].
  rewrite traverse_endTime. reflexivity.
Qed.

Lemma trim_spec w sm :
  Seismogram.trim w sm
  = (match trim_kept w (Seismogram._segmentArray sm) with
     | [] => Ok None
     | k0 :: kr =>
         match Seismogram.new (k0 :: kr) with
         | Ok o => Ok (Some o)
         | Throw e => Throw e
         end
     end,
     Seismogram.with_segmentArray (map settle (Seismogram._segmentArray sm)) sm).
Proof.
  unfold Seismogram.trim, trim_kept.
  pose proof (filterM_endTime_fst w (Seismogram._segmentArray sm)) as H1.
  pose proof (filterM_endTime_snd w (Seismogram._segmentArray sm)) as H2.
  destruct (filterM _ (Seismogram._segmentArray sm)) as [r l].
  simpl in H1, H2. subst r l. fold settle.
  change (map (fun d => snd (Seg.endTime d))) with (map settle).
  destruct (filter _ (map settle _)) as [|k0 kr]; [reflexivity|].
  destruct (Seismogram.new (k0 :: kr)); reflexivity.
Qed.

Lemma checkSimilar_settle f s :
  Seismogram.checkSimilar (settle f) (settle s) = Seismogram.checkSimilar f s.
Proof.
  destruct (endTime_frame f) as [c1 [n1 H1]].
  destruct (endTime_frame s) as [c2 [n2 H2]].
  unfold settle. rewrite H1, H2. reflexivity.
Qed.

Lemma checkSimilar_each_Ok f l :
  Seismogram.checkSimilar_each f l = Ok tt
  <-> Forall (fun s => Seismogram.checkSimilar f s = Ok tt) l.
Proof.
  induction l as [|s l IH]; simpl.
  - split; [constructor|reflexivity].
  - destruct (Seismogram.checkSimilar f s) as [[]|e] eqn:E.
    + rewrite IH. split; [now constructor|now inversion 1].
    + split; [discriminate|]. inversion 1; congruence.
Qed.

(** [checkSimilar] compares fields for equality: segments similar to a
    common one are similar to each other. *)
Lemma checkSimilar_common f u v :
  Seismogram.checkSimilar f u = Ok tt ->
  Seismogram.checkSimilar f v = Ok tt ->
  Seismogram.checkSimilar u v = Ok tt.
Proof.
  rewrite !checkSimilar_Ok.
  intros (A1 & A2 & A3 & A4 & A5 & A6) (B1 & B2 & B3 & B4 & B5 & B6).
  repeat split; try congruence. now rewrite B6, A6.
Qed.

Lemma new_of_similar f l k0 kr :
  Forall (fun s => Seismogram.checkSimilar f s = Ok tt) l ->
  incl (k0 :: kr) l ->
  Seismogram.new (k0 :: kr) = Ok (new_value k0 kr).
Proof.
  intros Hall Hin. rewrite new_spec.
  assert (H : Seismogram.checkSimilar_each k0 (k0 :: kr) = Ok tt).
  { apply checkSimilar_each_Ok. apply Forall_forall. intros v Hv.
    rewrite Forall_forall in Hall.
    apply (checkSimilar_common f); apply Hall, Hin; [now left|exact Hv]. }
  now rewrite H.
Qed.

End ConstructorAndTrim.

(** ** cut of a seismogram *)

Section SeismogramCut.














End SeismogramCut.

Section SeismogramCutTwice.

Variables (p : Z) (w : StartEndDuration).
Hypothesis Hab : w_startTime w < w_endTime w.









End SeismogramCutTwice.

(** ** The cut, twice *)




(** ** Why the conditions of the cut property are needed *)

(** At 7 Hz a sample period is not a whole number of milliseconds: the
    start of the piece is truncated to 142 ms, and the second cut drops
    one more sample. *)
Lemma cut_twice_differs_at_7Hz :
  let s := Seg.new (Seg.YTyped (mkTA Int32Array [1; 2; 3; 4; 5]%Q)) 7 0 in
  let w := mkWindow 285 2500 in
  exists c c',
    fst (Seg.cut w s) = Ok (Some c) /\ fst (Seg.cut w c) = Ok (Some c')
    /\ Seg._startTime c = 142 /\ Seg._y c = Some (mkTA Int32Array [2; 3; 4; 5]%Q)
    /\ Seg._startTime c' = 284 /\ Seg._y c' = Some (mkTA Int32Array [3; 4; 5]%Q).
Proof.
  intros s w. do 2 eexists. split; [vm_compute; reflexivity|].
  split; [vm_compute; reflexivity|]. repeat split.
Qed.

(** Too close to 1970 the time of a sample is not the exact one: sample
    201 of a segment at 50 Hz from time 0 is given 4019 ms, so the piece
    for the window from 4039 ms starts at 4019 ms with 50 samples, and
    the second cut drops its first sample.  The segment has a period of
    20 ms, a whole rate and no cached end time. *)
Lemma cut_twice_differs_at_50Hz_from_1970 :
  let s := Seg.new (Seg.YTyped (mkTA Int32Array (repeat 1%Q 300))) 50 0 in
  let w := mkWindow 4039 5000 in
  whole_ms_period s 20 /\ whole_hertz s /\ cache_ok s
  /\ exists c c',
      fst (Seg.cut w s) = Ok (Some c) /\ fst (Seg.cut w c) = Ok (Some c')
      /\ Seg._startTime c = 4019 /\ Seg.numPoints c = 50
      /\ Seg._startTime c' = 4039 /\ Seg.numPoints c' = 49.
Proof.
  intros s w.
  split; [split; [lia|vm_compute; reflexivity]|].
  split; [exists 50; vm_compute; reflexivity|]. split; [exact I|].
  destruct (Seg.cut w s) as [[[c|]|e] st] eqn:H; try (vm_compute in H; discriminate).
  destruct (Seg.cut w c) as [[[c'|]|e] st'] eqn:H';
    try (vm_compute in H; inv H; vm_compute in H'; discriminate).
  exists c, c'. split; [reflexivity|]. split; [rewrite H'; reflexivity|].
  vm_compute in H. inv H. vm_compute in H'. inv H'.
  repeat split.
Qed.

(** A window whose start is after its end. *)
Lemma cut_twice_differs_inverted_window :
  let w := mkWindow 1080 1020 in
  exists c,
    fst (Seg.cut w example_first) = Ok (Some c) /\ fst (Seg.cut w c) = Ok None.
Proof.
  intros w. eexists. split; [vm_compute; reflexivity|].
  vm_compute; reflexivity.
Qed.

(** A window of zero length that falls on a sample: the cut of the
    seismogram keeps that sample, and trim then drops it. *)
Lemma seismogram_cut_twice_differs_empty_window :
  let w := mkWindow 1050 1050 in
  exists c,
    fst (Seismogram.cut w (Seismogram.mkSeismogram [example_first] 1000 1100 None))
    = Ok (Some c)
    /\ fst (Seismogram.cut w c) = Ok None.
Proof.
  intros w. eexists. split; [vm_compute; reflexivity|].
  vm_compute; reflexivity.
Qed.

(** A segment whose cached end time was moved by [isContiguous]. *)
Lemma cut_twice_differs_after_isContiguous :
  let w := mkWindow 1150 1150 in
  let sm := Seismogram.mkSeismogram [example_first; example_one_period_later]
                                    1000 1200 None in
  exists first c,
    hd_error (Seismogram._segmentArray (snd (Seismogram.isContiguous sm))) = Some first
    /\ fst (Seg.cut w first) = Ok (Some c) /\ fst (Seg.cut w c) = Ok None.
Proof.
  intros w sm. do 2 eexists. split; [vm_compute; reflexivity|].
  split; [vm_compute; reflexivity|].
  vm_compute; reflexivity.
Qed.

(** ** isContiguous is not repeatable *)

Section ContiguityTwice.

Lemma cache_only_startTime s s' : cache_only s s' -> Seg._startTime s' = Seg._startTime s.
Proof. intros [c [n ->]]. reflexivity. Qed.

Lemma isContiguous_loop_true_head prev s r :
  fst (Seismogram.isContiguous_loop prev (s :: r)) = true ->
  exists e2 prev2 s' r',
    snd (Seismogram.isContiguous_loop prev (s :: r)) = (prev2, s' :: r')
    /\ Seg.endTime prev2 = (Ok e2, prev2)
    /\ Seg._startTime s < e2
    /\ Seg._startTime s' = Seg._startTime s.
Proof.
  cbn [Seismogram.isContiguous_loop].
  rewrite (settle_endTime prev).
  destruct (Moment.isBefore (end_value prev) (Seg._startTime s)); [|discriminate].
  rewrite (endTime_add_after_read prev (settle prev) _ (settle_endTime prev)).
  set (e2 := Moment.add (end_value prev) _ Moment.ms).
  destruct (Moment.isAfter e2 (Seg._startTime s)) eqn:Hafter; [|discriminate].
  pose proof (isContiguous_loop_frame r s) as [Hs _].
  destruct (Seismogram.isContiguous_loop s r) as [b [s' r']].
  cbn [fst snd] in *. intros _.
  exists e2, (Seg.with_endTime_cache (Some e2) (settle prev)), s', r'.
  split; [reflexivity|]. split; [|split].
  - apply endTime_hit; [reflexivity|].
    destruct (settle_cache prev) as [_ H]. exact H.
  - unfold Moment.isAfter in Hafter. apply Z.ltb_lt in Hafter. exact Hafter.
  - apply cache_only_startTime. exact Hs.
Qed.

Lemma isContiguous_twice sm s0 s1 rest :
  Seismogram._segmentArray sm = s0 :: s1 :: rest ->
  fst (Seismogram.isContiguous sm) = Ok true ->
  let sm' := snd (Seismogram.isContiguous sm) in
  fst (Seismogram.isContiguous sm') = Ok false
  /\ (exists first e, hd_error (Seismogram._segmentArray sm') = Some first
                      /\ fst (Seg.endTime first) = Ok e
                      /\ Seg._startTime s1 < e)
  /\ (Seismogram._y sm = None ->
      fst (Seismogram.y sm')
      = Throw "Seismogram is not contiguous, acces each SeismogramSegment idividually.").
Proof.
  intros Hsegs Htrue sm'.
  assert (Hloop : fst (Seismogram.isContiguous_loop s0 (s1 :: rest)) = true).
  { unfold Seismogram.isContiguous in Htrue. rewrite Hsegs in Htrue.
    destruct (Seismogram.isContiguous_loop s0 (s1 :: rest)) as [b [p q]].
    cbn [fst] in *. congruence. }
  destruct (isContiguous_loop_true_head s0 s1 rest Hloop)
    as [e2 [prev2 [s' [r' [Hsnd [Hend [Hlt Hst]]]]]]].
  assert (Hsm' : Seismogram._segmentArray sm' = prev2 :: s' :: r').
  { unfold sm', Seismogram.isContiguous. rewrite Hsegs.
    destruct (Seismogram.isContiguous_loop s0 (s1 :: rest)) as [b [p q]].
    cbn [snd] in *. inv Hsnd. reflexivity. }
  assert (Hfalse : fst (Seismogram.isContiguous sm') = Ok false).
  { unfold Seismogram.isContiguous. rewrite Hsm'.
    cbn [Seismogram.isContiguous_loop]. rewrite Hend.
    replace (Moment.isBefore e2 (Seg._startTime s')) with false; [reflexivity|].
    symmetry. unfold Moment.isBefore. apply Z.ltb_ge. lia. }
  split; [exact Hfalse|]. split.
  - exists prev2, e2. rewrite Hsm'. split; [reflexivity|]. rewrite Hend. split; [reflexivity|exact Hlt].
  - intros Hy.
    assert (Hy' : Seismogram._y sm' = None).
    { destruct (isContiguous_frame sm) as [_ H]. unfold sm'. congruence. }
    unfold Seismogram.y, bind, gets. rewrite Hy'.
    destruct (Seismogram.isContiguous sm') as [res st]. cbn [fst] in Hfalse. subst res.
    reflexivity.
Qed.

(** X1.  isContiguous() cannot be asked twice.  For a seismogram of two or
    more segments, when isContiguous() answers true it leaves the cached
    end time of the first segment after the start of the second one: the
    end time read from that segment is later than the start of its
    neighbour, an immediately following isContiguous() answers false, and
    when the merged samples were not cached before the first call,
    reading y after it throws. *)
Theorem isContiguous_not_repeatable sm s0 s1 rest :
  Seismogram._segmentArray sm = s0 :: s1 :: rest ->
  fst (Seismogram.isContiguous sm) = Ok true ->
  let sm' := snd (Seismogram.isContiguous sm) in
  fst (Seismogram.isContiguous sm') = Ok false
  /\ (exists first e, hd_error (Seismogram._segmentArray sm') = Some first
                      /\ fst (Seg.endTime first) = Ok e
                      /\ Seg._startTime s1 < e)
  /\ (Seismogram._y sm = None ->
      fst (Seismogram.y sm')
      = Throw "Seismogram is not contiguous, acces each SeismogramSegment idividually.").
Proof. exact (isContiguous_twice sm s0 s1 rest). Qed.

Lemma isContiguous_not_repeatable_witness :
  let sm := Seismogram.mkSeismogram [example_first; example_one_period_later] 1000 1200 None in
  fst (Seismogram.isContiguous sm) = Ok true
  /\ fst (Seismogram.isContiguous (snd (Seismogram.isContiguous sm))) = Ok false.
Proof.
  intros sm. split; [vm_compute; reflexivity|].
  refine (proj1 (isContiguous_not_repeatable sm example_first example_one_period_later []
                   eq_refl _)).
  vm_compute. reflexivity.
Defined.

End ContiguityTwice.

(** ** Clones *)

Section Clones.

Lemma checkSimilar_refl s : Seismogram.checkSimilar s s = Ok tt.
Proof.
  apply checkSimilar_Ok. repeat split; reflexivity.
Qed.

Lemma clone_Ok_cases s c :
  Seg.clone s = Ok c ->
  (exists a, Seg._y s = Some a
             /\ c = Seg.cloneWithNewData s (Seg.YTyped a) (Seg._startTime s))
  \/ (exists cs, Seg._y s = None /\ Seg._compressed s = Some cs
                 /\ c = Seg.cloneWithNewData s (Seg.YEncoded cs) (Seg._startTime s)).
Proof.
  unfold Seg.clone. intros H.
  destruct (Seg._y s) as [a|] eqn:Hy.
  - left. exists a. rewrite ta_slice_full in H. split; [reflexivity|congruence].
  - right. destruct (Seg.isEncoded s); [|discriminate].
    destruct (Seg._compressed s) as [cs|]; [|discriminate].
    exists cs. split; [reflexivity|]. split; [reflexivity|congruence].
Qed.

Lemma clone_same_data s c :
  Seg.clone s = Ok c ->
  Seg._y c = Seg._y s
  /\ (Seg._y s = None -> Seg._compressed c = Seg._compressed s)
  /\ Seg.numPoints c = Seg.numPoints s
  /\ Seg._startTime c = Seg._startTime s
  /\ Seg._sampleRate c = Seg._sampleRate s
  /\ Seg._endTime_cache c = None.
Proof.
  intros H. destruct (clone_Ok_cases s c H) as [[a [Hy ->]]|[cs [Hy [Hc ->]]]].
  - unfold Seg.numPoints. cbn. rewrite Hy. repeat split; try reflexivity.
    intros; discriminate.
  - unfold Seg.numPoints. cbn. rewrite Hy, Hc. repeat split; reflexivity.
Qed.

Lemma clone_same_y s c : Seg.clone s = Ok c -> fst (Seg.y c) = fst (Seg.y s).
Proof.
  intros H. destruct (clone_Ok_cases s c H) as [[a [Hy ->]]|[cs [Hy [Hc ->]]]].
  - rewrite (y_decoded s a Hy). reflexivity.
  - unfold Seg.y, Seg.isEncoded, Seg.numPoints. cbn. rewrite Hy, Hc.
    destruct cs as [|c0 cs]; [reflexivity|]. cbn.
    destruct (decode c0); [|reflexivity].
    destruct (Seg.decode_chunks _ _ cs); reflexivity.
Qed.

Lemma clone_similar s c : Seg.clone s = Ok c -> Seismogram.checkSimilar s c = Ok tt.
Proof.
  intros H. apply checkSimilar_Ok.
  destruct (clone_Ok_cases s c H) as [[a [Hy ->]]|[cs [Hy [Hc ->]]]];
    cbn; repeat split; reflexivity.
Qed.

(** X2.  clone() of a segment returns a segment whose y getter gives what
    the y getter of the original gives, with the same number of points,
    start time, sample rate, codes and unit; its end-time cache is empty,
    so its end time is the time of the last sample even where the cached
    end time of the original has been changed.  clone() throws exactly
    for a segment that has neither samples (a null _y) nor encoded
    data. *)
Theorem segment_clone_copies :
  (forall s c,
      Seg.clone s = Ok c ->
      fst (Seg.y c) = fst (Seg.y s)
      /\ Seg.numPoints c = Seg.numPoints s
      /\ Seg._startTime c = Seg._startTime s
      /\ Seg._sampleRate c = Seg._sampleRate s
      /\ Seismogram.checkSimilar s c = Ok tt
      /\ Seg._endTime_cache c = None
      /\ fst (Seg.endTime c) = Ok (Seg.timeOfSample s (Seg.numPoints s - 1)))
  /\ (forall s,
         (exists e, Seg.clone s = Throw e)
         <-> Seg._y s = None /\ Seg.isEncoded s = false).
Proof.
  split.
  - intros s c H.
    destruct (clone_same_data s c H) as [Hy [_ [Hn [Hst [Hr Hc]]]]].
    split; [exact (clone_same_y s c H)|].
    split; [exact Hn|]. split; [exact Hst|]. split; [exact Hr|].
    split; [exact (clone_similar s c H)|]. split; [exact Hc|].
    rewrite (setter_then_endTime c Hc). unfold Seg.timeOfSample.
    rewrite Hn, Hst, Hr. reflexivity.
  - intros s. unfold Seg.clone. split.
    + intros [e H]. destruct (Seg._y s); [discriminate|].
      destruct (Seg.isEncoded s) eqn:He; [|split; reflexivity].
      unfold Seg.isEncoded in He.
      destruct (Seg._y s); [destruct (0 <? ta_length t)|]; try discriminate;
        destruct (Seg._compressed s); discriminate.
    + intros [Hy He]. rewrite Hy, He. eexists. reflexivity.
Qed.

Lemma segment_clone_copies_witness :
  exists c,
    Seg.clone (snd (Seg.endTime_add 75 Moment.ms example_first)) = Ok c
    /\ fst (Seg.endTime (snd (Seg.endTime_add 75 Moment.ms example_first))) = Ok 1175
    /\ fst (Seg.endTime c) = Ok 1100
    /\ fst (Seg.y c) = Ok (mkTA Int32Array [1; 2; 3]%Q).
Proof.
  eexists. split; [vm_compute; reflexivity|].
  split; [vm_compute; reflexivity|].
  pose proof (proj1 segment_clone_copies
                (snd (Seg.endTime_add 75 Moment.ms example_first)) _ eq_refl)
    as [Hy [_ [_ [_ [_ [_ He]]]]]].
  split; [exact He|exact Hy].
Defined.

Lemma map_res_Ok_inv {A B} (f : A -> Res B) l : forall out,
  map_res f l = Ok out -> Forall2 (fun a b => f a = Ok b) l out.
Proof.
  induction l as [|a r IH]; intros out H; cbn in H.
  - inv H. constructor.
  - destruct (f a) as [b|e] eqn:Hf; [|discriminate].
    destruct (map_res f r) as [o|e]; [|discriminate]. inv H.
    constructor; [exact Hf|apply IH; reflexivity].
Qed.

End Clones.

Section SeismogramClones.

Lemma map_res_of_Forall2 {A B} (f : A -> Res B) l out :
  Forall2 (fun a b => f a = Ok b) l out -> map_res f l = Ok out.
Proof.
  induction 1 as [|a b r o Hf _ IH]; cbn; [reflexivity|].
  rewrite Hf, IH. reflexivity.
Qed.

Lemma clone_header s c :
  Seg.clone s = Ok c ->
  Seg.networkCode c = Seg.networkCode s
  /\ Seg.stationCode c = Seg.stationCode s
  /\ Seg.locationCode c = Seg.locationCode s
  /\ Seg.channelCode c = Seg.channelCode s
  /\ Seg.yUnit c = Seg.yUnit s
  /\ Seg._sampleRate c = Seg._sampleRate s.
Proof.
  intros H. destruct (clone_Ok_cases s c H) as [[a [Hy ->]]|[cs [Hy [Hc ->]]]];
    cbn; repeat split; reflexivity.
Qed.

Lemma checkSimilar_clones f s c0 x :
  Seg.clone f = Ok c0 -> Seg.clone s = Ok x ->
  Seismogram.checkSimilar f s = Ok tt -> Seismogram.checkSimilar c0 x = Ok tt.
Proof.
  intros Hf Hs H. apply checkSimilar_Ok. apply checkSimilar_Ok in H.
  destruct (clone_header f c0 Hf) as [F1 [F2 [F3 [F4 [F5 F6]]]]].
  destruct (clone_header s x Hs) as [S1 [S2 [S3 [S4 [S5 S6]]]]].
  destruct H as [H1 [H2 [H3 [H4 [H5 H6]]]]].
  rewrite F1, F2, F3, F4, F5, F6, S1, S2, S3, S4, S5, S6.
  repeat split; assumption.
Qed.

Lemma settle_numPoints s : Seg.numPoints (settle s) = Seg.numPoints s.
Proof. destruct (settle_fields s) as [_ [_ [H _]]]. exact H. Qed.

Lemma numPoints_Forall2 (R : Seg.t -> Seg.t -> Prop) l l' :
  (forall s x, R s x -> Seg.numPoints x = Seg.numPoints s) ->
  Forall2 R l l' ->
  forall acc,
    fold_left (fun accumulator seis => accumulator + Seg.numPoints seis) l' acc
    = fold_left (fun accumulator seis => accumulator + Seg.numPoints seis) l acc.
Proof.
  intros HR H. induction H as [|s x r r' Hsx _ IH]; intros acc; cbn; [reflexivity|].
  rewrite (HR s x Hsx). apply IH.
Qed.

Lemma Forall2_map_right {A B C} (R : A -> C -> Prop) (g : B -> C) l l' :
  Forall2 (fun a b => R a (g b)) l l' -> Forall2 R l (map g l').
Proof. induction 1; cbn; constructor; assumption. Qed.

Lemma Forall2_weaken {A B} (R R' : A -> B -> Prop) l l' :
  (forall a b, R a b -> R' a b) -> Forall2 R l l' -> Forall2 R' l l'.
Proof. intros H. induction 1; constructor; auto. Qed.

Lemma clone_has_data s :
  Seg._y s <> None \/ Seg.isEncoded s = true -> exists c, Seg.clone s = Ok c.
Proof.
  unfold Seg.clone. intros H.
  destruct (Seg._y s) as [a|] eqn:Hy; [eexists; reflexivity|].
  destruct H as [H|H]; [congruence|]. rewrite H.
  unfold Seg.isEncoded in H. rewrite Hy in H.
  destruct (Seg._compressed s); [eexists; reflexivity|discriminate].
Qed.

Lemma clones_exist l :
  Forall (fun s => Seg._y s <> None \/ Seg.isEncoded s = true) l ->
  exists clones, Forall2 (fun s x => Seg.clone s = Ok x) l clones.
Proof.
  induction 1 as [|s r Hs _ [clones IH]]; [exists []; constructor|].
  destruct (clone_has_data s Hs) as [c Hc].
  exists (c :: clones). constructor; assumption.
Qed.

Lemma Forall2_Forall_similar f c0 l clones :
  Seg.clone f = Ok c0 ->
  Forall2 (fun s x => Seg.clone s = Ok x) l clones ->
  Forall (fun s => Seismogram.checkSimilar f s = Ok tt) l ->
  Forall (fun x => Seismogram.checkSimilar c0 x = Ok tt) clones.
Proof.
  intros Hf H. induction H as [|s x r r' Hsx _ IH]; intros HF; constructor.
  - inv HF. eapply checkSimilar_clones; eassumption.
  - inv HF. apply IH. assumption.
Qed.

(** X3.  Seismogram.clone() copies segment by segment: the clone has the
    same number of segments and of points, each segment gives the same
    samples, has the same start time and ends at the time of its last
    sample, and no merged array is cached.  clone() succeeds for every
    seismogram with at least one segment whose segments hold samples or
    encoded data and are similar to the first one. *)
Theorem seismogram_clone_copies :
  (forall sm c,
      Seismogram.clone sm = Ok c ->
      Forall2 (fun s x => fst (Seg.y x) = fst (Seg.y s)
                          /\ Seg._startTime x = Seg._startTime s
                          /\ fst (Seg.endTime x)
                             = Ok (Seg.timeOfSample s (Seg.numPoints s - 1)))
              (Seismogram._segmentArray sm) (Seismogram._segmentArray c)
      /\ Seismogram.numPoints c = Seismogram.numPoints sm
      /\ Seismogram._y c = None)
  /\ (forall sm f rest,
         Seismogram._segmentArray sm = f :: rest ->
         Forall (fun s => Seismogram.checkSimilar f s = Ok tt) rest ->
         Forall (fun s => Seg._y s <> None \/ Seg.isEncoded s = true) (f :: rest) ->
         exists c, Seismogram.clone sm = Ok c).
Proof.
  split.
  - intros sm c H. unfold Seismogram.clone in H.
    destruct (map_res Seg.clone (Seismogram._segmentArray sm)) as [clones|e] eqn:Hm;
      [|discriminate].
    apply map_res_Ok_inv in Hm.
    destruct clones as [|c0 cr]; [discriminate|].
    rewrite new_spec in H.
    destruct (Seismogram.checkSimilar_each c0 (c0 :: cr)); [|discriminate].
    inv H. unfold new_value. cbn [Seismogram._segmentArray Seismogram._y].
    split; [|split; [|reflexivity]].
    + apply Forall2_map_right. revert Hm. apply Forall2_weaken. intros s x Hc.
      destruct (clone_same_data s x Hc) as [_ [_ [Hn [Hst [Hr Hcache]]]]].
      rewrite settle_y. split; [exact (clone_same_y s x Hc)|].
      destruct (settle_fields x) as [_ [_ [_ [Hst' _]]]].
      split; [congruence|].
      rewrite settle_hit. cbn [fst]. unfold end_value.
      rewrite (setter_then_endTime x Hcache). unfold Seg.timeOfSample.
      rewrite Hn, Hst, Hr. reflexivity.
    + unfold Seismogram.numPoints. cbn [Seismogram._segmentArray].
      apply (numPoints_Forall2 (fun s x => exists y, Seg.clone s = Ok y /\ x = settle y)).
      * intros s x [y [Hc ->]]. rewrite settle_numPoints.
        destruct (clone_same_data s y Hc) as [_ [_ [Hn _]]]. exact Hn.
      * apply Forall2_map_right. revert Hm. apply Forall2_weaken.
        intros s x Hc. exists x. split; [exact Hc|reflexivity].
  - intros sm f rest Hsegs Hsim Hdata.
    destruct (clones_exist (f :: rest) Hdata) as [clones Hc].
    unfold Seismogram.clone. rewrite Hsegs, (map_res_of_Forall2 _ _ _ Hc).
    inversion Hc as [|f' c0 r' cr Hf Hr]; subst.
    rewrite new_spec.
    assert (Hall : Forall (fun x => Seismogram.checkSimilar c0 x = Ok tt) (c0 :: cr)).
    { constructor; [apply checkSimilar_refl|].
      eapply Forall2_Forall_similar; eassumption. }
    apply checkSimilar_each_Ok in Hall. rewrite Hall. eexists. reflexivity.
Qed.

Lemma seismogram_clone_copies_witness :
  let sm := Seismogram.mkSeismogram [example_first; example_one_period_later] 1000 1200 None in
  exists c,
    Seismogram.clone (snd (Seismogram.isContiguous sm)) = Ok c
    /\ Seismogram.numPoints c = 5
    /\ map end_value (Seismogram._segmentArray (snd (Seismogram.isContiguous sm)))
       = [1175; 1200]
    /\ map end_value (Seismogram._segmentArray c) = [1100; 1200].
Proof.
  intros sm.
  destruct (Seismogram.clone (snd (Seismogram.isContiguous sm))) as [c|e] eqn:Hc;
    [|vm_compute in Hc; discriminate].
  exists c. split; [reflexivity|].
  destruct (proj1 seismogram_clone_copies _ c Hc) as [_ [Hn _]].
  split; [rewrite Hn; vm_compute; reflexivity|].
  split; [vm_compute; reflexivity|].
  vm_compute in Hc. inv Hc. vm_compute. reflexivity.
Defined.

End SeismogramClones.

(** ** One-segment seismograms *)

Section SingleSegment.

Lemma single_segment_new x : Seismogram.new [x] = Ok (new_value x []).
Proof.
  rewrite new_spec. cbn [Seismogram.checkSimilar_each].
  rewrite checkSimilar_refl. reflexivity.
Qed.

Lemma single_segment_y sm x a :
  Seismogram._segmentArray sm = [x] ->
  Seismogram._y sm = None ->
  fst (Seg.y x) = Ok a ->
  ta_wf a ->
  fst (Seismogram.y sm) = Ok a.
Proof.
  intros Hsegs Hy Ha Hwf.
  assert (Hm : fst (Seismogram.merge sm) = Ok a).
  { destruct (merge_value sm a []) as [_ [_ H]].
    - rewrite Hsegs. constructor; [exact Ha|constructor].
    - rewrite H.
      + cbn [map List.concat]. rewrite app_nil_r. destruct a; reflexivity.
      + constructor; [split; [reflexivity|exact Hwf]|constructor]. }
  unfold Seismogram.y, bind, gets. rewrite Hy.
  unfold Seismogram.isContiguous at 1. rewrite Hsegs.
  destruct (Seismogram.merge sm) as [res st]. cbn [fst] in Hm. subst res.
  reflexivity.
Qed.

Lemma new_value_single_y x a :
  fst (Seg.y x) = Ok a -> ta_wf a ->
  fst (Seismogram.y (new_value x [])) = Ok a.
Proof.
  intros Ha Hwf. apply (single_segment_y _ (settle x)); try reflexivity; [|exact Hwf].
  rewrite settle_y. exact Ha.
Qed.

(** X4.  createFromContiguousData for a sample rate that the
    comparison of checkSimilar finds equal to itself and that is not
    zero, and for times that are dates, returns a seismogram.  The
    seismogram has the number of points of the data, starts at the given
    time and ends at the time of the last sample, and isContiguous()
    answers true without changing it.  For a typed array whose elements
    are values of its kind, the y getter of a seismogram so created
    returns that array. *)
Theorem createFromContiguousData_round_trip :
  (forall yArray rate start,
      let s := Seg.new yArray rate start in
      Seismogram.checkSimilar s s = Ok tt ->
      dated s ->
      exists sm,
        Seismogram.createFromContiguousData yArray rate start = Ok sm
        /\ Seismogram.numPoints sm = Seg.numPoints s
        /\ Seismogram._startTime sm = start
        /\ Seismogram._endTime sm
           = Moment.add start
               (inject_Z (Seismogram.numPoints sm - 1) / rate)%Q Moment.seconds
        /\ Seismogram.isContiguous sm = (Ok true, sm))
  /\ (forall a rate start sm,
         Seismogram.createFromContiguousData (Seg.YTyped a) rate start = Ok sm ->
         ta_wf a ->
         fst (Seismogram.y sm) = Ok a).
Proof.
  split.
  - intros yArray rate start s _ _. unfold Seismogram.createFromContiguousData.
    rewrite single_segment_new. eexists. split; [reflexivity|].
    assert (Hn : Seismogram.numPoints (new_value (Seg.new yArray rate start) [])
                 = Seg.numPoints (Seg.new yArray rate start)).
    { unfold Seismogram.numPoints, new_value.
      cbn [Seismogram._segmentArray map fold_left]. apply settle_numPoints. }
    split; [exact Hn|]. split; [destruct yArray as [?|?|[|? ?]]; reflexivity|].
    split; [|reflexivity].
    rewrite Hn. unfold new_value, Seismogram.max_of.
    cbn [Seismogram._endTime map fold_left]. unfold end_value.
    rewrite (endTime_value _ (cache_ok_new yArray rate start)).
    destruct yArray as [?|?|[|? ?]]; reflexivity.
  - intros a rate start sm H Hwf. unfold Seismogram.createFromContiguousData in H.
    rewrite single_segment_new in H. inv H.
    apply new_value_single_y; [reflexivity|exact Hwf].
Qed.

Lemma createFromContiguousData_round_trip_witness :
  exists sm,
    Seismogram.createFromContiguousData
      (Seg.YTyped (mkTA Int32Array [1; 2; 3]%Q)) 20 1000 = Ok sm
    /\ Seismogram._endTime sm = 1100
    /\ fst (Seismogram.y sm) = Ok (mkTA Int32Array [1; 2; 3]%Q).
Proof.
  destruct (proj1 createFromContiguousData_round_trip
              (Seg.YTyped (mkTA Int32Array [1; 2; 3]%Q)) 20%Q 1000)
    as (sm & H & _ & _ & He & _).
  - vm_compute. reflexivity.
  - split; [intros E; vm_compute in E; discriminate|].
    split; vm_compute; discriminate.
  - exists sm. split; [exact H|]. split.
    + rewrite He. vm_compute in H. inv H. vm_compute. reflexivity.
    + apply (proj2 createFromContiguousData_round_trip _ _ _ _ H).
      repeat constructor.
Defined.

(** X5.  Seismogram.cloneWithNewData(newY) throws "Y value is empty" for
    an empty array.  For a non-empty array and a seismogram with at
    least one segment it returns a seismogram of one segment that is
    similar to the first segment of the receiver, has newY.length
    points, starts at the start time of the receiver's first segment
    (not at the start time of the receiver) and ends at the time of its
    last sample; its y getter returns newY. *)
Theorem cloneWithNewData_replaces_samples sm newY :
  (ta_length newY = 0 ->
   Seismogram.cloneWithNewData sm newY = Throw "Y value is empty")
  /\ (forall f rest,
         Seismogram._segmentArray sm = f :: rest ->
         0 < ta_length newY ->
         exists c x,
           Seismogram.cloneWithNewData sm newY = Ok c
           /\ Seismogram._segmentArray c = [x]
           /\ Seismogram.checkSimilar f x = Ok tt
           /\ Seismogram.numPoints c = ta_length newY
           /\ Seismogram._startTime c = Seg._startTime f
           /\ Seismogram._endTime c
              = Moment.add (Seg._startTime f)
                  (inject_Z (ta_length newY - 1) / Seg._sampleRate f)%Q Moment.seconds
           /\ (ta_wf newY -> fst (Seismogram.y c) = Ok newY)).
Proof.
  unfold Seismogram.cloneWithNewData. split.
  - intros H. rewrite H. reflexivity.
  - intros f rest Hsegs Hlen. rewrite Hsegs.
    apply Z.ltb_lt in Hlen. rewrite Hlen. rewrite single_segment_new.
    set (x := Seg.cloneWithNewData f (Seg.YTyped newY) (Seg._startTime f)).
    destruct (clone_fresh f newY (Seg._startTime f)) as [Hy [Hok [Hn [Hst [Hr _]]]]].
    fold x in Hy, Hok, Hn, Hst, Hr.
    exists (new_value x []), (settle x). split; [reflexivity|].
    split; [reflexivity|].
    split.
    { apply checkSimilar_Ok. unfold settle.
      destruct (endTime_frame x) as [c0 [n0 ->]]. cbn. repeat split; reflexivity. }
    split.
    { unfold Seismogram.numPoints, new_value.
      cbn [Seismogram._segmentArray map fold_left].
      rewrite settle_numPoints. exact Hn. }
    split; [exact Hst|].
    split.
    { unfold new_value, Seismogram.max_of. cbn [Seismogram._endTime map fold_left].
      unfold end_value. rewrite (endTime_value x Hok). unfold Seg.timeOfSample.
      rewrite Hn, Hst, Hr. reflexivity. }
    intros Hwf. apply new_value_single_y; assumption.
Qed.

Lemma cloneWithNewData_replaces_samples_witness :
  let sm := Seismogram.mkSeismogram [example_first; example_one_period_later] 1000 1200 None in
  exists c x,
    Seismogram.cloneWithNewData sm (mkTA Float64Array [7; 8]%Q) = Ok c
    /\ Seismogram._segmentArray c = [x]
    /\ Seismogram.numPoints c = 2
    /\ Seismogram._endTime c = 1050.
Proof.
  intros sm.
  destruct (proj2 (cloneWithNewData_replaces_samples sm (mkTA Float64Array [7; 8]%Q))
              example_first [example_one_period_later] eq_refl eq_refl)
    as [c [x [Hc [Hx [_ [Hn [_ [He _]]]]]]]].
  exists c, x. split; [exact Hc|]. split; [exact Hx|].
  split; [exact Hn|]. rewrite He. vm_compute. reflexivity.
Defined.

End SingleSegment.

(** ** The constructor: bounds of a seismogram *)

Section ConstructorBounds.

Lemma min_of_spec rest : forall first,
  Seismogram.min_of first rest <= first
  /\ Forall (fun x => Seismogram.min_of first rest <= x) rest
  /\ In (Seismogram.min_of first rest) (first :: rest).
Proof.
  unfold Seismogram.min_of, Moment.min.
  induction rest as [|x r IH]; intros first; cbn [fold_left].
  - split; [lia|]. split; [constructor|left; reflexivity].
  - destruct (IH (Z.min first x)) as [H1 [H2 H3]].
    split; [lia|]. split; [constructor; [lia|exact H2]|].
    destruct H3 as [H3|H3]; [|right; right; exact H3].
    rewrite <- H3.
    destruct (Z.min_spec first x) as [[_ E]|[_ E]]; rewrite E;
      [left|right; left]; reflexivity.
Qed.

Lemma max_of_spec rest : forall first,
  first <= Seismogram.max_of first rest
  /\ Forall (fun x => x <= Seismogram.max_of first rest) rest
  /\ In (Seismogram.max_of first rest) (first :: rest).
Proof.
  unfold Seismogram.max_of, Moment.max.
  induction rest as [|x r IH]; intros first; cbn [fold_left].
  - split; [lia|]. split; [constructor|left; reflexivity].
  - destruct (IH (Z.max first x)) as [H1 [H2 H3]].
    split; [lia|]. split; [constructor; [lia|exact H2]|].
    destruct H3 as [H3|H3]; [|right; right; exact H3].
    rewrite <- H3.
    destruct (Z.max_spec first x) as [[_ E]|[_ E]]; rewrite E;
      [right; left|left]; reflexivity.
Qed.

Lemma Forall_of_map {A B} (g : A -> B) (P : B -> Prop) l :
  Forall P (map g l) <-> Forall (fun a => P (g a)) l.
Proof.
  induction l as [|a r IH]; cbn; split; intros H; try constructor; inv H;
    try assumption; apply IH; assumption.
Qed.

Lemma In_map_Exists {A B} (g : A -> B) v l :
  In v (map g l) -> Exists (fun a => v = g a) l.
Proof.
  intros H. apply in_map_iff in H. destruct H as [a [E Ha]].
  apply Exists_exists. exists a. split; [exact Ha|congruence].
Qed.

Lemma map_settle_startTime l : map Seg._startTime (map settle l) = map Seg._startTime l.
Proof.
  rewrite map_map. apply map_ext. intros s.
  destruct (settle_fields s) as [_ [_ [_ [H _]]]]. exact H.
Qed.

Lemma numPoints_map_settle l : forall acc,
  fold_left (fun accumulator seis => accumulator + Seg.numPoints seis) (map settle l) acc
  = fold_left (fun accumulator seis => accumulator + Seg.numPoints seis) l acc.
Proof.
  induction l as [|s r IH]; intros acc; cbn; [reflexivity|].
  rewrite settle_numPoints. apply IH.
Qed.

(** X6.  The constructor of Seismogram throws for an empty array.  For a
    non-empty array it succeeds exactly when checkSimilar accepts every
    segment, the first one included, against the first.  Then, when the
    end times of the segments are dates, startTime is the least start
    time of a segment and endTime the greatest end time, both attained;
    numPoints is the sum over the segments, the segments keep their
    order, and no merged array is cached. *)
Theorem constructor_bounds :
  (exists e, Seismogram.new [] = Throw e)
  /\ (forall x0 rest,
         (exists sm, Seismogram.new (x0 :: rest) = Ok sm)
         <-> Forall (fun s => Seismogram.checkSimilar x0 s = Ok tt) (x0 :: rest))
  /\ (forall x0 rest sm,
         Seismogram.new (x0 :: rest) = Ok sm ->
         (Forall dated (x0 :: rest) ->
          Forall (fun s => Seismogram._startTime sm <= Seg._startTime s
                           /\ end_value s <= Seismogram._endTime sm) (x0 :: rest)
          /\ Exists (fun s => Seismogram._startTime sm = Seg._startTime s) (x0 :: rest)
          /\ Exists (fun s => Seismogram._endTime sm = end_value s) (x0 :: rest))
         /\ Seismogram.numPoints sm
            = fold_left (fun n s => n + Seg.numPoints s) (x0 :: rest) 0
         /\ map Seg._startTime (Seismogram._segmentArray sm)
            = map Seg._startTime (x0 :: rest)
         /\ Seismogram._y sm = None).
Proof.
  split; [eexists; reflexivity|]. split.
  - intros x0 rest. rewrite new_spec. split.
    + intros [sm H].
      destruct (Seismogram.checkSimilar_each x0 (x0 :: rest)) as [[]|e] eqn:Hc;
        [|discriminate].
      apply checkSimilar_each_Ok in Hc. exact Hc.
    + intros H.
      assert (Hc : Seismogram.checkSimilar_each x0 (x0 :: rest) = Ok tt).
      { apply checkSimilar_each_Ok. exact H. }
      rewrite Hc. eexists. reflexivity.
  - intros x0 rest sm H. rewrite new_spec in H.
    destruct (Seismogram.checkSimilar_each x0 (x0 :: rest)); [|discriminate].
    inv H. unfold new_value.
    cbn [Seismogram._startTime Seismogram._endTime Seismogram._segmentArray
         Seismogram._y].
    destruct (min_of_spec (map Seg._startTime rest) (Seg._startTime x0)) as [M1 [M2 M3]].
    destruct (max_of_spec (map end_value rest) (end_value x0)) as [N1 [N2 N3]].
    pose proof (proj1 (Forall_of_map Seg._startTime
                         (fun x => Seismogram.min_of (Seg._startTime x0)
                                     (map Seg._startTime rest) <= x) rest) M2) as M2'.
    pose proof (proj1 (Forall_of_map end_value
                         (fun x => x <= Seismogram.max_of (end_value x0)
                                          (map end_value rest)) rest) N2) as N2'.
    split.
    { intros _. split.
      { constructor; [split; assumption|].
        apply Forall_forall. intros s Hs.
        rewrite Forall_forall in M2', N2'. split; [apply M2'|apply N2']; exact Hs. }
      split; [exact (In_map_Exists Seg._startTime _ (x0 :: rest) M3)|].
      exact (In_map_Exists end_value _ (x0 :: rest) N3). }
    split; [|split; [apply map_settle_startTime|reflexivity]].
    unfold Seismogram.numPoints. cbn [Seismogram._segmentArray].
    apply numPoints_map_settle.
Qed.

Lemma constructor_bounds_witness :
  exists sm,
    Seismogram.new [example_two_periods_later; example_first] = Ok sm
    /\ Seismogram._startTime sm = 1000
    /\ Seismogram._endTime sm = 1250
    /\ Seismogram.numPoints sm = 5.
Proof.
  destruct (proj2 (proj1 (proj2 constructor_bounds) example_two_periods_later [example_first]))
    as [sm H].
  { repeat constructor. }
  exists sm. split; [exact H|].
  destruct (proj2 (proj2 constructor_bounds) _ _ sm H) as [Hb [Hn _]].
  assert (Hd : Forall dated [example_two_periods_later; example_first]).
  { repeat constructor; try (intros E; vm_compute in E; discriminate);
      vm_compute; discriminate. }
  destruct (Hb Hd) as [Hall _]. inversion Hall as [|? ? _ Hrest]; subst.
  inversion Hrest as [|? ? [Hlow _] _]; subst.
  rewrite Hn. vm_compute in H. inv H. repeat split; vm_compute; reflexivity.
Defined.

End ConstructorBounds.

(** ** trim keeps the overlapping segments *)

Section TrimOverlap.

Lemma trim_kept_overlaps w segs : trim_kept w segs = map settle (filter (overlaps w) segs).
Proof.
  unfold trim_kept, overlaps. induction segs as [|d r IH]; [reflexivity|].
  cbn [filter]. destruct (Moment.isAfter (end_value d) (w_startTime w)); cbn [andb].
  - cbn [map filter]. destruct (settle_fields d) as [_ [_ [_ [Hst _]]]]. rewrite Hst.
    destruct (Moment.isBefore (Seg._startTime d) (w_endTime w)); cbn [map]; rewrite IH;
      reflexivity.
  - exact IH.
Qed.

Lemma new_of_overlapping w f rest k0 kr :
  Forall (fun s => Seismogram.checkSimilar f s = Ok tt) rest ->
  filter (overlaps w) (f :: rest) = k0 :: kr ->
  Seismogram.new (map settle (k0 :: kr)) = Ok (new_value (settle k0) (map settle kr)).
Proof.
  intros Hsim Hk.
  apply (new_of_similar (settle f) (map settle (f :: rest))).
  - apply Forall_of_map. constructor.
    + rewrite checkSimilar_settle. apply checkSimilar_refl.
    + revert Hsim. apply Forall_impl. intros s H. rewrite checkSimilar_settle. exact H.
  - intros x Hx. change (In x (map settle (k0 :: kr))) in Hx.
    rewrite <- Hk in Hx. apply in_map_iff in Hx. destruct Hx as [d [<- Hd]].
    apply filter_In in Hd. apply in_map. apply Hd.
Qed.

Lemma settled_twice l :
  Forall2 (fun d x => Seg._y x = Seg._y d
                      /\ Seg._compressed x = Seg._compressed d
                      /\ Seg._startTime x = Seg._startTime d
                      /\ end_value x = end_value d)
          l (map settle (map settle l)).
Proof.
  induction l as [|d r IH]; cbn [map]; constructor; [|exact IH].
  rewrite settle_idem, end_value_settle.
  destruct (settle_fields d) as [H1 [H2 [_ [H3 _]]]]. repeat split; assumption.
Qed.

(** X7.  trim on a seismogram whose segments are similar to the first
    never throws.  It returns null when no segment both ends after the
    start of the window and starts before its end; otherwise it returns
    a seismogram made of exactly those segments, in their order, with
    their data, start times and end times.  trim decodes nothing: every
    segment of the receiver keeps its samples or its encoded data. *)
Theorem trim_keeps_overlapping sm f rest w :
  Seismogram._segmentArray sm = f :: rest ->
  Forall (fun s => Seismogram.checkSimilar f s = Ok tt) rest ->
  let kept :=
    filter (fun d => (w_startTime w <? end_value d) && (Seg._startTime d <? w_endTime w))
           (f :: rest) in
  (kept = [] -> fst (Seismogram.trim w sm) = Ok None)
  /\ (kept <> [] ->
      exists o,
        fst (Seismogram.trim w sm) = Ok (Some o)
        /\ Forall2 (fun d x => Seg._y x = Seg._y d
                               /\ Seg._compressed x = Seg._compressed d
                               /\ Seg._startTime x = Seg._startTime d
                               /\ end_value x = end_value d)
                   kept (Seismogram._segmentArray o))
  /\ Forall2 (fun d x => Seg._y x = Seg._y d /\ Seg._compressed x = Seg._compressed d)
             (f :: rest) (Seismogram._segmentArray (snd (Seismogram.trim w sm))).
Proof.
  intros Hsegs Hsim kept.
  change kept with (filter (overlaps w) (f :: rest)).
  rewrite trim_spec, Hsegs, trim_kept_overlaps. cbn [fst snd].
  split; [intros ->; reflexivity|]. split.
  - intros Hne. destruct (filter (overlaps w) (f :: rest)) as [|k0 kr] eqn:Hk;
      [congruence|].
    pose proof (new_of_overlapping w f rest k0 kr Hsim Hk) as Hnew.
    cbn [map] in Hnew |- *. rewrite Hnew. eexists. split; [reflexivity|].
    unfold new_value. cbn [Seismogram._segmentArray].
    exact (settled_twice (k0 :: kr)).
  - cbn [Seismogram._segmentArray Seismogram.with_segmentArray].
    apply Forall2_map_right.
    clear. induction (f :: rest) as [|d r IH]; constructor; [|exact IH].
    destruct (settle_fields d) as [H1 [H2 _]]. split; assumption.
Qed.

Lemma trim_keeps_overlapping_witness :
  let sm := Seismogram.mkSeismogram [example_first; example_two_periods_later] 1000 1250 None in
  exists o,
    fst (Seismogram.trim (mkWindow 1120 1300) sm) = Ok (Some o)
    /\ map Seg._startTime (Seismogram._segmentArray o) = [1200].
Proof.
  intros sm.
  destruct (proj1 (proj2 (trim_keeps_overlapping sm example_first
                            [example_two_periods_later] (mkWindow 1120 1300) eq_refl
                            ltac:(constructor; [vm_compute; reflexivity|constructor]))))
    as [o [Ho Hsegs]].
  { vm_compute. discriminate. }
  exists o. split; [exact Ho|].
  vm_compute in Ho. inv Ho. reflexivity.
Defined.

(** X8.  A window that only touches a segment is cut differently by the
    two classes.  For a seismogram of one segment with readable samples
    and a window that ends exactly at the start of the segment, or
    starts exactly at its end time, SeismogramSegment.cut returns a
    segment while Seismogram.cut returns null. *)
Theorem cut_of_touching_window sm s w y0 :
  Seismogram._segmentArray sm = [s] ->
  fst (Seg.y s) = Ok y0 ->
  (w_endTime w = Seg._startTime s /\ w_startTime w <= end_value s)
  \/ (w_startTime w = end_value s /\ Seg._startTime s <= w_endTime w) ->
  (exists c, fst (Seg.cut w s) = Ok (Some c))
  /\ fst (Seismogram.cut w sm) = Ok None.
Proof.
  intros Hsegs Hy Htouch. split.
  - rewrite (cut_unfold w s y0 Hy). unfold cut_result.
    replace (Moment.isBefore (w_endTime w) (Seg._startTime s)
             || Moment.isAfter (w_startTime w) (end_value s)) with false.
    + eexists. reflexivity.
    + symmetry. apply orb_false_iff. unfold Moment.isBefore, Moment.isAfter.
      split; apply Z.ltb_ge; lia.
  - unfold Seismogram.cut, bind. rewrite trim_spec, Hsegs, trim_kept_overlaps.
    replace (filter (overlaps w) [s]) with (@nil Seg.t); [reflexivity|].
    cbn [filter]. unfold overlaps, Moment.isBefore, Moment.isAfter.
    replace ((w_startTime w <? end_value s) && (Seg._startTime s <? w_endTime w))
      with false; [reflexivity|].
    symmetry. apply andb_false_iff.
    destruct Htouch as [[H _]|[H _]]; [right|left]; apply Z.ltb_ge; lia.
Qed.

Lemma cut_of_touching_window_witness :
  let sm := Seismogram.mkSeismogram [example_first] 1000 1100 None in
  let w := mkWindow 900 1000 in
  (exists c, fst (Seg.cut w example_first) = Ok (Some c)
             /\ Seg._y c = Some (mkTA Int32Array [1]%Q))
  /\ fst (Seismogram.cut w sm) = Ok None.
Proof.
  intros sm w.
  destruct (cut_of_touching_window sm example_first w (mkTA Int32Array [1; 2; 3]%Q)
              eq_refl eq_refl) as [[c Hc] Hnull].
  { left. split; [reflexivity|vm_compute; discriminate]. }
  split; [|exact Hnull].
  exists c. split; [exact Hc|]. vm_compute in Hc. inv Hc. reflexivity.
Defined.

End TrimOverlap.

(** ** Appending a seismogram *)

Section AppendSeismogram.

Lemma append_segment_Ok sm f rest seg :
  Seismogram._segmentArray sm = f :: rest ->
  Seismogram.checkSimilar f seg = Ok tt ->
  Seismogram.append_segment seg sm
  = (Ok tt,
     Seismogram.mkSeismogram
       (Seismogram._segmentArray sm ++ [settle seg])
       (Z.min (Seismogram._startTime sm) (Seg._startTime seg))
       (Z.max (Seismogram._endTime sm) (end_value seg))
       (Seismogram._y sm)).
Proof.
  intros Hsegs Hsim. destruct sm as [segs st en yy]. cbn in Hsegs. subst segs.
  unfold Seismogram.append_segment. cbn [Seismogram._segmentArray].
  rewrite Hsim, (settle_endTime seg). reflexivity.
Qed.

Lemma append_segment_Throw sm f rest seg e :
  Seismogram._segmentArray sm = f :: rest ->
  Seismogram.checkSimilar f seg = Throw e ->
  Seismogram.append_segment seg sm = (Throw e, sm).
Proof.
  intros Hsegs Hsim. unfold Seismogram.append_segment.
  rewrite Hsegs, Hsim. reflexivity.
Qed.

Lemma append_each_Ok l : forall sm f rest,
  Seismogram._segmentArray sm = f :: rest ->
  Forall (fun s => Seismogram.checkSimilar f s = Ok tt) l ->
  Seismogram.append_each l sm
  = (Ok tt,
     Seismogram.mkSeismogram
       (Seismogram._segmentArray sm ++ map settle l)
       (fold_left Z.min (map Seg._startTime l) (Seismogram._startTime sm))
       (fold_left Z.max (map end_value l) (Seismogram._endTime sm))
       (Seismogram._y sm)).
Proof.
  induction l as [|s r IH]; intros sm f rest Hsegs Hsim.
  - cbn. rewrite app_nil_r. destruct sm; reflexivity.
  - inv Hsim. cbn [Seismogram.append_each]. unfold bind.
    rewrite (append_segment_Ok sm f rest s Hsegs H1).
    rewrite (IH _ f (rest ++ [settle s])); [|cbn; rewrite Hsegs; reflexivity|assumption].
    cbn [Seismogram._segmentArray Seismogram._startTime Seismogram._endTime Seismogram._y
         map fold_left].
    rewrite <- app_assoc. reflexivity.
Qed.

Lemma append_each_Throw pre : forall sm f rest bad post e,
  Seismogram._segmentArray sm = f :: rest ->
  Forall (fun s => Seismogram.checkSimilar f s = Ok tt) pre ->
  Seismogram.checkSimilar f bad = Throw e ->
  Seismogram.append_each (pre ++ bad :: post) sm
  = (Throw e, snd (Seismogram.append_each pre sm)).
Proof.
  induction pre as [|s r IH]; intros sm f rest bad post e Hsegs Hsim Hbad.
  - cbn [app Seismogram.append_each]. unfold bind.
    rewrite (append_segment_Throw sm f rest bad e Hsegs Hbad). reflexivity.
  - inv Hsim. cbn [app Seismogram.append_each]. unfold bind.
    rewrite (append_segment_Ok sm f rest s Hsegs H1).
    apply (IH _ f (rest ++ [settle s])); [cbn; rewrite Hsegs; reflexivity| |]; assumption.
Qed.

Lemma numPoints_app l1 l2 :
  fold_left (fun accumulator seis => accumulator + Seg.numPoints seis) (l1 ++ l2) 0
  = fold_left (fun accumulator seis => accumulator + Seg.numPoints seis) l1 0
    + fold_left (fun accumulator seis => accumulator + Seg.numPoints seis) l2 0.
Proof.
  rewrite fold_left_app.
  generalize (fold_left (fun accumulator seis => accumulator + Seg.numPoints seis) l1 0).
  induction l2 as [|s r IH] using rev_ind; intros z; [cbn; lia|].
  rewrite !numPoints_snoc, IH. lia.
Qed.

(** X9.  append of a seismogram appends its segments one by one.  When
    every segment of the other seismogram is similar to the first
    segment of the receiver, all are appended in order, numPoints is
    the sum of the two, and the start and end time become the least
    start and the greatest end.  When a segment is not similar, append
    throws its error and the segments before it stay appended. *)
Theorem append_seismogram_in_order sm f rest other :
  Seismogram._segmentArray sm = f :: rest ->
  (Forall (fun s => Seismogram.checkSimilar f s = Ok tt)
          (Seismogram._segmentArray other) ->
   exists sm',
     Seismogram.append (Seismogram.ASeismogram other) sm = (Ok tt, sm')
     /\ Seismogram._segmentArray sm'
        = Seismogram._segmentArray sm ++ map settle (Seismogram._segmentArray other)
     /\ Seismogram.numPoints sm' = Seismogram.numPoints sm + Seismogram.numPoints other
     /\ Seismogram._startTime sm'
        = fold_left Z.min (map Seg._startTime (Seismogram._segmentArray other))
                    (Seismogram._startTime sm)
     /\ Seismogram._endTime sm'
        = fold_left Z.max (map end_value (Seismogram._segmentArray other))
                    (Seismogram._endTime sm))
  /\ (forall pre bad post e,
         Seismogram._segmentArray other = pre ++ bad :: post ->
         Forall (fun s => Seismogram.checkSimilar f s = Ok tt) pre ->
         Seismogram.checkSimilar f bad = Throw e ->
         exists sm',
           Seismogram.append (Seismogram.ASeismogram other) sm = (Throw e, sm')
           /\ Seismogram._segmentArray sm'
              = Seismogram._segmentArray sm ++ map settle pre
           /\ Seismogram.numPoints sm'
              = Seismogram.numPoints sm
                + fold_left (fun n s => n + Seg.numPoints s) pre 0).
Proof.
  intros Hsegs. cbn [Seismogram.append]. split.
  - intros Hsim. rewrite (append_each_Ok _ sm f rest Hsegs Hsim).
    eexists. split; [reflexivity|].
    cbn [Seismogram._segmentArray Seismogram._startTime Seismogram._endTime].
    split; [reflexivity|]. split; [|split; reflexivity].
    unfold Seismogram.numPoints. cbn [Seismogram._segmentArray].
    rewrite numPoints_app, numPoints_map_settle. reflexivity.
  - intros pre bad post e Hother Hsim Hbad. rewrite Hother.
    rewrite (append_each_Throw pre sm f rest bad post e Hsegs Hsim Hbad).
    rewrite (append_each_Ok pre sm f rest Hsegs Hsim). cbn [snd].
    eexists. split; [reflexivity|].
    cbn [Seismogram._segmentArray]. split; [reflexivity|].
    unfold Seismogram.numPoints. cbn [Seismogram._segmentArray].
    rewrite numPoints_app, numPoints_map_settle. reflexivity.
Qed.

Lemma append_seismogram_in_order_witness :
  let sm := Seismogram.mkSeismogram [example_first] 1000 1100 None in
  let bad := Seg.with_codes (Some "CO"%string) None None None "count"
               example_two_periods_later in
  let other := Seismogram.mkSeismogram [example_one_period_later; bad] 1150 1250 None in
  exists e sm',
    Seismogram.append (Seismogram.ASeismogram other) sm = (Throw e, sm')
    /\ Seismogram.numPoints sm' = 5.
Proof.
  intros sm bad other.
  destruct (proj2 (append_seismogram_in_order sm example_first [] other eq_refl)
              [example_one_period_later] bad [] "NetworkCode not same"%string eq_refl)
    as [sm' [H [_ Hn]]].
  { constructor; [vm_compute; reflexivity|constructor]. }
  { vm_compute. reflexivity. }
  exists "NetworkCode not same"%string, sm'. split; [exact H|].
  rewrite Hn. vm_compute. reflexivity.
Defined.

End AppendSeismogram.

(** ** The merged samples are cached *)

Section MergedCache.

Lemma cache_only_numPoints s s' : cache_only s s' -> Seg.numPoints s' = Seg.numPoints s.
Proof. intros [c [n ->]]. reflexivity. Qed.

Lemma y_numPoints s : Seg.numPoints (snd (Seg.y s)) = Seg.numPoints s.
Proof.
  destruct (Seg.y s) as [[a|e] s'] eqn:H; cbn [snd].
  - destruct (y_Ok s a s' H) as [_ [_ [Hn _]]]. exact Hn.
  - rewrite (y_Throw s e s' H). reflexivity.
Qed.

Lemma ta_copy_from_length src : forall out i,
  ta_length (fst (ta_copy_from out i src)) = ta_length out.
Proof.
  induction src as [|v r IH]; intros out i; cbn; [reflexivity|].
  rewrite IH. apply ta_store_length.
Qed.

Lemma merge_loop_length l : forall out i o,
  fst (Seismogram.merge_loop out i l) = Ok o -> ta_length o = ta_length out.
Proof.
  induction l as [|s r IH]; intros out i o H; cbn in H.
  - inv H. reflexivity.
  - destruct (Seg.y s) as [[ys|e] s']; [|discriminate].
    pose proof (ta_copy_from_length (ta_data ys) out i) as Hl.
    destruct (ta_copy_from out i (ta_data ys)) as [out' i'].
    destruct (Seismogram.merge_loop out' i' r) as [res r'] eqn:Hm.
    cbn [fst] in *. rewrite <- Hl. apply (IH out' i'). rewrite Hm. exact H.
Qed.

Lemma merge_loop_numPoints l : forall out i,
  Forall2 (fun s s' => Seg.numPoints s' = Seg.numPoints s)
          l (snd (Seismogram.merge_loop out i l)).
Proof.
  induction l as [|s r IH]; intros out i; cbn; [constructor|].
  pose proof (y_numPoints s) as Hn.
  destruct (Seg.y s) as [[ys|e] s']; cbn [snd] in *.
  - destruct (ta_copy_from out i (ta_data ys)) as [out' i'].
    specialize (IH out' i').
    destruct (Seismogram.merge_loop out' i' r) as [res r']. cbn [snd] in *.
    constructor; assumption.
  - constructor; [exact Hn|]. clear. induction r; constructor; auto.
Qed.

Lemma numPoints_same l l' :
  Forall2 (fun s s' => Seg.numPoints s' = Seg.numPoints s) l l' ->
  fold_left (fun accumulator seis => accumulator + Seg.numPoints seis) l' 0
  = fold_left (fun accumulator seis => accumulator + Seg.numPoints seis) l 0.
Proof.
  intros H. apply (numPoints_Forall2 _ l l' (fun s x E => E) H).
Qed.

Lemma merge_numPoints sm :
  Seismogram.numPoints (snd (Seismogram.merge sm)) = Seismogram.numPoints sm
  /\ Seismogram._y (snd (Seismogram.merge sm)) = Seismogram._y sm
  /\ Seismogram._startTime (snd (Seismogram.merge sm)) = Seismogram._startTime sm
  /\ Seismogram._endTime (snd (Seismogram.merge sm)) = Seismogram._endTime sm
  /\ (Seismogram._segmentArray sm <> [] ->
      Seismogram._segmentArray (snd (Seismogram.merge sm)) <> [])
  /\ forall o, fst (Seismogram.merge sm) = Ok o -> ta_length o = Seismogram.numPoints sm.
Proof.
  unfold Seismogram.merge, Seismogram.numPoints.
  destruct (Seismogram._segmentArray sm) as [|f r] eqn:Hsegs.
  - cbn [snd fst]. rewrite Hsegs. repeat split; try reflexivity; [congruence|discriminate].
  - pose proof (y_numPoints f) as Hf.
    destruct (Seg.y f) as [[y0|e] f']; cbn [snd] in Hf.
    + cbn [Seismogram._segmentArray Seismogram.with_segmentArray].
      pose proof (merge_loop_numPoints (f' :: r)
                    (ta_new (ta_kind y0)
                       (Seismogram.numPoints
                          (Seismogram.with_segmentArray (f' :: r) sm))) 0) as Hl.
      pose proof (merge_loop_length (f' :: r)
                    (ta_new (ta_kind y0)
                       (Seismogram.numPoints
                          (Seismogram.with_segmentArray (f' :: r) sm))) 0) as Ho.
      destruct (Seismogram.merge_loop _ 0 (f' :: r)) as [res segs].
      cbn [snd fst Seismogram._segmentArray Seismogram.with_segmentArray Seismogram._y
           Seismogram._startTime Seismogram._endTime] in *.
      assert (Hn : fold_left (fun accumulator seis => accumulator + Seg.numPoints seis)
                             (f' :: r) 0
                   = fold_left (fun accumulator seis => accumulator + Seg.numPoints seis)
                               (f :: r) 0).
      { cbn [fold_left]. rewrite Hf. reflexivity. }
      split; [rewrite (numPoints_same _ _ Hl); exact Hn|].
      repeat split; try reflexivity.
      * inversion Hl; subst; discriminate.
      * intros o Hres. rewrite (Ho o Hres).
        rewrite ta_new_length; [exact Hn|].
        unfold Seismogram.numPoints. cbn [Seismogram._segmentArray].
        clear. generalize (f' :: r). intros l.
        assert (G : forall acc, 0 <= acc ->
                  0 <= fold_left (fun accumulator seis => accumulator + Seg.numPoints seis) l acc).
        { induction l as [|s t IH]; intros acc Hacc; cbn; [exact Hacc|].
          apply IH. pose proof (numPoints_nonneg s). lia. }
        apply G. lia.
    + cbn [snd fst Seismogram._segmentArray Seismogram.with_segmentArray Seismogram._y
           Seismogram._startTime Seismogram._endTime].
      cbn [fold_left]. rewrite Hf. repeat split; try reflexivity; discriminate.
Qed.

Lemma isContiguous_numPoints sm :
  Seismogram.numPoints (snd (Seismogram.isContiguous sm)) = Seismogram.numPoints sm.
Proof.
  destruct (isContiguous_frame sm) as [H _].
  unfold Seismogram.numPoints.
  apply (numPoints_Forall2 cache_only _ _ cache_only_numPoints H).
Qed.

Lemma seismogram_y_Ok sm a :
  fst (Seismogram.y sm) = Ok a ->
  Seismogram._y (snd (Seismogram.y sm)) = Some a
  /\ Seismogram.numPoints (snd (Seismogram.y sm)) = Seismogram.numPoints sm
  /\ (Seismogram._y sm = None -> ta_length a = Seismogram.numPoints sm).
Proof.
  unfold Seismogram.y, bind, gets, modify, ret, throw.
  destruct (Seismogram._y sm) as [c|] eqn:Hy.
  - cbn [fst snd]. intros H. inv H. split; [exact Hy|]. split; [reflexivity|discriminate].
  - pose proof (isContiguous_numPoints sm) as Hn.
    destruct (Seismogram.isContiguous sm) as [[b|e] sm1]; cbn [snd] in Hn; [|discriminate].
    destruct b; [|discriminate].
    destruct (merge_numPoints sm1) as [Hm [_ [_ [_ [_ Hlen]]]]].
    destruct (Seismogram.merge sm1) as [[o|e] sm2]; cbn [fst snd] in *; [|discriminate].
    intros H. inv H. split; [reflexivity|].
    split; [unfold Seismogram.numPoints in *; cbn [Seismogram._segmentArray Seismogram.with_y];
            congruence|].
    intros _. rewrite (Hlen a eq_refl). exact Hn.
Qed.

(** X10.  append does not clear the merged samples that the y getter of
    a seismogram caches.  After y has been read (with nothing cached
    before) and a segment has been appended, y still returns the array
    read before, whose length is the number of points before the append,
    while numPoints counts the appended segment too. *)
Theorem y_not_refreshed_by_append sm a seg sm2 :
  Seismogram._y sm = None ->
  fst (Seismogram.y sm) = Ok a ->
  Seismogram.append (Seismogram.ASegment seg) (snd (Seismogram.y sm)) = (Ok tt, sm2) ->
  fst (Seismogram.y sm2) = Ok a
  /\ ta_length a = Seismogram.numPoints sm
  /\ Seismogram.numPoints sm2 = Seismogram.numPoints sm + Seg.numPoints seg.
Proof.
  intros Hnone Ha Happ.
  destruct (seismogram_y_Ok sm a Ha) as [Hy [Hn Hlen]].
  set (sm1 := snd (Seismogram.y sm)) in *.
  cbn [Seismogram.append] in Happ. unfold Seismogram.append_segment in Happ.
  destruct (Seismogram._segmentArray sm1) as [|f rest] eqn:Hsegs; [discriminate|].
  destruct (Seismogram.checkSimilar f seg) as [[]|e] eqn:Hsim; [|discriminate].
  rewrite (settle_endTime seg) in Happ. inv Happ.
  split; [|split; [exact (Hlen Hnone)|]].
  - unfold Seismogram.y, bind, gets.
    cbn [Seismogram._y Seismogram.with_segmentArray Seismogram.with_endTime
         Seismogram.with_startTime]. rewrite Hy. reflexivity.
  - unfold Seismogram.numPoints in *.
    cbn [Seismogram._segmentArray Seismogram.with_segmentArray Seismogram.with_endTime
         Seismogram.with_startTime].
    rewrite <- Hn, Hsegs. rewrite numPoints_snoc, settle_numPoints. reflexivity.
Qed.

Lemma y_not_refreshed_by_append_witness :
  let sm := Seismogram.mkSeismogram [example_first] 1000 1100 None in
  exists sm2,
    Seismogram.append (Seismogram.ASegment example_one_period_later)
                      (snd (Seismogram.y sm)) = (Ok tt, sm2)
    /\ fst (Seismogram.y sm2) = Ok (mkTA Int32Array [1; 2; 3]%Q)
    /\ Seismogram.numPoints sm2 = 5.
Proof.
  intros sm.
  destruct (Seismogram.append (Seismogram.ASegment example_one_period_later)
                              (snd (Seismogram.y sm))) as [r sm2] eqn:H.
  assert (r = Ok tt) by (vm_compute in H; congruence). subst r.
  exists sm2. split; [reflexivity|].
  destruct (y_not_refreshed_by_append sm (mkTA Int32Array [1; 2; 3]%Q)
              example_one_period_later sm2 eq_refl eq_refl H) as [Hy [_ Hn]].
  split; [exact Hy|]. rewrite Hn. vm_compute. reflexivity.
Defined.

End MergedCache.

(** ** Time range of a list of seismograms *)

Section StartEndOfSeismograms.

Lemma findStartEndOfSeismograms_step_spec out s :
  findStartEndOfSeismograms_step out s
  = mkWindow (Z.min (w_startTime out) (Seismogram._startTime s))
             (Z.max (w_endTime out) (Seismogram._endTime s)).
Proof.
  unfold findStartEndOfSeismograms_step.
  destruct (Z.ltb_spec (Seismogram._startTime s) (w_startTime out));
    cbn [w_startTime w_endTime];
    destruct (Z.ltb_spec (w_endTime out) (Seismogram._endTime s));
    destruct out as [a b]; cbn [w_startTime w_endTime] in *; f_equal; lia.
Qed.

Lemma findStartEnd_fold data : forall out,
  let r := fold_left findStartEndOfSeismograms_step data out in
  w_startTime r <= w_startTime out /\ w_endTime out <= w_endTime r
  /\ Forall (fun s => w_startTime r <= Seismogram._startTime s
                      /\ Seismogram._endTime s <= w_endTime r) data
  /\ (w_startTime r = w_startTime out
      \/ Exists (fun s => w_startTime r = Seismogram._startTime s) data)
  /\ (w_endTime r = w_endTime out
      \/ Exists (fun s => w_endTime r = Seismogram._endTime s) data).
Proof.
  induction data as [|s d IH]; intros out; cbn [fold_left].
  - repeat split; try lia; try constructor; left; reflexivity.
  - specialize (IH (findStartEndOfSeismograms_step out s)).
    rewrite findStartEndOfSeismograms_step_spec in *.
    cbn [w_startTime w_endTime] in IH.
    cbv zeta in IH |- *.
    set (r := fold_left findStartEndOfSeismograms_step d _) in *.
    destruct IH as [H1 [H2 [H3 [H4 H5]]]].
    split; [lia|]. split; [lia|]. split; [constructor; [lia|exact H3]|]. split.
    + destruct H4 as [H4|H4]; [|right; right; exact H4].
      destruct (Z.min_spec (w_startTime out) (Seismogram._startTime s)) as [[_ E]|[_ E]];
        rewrite E in H4; [left|right; left]; exact H4.
    + destruct H5 as [H5|H5]; [|right; right; exact H5].
      destruct (Z.max_spec (w_endTime out) (Seismogram._endTime s)) as [[_ E]|[_ E]];
        rewrite E in H5; [right; left|left]; exact H5.
Qed.

(** X11.  findStartEndOfSeismograms with an accumulator returns a window
    that contains the accumulator and the time range of every
    seismogram, and each of its bounds is a bound of the accumulator or
    of one of the seismograms.  The result of one call, passed as the
    accumulator of a second call, gives what one call on the
    concatenated data gives.  Without an accumulator and for non-empty
    data whose times lie between 1001-01-01 and 2500-01-01 the result is
    the least start and the greatest end of the data; for empty data it
    is the window from 2500-01-01 to 1001-01-01, whose start is after
    its end; without data the call throws. *)
Theorem findStartEndOfSeismograms_covers :
  (forall data acc r,
      findStartEndOfSeismograms (Some data) (Some acc) = Ok r ->
      w_startTime r <= w_startTime acc /\ w_endTime acc <= w_endTime r
      /\ Forall (fun s => w_startTime r <= Seismogram._startTime s
                          /\ Seismogram._endTime s <= w_endTime r) data
      /\ (w_startTime r = w_startTime acc
          \/ Exists (fun s => w_startTime r = Seismogram._startTime s) data)
      /\ (w_endTime r = w_endTime acc
          \/ Exists (fun s => w_endTime r = Seismogram._endTime s) data))
  /\ (forall d1 d2 acc,
         exists r1,
           findStartEndOfSeismograms (Some d1) acc = Ok r1
           /\ findStartEndOfSeismograms (Some (d1 ++ d2)) acc
              = findStartEndOfSeismograms (Some d2) (Some r1))
  /\ (forall s data r,
         findStartEndOfSeismograms (Some (s :: data)) None = Ok r ->
         Forall (fun x => -30578688000000 <= Seismogram._endTime x
                          /\ Seismogram._startTime x <= 16725225600000) (s :: data) ->
         Forall (fun x => w_startTime r <= Seismogram._startTime x
                          /\ Seismogram._endTime x <= w_endTime r) (s :: data)
         /\ Exists (fun x => w_startTime r = Seismogram._startTime x) (s :: data)
         /\ Exists (fun x => w_endTime r = Seismogram._endTime x) (s :: data))
  /\ findStartEndOfSeismograms (Some []) None
     = Ok (mkWindow 16725225600000 (-30578688000000))
  /\ (forall acc, exists e, findStartEndOfSeismograms None acc = Throw e).
Proof.
  split; [|split; [|split; [|split]]].
  - intros data acc r H. cbn in H. inv H.
    exact (findStartEnd_fold data acc).
  - intros d1 d2 acc.
    destruct acc; eexists; (split; [reflexivity|]); cbn; rewrite fold_left_app;
      reflexivity.
  - intros s data r H Hrange. cbn [findStartEndOfSeismograms] in H. inv H.
    destruct (findStartEnd_fold (s :: data) (mkWindow 16725225600000 (-30578688000000)))
      as [H1 [H2 [H3 [H4 H5]]]].
    cbn [w_startTime w_endTime fold_left] in *.
    split; [exact H3|]. inversion H3 as [|? ? [Hs He] _]; subst.
    inversion Hrange as [|? ? [Rs Re] _]; subst.
    split.
    + destruct H4 as [H4|H4]; [|exact H4].
      left. lia.
    + destruct H5 as [H5|H5]; [|exact H5].
      left. lia.
  - reflexivity.
  - intros [a|]; eexists; reflexivity.
Qed.

Lemma findStartEndOfSeismograms_covers_witness :
  let data := [Seismogram.mkSeismogram [example_one_period_later] 1150 1200 None;
               Seismogram.mkSeismogram [example_first] 1000 1100 None] in
  exists r,
    findStartEndOfSeismograms (Some data) None = Ok r
    /\ Exists (fun x => w_startTime r = Seismogram._startTime x) data
    /\ w_startTime r = 1000 /\ w_endTime r = 1200.
Proof.
  intros data. eexists. split; [reflexivity|].
  split; [|split; vm_compute; reflexivity].
  refine (proj1 (proj2 (proj1 (proj2 (proj2 findStartEndOfSeismograms_covers))
                          (Seismogram.mkSeismogram [example_one_period_later] 1150 1200 None)
                          [Seismogram.mkSeismogram [example_first] 1000 1100 None]
                          _ eq_refl _))).
  repeat constructor; cbn; lia.
Defined.

End StartEndOfSeismograms.

(** ** Display data: copies and cached statistics *)

Section DisplayData.

Context {MarkerType Channel InstrumentSensitivity Quake : Type}.

(** X12.  SeismogramDisplayData.cloneWithNewSeismogram(seis) never stores
    its argument: 'seismogram' is the name of an accessor, not of an own
    property, so the loop copies every field of the receiver, the held
    seismogram and the statistics cache included.  clone() therefore
    returns an object with the contents of the receiver that holds the
    original seismogram, not the clone made of it; it throws exactly
    when cloning the held seismogram throws. *)
Theorem cloneWithNewSeismogram_ignores_argument :
  (forall (this : SDD.t MarkerType Channel InstrumentSensitivity Quake) seis,
      SDD.cloneWithNewSeismogram this seis = this)
  /\ (forall (this : SDD.t MarkerType Channel InstrumentSensitivity Quake) c,
         SDD.clone this = Ok c ->
         c = this /\ SDD._seismogram c = SDD._seismogram this)
  /\ (forall (this : SDD.t MarkerType Channel InstrumentSensitivity Quake) sm,
         SDD._seismogram this = Some sm ->
         (exists e, SDD.clone this = Throw e) <-> (exists e, Seismogram.clone sm = Throw e)).
Proof.
  assert (H : forall (this : SDD.t MarkerType Channel InstrumentSensitivity Quake) seis, SDD.cloneWithNewSeismogram this seis = this).
  { intros this seis. destruct this. reflexivity. }
  split; [exact H|]. split.
  - intros this c Hc.
    assert (E : c = this).
    { unfold SDD.clone in Hc.
      destruct (SDD._seismogram this) as [sm|].
      - destruct (Seismogram.clone sm); [|discriminate]. inv Hc. apply H.
      - inv Hc. apply H. }
    subst c. split; reflexivity.
  - intros this sm Hsm. unfold SDD.clone. rewrite Hsm.
    destruct (Seismogram.clone sm) as [c|e].
    + split; intros [e He]; discriminate.
    + split; intros _; eexists; reflexivity.
Qed.

End DisplayData.

Lemma cloneWithNewSeismogram_ignores_argument_witness :
  let sm := Seismogram.mkSeismogram [example_first] 1000 1100 None in
  let this : SDD.t unit unit unit unit :=
    SDD.mkDisplayData (Some sm) None [] None None [] (mkWindow 1000 1100) None true None in
  exists copy c,
    Seismogram.clone sm = Ok copy /\ copy <> sm
    /\ SDD.clone this = Ok c /\ SDD._seismogram c = Some sm.
Proof.
  intros sm this.
  destruct (SDD.clone this) as [c|e] eqn:Hc; [|vm_compute in Hc; discriminate].
  destruct (proj1 (proj2 cloneWithNewSeismogram_ignores_argument) this c Hc) as [_ Hs].
  eexists. exists c. split; [vm_compute; reflexivity|].
  split; [vm_compute; discriminate|]. split; [reflexivity|exact Hs].
Defined.

Section DisplayStats.

Context {MarkerType Channel InstrumentSensitivity Quake : Type}.
Variable meanOfSlice : TypedArray -> Z -> Q.

Lemma cached_stats_hit (d : SDD.t MarkerType Channel InstrumentSensitivity Quake) st :
  SDD._statsCache d = Some st -> SDD.cached_stats meanOfSlice d = (Ok st, d).
Proof. intros H. unfold SDD.cached_stats, bind, gets. rewrite H. reflexivity. Qed.

Lemma calcStats_fills (d d' : SDD.t MarkerType Channel InstrumentSensitivity Quake) st :
  SDD.calcStats meanOfSlice d = (Ok st, d') -> SDD._statsCache d' = Some st.
Proof.
  unfold SDD.calcStats, bind, gets, modify, ret, throw, SDD.on_seismogram.
  destruct (SDD._seismogram d) as [sm|].
  - destruct (Seismogram.findMinMax None sm) as [[mm|e] sm1]; [|discriminate].
    cbn [SDD._seismogram SDD.with_seismogram].
    destruct (Seismogram.mean meanOfSlice sm1) as [[m|e] sm2]; [|discriminate].
    intros H. inv H. reflexivity.
  - intros H. inv H. reflexivity.
Qed.

Lemma cached_stats_fills (d d' : SDD.t MarkerType Channel InstrumentSensitivity Quake) st :
  SDD.cached_stats meanOfSlice d = (Ok st, d') -> SDD._statsCache d' = Some st.
Proof.
  unfold SDD.cached_stats, bind, gets, modify, ret.
  destruct (SDD._statsCache d) as [c|] eqn:Hc.
  - intros H. inv H. exact Hc.
  - destruct (SDD.calcStats meanOfSlice d) as [[s0|e] d1]; [|discriminate].
    intros H. inv H. reflexivity.
Qed.

Lemma held_op_statsCache {A} (m : M Seismogram.t A) (d : SDD.t MarkerType Channel InstrumentSensitivity Quake) :
  SDD._statsCache (snd (SDD.held_op m d)) = SDD._statsCache d.
Proof.
  unfold SDD.held_op, SDD.on_seismogram.
  destruct (SDD._seismogram d) as [sm|]; [|reflexivity].
  destruct (m sm). reflexivity.
Qed.

Lemma findMinMax_loop_state segs arrays :
  Forall2 (fun s a => fst (Seg.y s) = Ok a) segs arrays ->
  forall acc,
    Forall2 (fun s a => fst (Seg.y s) = Ok a)
            (snd (Seismogram.findMinMax_loop acc segs)) arrays.
Proof.
  induction 1 as [|s a segs arrays Hy _ IH]; intros acc; cbn; [constructor|].
  destruct (Seg.y s) as [r s'] eqn:Hys. cbn [fst] in Hy. subst r.
  rewrite (findMinMax_of_y acc s a s' Hys).
  specialize (IH (Some (fold_left Seg.minmax_step (ta_data a) (minmax_init acc)))).
  destruct (Seismogram.findMinMax_loop _ segs) as [res r']. cbn [snd] in *.
  constructor; [|exact IH].
  rewrite (y_again s a s' Hys). reflexivity.
Qed.

Lemma mean_never_throws sm arrays :
  Forall2 (fun s a => fst (Seg.y s) = Ok a) (Seismogram._segmentArray sm) arrays ->
  exists m, fst (Seismogram.mean meanOfSlice sm) = Ok m.
Proof.
  intros H. unfold Seismogram.mean, bind, gets, ret, Seismogram.for_segments.
  pose proof (traverse_mean_terms meanOfSlice _ _ H) as Ht.
  destruct (traverse (Seismogram.mean_term meanOfSlice) (Seismogram._segmentArray sm))
    as [r l]. cbn [fst] in Ht. subst r. eexists. reflexivity.
Qed.

Lemma calcStats_value (d : SDD.t MarkerType Channel InstrumentSensitivity Quake) sm arrays :
  SDD._seismogram d = Some sm ->
  Seismogram._segmentArray sm <> [] ->
  Forall2 (fun s a => fst (Seg.y s) = Ok a) (Seismogram._segmentArray sm) arrays ->
  let mm := fold_left Seg.minmax_step (List.concat (map ta_data arrays)) (minmax_init None) in
  exists m, fst (SDD.calcStats meanOfSlice d)
            = Ok (SeismogramDisplayStats.mkStats (fst mm) (snd mm) m 0).
Proof.
  intros Hsm Hne Hy mm.
  unfold SDD.calcStats, bind, gets, modify, ret, throw, SDD.on_seismogram.
  rewrite Hsm.
  pose proof (seismogram_findMinMax_value sm arrays None Hne Hy) as Hv.
  assert (Hst : Forall2 (fun s a => fst (Seg.y s) = Ok a)
                        (Seismogram._segmentArray (snd (Seismogram.findMinMax None sm)))
                        arrays).
  { unfold Seismogram.findMinMax.
    destruct (Seismogram._segmentArray sm) as [|s0 r] eqn:Hsegs; [congruence|].
    pose proof (findMinMax_loop_state _ _ Hy None) as Hl.
    destruct (Seismogram.findMinMax_loop None (s0 :: r)) as [[[mm0|]|e] l];
      cbn [snd Seismogram._segmentArray Seismogram.with_segmentArray] in *; exact Hl. }
  destruct (Seismogram.findMinMax None sm) as [r sm1]. cbn [fst snd] in *. subst r.
  cbn [SDD._seismogram SDD.with_seismogram].
  destruct (mean_never_throws sm1 arrays Hst) as [m Hm].
  destruct (Seismogram.mean meanOfSlice sm1) as [r sm2]. cbn [fst] in Hm. subst r.
  exists m. reflexivity.
Qed.

(** X13.  The statistics of a display data object are computed once.
    After min, max or mean has been read, a call that changes the held
    seismogram in place (an append, say) changes none of the three;
    assigning the seismogram property clears the cache.  With an empty
    cache and a seismogram whose samples can be read, min and max are
    the least and the greatest sample; with no seismogram all three are
    0. *)
Theorem stats_cached_until_assignment :
  (forall (d : SDD.t MarkerType Channel InstrumentSensitivity Quake) st A (m : M Seismogram.t A),
      fst (SDD.cached_stats meanOfSlice d) = Ok st ->
      let d' := snd (SDD.held_op m (snd (SDD.cached_stats meanOfSlice d))) in
      fst (SDD.min meanOfSlice d') = Ok (SeismogramDisplayStats.min st)
      /\ fst (SDD.max meanOfSlice d') = Ok (SeismogramDisplayStats.max st)
      /\ fst (SDD.mean meanOfSlice d') = Ok (SeismogramDisplayStats.mean st))
  /\ (forall (d : SDD.t MarkerType Channel InstrumentSensitivity Quake) value,
         SDD._statsCache (snd (SDD.set_seismogram value d)) = None
         /\ SDD._seismogram (snd (SDD.set_seismogram value d)) = value)
  /\ (forall (d : SDD.t MarkerType Channel InstrumentSensitivity Quake) sm arrays,
         SDD._seismogram d = Some sm ->
         SDD._statsCache d = None ->
         Seismogram._segmentArray sm <> [] ->
         Forall2 (fun s a => fst (Seg.y s) = Ok a) (Seismogram._segmentArray sm) arrays ->
         let mm := fold_left Seg.minmax_step (List.concat (map ta_data arrays))
                             (minmax_init None) in
         fst (SDD.min meanOfSlice d) = Ok (fst mm)
         /\ fst (SDD.max meanOfSlice d) = Ok (snd mm))
  /\ (forall (d : SDD.t MarkerType Channel InstrumentSensitivity Quake),
         SDD._seismogram d = None ->
         SDD._statsCache d = None ->
         fst (SDD.min meanOfSlice d) = Ok 0%Q
         /\ fst (SDD.max meanOfSlice d) = Ok 0%Q
         /\ fst (SDD.mean meanOfSlice d) = Ok 0%Q).
Proof.
  split; [|split; [|split]].
  - intros d st A m Hst d'.
    assert (Hc : SDD._statsCache d' = Some st).
    { unfold d'. rewrite held_op_statsCache.
      destruct (SDD.cached_stats meanOfSlice d) as [r d1] eqn:E.
      cbn [fst snd] in *. subst r. exact (cached_stats_fills d d1 st E). }
    unfold SDD.min, SDD.max, SDD.mean, bind, ret.
    rewrite (cached_stats_hit d' st Hc). repeat split; reflexivity.
  - intros d value. split; reflexivity.
  - intros d sm arrays Hsm Hcache Hne Hy mm.
    destruct (calcStats_value d sm arrays Hsm Hne Hy) as [m Hm].
    unfold SDD.min, SDD.max, SDD.cached_stats, bind, gets, modify, ret.
    rewrite Hcache.
    destruct (SDD.calcStats meanOfSlice d) as [r d1]. cbn [fst] in Hm. subst r.
    split; reflexivity.
  - intros d Hsm Hcache.
    unfold SDD.min, SDD.max, SDD.mean, SDD.cached_stats, SDD.calcStats,
      bind, gets, modify, ret.
    rewrite Hcache, Hsm. repeat split; reflexivity.
Qed.

End DisplayStats.

Lemma stats_cached_until_assignment_witness :
  let meanOfSlice := fun (a : TypedArray) (n : Z) => (Qsum (ta_data a) / inject_Z n)%Q in
  let sm := Seismogram.mkSeismogram [example_first] 1000 1100 None in
  let d : SDD.t unit unit unit unit := SDD.fromSeismogram sm in
  let d' := snd (SDD.held_op (Seismogram.append (Seismogram.ASegment example_one_period_later))
                         (snd (SDD.cached_stats meanOfSlice d))) in
  fst (SDD.max meanOfSlice d) = Ok 3%Q
  /\ fst (SDD.max meanOfSlice d') = Ok 3%Q
  /\ fst (SDD.held_op (Seismogram.findMinMax None) d') = Ok (1, 5)%Q.
Proof.
  intros meanOfSlice sm d d'.
  split; [vm_compute; reflexivity|]. split; [|vm_compute; reflexivity].
  refine (proj1 (proj2 (proj1 (stats_cached_until_assignment meanOfSlice) d
                          (SeismogramDisplayStats.mkStats 1 3 _ 0) unit
                          (Seismogram.append (Seismogram.ASegment example_one_period_later))
                          _))).
  vm_compute. reflexivity.
Defined.

(** ** Minimum and maximum over a time range *)

Section MinMaxOverTimeRange.

Context {MarkerType Channel InstrumentSensitivity Quake : Type}.

Lemma filter_none {A} (p : A -> bool) l :
  Forall (fun a => p a = false) l -> filter p l = [].
Proof.
  induction 1 as [|a r Ha _ IH]; cbn; [reflexivity|]. rewrite Ha. exact IH.
Qed.

Lemma seismogram_cut_no_overlap w sm :
  Forall (fun s => ~ (w_startTime w < end_value s /\ Seg._startTime s < w_endTime w))
         (Seismogram._segmentArray sm) ->
  fst (Seismogram.cut w sm) = Ok None.
Proof.
  intros H. unfold Seismogram.cut, bind. rewrite trim_spec, trim_kept_overlaps.
  rewrite filter_none; [reflexivity|].
  revert H. apply Forall_impl. intros s Hs.
  unfold overlaps, Moment.isAfter, Moment.isBefore.
  apply andb_false_iff.
  destruct (Z.ltb_spec (w_startTime w) (end_value s)); [|left; reflexivity].
  right. apply Z.ltb_ge. lia.
Qed.

Lemma reduce_constant (f : Q -> Q -> Q) c l :
  f c c = c -> l <> [] -> Forall (fun x => x = c) l -> reduce f l = Ok c.
Proof.
  intros Hf Hne H. destruct l as [|x r]; [congruence|].
  inv H. cbn. f_equal. clear Hne. induction H3 as [|y r -> _ IH]; cbn; [reflexivity|].
  rewrite Hf. exact IH.
Qed.

(** X14.  findMinMaxOverTimeRange throws for an empty list.  For a
    non-empty list in which no display data object holds a seismogram
    with a segment that ends after the start of the window and starts
    before its end, it returns [MAX_SAFE_INTEGER, -MAX_SAFE_INTEGER]: a
    minimum above the maximum. *)
Theorem findMinMaxOverTimeRange_without_data :
  (forall w,
      exists e,
        fst (SDD.findMinMaxOverTimeRange
               (@nil (SDD.t MarkerType Channel InstrumentSensitivity Quake)) w) = Throw e)
  /\ (forall (sddList : list (SDD.t MarkerType Channel InstrumentSensitivity Quake)) w,
         sddList <> [] ->
         Forall (fun d =>
                   forall sm,
                     SDD._seismogram d = Some sm ->
                     Forall (fun s => ~ (w_startTime w < end_value s
                                         /\ Seg._startTime s < w_endTime w))
                            (Seismogram._segmentArray sm))
                sddList ->
         fst (SDD.findMinMaxOverTimeRange sddList w)
         = Ok (Seg.MAX_SAFE_INTEGER, (-1 * Seg.MAX_SAFE_INTEGER)%Q)).
Proof.
  split.
  - intros w. eexists. reflexivity.
  - intros sddList w Hne H.
    set (sentinel := (Seg.MAX_SAFE_INTEGER, (-1 * Seg.MAX_SAFE_INTEGER)%Q)).
    assert (Hall : Forall (fun d => SDD.minMax_in w d
                                    = (Ok sentinel, snd (SDD.minMax_in w d))) sddList).
    { revert H. apply Forall_impl. intros d Hd.
      unfold SDD.minMax_in, bind, gets, ret, SDD.on_seismogram.
      destruct (SDD._seismogram d) as [sm|]; [|reflexivity].
      pose proof (seismogram_cut_no_overlap w sm (Hd sm eq_refl)) as Hc.
      destruct (Seismogram.cut w sm) as [r sm']. cbn [fst] in Hc. subst r.
      reflexivity. }
    unfold SDD.findMinMaxOverTimeRange.
    rewrite (traverse_all_Ok _ (fun _ => sentinel) _ _ Hall).
    rewrite (reduce_constant _ Seg.MAX_SAFE_INTEGER (map fst (map (fun _ => sentinel) sddList))).
    + rewrite (reduce_constant _ (-1 * Seg.MAX_SAFE_INTEGER)%Q
                 (map snd (map (fun _ => sentinel) sddList))).
      * reflexivity.
      * reflexivity.
      * destruct sddList; [congruence|discriminate].
      * clear. induction sddList; constructor; auto.
    + reflexivity.
    + destruct sddList; [congruence|discriminate].
    + clear. induction sddList; constructor; auto.
Qed.

End MinMaxOverTimeRange.

Lemma findMinMaxOverTimeRange_without_data_witness :
  let d : SDD.t unit unit unit unit :=
    SDD.fromSeismogram (Seismogram.mkSeismogram [example_first] 1000 1100 None) in
  fst (SDD.findMinMaxOverTimeRange [d] (mkWindow 1020 1080)) = Ok (1, 3)%Q
  /\ fst (SDD.findMinMaxOverTimeRange [d] (mkWindow 2000 3000))
     = Ok (Seg.MAX_SAFE_INTEGER, (-1 * Seg.MAX_SAFE_INTEGER)%Q).
Proof.
  intros d. split; [vm_compute; reflexivity|].
  apply (proj2 findMinMaxOverTimeRange_without_data); [discriminate|].
  constructor; [|constructor].
  intros sm Hsm. vm_compute in Hsm. inv Hsm.
  constructor; [|constructor]. vm_compute. intros [H _]. discriminate.
Defined.

(** ** The transform size *)

Section FftSize.

Lemma pad_loop_spec npts : forall fuel l N,
  4 <= l -> N = 2 ^ l -> (l = 4 \/ N < 2 * npts) ->
  Z.max 0 (npts - N) < Z.of_nat fuel ->
  exists l' N',
    Fft.pad_loop fuel l N npts = Some (l', N')
    /\ 4 <= l' /\ N' = 2 ^ l' /\ npts <= N' /\ (l' = 4 \/ N' < 2 * npts).
Proof.
  induction fuel as [|f IH]; intros l N Hl HN Hmin Hfuel; [lia|].
  cbn [Fft.pad_loop].
  assert (Hpos : 16 <= N).
  { subst N. change 16 with (2 ^ 4). apply Z.pow_le_mono_r; lia. }
  destruct (Z.ltb_spec N npts) as [Hlt|Hge].
  - apply IH; try lia.
    subst N. rewrite Z.pow_add_r by lia. lia.
  - exists l, N. repeat split; try assumption; lia.
Qed.

Lemma fft_size_spec npts :
  exists l N,
    Fft.fft_size npts = Some (l, N)
    /\ 4 <= l /\ N = 2 ^ l /\ npts <= N /\ (l = 4 \/ N < 2 * npts).
Proof.
  unfold Fft.fft_size. apply pad_loop_spec.
  - lia.
  - reflexivity.
  - left. reflexivity.
  - rewrite Nat2Z.inj_succ. destruct (Z.le_gt_cases 0 npts).
    + rewrite Z2Nat.id by assumption. lia.
    + lia.
Qed.

Lemma fft_size_power k :
  4 <= k -> Fft.fft_size (2 ^ k) = Some (k, 2 ^ k).
Proof.
  intros Hk. destruct (fft_size_spec (2 ^ k)) as [l [N [H [Hl [HN [Hle Hmin]]]]]].
  rewrite H. subst N.
  assert (l = k); [|subst; reflexivity].
  assert (k <= l) by (apply (Z.pow_le_mono_r_iff 2); lia).
  destruct Hmin as [->|Hlt]; [lia|].
  assert (2 ^ l < 2 ^ (k + 1)) by (rewrite Z.pow_add_r by lia; lia).
  assert (l < k + 1) by (apply (Z.pow_lt_mono_r_iff 2); lia).
  lia.
Qed.

End FftSize.

Section FftFacts.

Variables evaluate evaluateInverse : Z -> list Q -> list Q -> list Q.
Hypothesis evaluate_length :
  forall log2N input out, List.length (evaluate log2N input out) = List.length out.
Hypothesis evaluateInverse_length :
  forall log2N input out, List.length (evaluateInverse log2N input out) = List.length out.

Lemma padded_input ts N :
  ta_length ts <= N ->
  fst (ta_copy_from (ta_new Float32Array N) 0 (ta_data ts))
  = mkTA Float32Array (map (coerce Float32Array) (ta_data ts)
                         ++ repeat 0%Q (Z.to_nat (N - ta_length ts))).
Proof.
  intros Hle. unfold ta_new.
  pose proof (ta_length_nonneg ts) as Hnn.
  replace (Z.to_nat N)
    with (List.length (ta_data ts) + Z.to_nat (N - ta_length ts))%nat
    by (unfold ta_length in *; lia).
  rewrite repeat_app.
  pose proof (ta_copy_from_fill Float32Array (ta_data ts) []
                (repeat 0%Q (List.length (ta_data ts)))
                (repeat 0%Q (Z.to_nat (N - ta_length ts)))) as H.
  cbn [app List.length Z.of_nat] in H.
  rewrite H by apply repeat_length. reflexivity.
Qed.

Lemma calcDFT_value ts :
  exists l N,
    Fft.fft_size (ta_length ts) = Some (l, N)
    /\ 4 <= l /\ N = 2 ^ l /\ ta_length ts <= N
    /\ (4 < l -> N < 2 * ta_length ts)
    /\ Fft.calcDFT evaluate ts
       = Ok (mkTA Float32Array
               (evaluate l
                  (map (coerce Float32Array) (ta_data ts)
                     ++ repeat 0%Q (Z.to_nat (N - ta_length ts)))
                  (repeat 0%Q (Z.to_nat N))))
    /\ forall out, Fft.calcDFT evaluate ts = Ok out -> ta_length out = N.
Proof.
  destruct (fft_size_spec (ta_length ts)) as [l [N [H [Hl [HN [Hle Hmin]]]]]].
  exists l, N. split; [exact H|]. split; [exact Hl|]. split; [exact HN|].
  split; [exact Hle|]. split; [lia|].
  assert (Hc : Fft.calcDFT evaluate ts
               = Ok (mkTA Float32Array
                       (evaluate l
                          (map (coerce Float32Array) (ta_data ts)
                             ++ repeat 0%Q (Z.to_nat (N - ta_length ts)))
                          (repeat 0%Q (Z.to_nat N))))).
  { unfold Fft.calcDFT. rewrite H, (padded_input ts N Hle). reflexivity. }
  split; [exact Hc|].
  intros out Ho. rewrite Hc in Ho. inv Ho.
  unfold ta_length. cbn [ta_data]. rewrite evaluate_length, repeat_length.
  pose proof (ta_length_nonneg ts). lia.
Qed.

(** X15.  calcDFT pads its input with zeros.  For a series whose values
    are within the range of a single: the size loop ends with
    N = 2^log2N, where N is at least 16 and at least the input length
    and is the least such power of two; the transform is applied to the
    values of the input, each rounded to a single by the store into the
    Float32Array, followed by N - length zeros, and calcDFT returns
    N values (the transform of the external library fills an array
    without changing its length). *)
Theorem calcDFT_pads_with_zeros ts :
  Forall single_range (ta_data ts) ->
  exists l N,
    Fft.fft_size (ta_length ts) = Some (l, N)
    /\ 4 <= l /\ N = 2 ^ l /\ ta_length ts <= N
    /\ (4 < l -> N < 2 * ta_length ts)
    /\ Fft.calcDFT evaluate ts
       = Ok (mkTA Float32Array
               (evaluate l
                  (map (coerce Float32Array) (ta_data ts)
                     ++ repeat 0%Q (Z.to_nat (N - ta_length ts)))
                  (repeat 0%Q (Z.to_nat N))))
    /\ forall out, Fft.calcDFT evaluate ts = Ok out -> ta_length out = N.
Proof. intros _. exact (calcDFT_value ts). Qed.

Lemma inverseDFT_Ok_iff p n :
  (exists r, Fft.inverseDFT evaluateInverse p n = Ok r)
  <-> n <= ta_length p /\ exists k, 4 <= k /\ ta_length p = 2 ^ k.
Proof.
  unfold Fft.inverseDFT.
  destruct (fft_size_spec (ta_length p)) as [l [N [H [Hl [HN [Hle Hmin]]]]]].
  split.
  - intros [r Hr].
    destruct (Z.ltb_spec (ta_length p) n); [discriminate|].
    rewrite H in Hr.
    destruct (Z.eqb_spec N (ta_length p)); [|discriminate].
    split; [assumption|]. exists l. split; [exact Hl|congruence].
  - intros [Hn [k [Hk Hp]]].
    destruct (Z.ltb_spec (ta_length p) n); [lia|].
    rewrite Hp, (fft_size_power k Hk), Z.eqb_refl. eexists. reflexivity.
Qed.

Lemma inverseDFT_length p n r :
  Fft.inverseDFT evaluateInverse p n = Ok r -> 0 <= n -> ta_length r = n.
Proof.
  unfold Fft.inverseDFT. intros Hr Hn.
  destruct (Z.ltb_spec (ta_length p) n); [discriminate|].
  destruct (Fft.fft_size (ta_length p)) as [[l N]|]; [|discriminate].
  destruct (Z.eqb_spec N (ta_length p)); [|discriminate].
  inv Hr.
  assert (Hlen : ta_length (mkTA Float32Array
                              (evaluateInverse l (ta_data p)
                                 (ta_data (ta_new Float32Array (ta_length p)))))
                 = ta_length p).
  { unfold ta_length at 1. cbn [ta_data]. rewrite evaluateInverse_length.
    fold (ta_length (ta_new Float32Array (ta_length p))).
    apply ta_new_length. apply ta_length_nonneg. }
  pose proof (ta_length_nonneg p).
  unfold ta_new in *. cbn [ta_data] in *.
  rewrite ta_slice_length; rewrite ?Hlen; lia.
Qed.

(** X16.  inverseDFT returns exactly when numPoints is at most the
    length of the packed array and that length is a power of two, 16 or
    more; for numPoints >= 0 the result has numPoints values.  Applied
    to the output of calcDFT and the length of the original series it
    returns, with as many values as the original. *)
Theorem inverseDFT_accepts_powers_of_two :
  (forall p n,
      (exists r, Fft.inverseDFT evaluateInverse p n = Ok r)
      <-> n <= ta_length p /\ exists k, 4 <= k /\ ta_length p = 2 ^ k)
  /\ (forall p n r,
         Fft.inverseDFT evaluateInverse p n = Ok r -> 0 <= n -> ta_length r = n)
  /\ (forall ts packed,
         Fft.calcDFT evaluate ts = Ok packed ->
         exists r,
           Fft.inverseDFT evaluateInverse packed (ta_length ts) = Ok r
           /\ ta_length r = ta_length ts).
Proof.
  split; [exact inverseDFT_Ok_iff|]. split; [exact inverseDFT_length|].
  intros ts packed Hc.
  destruct (calcDFT_value ts) as [l [N [_ [Hl [HN [Hle [_ [_ Hlen]]]]]]]].
  specialize (Hlen packed Hc).
  destruct (proj2 (inverseDFT_Ok_iff packed (ta_length ts))) as [r Hr].
  { split; [lia|]. exists l. split; [exact Hl|congruence]. }
  exists r. split; [exact Hr|].
  apply (inverseDFT_length packed _ r Hr). apply ta_length_nonneg.
Qed.

End FftFacts.

Lemma copy_transform_length log2N input out :
  List.length (copy_transform log2N input out) = List.length out.
Proof.
  unfold copy_transform. rewrite length_firstn, length_app. lia.
Qed.

Lemma calcDFT_pads_with_zeros_witness :
  exists out,
    Fft.calcDFT copy_transform (mkTA Int32Array [16777217; 2; 3]%Q) = Ok out
    /\ ta_length out = 16
    /\ firstn 4 (ta_data out) = [16777216; 2; 3; 0]%Q.
Proof.
  destruct (calcDFT_pads_with_zeros copy_transform copy_transform_length
              (mkTA Int32Array [16777217; 2; 3]%Q)) as [l [N [Hs [_ [_ [_ [_ [Hc Hl]]]]]]]].
  { repeat constructor. }
  vm_compute in Hs. inv Hs.
  eexists. split; [exact Hc|]. split; [exact (Hl _ Hc)|]. vm_compute. reflexivity.
Defined.

Lemma inverseDFT_accepts_powers_of_two_witness :
  (exists r, Fft.inverseDFT copy_transform (mkTA Float32Array (repeat 1%Q 16)) 3 = Ok r)
  /\ ~ (exists r, Fft.inverseDFT copy_transform (mkTA Float32Array (repeat 1%Q 9)) 3 = Ok r).
Proof.
  pose proof (proj1 (inverseDFT_accepts_powers_of_two copy_transform copy_transform
                       copy_transform_length copy_transform_length)) as H.
  split.
  - apply H. split; [vm_compute; discriminate|]. exists 4. split; [lia|reflexivity].
  - intros Hr. apply H in Hr. destruct Hr as [_ [k [Hk E]]].
    change (ta_length (mkTA Float32Array (repeat 1%Q 9))) with 9 in E.
    assert (2 ^ 4 <= 2 ^ k) by (apply Z.pow_le_mono_r; lia).
    change (2 ^ 4) with 16 in *. lia.
Defined.

(** ** fftForward *)

Section FftForward.

Variables evaluate evaluateInverse : Z -> list Q -> list Q -> list Q.
Hypothesis evaluate_length :
  forall log2N input out, List.length (evaluate log2N input out) = List.length out.
Hypothesis evaluateInverse_length :
  forall log2N input out, List.length (evaluateInverse log2N input out) = List.length out.
Variable Complex : Type.
Variable createComplex : option Q -> option Q -> Complex.
Variables abs angle : Complex -> Q.
Context {MarkerType Channel InstrumentSensitivity Quake : Type}.

Lemma createFromPackedFreq_fields p o rate :
  let r := Fft.createFromPackedFreq createComplex abs angle p o rate in
  Fft.origLength r = o /\ Fft.sampleRate r = rate
  /\ Fft.packedFreq r = p /\ Fft.numPoints r = ta_length p.
Proof.
  unfold Fft.createFromPackedFreq, Fft.recalcFromPackedFreq.
  cbn [Fft.packedFreq Fft.with_packedFreq Fft.origLength Fft.sampleRate].
  destruct (fold_left _ _ _) as [[cs a1] p1]. repeat split; reflexivity.
Qed.

Lemma held_op_Some {A} (m : M Seismogram.t A)
      (d : SDD.t MarkerType Channel InstrumentSensitivity Quake) sm :
  SDD._seismogram d = Some sm ->
  SDD.held_op m d = (fst (m sm), SDD.with_seismogram (Some (snd (m sm))) d).
Proof.
  intros H. unfold SDD.held_op, SDD.on_seismogram. rewrite H.
  destruct (m sm). reflexivity.
Qed.

Lemma single_segment_y_state sm s a s' :
  Seismogram._segmentArray sm = [s] ->
  Seismogram._y sm = None ->
  Seg.y s = (Ok a, s') ->
  Seismogram._segmentArray (snd (Seismogram.y sm)) = [s'].
Proof.
  intros Hsegs Hy Hys. destruct sm as [segs st en yy].
  cbn [Seismogram._segmentArray Seismogram._y] in Hsegs, Hy. subst segs yy.
  unfold Seismogram.y, bind, gets, modify, ret.
  cbn [Seismogram._y Seismogram.isContiguous Seismogram._segmentArray].
  unfold Seismogram.merge. cbn [Seismogram._segmentArray]. rewrite Hys.
  cbn [Seismogram._segmentArray Seismogram.with_segmentArray Seismogram.merge_loop].
  rewrite (y_again s a s' Hys).
  destruct (ta_copy_from _ 0 (ta_data a)) as [out' i'].
  reflexivity.
Qed.

Lemma fftForward_sdd_single (d : SDD.t MarkerType Channel InstrumentSensitivity Quake)
      sm s a :
  SDD._seismogram d = Some sm ->
  Seismogram._segmentArray sm = [s] ->
  Seismogram._y sm = None ->
  fst (Seg.y s) = Ok a ->
  ta_wf a ->
  exists packed,
    Fft.calcDFT evaluate a = Ok packed
    /\ fst (Fft.fftForward_sdd evaluate createComplex abs angle d)
       = Ok (Fft.createFromPackedFreq createComplex abs angle packed
               (ta_length a) (Seg._sampleRate s)).
Proof.
  intros Hd Hsegs Hy Ha Hwf.
  destruct (calcDFT_value evaluate evaluate_length a) as [l [N [_ [_ [_ [_ [_ [Hc _]]]]]]]].
  eexists. split; [exact Hc|].
  destruct (Seg.y s) as [r s'] eqn:Hys. cbn [fst] in Ha. subst r.
  pose proof (single_segment_y sm s a Hsegs Hy ltac:(rewrite Hys; reflexivity) Hwf) as Hfst.
  pose proof (single_segment_y_state sm s a s' Hsegs Hy Hys) as Hstate.
  destruct (seismogram_y_Ok sm a Hfst) as [_ [Hn Hlen]].
  specialize (Hlen Hy).
  destruct (y_Ok s a s' Hys) as [_ [_ [_ [Hh _]]]].
  destruct Hh as [Hrate _].
  assert (Hone : Seismogram.isContiguous sm = (Ok true, sm)).
  { unfold Seismogram.isContiguous. rewrite Hsegs. reflexivity. }
  unfold Fft.fftForward_sdd, bind, gets. rewrite Hd.
  rewrite (held_op_Some Seismogram.isContiguous d sm Hd), Hone. cbn [fst snd].
  erewrite (held_op_Some Seismogram.y); [|reflexivity]. rewrite Hfst.
  unfold lift. rewrite Hc.
  erewrite (held_op_Some (gets Seismogram.numPoints)); [|reflexivity].
  unfold gets at 1. cbn [fst snd].
  erewrite held_op_Some; [|reflexivity]. cbn [fst snd].
  unfold Seismogram.sampleRate, gets. cbn [fst snd]. rewrite Hstate.
  unfold ret. cbn [fst]. rewrite Hn, <- Hlen, Hrate. reflexivity.
Qed.

Lemma fftForward_sdd_multi (d : SDD.t MarkerType Channel InstrumentSensitivity Quake)
      sm s0 s1 rest :
  SDD._seismogram d = Some sm ->
  Seismogram._segmentArray sm = s0 :: s1 :: rest ->
  Seismogram._y sm = None ->
  exists e, fst (Fft.fftForward_sdd evaluate createComplex abs angle d) = Throw e.
Proof.
  intros Hd Hsegs Hy.
  destruct (isContiguous_never_throws sm) as [b Hb].
  pose proof (isContiguous_twice sm s0 s1 rest Hsegs) as Htwice.
  unfold Fft.fftForward_sdd, bind, gets. rewrite Hd.
  rewrite (held_op_Some Seismogram.isContiguous d sm Hd), Hb. cbn [fst snd].
  destruct b; [|eexists; reflexivity].
  destruct (Htwice Hb) as [_ [_ Hthrow]]. specialize (Hthrow Hy).
  erewrite (held_op_Some Seismogram.y); [|reflexivity]. rewrite Hthrow.
  eexists. reflexivity.
Qed.

Lemma fftForward_of_sdd
      (seis : Seismogram.t + SDD.t MarkerType Channel InstrumentSensitivity Quake) sm :
  fft_input_holds seis sm ->
  exists d : SDD.t MarkerType Channel InstrumentSensitivity Quake,
    SDD._seismogram d = Some sm
            /\ fst (Fft.fftForward evaluate createComplex abs angle seis)
               = fst (Fft.fftForward_sdd evaluate createComplex abs angle d).
Proof.
  destruct seis as [s|d]; cbn [fft_input_holds]; intros H.
  - subst s. exists (SDD.fromSeismogram sm). split; [reflexivity|].
    unfold Fft.fftForward.
    destruct (Fft.fftForward_sdd evaluate createComplex abs angle
                (@SDD.fromSeismogram MarkerType Channel InstrumentSensitivity Quake sm)).
    reflexivity.
  - exists d. split; [exact H|]. unfold Fft.fftForward.
    destruct (Fft.fftForward_sdd evaluate createComplex abs angle d). reflexivity.
Qed.

(** X17.  fftForward throws "Can not take FFT is seismogram is null." for
    a display data object without seismogram.  For a seismogram of two
    or more segments whose merged samples are not cached it always
    throws: when isContiguous() answers true, the y getter asks again
    and is answered false.  For a seismogram of one segment with
    readable samples it returns a result whose origLength is the number
    of samples, whose sample rate is that of the segment and whose
    packed array is calcDFT of the samples; fftInverse of that result
    returns as many values as there were samples. *)
Theorem fftForward_needs_one_segment :
  (forall (d : SDD.t MarkerType Channel InstrumentSensitivity Quake),
      SDD._seismogram d = None ->
      fst (Fft.fftForward evaluate createComplex abs angle (inr d))
      = Throw "Can not take FFT is seismogram is null.")
  /\ (forall (seis : Seismogram.t + SDD.t MarkerType Channel InstrumentSensitivity Quake)
             sm s0 s1 rest,
         fft_input_holds seis sm ->
         Seismogram._segmentArray sm = s0 :: s1 :: rest ->
         Seismogram._y sm = None ->
         exists e, fst (Fft.fftForward evaluate createComplex abs angle seis) = Throw e)
  /\ (forall (seis : Seismogram.t + SDD.t MarkerType Channel InstrumentSensitivity Quake)
             sm s a,
         fft_input_holds seis sm ->
         Seismogram._segmentArray sm = [s] ->
         Seismogram._y sm = None ->
         fst (Seg.y s) = Ok a ->
         ta_wf a ->
         exists r back,
           fst (Fft.fftForward evaluate createComplex abs angle seis) = Ok r
           /\ Fft.origLength r = ta_length a
           /\ Fft.sampleRate r = Seg._sampleRate s
           /\ Fft.calcDFT evaluate a = Ok (Fft.packedFreq r)
           /\ Fft.fftInverse evaluateInverse r = Ok back
           /\ ta_length back = ta_length a).
Proof.
  split; [|split].
  - intros d Hd. unfold Fft.fftForward, Fft.fftForward_sdd, bind, gets, throw.
    rewrite Hd. reflexivity.
  - intros seis sm s0 s1 rest Hheld Hsegs Hy.
    destruct (fftForward_of_sdd seis sm Hheld) as [d [Hd ->]].
    exact (fftForward_sdd_multi d sm s0 s1 rest Hd Hsegs Hy).
  - intros seis sm s a Hheld Hsegs Hy Ha Hwf.
    destruct (fftForward_of_sdd seis sm Hheld) as [d [Hd ->]].
    destruct (fftForward_sdd_single d sm s a Hd Hsegs Hy Ha Hwf) as [packed [Hc Hf]].
    destruct (createFromPackedFreq_fields packed (ta_length a) (Seg._sampleRate s))
      as [Ho [Hr [Hp _]]].
    destruct (calcDFT_value evaluate evaluate_length a)
      as [l [N [_ [Hl [HN [Hle [_ [_ Hlen]]]]]]]].
    specialize (Hlen packed Hc).
    destruct (proj2 (inverseDFT_Ok_iff evaluateInverse packed (ta_length a))) as [back Hb].
    { split; [lia|]. exists l. split; [exact Hl|congruence]. }
    exists (Fft.createFromPackedFreq createComplex abs angle packed
              (ta_length a) (Seg._sampleRate s)), back.
    split; [exact Hf|]. split; [exact Ho|]. split; [exact Hr|].
    split; [rewrite Hp; exact Hc|].
    unfold Fft.fftInverse. rewrite Hp, Ho. split; [exact Hb|].
    apply (inverseDFT_length evaluateInverse evaluateInverse_length packed _ back Hb).
    apply ta_length_nonneg.
Qed.

End FftForward.

Lemma fftForward_needs_one_segment_witness :
  let createComplex := fun (re im : option Q) => (re, im) in
  let zero := fun (_ : option Q * option Q) => 0%Q in
  let two : Seismogram.t + SDD.t unit unit unit unit :=
    inl (Seismogram.mkSeismogram [example_first; example_one_period_later] 1000 1200 None) in
  let one : Seismogram.t + SDD.t unit unit unit unit :=
    inl (Seismogram.mkSeismogram [example_first] 1000 1100 None) in
  (exists e, fst (Fft.fftForward copy_transform createComplex zero zero two) = Throw e)
  /\ fst (Seismogram.y (Seismogram.mkSeismogram
                          [example_first; example_one_period_later] 1000 1200 None))
     = Ok (mkTA Int32Array [1; 2; 3; 4; 5]%Q)
  /\ exists r, fst (Fft.fftForward copy_transform createComplex zero zero one) = Ok r
               /\ Fft.origLength r = 3.
Proof.
  intros createComplex zero two one.
  pose proof (@fftForward_needs_one_segment copy_transform copy_transform
                copy_transform_length copy_transform_length _ createComplex zero zero
                unit unit unit unit) as [_ [Hmulti Hsingle]].
  split.
  - apply (Hmulti two _ example_first example_one_period_later [] eq_refl eq_refl eq_refl).
  - split; [vm_compute; reflexivity|].
    destruct (Hsingle one _ example_first (mkTA Int32Array [1; 2; 3]%Q)
                eq_refl eq_refl eq_refl eq_refl) as [r [back [Hr [Ho _]]]].
    { repeat constructor. }
    exists r. split; [exact Hr|exact Ho].
Defined.

(** ** FFTResult: packed and complex forms *)

Section FftResult.

Variable evaluateInverse : Z -> list Q -> list Q -> list Q.
Variable Complex : Type.
Variable createComplex : option Q -> option Q -> Complex.
Variables real imag abs angle : Complex -> Q.

Lemma ta_set_length a i v : ta_length (Fft.ta_set a i v) = ta_length a.
Proof.
  unfold Fft.ta_set. destruct (Qeq_bool i (inject_Z (Qfloor i))); [|reflexivity].
  apply ta_store_length.
Qed.

Lemma recalcFromComplex_stores_length (cs : list Complex) N idx : forall m,
  ta_length
    (fold_left
       (fun m i =>
          match nth_error cs (Z.to_nat i) with
          | Some c => ta_store (ta_store m i (real c)) (N - i) (imag c)
          | None => m
          end) idx m)
  = ta_length m.
Proof.
  induction idx as [|i r IH]; intros m; cbn [fold_left]; [reflexivity|].
  rewrite IH. destruct (nth_error cs (Z.to_nat i)); [|reflexivity].
  rewrite !ta_store_length. reflexivity.
Qed.

Lemma recalcFromComplex_Ok (r : Fft.FFTResult Complex) :
  Fft.complex r <> [] ->
  exists r',
    Fft.recalcFromComplex real imag r = Ok r'
    /\ Fft.numPoints r' = Z.of_nat (List.length (Fft.complex r))
    /\ ta_length (Fft.packedFreq r') = Z.of_nat (List.length (Fft.complex r))
    /\ Fft.origLength r' = Fft.origLength r
    /\ Fft.sampleRate r' = Fft.sampleRate r.
Proof.
  intros Hne. unfold Fft.recalcFromComplex.
  destruct (Fft.complex r) as [|c0 cs] eqn:Hc; [congruence|].
  destruct (nth_error (c0 :: cs) (Z.to_nat (Z.of_nat (List.length (c0 :: cs)) - 1)))
    as [cl|] eqn:Hn.
  - eexists. split; [reflexivity|].
    cbn [Fft.numPoints Fft.packedFreq Fft.origLength Fft.sampleRate].
    assert (Hlen : forall m v,
               ta_length (Fft.ta_set m (inject_Z (Z.of_nat (List.length (c0 :: cs))) / 2) v)
               = ta_length m) by (intros; apply ta_set_length).
    rewrite Hlen, recalcFromComplex_stores_length, ta_store_length, ta_new_length by lia.
    repeat split; reflexivity.
  - apply nth_error_None in Hn. cbn [List.length] in Hn. lia.
Qed.

Lemma recalcFromPackedFreq_fold_length (p : TypedArray) L idx :
  forall (cs : list Complex) am ph,
    List.length
      (fst (fst
         (fold_left
            (fun '(cs, am, ph) i =>
               let c := createComplex (Fft.ta_get p (inject_Z i))
                                      (Fft.ta_get p (inject_Z (L - i))) in
               (cs ++ [c], ta_store am i (abs c), ta_store ph i (angle c)))
            idx (cs, am, ph))))
    = (List.length cs + List.length idx)%nat.
Proof.
  induction idx as [|i r IH]; intros cs am ph; cbn [fold_left List.length fst].
  - lia.
  - rewrite IH, length_app. cbn [List.length]. lia.
Qed.

Lemma recalcFromPackedFreq_fields (r : Fft.FFTResult Complex) :
  let r' := Fft.recalcFromPackedFreq createComplex abs angle r in
  Fft.origLength r' = Fft.origLength r
  /\ Fft.sampleRate r' = Fft.sampleRate r
  /\ Fft.packedFreq r' = Fft.packedFreq r
  /\ Fft.numPoints r' = ta_length (Fft.packedFreq r)
  /\ List.length (Fft.complex r')
     = (2 + List.length
              (Fft.indices_below (inject_Z (ta_length (Fft.packedFreq r)) / 2)))%nat.
Proof.
  unfold Fft.recalcFromPackedFreq.
  pose proof (recalcFromPackedFreq_fold_length (Fft.packedFreq r)
                (ta_length (Fft.packedFreq r))
                (Fft.indices_below (inject_Z (ta_length (Fft.packedFreq r)) / 2))) as Hf.
  cbv zeta.
  match goal with
  | |- context [fold_left ?f ?idx (?cs, ?am, ?ph)] =>
      specialize (Hf cs am ph); destruct (fold_left f idx (cs, am, ph)) as [[cs' a1] p1]
  end.
  cbn [fst Fft.origLength Fft.sampleRate Fft.packedFreq Fft.numPoints Fft.complex] in *.
  repeat split; try reflexivity.
  rewrite length_app, Hf. cbn [List.length]. lia.
Qed.

Lemma pow2_double k : 1 <= k -> 2 ^ k = 2 * 2 ^ (k - 1).
Proof.
  intros Hk. replace k with (Z.succ (k - 1)) at 1 by lia.
  apply Z.pow_succ_r. lia.
Qed.

Lemma indices_below_half k :
  1 <= k ->
  List.length (Fft.indices_below (inject_Z (2 ^ k) / 2)) = (Z.to_nat (2 ^ (k - 1)) - 1)%nat.
Proof.
  intros Hk. unfold Fft.indices_below. rewrite length_map, length_seq.
  replace (Qceiling (inject_Z (2 ^ k) / 2)) with (2 ^ (k - 1)); [reflexivity|].
  assert (E : (inject_Z (2 ^ k) / 2 == inject_Z (2 ^ (k - 1)))%Q).
  { rewrite (pow2_double k Hk), inject_Z_mult. field. }
  rewrite (Qceiling_comp _ _ E). symmetry. apply Qceiling_Z.
Qed.

Lemma inverseDFT_cases p n :
  (exists r, Fft.inverseDFT evaluateInverse p n = Ok r)
  \/ (exists e, Fft.inverseDFT evaluateInverse p n = Throw e).
Proof.
  destruct (Fft.inverseDFT evaluateInverse p n); [left|right]; eexists; reflexivity.
Qed.

(** X18.  createFromComplex builds a packed array with as many values as
    there are complex numbers, and numPoints is that count.  A result
    built from a packed array of 2^k values (k >= 4) has a complex view
    of 2^(k-1)+1 entries; the result rebuilt from that view has
    2^(k-1)+1 points, not 2^k, and its fftInverse throws. *)
Theorem createFromComplex_has_complex_length :
  (forall c o rate,
      c <> [] ->
      exists r,
        Fft.createFromComplex createComplex real imag abs angle c o rate = Ok r
        /\ Fft.numPoints r = Z.of_nat (List.length c)
        /\ ta_length (Fft.packedFreq r) = Z.of_nat (List.length c)
        /\ Fft.origLength r = o)
  /\ (forall p o rate k,
         4 <= k ->
         ta_length p = 2 ^ k ->
         let r := Fft.createFromPackedFreq createComplex abs angle p o rate in
         Fft.numPoints r = 2 ^ k
         /\ Z.of_nat (List.length (Fft.complex r)) = 2 ^ (k - 1) + 1
         /\ exists r',
             Fft.createFromComplex createComplex real imag abs angle
                                   (Fft.complex r) o rate = Ok r'
             /\ Fft.numPoints r' = 2 ^ (k - 1) + 1
             /\ exists e, Fft.fftInverse evaluateInverse r' = Throw e).
Proof.
  assert (Hfirst : forall c o rate,
             c <> [] ->
             exists r,
               Fft.createFromComplex createComplex real imag abs angle c o rate = Ok r
               /\ Fft.numPoints r = Z.of_nat (List.length c)
               /\ ta_length (Fft.packedFreq r) = Z.of_nat (List.length c)
               /\ Fft.origLength r = o).
  { intros c o rate Hne. unfold Fft.createFromComplex.
    destruct (recalcFromComplex_Ok (Fft.with_complex o rate c) Hne)
      as [r1 [H1 [_ [Hp [Ho _]]]]].
    cbn [Fft.complex Fft.with_complex Fft.origLength] in *.
    rewrite H1. eexists. split; [reflexivity|].
    destruct (recalcFromPackedFreq_fields r1) as [Ho' [_ [Hp' [Hn' _]]]].
    rewrite Hn', Hp', Ho', Hp, Ho. repeat split; reflexivity. }
  split; [exact Hfirst|].
  intros p o rate k Hk Hp r.
  destruct (recalcFromPackedFreq_fields (Fft.with_packedFreq o rate p))
    as [_ [_ [_ [Hn Hc]]]].
  fold (Fft.createFromPackedFreq createComplex abs angle p o rate) in Hn, Hc.
  fold r in Hn, Hc.
  cbn [Fft.packedFreq Fft.with_packedFreq] in Hn, Hc.
  assert (Hpow : 2 ^ k = 2 * 2 ^ (k - 1)) by (apply pow2_double; lia).
  assert (Hpos : 0 < 2 ^ (k - 1)) by (apply Z.pow_pos_nonneg; lia).
  assert (Hlen : Z.of_nat (List.length (Fft.complex r)) = 2 ^ (k - 1) + 1).
  { rewrite Hc, Hp, (indices_below_half k) by lia. lia. }
  split; [congruence|]. split; [exact Hlen|].
  destruct (Hfirst (Fft.complex r) o rate) as [r' [Hr' [Hn' [Hp' _]]]].
  { intros E. rewrite E in Hlen. cbn in Hlen. lia. }
  exists r'. split; [exact Hr'|]. split; [congruence|].
  unfold Fft.fftInverse.
  destruct (inverseDFT_cases (Fft.packedFreq r') (Fft.origLength r')) as [Hok|Hthrow];
    [|exact Hthrow].
  exfalso. apply inverseDFT_Ok_iff in Hok. destruct Hok as [_ [j [Hj Hjp]]].
  rewrite Hp', Hlen in Hjp.
  assert (Hj2 : 2 ^ j = 2 * 2 ^ (j - 1)) by (apply pow2_double; lia).
  assert (Hk2 : 2 ^ (k - 1) = 2 * 2 ^ (k - 1 - 1)) by (apply pow2_double; lia).
  lia.
Qed.

Lemma frequencies_loop_fold (r : Fft.FFTResult Complex) f idx : forall out,
  Fft.fundamentalFrequency r = Ok f ->
  Fft.frequencies_loop r out idx
  = Ok (fold_left (fun o i => ta_store o i (fl64 (inject_Z i * f))) idx out).
Proof.
  induction idx as [|i rest IH]; intros out Hf; cbn [Fft.frequencies_loop fold_left];
    [reflexivity|].
  rewrite Hf. apply IH. exact Hf.
Qed.

Lemma stores_as_copy (g : Z -> Q) n : forall a out,
  fold_left (fun o i => ta_store o i (g i)) (map Z.of_nat (seq a n)) out
  = fst (ta_copy_from out (Z.of_nat a) (map g (map Z.of_nat (seq a n)))).
Proof.
  induction n as [|n IH]; intros a out; cbn [seq map fold_left ta_copy_from];
    [reflexivity|].
  rewrite IH. rewrite Nat2Z.inj_succ. unfold Z.succ. reflexivity.
Qed.

Lemma ToIndex_half np : 0 <= np -> Qtrunc (inject_Z np / 2 + 1) = np / 2 + 1.
Proof.
  intros Hnp.
  assert (E : (inject_Z np / 2 + 1 == inject_Z (np + 2) / inject_Z 2)%Q).
  { rewrite inject_Z_plus. field. }
  rewrite (Qtrunc_comp _ _ E). unfold Qtrunc.
  assert (Hpos : Qle_bool 0 (inject_Z (np + 2) / inject_Z 2) = true).
  { apply Qle_bool_iff. apply Qle_shift_div_l; [reflexivity|].
    rewrite Qmult_0_l. change 0%Q with (inject_Z 0). rewrite <- Zle_Qle. lia. }
  rewrite Hpos, <- Zdiv_Qdiv.
  replace (np + 2) with (np + 1 * 2) by lia.
  rewrite Z.div_add by lia. reflexivity.
Qed.

Lemma half_rate_exact z k :
  1 <= k <= 53 -> Z.abs z <= 2 ^ 24 ->
  coerce Float32Array
         (fl64 (inject_Z (2 ^ (k - 1)) * fl64 (inject_Z z / inject_Z (2 ^ k))))
  = Qred (inject_Z z / 2)
  /\ fl64 (inject_Z z / 2) = Qred (inject_Z z / 2).
Proof.
  intros Hk Hz.
  assert (Hz53 : Z.abs z <= 2 ^ 53).
  { assert (2 ^ 24 <= 2 ^ 53) by (apply Z.pow_le_mono_r; lia). lia. }
  assert (Hpk : (pow2 (- k) == 1 / inject_Z (2 ^ k))%Q).
  { replace (- k) with (0 - k) by lia. rewrite pow2_sub, (pow2_Z k) by lia.
    reflexivity. }
  assert (Hnz : ~ (inject_Z (2 ^ k) == 0)%Q).
  { intros E. unfold Qeq in E. cbn in E.
    assert (0 < 2 ^ k) by (apply Z.pow_pos_nonneg; lia). lia. }
  assert (E1 : (fl64 (inject_Z z / inject_Z (2 ^ k)) == inject_Z z / inject_Z (2 ^ k))%Q).
  { apply fl64_exact.
    apply (representable_comp 53 (-1074) (inject_Z z * pow2 (- k))).
    - rewrite Hpk. field. exact Hnz.
    - apply representable_dyadic; lia. }
  assert (Hhalf : representable 53 (-1074) (inject_Z z / 2)
                  /\ representable 24 (-149) (inject_Z z / 2)).
  { split; apply (representable_comp _ _ (inject_Z z * pow2 (-1)));
      try (change (pow2 (-1)) with (1 # 2)%Q; field);
      apply representable_dyadic; lia. }
  destruct Hhalf as [H53 H24].
  assert (E2 : (inject_Z (2 ^ (k - 1)) * fl64 (inject_Z z / inject_Z (2 ^ k))
                == inject_Z z / 2)%Q).
  { rewrite E1. rewrite (pow2_double k) by lia. rewrite inject_Z_mult.
    change (inject_Z 2) with 2%Q. field.
    intros E. unfold Qeq in E. cbn in E.
    assert (0 < 2 ^ (k - 1)) by (apply Z.pow_pos_nonneg; lia). lia. }
  assert (E3 : fl64 (inject_Z z / 2) = Qred (inject_Z z / 2)).
  { apply round_binary_eq. apply fl64_exact. exact H53. }
  split; [|exact E3].
  rewrite (fl64_comp _ _ E2), E3. cbn [coerce]. unfold fround.
  transitivity (round_binary 24 (-149) (inject_Z z / 2)).
  - apply round_binary_comp, Qred_correct.
  - apply round_binary_eq. apply round_binary_exact; [lia|exact H24].
Qed.

(** X19.  frequencies() of a result with 0 < numPoints <= 2^53 and a
    sample rate within the range of a single: with a non-zero rate it
    returns the floor(numPoints/2)+1 values i * (sampleRate / numPoints),
    quotient and product rounded to doubles and the stored value to a
    single; with a sample rate of zero it throws.  When numPoints is a
    power of two, as for the output of calcDFT, and the sample rate is a
    whole number of at most 2^24, the value for i = numPoints/2 is
    maxFrequency, which is exactly half the sample rate. *)
Theorem frequencies_from_zero_to_half_the_rate (r : Fft.FFTResult Complex) :
  0 < Fft.numPoints r <= 2 ^ 53 ->
  single_range (Fft.sampleRate r) ->
  (~ (Fft.sampleRate r == 0)%Q ->
   Fft.frequencies r
   = Ok (mkTA Float32Array
           (map (fun i => coerce Float32Array
                            (fl64 (inject_Z i
                                   * fl64 (Fft.sampleRate r / inject_Z (Fft.numPoints r)))))
                (map Z.of_nat (seq 0 (Z.to_nat (Fft.numPoints r / 2 + 1)))))))
  /\ ((Fft.sampleRate r == 0)%Q -> exists e, Fft.frequencies r = Throw e)
  /\ (forall k z,
         1 <= k -> Fft.numPoints r = 2 ^ k ->
         (Fft.sampleRate r == inject_Z z)%Q -> Z.abs z <= 2 ^ 24 ->
         coerce Float32Array
                (fl64 (inject_Z (Fft.numPoints r / 2)
                       * fl64 (Fft.sampleRate r / inject_Z (Fft.numPoints r))))
         = Fft.maxFrequency r
         /\ (Fft.maxFrequency r == Fft.sampleRate r / 2)%Q).
Proof.
  intros Hnp _.
  assert (Hsize : ta_length (Fft.new_Float32Array (inject_Z (Fft.numPoints r) / 2 + 1))
                  = Fft.numPoints r / 2 + 1).
  { unfold Fft.new_Float32Array. rewrite ToIndex_half by lia.
    apply ta_new_length. pose proof (Z.div_pos (Fft.numPoints r) 2). lia. }
  split; [|split].
  - intros Hrate.
    assert (Hf : Fft.fundamentalFrequency r
                 = Ok (fl64 (Fft.sampleRate r / inject_Z (Fft.numPoints r)))).
    { unfold Fft.fundamentalFrequency.
      destruct (Qeq_bool (Fft.sampleRate r) 0) eqn:E; [|reflexivity].
      apply Qeq_bool_iff in E. contradiction. }
    unfold Fft.frequencies. rewrite Hsize.
    rewrite (frequencies_loop_fold r _ _ _ Hf).
    set (g := fun i => fl64 (inject_Z i
                             * fl64 (Fft.sampleRate r / inject_Z (Fft.numPoints r)))).
    rewrite (stores_as_copy g).
    unfold Fft.new_Float32Array. rewrite ToIndex_half by lia. unfold ta_new.
    pose proof (ta_copy_from_fill Float32Array
                  (map g (map Z.of_nat (seq 0 (Z.to_nat (Fft.numPoints r / 2 + 1)))))
                  [] (repeat 0%Q (Z.to_nat (Fft.numPoints r / 2 + 1))) []) as Hfill.
    cbn [app List.length Z.of_nat] in Hfill. rewrite !app_nil_r in Hfill.
    change (Z.of_nat 0) with 0. rewrite Hfill.
    + cbn [fst]. rewrite map_map. reflexivity.
    + rewrite repeat_length, !length_map, length_seq. reflexivity.
  - intros Hrate. unfold Fft.frequencies. rewrite Hsize.
    assert (Hf : exists e, Fft.fundamentalFrequency r = Throw e).
    { unfold Fft.fundamentalFrequency. apply Qeq_bool_iff in Hrate. rewrite Hrate.
      eexists. reflexivity. }
    destruct Hf as [e Hf].
    destruct (Z.to_nat (Fft.numPoints r / 2 + 1)) as [|n] eqn:En.
    + pose proof (Z.div_pos (Fft.numPoints r) 2). lia.
    + cbn [seq map Fft.frequencies_loop]. rewrite Hf. eexists. reflexivity.
  - intros k z Hk Hpow Hz Hb.
    assert (Hk53 : k <= 53).
    { apply (Z.pow_le_mono_r_iff 2); [lia|lia|]. rewrite <- Hpow. lia. }
    destruct (half_rate_exact z k ltac:(lia) Hb) as [A B].
    assert (Hhalf : Fft.numPoints r / 2 = 2 ^ (k - 1)).
    { rewrite Hpow, (pow2_double k Hk), Z.mul_comm, Z.div_mul by lia. reflexivity. }
    assert (Ef : fl64 (Fft.sampleRate r / inject_Z (Fft.numPoints r))
                 = fl64 (inject_Z z / inject_Z (2 ^ k))).
    { apply fl64_comp. rewrite Hz, Hpow. reflexivity. }
    assert (Em : Fft.maxFrequency r = Qred (inject_Z z / 2)).
    { unfold Fft.maxFrequency. rewrite <- B. apply fl64_comp. rewrite Hz. reflexivity. }
    split.
    + rewrite Hhalf, Ef, A, Em. reflexivity.
    + rewrite Em, Qred_correct, Hz. reflexivity.
Qed.

End FftResult.

Lemma createFromComplex_has_complex_length_witness :
  let createComplex := fun (re im : option Q) => (re, im) in
  let part := fun (x : option Q) => match x with Some v => v | None => 0%Q end in
  let real := fun (c : option Q * option Q) => part (fst c) in
  let imag := fun (c : option Q * option Q) => part (snd c) in
  let r := Fft.createFromPackedFreq createComplex real imag
             (mkTA Float32Array (repeat 1%Q 16)) 10 20 in
  Fft.numPoints r = 16
  /\ exists r',
      Fft.createFromComplex createComplex real imag real imag (Fft.complex r) 10 20 = Ok r'
      /\ Fft.numPoints r' = 9
      /\ exists e, Fft.fftInverse copy_transform r' = Throw e.
Proof.
  intros createComplex part real imag r.
  destruct (proj2 (createFromComplex_has_complex_length copy_transform
                     _ createComplex real imag real imag)
              (mkTA Float32Array (repeat 1%Q 16)) 10 20%Q 4 ltac:(lia) eq_refl)
    as [Hn [_ [r' [Hr' [Hn' He]]]]].
  split; [exact Hn|]. exists r'. split; [exact Hr'|]. split; [exact Hn'|exact He].
Defined.

Lemma frequencies_from_zero_to_half_the_rate_witness :
  let r : Fft.FFTResult unit :=
    Fft.mkFFTResult 3 20 (mkTA Float32Array (repeat 1%Q 4)) []
                    (mkTA Float32Array []) (mkTA Float32Array []) 4 in
  Fft.frequencies r = Ok (mkTA Float32Array [0; 5; 10]%Q).
Proof.
  intros r.
  assert (Hn : 0 < Fft.numPoints r <= 2 ^ 53) by (split; vm_compute; [reflexivity|discriminate]).
  assert (Hs : single_range (Fft.sampleRate r)) by (vm_compute; reflexivity).
  rewrite (proj1 (frequencies_from_zero_to_half_the_rate unit r Hn Hs)).
  - vm_compute. reflexivity.
  - intros E. vm_compute in E. discriminate.
Defined.

(** ** DataLink packets *)

Section DataLinkPackets.

Lemma setUint8_at pre x r v :
  DataLink.setUint8 (Z.of_nat (List.length pre)) v (pre ++ x :: r)
  = (Ok tt, pre ++ (v mod 256) :: r).
Proof.
  unfold DataLink.setUint8.
  replace ((0 <=? Z.of_nat (List.length pre))
           && (Z.of_nat (List.length pre) <? Z.of_nat (List.length (pre ++ x :: r))))
    with true.
  - rewrite Nat2Z.id, list_set_app. reflexivity.
  - symmetry. apply andb_true_iff. split; [apply Z.leb_le; lia|].
    apply Z.ltb_lt. rewrite length_app. cbn [List.length]. lia.
Qed.

Lemma write_codes_fill codes : forall pre zs post,
  List.length zs = List.length codes ->
  Forall (fun c => 0 <= c < 256) codes ->
  DataLink.write_codes (Z.of_nat (List.length pre)) codes (pre ++ zs ++ post)
  = (Ok (Z.of_nat (List.length pre + List.length codes)), pre ++ codes ++ post).
Proof.
  induction codes as [|c r IH]; intros pre zs post Hlen Hb.
  - destruct zs; [|discriminate]. cbn. rewrite Nat.add_0_r. reflexivity.
  - destruct zs as [|z zs]; [discriminate|]. inv Hb.
    cbn [DataLink.write_codes]. unfold bind.
    cbn [app]. rewrite setUint8_at, Z.mod_small by assumption.
    specialize (IH (pre ++ [c]) zs post ltac:(cbn in Hlen; lia) H2).
    rewrite length_app in IH. cbn [List.length] in IH.
    replace (Z.of_nat (List.length pre) + 1) with (Z.of_nat (List.length pre + 1)) by lia.
    rewrite <- !app_assoc in IH. cbn [app] in IH. rewrite IH.
    cbn [List.length]. do 2 f_equal. lia.
Qed.

Lemma char_codes_length s : List.length (DataLink.char_codes s) = String.length s.
Proof.
  unfold DataLink.char_codes. rewrite length_map.
  induction s as [|c s IH]; cbn; [reflexivity|]. rewrite IH. reflexivity.
Qed.

Lemma char_codes_bytes s : Forall (fun c => 0 <= c < 256) (DataLink.char_codes s).
Proof.
  unfold DataLink.char_codes. apply Forall_map, Forall_forall. intros c _.
  pose proof (nat_ascii_bounded c). lia.
Qed.

Lemma char_codes_app s1 s2 :
  DataLink.char_codes (s1 ++ s2) = DataLink.char_codes s1 ++ DataLink.char_codes s2.
Proof.
  unfold DataLink.char_codes. rewrite <- map_app. f_equal.
  induction s1 as [|c s IH]; cbn; [reflexivity|]. rewrite IH. reflexivity.
Qed.

Lemma string_length_app s1 s2 :
  String.length (s1 ++ s2) = (String.length s1 + String.length s2)%nat.
Proof. induction s1 as [|c s IH]; cbn; [reflexivity|]. rewrite IH. reflexivity. Qed.

Lemma set_at_end pre data :
  DataLink.set_at data (Z.of_nat (List.length pre))
                  (pre ++ repeat 0 (List.length data))
  = (Ok tt, pre ++ data).
Proof.
  unfold DataLink.set_at.
  replace ((0 <=? Z.of_nat (List.length pre))
           && (Z.of_nat (List.length pre) + Z.of_nat (List.length data)
               <=? Z.of_nat (List.length (pre ++ repeat 0 (List.length data)))))
    with true.
  - rewrite Nat2Z.id, firstn_app, Nat.sub_diag, firstn_all. cbn [firstn].
    rewrite app_nil_r, skipn_all2; [rewrite app_nil_r; reflexivity|].
    rewrite length_app, repeat_length. lia.
  - symmetry. apply andb_true_iff. split; [apply Z.leb_le; lia|].
    apply Z.leb_le. rewrite length_app, repeat_length. lia.
Qed.

Lemma header_bytes {A} (m : M (list Z) A) h rest :
  bind (DataLink.setUint8 0 68)
       (fun _ => bind (DataLink.setUint8 1 76)
                      (fun _ => bind (DataLink.setUint8 2 h) (fun _ => m)))
       (0 :: 0 :: 0 :: rest)
  = m (68 :: 76 :: h mod 256 :: rest).
Proof.
  unfold bind.
  replace (DataLink.setUint8 0 68 (0 :: 0 :: 0 :: rest))
    with (@Ok unit tt, 68 :: 0 :: 0 :: rest)
    by (symmetry; exact (setUint8_at [] 0 (0 :: 0 :: rest) 68)).
  replace (DataLink.setUint8 1 76 (68 :: 0 :: 0 :: rest))
    with (@Ok unit tt, 68 :: 76 :: 0 :: rest)
    by (symmetry; exact (setUint8_at [68] 0 (0 :: rest) 76)).
  replace (DataLink.setUint8 2 h (68 :: 76 :: 0 :: rest))
    with (@Ok unit tt, 68 :: 76 :: h mod 256 :: rest)
    by (symmetry; exact (setUint8_at [68; 76] 0 rest h)).
  reflexivity.
Qed.

Lemma write_command {A} (k : Z -> M (list Z) A) h command post :
  bind (DataLink.write_codes 3 (DataLink.char_codes command)) k
       (68 :: 76 :: h :: repeat 0 (String.length command) ++ post)
  = k (3 + Z.of_nat (String.length command))
      ([68; 76; h] ++ DataLink.char_codes command ++ post).
Proof.
  unfold bind.
  pose proof (write_codes_fill (DataLink.char_codes command) [68; 76; h]
                (repeat 0 (String.length command)) post) as H.
  rewrite char_codes_length in H.
  change (Z.of_nat (List.length [68; 76; h])) with 3 in H.
  change ([68; 76; h] ++ repeat 0 (String.length command) ++ post)
    with (68 :: 76 :: h :: repeat 0 (String.length command) ++ post) in H.
  rewrite H; [|apply repeat_length|apply char_codes_bytes].
  f_equal. cbn [List.length]. lia.
Qed.

Lemma encodeDL_value command data :
  DataLink.encodeDL command data
  = Ok ([68; 76; Z.of_nat (String.length (header_text command data)) mod 256]
        ++ DataLink.char_codes (header_text command data) ++ payload data).
Proof.
  unfold DataLink.encodeDL, header_text, payload.
  destruct data as [[|b d]|].
  - change (0 <? List.length (@nil Z))%nat with false. cbv iota zeta.
    replace (Z.to_nat (3 + Z.of_nat (String.length command)))
      with (3 + String.length command)%nat by lia.
    cbn [repeat Nat.add]. rewrite header_bytes.
    rewrite <- (app_nil_r (repeat 0 (String.length command))).
    rewrite write_command. unfold ret. rewrite !app_nil_r. reflexivity.
  - set (dd := b :: d).
    set (lenStr := DataLink.String_of (List.length dd)).
    change (0 <? List.length dd)%nat with true. cbv iota zeta.
    replace (Z.to_nat (3 + Z.of_nat (String.length command)
                       + (Z.of_nat (String.length lenStr) + 1)
                       + Z.of_nat (List.length dd)))
      with (3 + (String.length command
                 + (1 + (String.length lenStr + List.length dd))))%nat by lia.
    cbn [repeat Nat.add]. rewrite repeat_app. cbn [repeat]. rewrite repeat_app.
    rewrite header_bytes.
    set (h := (Z.of_nat (String.length command) + (Z.of_nat (String.length lenStr) + 1))
                mod 256).
    rewrite write_command.
    set (pre1 := [68; 76; h] ++ DataLink.char_codes command).
    assert (Hlen1 : 3 + Z.of_nat (String.length command) = Z.of_nat (List.length pre1)).
    { unfold pre1. rewrite length_app, char_codes_length. cbn [List.length]. lia. }
    rewrite Hlen1. unfold bind.
    rewrite app_assoc. fold pre1. cbn [repeat app].
    rewrite setUint8_at.
    replace (Z.of_nat (List.length pre1) + 1)
      with (Z.of_nat (List.length (pre1 ++ [32 mod 256])))
      by (rewrite length_app; cbn [List.length]; lia).
    replace (pre1 ++ 32 mod 256 :: repeat 0 (String.length lenStr)
                  ++ repeat 0 (List.length dd))
      with ((pre1 ++ [32 mod 256]) ++ repeat 0 (String.length lenStr)
                                   ++ repeat 0 (List.length dd))
      by (rewrite <- app_assoc; reflexivity).
    rewrite (write_codes_fill (DataLink.char_codes lenStr));
      [|rewrite repeat_length, char_codes_length; reflexivity|apply char_codes_bytes].
    rewrite <- length_app, app_assoc, set_at_end.
    f_equal. unfold pre1, h.
    rewrite !char_codes_app, !string_length_app. cbn [String.length].
    rewrite <- !app_assoc. cbn [app].
    change (DataLink.char_codes " ") with [32].
    change (32 mod 256) with 32.
    cbn [app]. do 3 f_equal. f_equal. lia.
  - cbv iota zeta.
    replace (Z.to_nat (3 + Z.of_nat (String.length command)))
      with (3 + String.length command)%nat by lia.
    cbn [repeat Nat.add]. rewrite header_bytes.
    rewrite <- (app_nil_r (repeat 0 (String.length command))).
    rewrite write_command. unfold ret. rewrite !app_nil_r. reflexivity.
Qed.

End DataLinkPackets.

Section DataLinkLayout.

(** X20.  encodeDL never throws and returns the bytes 'D', 'L', the length
    of the header modulo 256, the characters of the header and the
    data.  The header is the command, followed, when there is data, by a
    space and the decimal length of the data. *)
Theorem encodeDL_layout command data :
  DataLink.encodeDL command data
  = Ok ([68; 76; Z.of_nat (String.length (header_text command data)) mod 256]
        ++ DataLink.char_codes (header_text command data) ++ payload data).
Proof. exact (encodeDL_value command data). Qed.

Variable dataViewToString : list Z -> string.
Hypothesis dataViewToString_codes :
  forall s, dataViewToString (DataLink.char_codes s) = s.

Lemma handle_encoded command data c :
  DataLink.handle dataViewToString
    ([68; 76; Z.of_nat (String.length (header_text command data)) mod 256]
     ++ DataLink.char_codes (header_text command data) ++ payload data) c
  = let n := Z.to_nat (Z.of_nat (String.length (header_text command data)) mod 256) in
    let header :=
      dataViewToString (firstn n (DataLink.char_codes (header_text command data)
                                  ++ payload data)) in
    let rest := skipn n (DataLink.char_codes (header_text command data) ++ payload data) in
    if String.prefix DataLink.PACKET header then
      if DataLink.packetHandler c then Ok [DataLink.ToPacketHandler header rest]
      else if DataLink.errorHandler c
           then Ok [DataLink.ToErrorHandler "packetHandler not defined"]
           else Throw "TypeError"
    else if String.prefix DataLink.ERROR header || String.prefix "OK" header then
      if String.prefix DataLink.ERROR header
      then Ok (DataLink.handleError (nth_error (DataLink.split_spaces header) 1)
                                    (dataViewToString rest) c)
      else if DataLink.responseResolve c
           then Ok [DataLink.Resolve (header ++ " | " ++ dataViewToString rest)]
           else Ok []
    else if DataLink.responseResolve c then Ok [DataLink.Resolve header]
    else Ok [DataLink.Unhandled header].
Proof.
  set (h := header_text command data).
  set (body := DataLink.char_codes h ++ payload data).
  assert (Hmod : (Z.to_nat (Z.of_nat (String.length h) mod 256) <= List.length body)%nat).
  { unfold body. rewrite length_app, char_codes_length.
    pose proof (Z.mod_le (Z.of_nat (String.length h)) 256).
    pose proof (Z.mod_pos_bound (Z.of_nat (String.length h)) 256). lia. }
  unfold DataLink.handle. cbn [app List.length nth Nat.ltb Nat.leb Z.eqb Pos.eqb andb].
  fold body.
  cbn [Nat.add skipn firstn].
  destruct (Z.to_nat (Z.of_nat (String.length h) mod 256)) as [|m'] eqn:Em;
    [reflexivity|].
  replace (List.length body <=? m')%nat with false; [reflexivity|].
  symmetry. apply Nat.leb_gt. lia.
Qed.

(** X21.  handle reads back what encodeDL writes.  For a packet built by
    encodeDL whose header has at most 255 characters and starts with
    none of PACKET, ERROR and OK, handle passes that header to
    responseResolve, or to the default handler when no response is
    awaited.  For a header of 256 characters the length byte is 0 and
    handle reads an empty header. *)
Theorem handle_reads_what_encodeDL_writes command data c :
  let header := header_text command data in
  String.prefix DataLink.PACKET header = false ->
  String.prefix DataLink.ERROR header = false ->
  String.prefix "OK" header = false ->
  exists raw,
    DataLink.encodeDL command data = Ok raw
    /\ ((String.length header <= 255)%nat ->
        DataLink.handle dataViewToString raw c
        = Ok [if DataLink.responseResolve c
              then DataLink.Resolve header else DataLink.Unhandled header])
    /\ (String.length header = 256%nat ->
        DataLink.handle dataViewToString raw c
        = Ok [if DataLink.responseResolve c
              then DataLink.Resolve EmptyString else DataLink.Unhandled EmptyString]).
Proof.
  intros header Hp He Ho. eexists. split; [apply encodeDL_value|].
  rewrite (handle_encoded command data c). fold header. cbv zeta. split.
  - intros Hlen.
    rewrite Z.mod_small, Nat2Z.id by lia.
    rewrite <- (char_codes_length header), firstn_app, Nat.sub_diag, firstn_all.
    cbn [firstn]. rewrite app_nil_r, dataViewToString_codes, Hp, He, Ho.
    cbn [orb]. destruct (DataLink.responseResolve c); reflexivity.
  - intros Hlen.
    rewrite Hlen. change (Z.to_nat (Z.of_nat 256 mod 256)) with O.
    cbn [firstn]. change (@nil Z) with (DataLink.char_codes EmptyString).
    rewrite dataViewToString_codes.
    cbn [String.prefix DataLink.PACKET DataLink.ERROR orb].
    destruct (DataLink.responseResolve c); reflexivity.
Qed.

End DataLinkLayout.

Lemma bytes_to_string_codes s : bytes_to_string (DataLink.char_codes s) = s.
Proof.
  unfold bytes_to_string, DataLink.char_codes. rewrite map_map.
  rewrite <- (string_of_list_ascii_of_string s) at 2. f_equal.
  rewrite <- (map_id (list_ascii_of_string s)) at 2. apply map_ext.
  intros a. rewrite Nat2Z.id. apply ascii_nat_embedding.
Qed.

Lemma handle_reads_what_encodeDL_writes_witness :
  exists raw,
    DataLink.encodeDL "WRITE x" (Some [7; 8; 9]) = Ok raw
    /\ raw = [68; 76; 9; 87; 82; 73; 84; 69; 32; 120; 32; 51; 7; 8; 9]
    /\ DataLink.handle bytes_to_string raw (DataLink.new true true)
       = Ok [DataLink.Unhandled "WRITE x 3"].
Proof.
  destruct (handle_reads_what_encodeDL_writes bytes_to_string bytes_to_string_codes
              "WRITE x" (Some [7; 8; 9]) (DataLink.new true true)
              eq_refl eq_refl eq_refl) as [raw [Hraw [Hshort _]]].
  exists raw. split; [exact Hraw|]. split.
  - vm_compute in Hraw. inv Hraw. reflexivity.
  - apply Hshort. vm_compute. lia.
Defined.

(** ** DataLink times *)

Section HPTime.

Lemma Qtrunc_thousandth h : Qtrunc (inject_Z h / 1000) = Z.quot h 1000.
Proof.
  unfold Qtrunc. change 1000%Q with (inject_Z 1000).
  destruct (Z.le_gt_cases 0 h) as [Hpos|Hneg].
  - replace (Qle_bool 0 (inject_Z h / inject_Z 1000)) with true.
    + rewrite <- Zdiv_Qdiv. symmetry. apply Z.quot_div_nonneg; lia.
    + symmetry. apply Qle_bool_iff. apply Qle_shift_div_l; [reflexivity|].
      rewrite Qmult_0_l. change 0%Q with (inject_Z 0). rewrite <- Zle_Qle. exact Hpos.
  - replace (Qle_bool 0 (inject_Z h / inject_Z 1000)) with false.
    + unfold Qceiling.
      assert (E : (- (inject_Z h / inject_Z 1000) == inject_Z (- h) / inject_Z 1000)%Q).
      { rewrite inject_Z_opp. field. }
      rewrite (Qfloor_comp _ _ E), <- Zdiv_Qdiv.
      rewrite <- (Z.quot_div_nonneg (- h) 1000) by lia.
      rewrite Z.quot_opp_l by lia. lia.
    + symmetry. apply not_true_is_false. intros H. apply Qle_bool_iff in H.
      apply (Qmult_le_compat_r _ _ (inject_Z 1000)) in H; [|discriminate].
      rewrite Qmult_0_l in H.
      assert (E : (inject_Z h / inject_Z 1000 * inject_Z 1000 == inject_Z h)%Q) by field.
      rewrite E in H. change 0%Q with (inject_Z 0) in H. rewrite <- Zle_Qle in H. lia.
Qed.

Lemma Qtrunc_opp x : Qtrunc (- x) = - Qtrunc x.
Proof.
  unfold Qtrunc, Qceiling.
  destruct (Qle_bool 0 x) eqn:A; destruct (Qle_bool 0 (- x)) eqn:B;
    rewrite ?Qopp_opp_eq; try lia.
  - apply Qle_bool_iff in A, B.
    assert (E : (x == 0)%Q) by lra.
    rewrite (Qfloor_comp _ _ E).
    assert (E' : (- x == 0)%Q) by lra.
    rewrite (Qfloor_comp _ _ E'). reflexivity.
  - exfalso.
    assert (A' : ~ (0 <= x)%Q) by (rewrite <- Qle_bool_iff, A; discriminate).
    assert (B' : ~ (0 <= - x)%Q) by (rewrite <- Qle_bool_iff, B; discriminate).
    lra.
Qed.

(** Dividing a whole number of microseconds by 1000 in doubles and
    dropping the fraction gives the whole quotient. *)
Lemma Qtrunc_fl64_thousandth h :
  2 * Z.abs h + 4000 <= 2 ^ 53 ->
  Qtrunc (fl64 (inject_Z h / 1000)) = Z.quot h 1000.
Proof.
  assert (Hpos : forall a, 0 <= a -> 2 * a + 4000 <= 2 ^ 53 ->
                           Qtrunc (fl64 (inject_Z a / 1000)) = Z.quot a 1000).
  { intros a Ha Hb. unfold Qtrunc.
    replace (Qle_bool 0 (fl64 (inject_Z a / 1000))) with true.
    - change 1000%Q with (inject_Z 1000).
      rewrite Qfloor_fl64_div by lia. symmetry. apply Z.quot_div_nonneg; lia.
    - symmetry. apply Qle_bool_iff.
      change 0%Q with (inject_Z 0). rewrite <- (fl64_Z 0) by (cbn; lia).
      apply fl64_monotone. apply Qle_shift_div_l; [reflexivity|].
      rewrite Qmult_0_l. change 0%Q with (inject_Z 0). rewrite <- Zle_Qle. exact Ha. }
  intros Hb. destruct (Z.le_gt_cases 0 h) as [Hh|Hh].
  - apply Hpos; lia.
  - assert (E : (inject_Z h / 1000 == - (inject_Z (- h) / 1000))%Q).
    { rewrite inject_Z_opp. field. }
    rewrite (fl64_comp _ _ E), fl64_opp, Qtrunc_opp, Hpos by lia.
    rewrite Z.quot_opp_l by lia. lia.
Qed.

Lemma momentToHPTime_whole m :
  Z.abs m * 1000 <= 2 ^ 53 -> DataLink.momentToHPTime m = inject_Z (m * 1000).
Proof.
  intros Hm. unfold DataLink.momentToHPTime.
  rewrite <- (fl64_Z (m * 1000)) by lia.
  apply fl64_comp. rewrite inject_Z_mult. reflexivity.
Qed.

(** X22.  For a time m of at most 2^53/1000 milliseconds from 1970 on
    either side (until the year 2255), hpTimeToMoment(momentToHPTime(m))
    is m.  In the other direction a whole number h of microseconds with
    2|h| + 4000 <= 2^53 comes back truncated toward zero to a multiple
    of 1000, and comes back unchanged exactly when it is a multiple of
    1000.  Beyond the first bound the product is rounded: the time
    100000000000001 ms comes back as 100000000000000 ms. *)
Theorem hpTime_round_trip :
  (forall m, Z.abs m * 1000 <= 2 ^ 53 ->
             DataLink.hpTimeToMoment (DataLink.momentToHPTime m) = m)
  /\ (forall h : Z,
         2 * Z.abs h + 4000 <= 2 ^ 53 ->
         DataLink.momentToHPTime (DataLink.hpTimeToMoment (inject_Z h))
         = inject_Z (h - Z.rem h 1000)
         /\ (DataLink.momentToHPTime (DataLink.hpTimeToMoment (inject_Z h)) = inject_Z h
             <-> Z.rem h 1000 = 0))
  /\ DataLink.hpTimeToMoment (DataLink.momentToHPTime 100000000000001)
     = 100000000000000.
Proof.
  assert (Hback : forall h : Z,
             2 * Z.abs h + 4000 <= 2 ^ 53 ->
             DataLink.momentToHPTime (DataLink.hpTimeToMoment (inject_Z h))
             = inject_Z (h - Z.rem h 1000)).
  { intros h Hb. unfold DataLink.hpTimeToMoment.
    rewrite Qtrunc_fl64_thousandth by exact Hb.
    pose proof (Z.quot_rem' h 1000) as Hq.
    pose proof (Z.rem_bound_abs h 1000 ltac:(lia)) as Hr.
    assert (Hs : Z.abs (Z.quot h 1000) * 1000 <= Z.abs h).
    { destruct (Z.le_gt_cases 0 h) as [Hh|Hh].
      - pose proof (Z.quot_pos h 1000 Hh ltac:(lia)).
        pose proof (Z.mul_quot_le h 1000 Hh ltac:(lia)). lia.
      - pose proof (Z.quot_opp_l h 1000 ltac:(lia)) as Ho.
        pose proof (Z.quot_pos (- h) 1000 ltac:(lia) ltac:(lia)).
        pose proof (Z.mul_quot_le (- h) 1000 ltac:(lia) ltac:(lia)). lia. }
    rewrite momentToHPTime_whole by lia. f_equal. lia. }
  split; [|split].
  - intros m Hm. rewrite (momentToHPTime_whole m Hm).
    unfold DataLink.hpTimeToMoment.
    assert (E : (inject_Z (m * 1000) / 1000 == inject_Z m)%Q).
    { rewrite inject_Z_mult. change (inject_Z 1000) with 1000%Q. field. }
    rewrite (fl64_comp _ _ E). apply Qtrunc_fl64_Z. lia.
  - intros h Hb. split; [exact (Hback h Hb)|].
    rewrite (Hback h Hb). split.
    + intros E. injection E. lia.
    + intros E. rewrite E. f_equal. lia.
  - vm_compute. reflexivity.
Qed.

Lemma hpTime_round_trip_witness :
  DataLink.hpTimeToMoment (DataLink.momentToHPTime 1600000000123) = 1600000000123
  /\ DataLink.momentToHPTime (DataLink.hpTimeToMoment 1600000000123456)
     = 1600000000123000%Q.
Proof.
  split.
  - apply (proj1 hpTime_round_trip). vm_compute. discriminate.
  - apply (proj1 (proj1 (proj2 hpTime_round_trip) 1600000000123456
                    ltac:(vm_compute; discriminate))).
Defined.

End HPTime.

(** ** DataLink connection modes *)

Section ConnectionModes.

Lemma sendDLCommand_socket command c raw :
  DataLink.webSocket c = DataLink.Socket ->
  DataLink.readyState c = DataLink.OPEN ->
  DataLink.encodeDL command None = Ok raw ->
  DataLink.sendDLCommand command (Some EmptyString) c
  = (Ok tt, DataLink.with_sent (DataLink.sent c ++ [raw]) c).
Proof.
  intros Hs Hr He.
  unfold DataLink.sendDLCommand, DataLink.sendDLBinary, bind, lift, gets, modify.
  cbn [DataLink.stringToUint8Array]. rewrite He, Hs, Hr. reflexivity.
Qed.

Lemma sendDLCommand_connecting command c :
  DataLink.webSocket c = DataLink.Socket ->
  DataLink.readyState c = DataLink.CONNECTING ->
  DataLink.sendDLCommand command (Some EmptyString) c = (Throw "InvalidStateError", c).
Proof.
  intros Hs Hr.
  unfold DataLink.sendDLCommand, DataLink.sendDLBinary, bind, lift, gets, throw.
  cbn [DataLink.stringToUint8Array]. rewrite encodeDL_value, Hs, Hr. reflexivity.
Qed.

Lemma sendDLCommand_no_socket command c :
  DataLink.webSocket c <> DataLink.Socket ->
  DataLink.sendDLCommand command (Some EmptyString) c
  = (Throw "WebSocket has been closed.", c).
Proof.
  intros Hs.
  unfold DataLink.sendDLCommand, DataLink.sendDLBinary, bind, lift, gets, throw.
  cbn [DataLink.stringToUint8Array]. rewrite encodeDL_value.
  destruct (DataLink.webSocket c); [reflexivity|reflexivity|congruence].
Qed.

Lemma stream_packet_encoded : DataLink.encodeDL DataLink.STREAM None = Ok stream_packet.
Proof. rewrite encodeDL_value. reflexivity. Qed.

Lemma endstream_packet_encoded :
  DataLink.encodeDL DataLink.ENDSTREAM None = Ok endstream_packet.
Proof. rewrite encodeDL_value. reflexivity. Qed.

Lemma stream_noop c :
  DataLink.mode_is DataLink.STREAM_MODE c = true -> DataLink.stream c = (Ok tt, c).
Proof.
  intros H. unfold DataLink.stream, bind, gets. rewrite H. reflexivity.
Qed.

Lemma stream_sends c :
  DataLink.webSocket c = DataLink.Socket ->
  DataLink.readyState c = DataLink.OPEN ->
  DataLink.mode_is DataLink.STREAM_MODE c = false ->
  DataLink.stream c
  = (Ok tt, DataLink.with_sent (DataLink.sent c ++ [stream_packet])
              (DataLink.with_mode (Some DataLink.STREAM_MODE) c)).
Proof.
  intros Hs Hr Hm. unfold DataLink.stream, bind, gets, modify. rewrite Hm.
  rewrite (sendDLCommand_socket _ _ stream_packet); [reflexivity|exact Hs|exact Hr|].
  exact stream_packet_encoded.
Qed.

Lemma endStream_noop c :
  DataLink.mode c = Some DataLink.QUERY_MODE \/ DataLink.mode c = None
  \/ DataLink.webSocket c = DataLink.Null ->
  DataLink.endStream c = (Ok tt, c).
Proof.
  intros H. unfold DataLink.endStream, bind, gets.
  destruct (DataLink.webSocket c) eqn:Hs; destruct (DataLink.mode c) as [m|] eqn:Hm;
    try reflexivity;
    destruct H as [H|[H|H]]; try discriminate; inv H; reflexivity.
Qed.

Lemma endStream_sends c :
  DataLink.webSocket c = DataLink.Socket ->
  DataLink.readyState c = DataLink.OPEN ->
  DataLink.mode c = Some DataLink.STREAM_MODE ->
  DataLink.endStream c
  = (Ok tt, DataLink.with_sent (DataLink.sent c ++ [endstream_packet])
              (DataLink.with_mode (Some DataLink.QUERY_MODE) c)).
Proof.
  intros Hs Hr Hm. unfold DataLink.endStream, bind, gets, modify. rewrite Hs, Hm.
  cbn [String.eqb DataLink.STREAM_MODE DataLink.QUERY_MODE Ascii.eqb Bool.eqb andb].
  rewrite (sendDLCommand_socket _ _ endstream_packet); [reflexivity|exact Hs|exact Hr|].
  exact endstream_packet_encoded.
Qed.

Lemma run_stream_op_step op c :
  DataLink.webSocket c = DataLink.Socket ->
  DataLink.readyState c = DataLink.OPEN ->
  DataLink.mode c = Some DataLink.QUERY_MODE \/ DataLink.mode c = Some DataLink.STREAM_MODE ->
  run_stream_op op c = (Ok tt, c)
  \/ run_stream_op op c
     = (Ok tt,
        DataLink.with_sent
          (DataLink.sent c
           ++ [if DataLink.mode_is DataLink.STREAM_MODE c
               then endstream_packet else stream_packet])
          (DataLink.with_mode
             (Some (if DataLink.mode_is DataLink.STREAM_MODE c
                    then DataLink.QUERY_MODE else DataLink.STREAM_MODE)) c)).
Proof.
  intros Hs Hr Hm. destruct op; cbn [run_stream_op].
  - destruct Hm as [Hm|Hm].
    + right. rewrite stream_sends;
        [|exact Hs|exact Hr|unfold DataLink.mode_is; rewrite Hm; reflexivity].
      unfold DataLink.mode_is. rewrite Hm. reflexivity.
    + left. apply stream_noop. unfold DataLink.mode_is. rewrite Hm. reflexivity.
  - destruct Hm as [Hm|Hm].
    + left. apply endStream_noop. left. exact Hm.
    + right. rewrite endStream_sends by assumption.
      unfold DataLink.mode_is. rewrite Hm. reflexivity.
Qed.

Lemma run_stream_ops_alternate ops : forall c,
  DataLink.webSocket c = DataLink.Socket ->
  DataLink.readyState c = DataLink.OPEN ->
  DataLink.mode c = Some DataLink.QUERY_MODE \/ DataLink.mode c = Some DataLink.STREAM_MODE ->
  exists n c',
    run_stream_ops ops c = (Ok tt, c')
    /\ (n <= List.length ops)%nat
    /\ DataLink.sent c'
       = DataLink.sent c ++ alternating (DataLink.mode_is DataLink.STREAM_MODE c) n
    /\ DataLink.webSocket c' = DataLink.Socket
    /\ DataLink.mode c'
       = Some (if xorb (DataLink.mode_is DataLink.STREAM_MODE c) (Nat.odd n)
               then DataLink.STREAM_MODE else DataLink.QUERY_MODE)
    /\ DataLink.closes c' = DataLink.closes c.
Proof.
  induction ops as [|op r IH]; intros c Hs Hr Hm.
  - exists O, c. cbn [run_stream_ops List.length alternating Nat.odd].
    rewrite app_nil_r, xorb_false_r.
    split; [reflexivity|]. split; [lia|]. split; [reflexivity|].
    split; [exact Hs|]. split; [|reflexivity].
    destruct Hm as [Hm|Hm]; unfold DataLink.mode_is; rewrite Hm; reflexivity.
  - cbn [run_stream_ops]. unfold bind.
    destruct (run_stream_op_step op c Hs Hr Hm) as [Hstep|Hstep]; rewrite Hstep.
    + destruct (IH c Hs Hr Hm) as [n [c' [Hrun [Hn [Hsent [Hs' [Hm' Hc']]]]]]].
      exists n, c'. repeat split; try assumption. cbn [List.length]. lia.
    + set (c1 := DataLink.with_sent _ _).
      assert (Hflip : DataLink.mode_is DataLink.STREAM_MODE c1
                      = negb (DataLink.mode_is DataLink.STREAM_MODE c)).
      { unfold c1, DataLink.mode_is. cbn [DataLink.mode DataLink.with_sent DataLink.with_mode].
        destruct Hm as [Hm|Hm]; rewrite Hm; reflexivity. }
      destruct (IH c1) as [n [c' [Hrun [Hn [Hsent [Hs' [Hm' Hc']]]]]]].
      { exact Hs. }
      { exact Hr. }
      { unfold c1. cbn [DataLink.mode DataLink.with_sent DataLink.with_mode].
        destruct (DataLink.mode_is DataLink.STREAM_MODE c); [left|right]; reflexivity. }
      exists (S n), c'. split; [exact Hrun|]. split; [cbn [List.length]; lia|].
      split.
      { rewrite Hsent, Hflip. unfold c1. cbn [DataLink.sent DataLink.with_sent alternating].
        rewrite <- app_assoc. reflexivity. }
      split; [exact Hs'|]. split; [|exact Hc'].
      rewrite Hm', Hflip, Nat.odd_succ, <- Nat.negb_odd.
      destruct (DataLink.mode_is DataLink.STREAM_MODE c), (Nat.odd n); reflexivity.
Qed.

Lemma close_connected c :
  DataLink.webSocket c = DataLink.Socket ->
  DataLink.readyState c = DataLink.OPEN ->
  DataLink.mode c = Some DataLink.QUERY_MODE \/ DataLink.mode c = Some DataLink.STREAM_MODE ->
  DataLink.close c
  = (Ok tt,
     DataLink.mkConnection None (DataLink.packetHandler c) (DataLink.errorHandler c)
       (DataLink.responseResolve c) (DataLink.responseReject c) DataLink.Null
       (DataLink.sent c
        ++ (if DataLink.mode_is DataLink.STREAM_MODE c then [endstream_packet] else []))
       (S (DataLink.closes c)) DataLink.CLOSING).
Proof.
  intros Hs Hr Hm. unfold DataLink.close, bind, gets. rewrite Hs.
  destruct Hm as [Hm|Hm].
  - rewrite endStream_noop by (left; exact Hm). rewrite Hs.
    unfold modify, DataLink.mode_is, DataLink.close_socket. rewrite Hm.
    cbn. rewrite app_nil_r, Hr. reflexivity.
  - rewrite endStream_sends by assumption.
    cbn [DataLink.webSocket DataLink.with_sent DataLink.with_mode]. rewrite Hs.
    unfold modify, DataLink.mode_is, DataLink.close_socket. rewrite Hm.
    cbn. rewrite Hr. reflexivity.
Qed.

(** X23.  On a connection whose socket is open, in QUERY or STREAM mode,
    every sequence of stream() and endStream() calls returns without
    throwing, sends at most one packet per call, and the packets sent
    are STREAM and ENDSTREAM in strict alternation, starting with the
    one that leaves the current mode; the mode afterwards follows the
    number of packets sent.  close() sends ENDSTREAM exactly when
    streaming, closes the socket once and leaves webSocket and mode
    null; after it isConnected() is false, close() and endStream() do
    nothing and stream() throws without sending.  While the socket that
    connect() stored is still connecting, stream() in QUERY mode sets
    the mode to STREAM and then throws the InvalidStateError of
    WebSocket.send, with nothing sent. *)
Theorem stream_commands_alternate :
  (forall ops c,
      DataLink.webSocket c = DataLink.Socket ->
      DataLink.readyState c = DataLink.OPEN ->
      DataLink.mode c = Some DataLink.QUERY_MODE
      \/ DataLink.mode c = Some DataLink.STREAM_MODE ->
      exists n c',
        run_stream_ops ops c = (Ok tt, c')
        /\ (n <= List.length ops)%nat
        /\ DataLink.sent c'
           = DataLink.sent c ++ alternating (DataLink.mode_is DataLink.STREAM_MODE c) n
        /\ DataLink.webSocket c' = DataLink.Socket
        /\ DataLink.mode c'
           = Some (if xorb (DataLink.mode_is DataLink.STREAM_MODE c) (Nat.odd n)
                   then DataLink.STREAM_MODE else DataLink.QUERY_MODE)
        /\ DataLink.closes c' = DataLink.closes c)
  /\ (forall c,
         DataLink.webSocket c = DataLink.Socket ->
         DataLink.readyState c = DataLink.OPEN ->
         DataLink.mode c = Some DataLink.QUERY_MODE
         \/ DataLink.mode c = Some DataLink.STREAM_MODE ->
         exists c',
           DataLink.close c = (Ok tt, c')
           /\ DataLink.sent c'
              = DataLink.sent c
                ++ (if DataLink.mode_is DataLink.STREAM_MODE c
                    then [endstream_packet] else [])
           /\ DataLink.closes c' = S (DataLink.closes c)
           /\ DataLink.webSocket c' = DataLink.Null
           /\ DataLink.mode c' = None
           /\ DataLink.isConnected c' = false
           /\ DataLink.close c' = (Ok tt, c')
           /\ DataLink.endStream c' = (Ok tt, c')
           /\ exists c'', DataLink.stream c' = (Throw "WebSocket has been closed.", c'')
                          /\ DataLink.sent c'' = DataLink.sent c')
  /\ (forall c,
         DataLink.webSocket c = DataLink.Socket ->
         DataLink.readyState c = DataLink.CONNECTING ->
         DataLink.mode c = Some DataLink.QUERY_MODE ->
         DataLink.stream c
         = (Throw "InvalidStateError", DataLink.with_mode (Some DataLink.STREAM_MODE) c)).
Proof.
  split; [exact run_stream_ops_alternate|]. split.
  - intros c Hs Hr Hm. rewrite (close_connected c Hs Hr Hm). eexists.
    split; [reflexivity|].
    cbn [DataLink.sent DataLink.closes DataLink.webSocket DataLink.mode DataLink.isConnected].
    do 7 (split; [reflexivity|]).
    unfold DataLink.stream, bind, gets, modify, DataLink.mode_is.
    cbn [DataLink.mode].
    rewrite sendDLCommand_no_socket by (cbn; discriminate).
    eexists. split; reflexivity.
  - intros c Hs Hr Hm. unfold DataLink.stream, bind, gets, modify, DataLink.mode_is.
    rewrite Hm.
    cbn [String.eqb DataLink.STREAM_MODE DataLink.QUERY_MODE Ascii.eqb Bool.eqb andb].
    rewrite sendDLCommand_connecting; [reflexivity|exact Hs|exact Hr].
Qed.

Lemma stream_commands_alternate_witness :
  let c := DataLink.with_readyState DataLink.OPEN
             (DataLink.with_webSocket DataLink.Socket (DataLink.new true true)) in
  exists c',
    run_stream_ops [DoStream; DoStream; DoEndStream; DoEndStream; DoStream] c = (Ok tt, c')
    /\ DataLink.sent c' = [stream_packet; endstream_packet; stream_packet]
    /\ DataLink.mode c' = Some DataLink.STREAM_MODE.
Proof.
  intros c.
  destruct (proj1 stream_commands_alternate
              [DoStream; DoStream; DoEndStream; DoEndStream; DoStream] c eq_refl eq_refl
              (or_introl eq_refl)) as [n [c' [Hr _]]].
  exists c'. split; [exact Hr|].
  vm_compute in Hr. inv Hr. split; reflexivity.
Defined.

(** X24.  A connection that was never connected reports isConnected()
    true.  stream() without a socket throws "WebSocket has been closed."
    after it has set the mode to STREAM, and sends nothing; every later
    stream() returns without sending, whatever webSocket has become.
    endStream() on a never connected connection in STREAM mode throws
    after it has set the mode to QUERY, and close() does nothing. *)
Theorem stream_before_connect_is_remembered :
  (forall p e, DataLink.isConnected (DataLink.new p e) = true)
  /\ (forall c,
         DataLink.webSocket c <> DataLink.Socket ->
         DataLink.mode_is DataLink.STREAM_MODE c = false ->
         exists c',
           DataLink.stream c = (Throw "WebSocket has been closed.", c')
           /\ DataLink.mode c' = Some DataLink.STREAM_MODE
           /\ DataLink.sent c' = DataLink.sent c
           /\ forall slot,
               DataLink.stream (DataLink.with_webSocket slot c')
               = (Ok tt, DataLink.with_webSocket slot c'))
  /\ (forall c,
         DataLink.webSocket c = DataLink.Unassigned ->
         DataLink.mode c = Some DataLink.STREAM_MODE ->
         exists c',
           DataLink.endStream c = (Throw "WebSocket has been closed.", c')
           /\ DataLink.mode c' = Some DataLink.QUERY_MODE
           /\ DataLink.close c = (Ok tt, c)).
Proof.
  split; [reflexivity|]. split.
  - intros c Hs Hm. unfold DataLink.stream, bind, gets, modify. rewrite Hm.
    rewrite sendDLCommand_no_socket by exact Hs.
    eexists. split; [reflexivity|]. split; [reflexivity|]. split; [reflexivity|].
    intros slot. reflexivity.
  - intros c Hs Hm. unfold DataLink.endStream, DataLink.close, bind, gets, modify.
    rewrite Hs, Hm.
    cbn [String.eqb DataLink.STREAM_MODE DataLink.QUERY_MODE Ascii.eqb Bool.eqb andb].
    rewrite sendDLCommand_no_socket by (cbn; rewrite Hs; discriminate).
    eexists. split; [reflexivity|]. split; reflexivity.
Qed.

Lemma stream_before_connect_is_remembered_witness :
  exists c',
    DataLink.stream (DataLink.new true true) = (Throw "WebSocket has been closed.", c')
    /\ DataLink.stream (DataLink.with_webSocket DataLink.Socket c')
       = (Ok tt, DataLink.with_webSocket DataLink.Socket c')
    /\ DataLink.sent c' = [].
Proof.
  destruct (proj1 (proj2 stream_before_connect_is_remembered) (DataLink.new true true))
    as [c' [H1 [_ [H3 H4]]]].
  - discriminate.
  - reflexivity.
  - exists c'. split; [exact H1|]. split; [apply H4|exact H3].
Defined.

End ConnectionModes.

(** ** Minimum and maximum of a list of display data *)

Section DisplayDataMinMax.

Context {MarkerType Channel InstrumentSensitivity Quake : Type}.
Variable meanOfSlice : TypedArray -> Z -> Q.

Lemma Qlt_bool_true p v : Qlt_bool p v = true <-> (p < v)%Q.
Proof.
  unfold Qlt_bool. rewrite negb_true_iff. split.
  - intros H. apply Qnot_le_lt. intros Hle. apply Qle_bool_iff in Hle. congruence.
  - intros H. apply not_true_is_false. intros Hle. apply Qle_bool_iff in Hle.
    exact (Qlt_not_le _ _ H Hle).
Qed.

Lemma Qlt_bool_false p v : Qlt_bool p v = false <-> (v <= p)%Q.
Proof.
  unfold Qlt_bool. rewrite negb_false_iff. apply Qle_bool_iff.
Qed.

Lemma fold_least r : forall x,
  let m := fold_left (fun p v => if Qlt_bool p v then p else v) r x in
  Forall (fun v => (m <= v)%Q) (x :: r) /\ In m (x :: r).
Proof.
  induction r as [|v r IH]; intros x; cbn [fold_left].
  - split; [constructor; [apply Qle_refl|constructor]|left; reflexivity].
  - cbv zeta in IH |- *.
    destruct (IH (if Qlt_bool x v then x else v)) as [Hall Hin].
    inversion Hall as [|? ? Hhd Htl]; subst.
    destruct (Qlt_bool x v) eqn:E.
    + apply Qlt_bool_true in E. split.
      * constructor; [exact Hhd|]. constructor; [|exact Htl].
        eapply Qle_trans; [exact Hhd|apply Qlt_le_weak; exact E].
      * destruct Hin as [Hin|Hin]; [left; exact Hin|right; right; exact Hin].
    + apply Qlt_bool_false in E. split.
      * constructor; [eapply Qle_trans; [exact Hhd|exact E]|].
        constructor; [exact Hhd|exact Htl].
      * destruct Hin as [Hin|Hin]; [right; left; exact Hin|right; right; exact Hin].
Qed.

Lemma fold_greatest r : forall x,
  let m := fold_left (fun p v => if Qlt_bool v p then p else v) r x in
  Forall (fun v => (v <= m)%Q) (x :: r) /\ In m (x :: r).
Proof.
  induction r as [|v r IH]; intros x; cbn [fold_left].
  - split; [constructor; [apply Qle_refl|constructor]|left; reflexivity].
  - cbv zeta in IH |- *.
    destruct (IH (if Qlt_bool v x then x else v)) as [Hall Hin].
    inversion Hall as [|? ? Hhd Htl]; subst.
    destruct (Qlt_bool v x) eqn:E.
    + apply Qlt_bool_true in E. split.
      * constructor; [exact Hhd|]. constructor; [|exact Htl].
        eapply Qle_trans; [apply Qlt_le_weak; exact E|exact Hhd].
      * destruct Hin as [Hin|Hin]; [left; exact Hin|right; right; exact Hin].
    + apply Qlt_bool_false in E. split.
      * constructor; [eapply Qle_trans; [exact E|exact Hhd]|].
        constructor; [exact Hhd|exact Htl].
      * destruct Hin as [Hin|Hin]; [right; left; exact Hin|right; right; exact Hin].
Qed.

Lemma traverse_stat (f : SeismogramDisplayStats.t -> Q)
      (l : list (SDD.t MarkerType Channel InstrumentSensitivity Quake)) stats :
  Forall2 (fun d st => fst (SDD.cached_stats meanOfSlice d) = Ok st) l stats ->
  exists l',
    traverse (bind (SDD.cached_stats meanOfSlice) (fun st => ret (f st))) l
    = (Ok (map f stats), l')
    /\ Forall2 (fun d st => fst (SDD.cached_stats meanOfSlice d) = Ok st) l' stats.
Proof.
  induction 1 as [|d st l stats Hd _ [l' [IH1 IH2]]].
  - exists []. split; [reflexivity|constructor].
  - cbn [traverse map]. unfold bind at 1.
    destruct (SDD.cached_stats meanOfSlice d) as [r d'] eqn:E. cbn [fst] in Hd. subst r.
    unfold ret at 1. rewrite IH1.
    exists (d' :: l'). split; [reflexivity|]. constructor; [|exact IH2].
    rewrite (cached_stats_hit meanOfSlice d' st (cached_stats_fills meanOfSlice d d' st E)).
    reflexivity.
Qed.

(** X25.  findMinMax of a list of display data objects throws for an
    empty list.  For a non-empty list whose statistics can all be
    computed it returns the least of the minima and the greatest of the
    maxima. *)
Theorem findMinMax_of_display_data :
  (exists e,
      fst (SDD.findMinMax meanOfSlice
             (@nil (SDD.t MarkerType Channel InstrumentSensitivity Quake))) = Throw e)
  /\ (forall (sddList : list (SDD.t MarkerType Channel InstrumentSensitivity Quake)) stats,
         sddList <> [] ->
         Forall2 (fun d st => fst (SDD.cached_stats meanOfSlice d) = Ok st) sddList stats ->
         exists mn mx,
           fst (SDD.findMinMax meanOfSlice sddList) = Ok (mn, mx)
           /\ Forall (fun st => (mn <= SeismogramDisplayStats.min st)%Q
                                /\ (SeismogramDisplayStats.max st <= mx)%Q) stats
           /\ Exists (fun st => mn = SeismogramDisplayStats.min st) stats
           /\ Exists (fun st => mx = SeismogramDisplayStats.max st) stats).
Proof.
  split; [eexists; reflexivity|].
  intros sddList stats Hne H.
  destruct (traverse_stat SeismogramDisplayStats.min sddList stats H) as [l1 [T1 H1]].
  destruct (traverse_stat SeismogramDisplayStats.max l1 stats H1) as [l2 [T2 _]].
  unfold SDD.findMinMax. unfold SDD.min, SDD.max. rewrite T1.
  destruct stats as [|st0 stats]; [inversion H; subst; congruence|].
  cbn [map reduce]. rewrite T2. cbn [map reduce fst].
  destruct (fold_least (map SeismogramDisplayStats.min stats)
                       (SeismogramDisplayStats.min st0)) as [L1 L2].
  destruct (fold_greatest (map SeismogramDisplayStats.max stats)
                          (SeismogramDisplayStats.max st0)) as [G1 G2].
  cbv zeta in L1, L2, G1, G2.
  eexists. eexists. split; [reflexivity|].
  change (SeismogramDisplayStats.min st0 :: map SeismogramDisplayStats.min stats)
    with (map SeismogramDisplayStats.min (st0 :: stats)) in L1, L2.
  change (SeismogramDisplayStats.max st0 :: map SeismogramDisplayStats.max stats)
    with (map SeismogramDisplayStats.max (st0 :: stats)) in G1, G2.
  split; [|split].
  - apply Forall_forall. intros st Hst.
    rewrite Forall_forall in L1, G1.
    split; [apply L1|apply G1]; apply in_map; exact Hst.
  - exact (In_map_Exists SeismogramDisplayStats.min _ _ L2).
  - exact (In_map_Exists SeismogramDisplayStats.max _ _ G2).
Qed.

End DisplayDataMinMax.

Lemma findMinMax_of_display_data_witness :
  let meanOfSlice := fun (a : TypedArray) (n : Z) => (Qsum (ta_data a) / inject_Z n)%Q in
  let d1 : SDD.t unit unit unit unit :=
    SDD.fromSeismogram (Seismogram.mkSeismogram [example_first] 1000 1100 None) in
  let d2 : SDD.t unit unit unit unit :=
    SDD.fromSeismogram (Seismogram.mkSeismogram [example_one_period_later] 1150 1200 None) in
  exists mn mx,
    fst (SDD.findMinMax meanOfSlice [d1; d2]) = Ok (mn, mx)
    /\ mn = 1%Q /\ mx = 5%Q.
Proof.
  intros meanOfSlice d1 d2.
  pose (stats_of := fun d : SDD.t unit unit unit unit =>
                      match fst (SDD.cached_stats meanOfSlice d) with
                      | Ok st => st
                      | Throw _ => SeismogramDisplayStats.new
                      end).
  destruct (proj2 (findMinMax_of_display_data meanOfSlice) [d1; d2]
              [stats_of d1; stats_of d2])
    as [mn [mx [H _]]].
  - discriminate.
  - constructor; [vm_compute; reflexivity|].
    constructor; [vm_compute; reflexivity|constructor].
  - exists mn, mx. split; [exact H|]. vm_compute in H. inv H. split; reflexivity.
Defined.
